(** * Human-interaction simulation and throttling engine: a shallow embedding

    The development follows the Go packages [stealth] (mouse paths,
    keystrokes, scrolling, delays) and [connection] (the quota tracker of
    the connection manager).  Go values are modelled as the program has
    them:

    - [int] and [time.Duration] are 64-bit two's-complement integers,
      carried in [Z] with the wrap-around written out ([wrap64]);
    - [float64] is IEEE-754 binary64, carried in [spec_float] with the
      operations of [SpecFloat] at precision 53 and exponent bound 1024;
    - [*rand.Rand] is an oracle: a tape of draws and a cursor, threaded
      through the generators by a state-and-panic monad;
    - [time.Time] is the civil reading of an instant in its location. *)

From Stdlib Require Import ZArith List Bool Lia String Ascii SpecFloat.
From ExtLib Require Import Structures.Monad.
Import ListNotations.
Import MonadNotation.
Local Open Scope Z_scope.
Local Open Scope monad_scope.

(* ===================================================================== *)
(** * Part I.  The model                                                   *)
(* ===================================================================== *)

(** ** Go integers *)

Definition min_int64 : Z := - 2 ^ 63.
Definition max_int64 : Z := 2 ^ 63 - 1.

(** Two's-complement wrap-around of a mathematical integer to [int]. *)
Definition wrap64 (z : Z) : Z := (z + 2 ^ 63) mod 2 ^ 64 - 2 ^ 63.

Definition add64 (a b : Z) : Z := wrap64 (a + b).
Definition sub64 (a b : Z) : Z := wrap64 (a - b).
Definition mul64 (a b : Z) : Z := wrap64 (a * b).
Definition neg64 (a : Z) : Z := wrap64 (- a).
(** Go's [/] on integers truncates toward zero; the callers below never
    divide by zero. *)
Definition quot64 (a b : Z) : Z := wrap64 (Z.quot a b).
(** [1 << uint(k)] and [x << 1] at type [int64]: bits shifted past bit 63
    are lost, a shift count of 64 or more gives 0. *)
Definition shl64 (a : Z) (k : Z) : Z :=
  if 64 <=? k then 0 else wrap64 (Z.shiftl a k).
(** [uint(k)] of an [int]. *)
Definition uint64_of_int (k : Z) : Z := k mod 2 ^ 64.

Definition in_int64 (z : Z) : Prop := min_int64 <= z <= max_int64.

(** ** Go float64 *)

Definition prec : Z := 53.
Definition emax : Z := 1024.

Definition float64 := spec_float.

Declare Scope f64_scope.
Delimit Scope f64_scope with f64.
Bind Scope f64_scope with float64.

Definition fadd : float64 -> float64 -> float64 := SFadd prec emax.
Definition fsub : float64 -> float64 -> float64 := SFsub prec emax.
Definition fmul : float64 -> float64 -> float64 := SFmul prec emax.
Definition fdiv : float64 -> float64 -> float64 := SFdiv prec emax.
Definition fneg : float64 -> float64 := SFopp.
Definition feqb : float64 -> float64 -> bool := SFeqb.
Definition fltb : float64 -> float64 -> bool := SFltb.
Definition fleb : float64 -> float64 -> bool := SFleb.

Notation "x + y" := (fadd x y) : f64_scope.
Notation "x - y" := (fsub x y) : f64_scope.
Notation "x * y" := (fmul x y) : f64_scope.
Notation "x / y" := (fdiv x y) : f64_scope.
Notation "- x" := (fneg x) : f64_scope.
Notation "x == y" := (feqb x y) (at level 70, no associativity) : f64_scope.
Notation "x <? y" := (fltb x y) : f64_scope.
Notation "x <=? y" := (fleb x y) : f64_scope.

(** [float64(n)] for an [int] (or [time.Duration]) [n]: round to nearest,
    ties to even. *)
Definition float64_of_int (n : Z) : float64 := binary_normalize prec emax n 0 false.

(** A decimal constant [num/den] of the program text, rounded once to the
    nearest float64 as the Go compiler does ([0.3] is [lit 3 10]). *)
Definition lit (num den : Z) : float64 :=
  (float64_of_int num / float64_of_int den)%f64.

Definition f0 : float64 := S754_zero false.
Definition f1 : float64 := float64_of_int 1.
Definition NaN : float64 := S754_nan.
Definition Inf (neg : bool) : float64 := S754_infinity neg.

Definition IsNaN (x : float64) : bool :=
  match x with S754_nan => true | _ => false end.
Definition IsInf (x : float64) : bool :=
  match x with S754_infinity _ => true | _ => false end.
Definition Signbit (x : float64) : bool :=
  match x with
  | S754_zero s | S754_infinity s | S754_finite s _ _ => s
  | S754_nan => false
  end.

(** [int(x)] and [time.Duration(x)] for a float64 [x]: the fraction is
    discarded (truncation toward zero).  When the value does not fit, Go
    leaves the result to the implementation; the model takes amd64, where
    CVTTSD2SQ answers the "integer indefinite" value [min_int64]. *)
Definition int_of_float64 (x : float64) : Z :=
  match x with
  | S754_zero _ => 0
  | S754_finite s m e =>
      let a := if 0 <=? e then Z.pos m * 2 ^ e else Z.pos m / 2 ^ (- e) in
      let v := if s then - a else a in
      if (min_int64 <=? v) && (v <=? max_int64) then v else min_int64
  | S754_infinity _ | S754_nan => min_int64
  end.

Definition Abs : float64 -> float64 := SFabs.
Definition Sqrt : float64 -> float64 := SFsqrt prec emax.
Definition Frexp (x : float64) : float64 * Z :=
  match x with
  | S754_finite _ _ _ => SFfrexp prec emax x
  | _ => (x, 0)
  end.
Definition Ldexp : float64 -> Z -> float64 := SFldexp prec emax.

(** ** math.Pow

    The program raises floats to integer-valued exponents only
    ([Pow(d, 2)], [Pow(t, float64(k))], [Pow(1-t, float64(n-k))],
    [Pow(1-t, 3)]).  The model follows the Go library for them: the
    documented special cases in their order, then squaring and multiplying
    on the fraction and exponent given by [Frexp].  For an exponent with a
    fractional part Go goes through [Exp] and [Log]; the model answers
    [NaN] there, and no call of the program reaches it. *)

(** Integer part of [|y|], and whether a fractional part is left. *)
Definition Modf_abs (y : float64) : Z * bool :=
  match y with
  | S754_finite _ m e =>
      if 0 <=? e then (Z.pos m * 2 ^ e, false)
      else (Z.pos m / 2 ^ (- e), negb (Z.pos m mod 2 ^ (- e) =? 0))
  | _ => (0, false)
  end.

Definition isOddInt (y : float64) : bool :=
  let '(yi, frac) := Modf_abs y in
  negb frac && (yi <? 2 ^ 53) && Z.odd yi.

Fixpoint pow_loop (fuel : nat) (i : Z) (x1 : float64) (xe : Z)
    (a1 : float64) (ae : Z) : float64 * Z :=
  match fuel with
  | O => (a1, ae)
  | S fuel' =>
      if i =? 0 then (a1, ae)
      else if (xe <? - 4096) || (4096 <? xe) then (a1, add64 ae xe)
      else
        let '(a1, ae) :=
          if Z.odd i then ((a1 * x1)%f64, add64 ae xe) else (a1, ae) in
        let x1 := (x1 * x1)%f64 in
        let xe := shl64 xe 1 in
        let '(x1, xe) :=
          if (x1 <? lit 5 10)%f64 then ((x1 + x1)%f64, sub64 xe 1) else (x1, xe) in
        pow_loop fuel' (Z.shiftr i 1) x1 xe a1 ae
  end.

Definition Pow (x y : float64) : float64 :=
  if (y == f0)%f64 || (x == f1)%f64 then f1
  else if (y == f1)%f64 then x
  else if IsNaN x || IsNaN y then NaN
  else if (x == f0)%f64 then
    if (y <? f0)%f64 then
      if Signbit x && isOddInt y then Inf true else Inf false
    else
      if Signbit x && isOddInt y then x else f0
  else if IsInf y then
    if (x == - f1)%f64 then f1
    else if Bool.eqb (Abs x <? f1)%f64 (negb (Signbit y)) then f0
    else Inf false
  else if IsInf x then
    if Signbit x then
      (* Pow(1/x, -y), that is Pow(-0, -y) *)
      if (f0 <? y)%f64 then
        if isOddInt y then Inf true else Inf false
      else
        if isOddInt y then S754_zero true else f0
    else if (y <? f0)%f64 then f0 else Inf false
  else if (y == lit 5 10)%f64 then Sqrt x
  else if (y == - lit 5 10)%f64 then (f1 / Sqrt x)%f64
  else
    let '(yi, frac) := Modf_abs y in
    if frac then NaN
    else if 2 ^ 63 <=? yi then
      if (x == - f1)%f64 then f1
      else if Bool.eqb (Abs x <? f1)%f64 (f0 <? y)%f64 then f0
      else Inf false
    else
      let '(x1, xe) := Frexp x in
      let '(a1, ae) := pow_loop 64 yi x1 xe f1 0 in
      let '(a1, ae) := if (y <? f0)%f64 then ((f1 / a1)%f64, neg64 ae) else (a1, ae) in
      Ldexp a1 ae.

(** ** The random source

    [*rand.Rand] is modelled as an oracle.  Each call consumes one entry of
    the tape: an integer draw takes the entry's [raw] value modulo the
    bound, [Float64] takes the entry's [unit] value.  Quantifying over the
    tape quantifies over every stream the generator can produce. *)

Record draw : Type := mkDraw { raw : Z; unit : float64 }.

Record Rand : Type := mkRand { tape : nat -> draw; cursor : nat }.

Definition advance (r : Rand) : Rand :=
  {| tape := tape r; cursor := S (cursor r) |}.

Definition current (r : Rand) : draw := tape r (cursor r).

(** A run either returns a value or panics (a Go run-time panic).  Loops
    whose bound is not syntactic run on fuel; [OutOfFuel] marks a run the
    fuel did not cover, and the theorems show that it never occurs. *)
Inductive result (A : Type) : Type :=
| Ok (a : A)
| Panic (msg : string)
| OutOfFuel.
Arguments Ok {A} a.
Arguments Panic {A} msg.
Arguments OutOfFuel {A}.

(** Computations that draw from the random source and may panic. *)
Definition Gen (A : Type) : Type := Rand -> result (A * Rand).

#[global] Instance Monad_Gen : Monad Gen :=
  {| ret := fun A (a : A) (r : Rand) => Ok (a, r);
     bind := fun A B (c : Gen A) (k : A -> Gen B) (r : Rand) =>
       match c r with
       | Ok (a, r') => k a r'
       | Panic msg => Panic msg
       | OutOfFuel => OutOfFuel
       end |}.

Definition panic {A : Type} (msg : string) : Gen A := fun _ => Panic msg.

(** [r.Intn(n)]: a value in [[0, n)]; panics when [n <= 0]. *)
Definition Intn (n : Z) : Gen Z := fun r =>
  if n <=? 0 then Panic "invalid argument to Intn"
  else Ok (raw (current r) mod n, advance r).

(** [r.Int63n(n)]: a value in [[0, n)]; panics when [n <= 0]. *)
Definition Int63n (n : Z) : Gen Z := fun r =>
  if n <=? 0 then Panic "invalid argument to Int63n"
  else Ok (raw (current r) mod n, advance r).

(** [r.Float64()]: a value in [[0.0, 1.0)]. *)
Definition Float64 : Gen float64 := fun r => Ok (unit (current r), advance r).

(** The contract of [Float64]: every float on the tape is a binary64 value
    in the half-open unit interval. *)
Definition unit_interval (u : float64) : Prop :=
  valid_binary prec emax u = true /\ (f0 <=? u)%f64 = true /\ (u <? f1)%f64 = true.

Definition Rand_ok (r : Rand) : Prop := forall i, unit_interval (unit (tape r i)).

(** ** time.Time and time.Duration

    A [Time] is read through its civil fields in its own location, which is
    how [checkAndResetCounts] reads it ([Day()], [Hour()]). *)

Record Time : Type := mkTime {
  Year : Z; Month : Z; Day : Z;
  Hour : Z; Minute : Z; Second : Z; Nanosecond : Z
}.

Definition Duration := Z.
Definition Millisecond : Duration := 1000000.

Definition leap_year (y : Z) : bool :=
  ((y mod 4 =? 0) && negb (y mod 100 =? 0)) || (y mod 400 =? 0).

Definition days_in_month (y m : Z) : Z :=
  if m =? 2 then (if leap_year y then 29 else 28)
  else if (m =? 4) || (m =? 6) || (m =? 9) || (m =? 11) then 30
  else 31.

(** The civil fields of a real instant. *)
Definition valid_time (t : Time) : Prop :=
  1 <= Month t <= 12 /\ 1 <= Day t <= days_in_month (Year t) (Month t) /\
  0 <= Hour t < 24 /\ 0 <= Minute t < 60 /\ 0 <= Second t < 60 /\
  0 <= Nanosecond t < 1000000000.

(** Two instants of one calendar day. *)
Definition same_calendar_day (a b : Time) : Prop :=
  Year a = Year b /\ Month a = Month b /\ Day a = Day b.

(** The calendar date that follows the date of [t]. *)
Definition next_date (t : Time) : Z * Z * Z :=
  if Day t <? days_in_month (Year t) (Month t) then (Year t, Month t, Day t + 1)
  else if Month t <? 12 then (Year t, Month t + 1, 1)
  else (Year t + 1, 1, 1).

(** [b] lies on the calendar day after the day of [a]: a day rollover. *)
Definition day_rollover (a b : Time) : Prop :=
  (Year b, Month b, Day b) = next_date a.

(** ** The quota tracker of the connection manager (package connection) *)

Record RateLimitConfig : Type := mkRateLimitConfig {
  DailyConnectionLimit : Z;
  HourlyConnectionLimit : Z;
  DailyMessageLimit : Z;
  HourlyMessageLimit : Z;
  DailySearchLimit : Z;
  CooldownPeriod : Duration;
  BreakInterval : Duration;
  BreakDuration : Duration
}.

(** The fields of [ConnectionManager] that the quota code reads and writes;
    the browser, storage, timing and logger handles play no part in it. *)
Record ConnectionManager : Type := mkConnectionManager {
  config : RateLimitConfig;
  dailyCount : Z;
  hourlyCount : Z;
  lastReset : Time
}.

(** [New]: counters at zero, stamped with the construction time. *)
Definition New (cfg : RateLimitConfig) (now : Time) : ConnectionManager :=
  {| config := cfg; dailyCount := 0; hourlyCount := 0; lastReset := now |}.

(** [checkAndResetCounts]; [now] is the value of [time.Now()]. *)
Definition checkAndResetCounts (now : Time) (c : ConnectionManager) : ConnectionManager :=
  if negb (Day now =? Day (lastReset c)) then
    {| config := config c; dailyCount := 0; hourlyCount := 0; lastReset := now |}
  else if negb (Hour now =? Hour (lastReset c)) then
    {| config := config c; dailyCount := dailyCount c; hourlyCount := 0; lastReset := now |}
  else c.

(** [canSendConnection]: the answer and the manager it leaves behind (the
    warnings it logs are not part of the state). *)
Definition canSendConnection (now : Time) (c : ConnectionManager) : bool * ConnectionManager :=
  let c := checkAndResetCounts now c in
  if DailyConnectionLimit (config c) <=? dailyCount c then (false, c)
  else if HourlyConnectionLimit (config c) <=? hourlyCount c then (false, c)
  else (true, c).

Definition incrementCount (c : ConnectionManager) : ConnectionManager :=
  {| config := config c;
     dailyCount := add64 (dailyCount c) 1;
     hourlyCount := add64 (hourlyCount c) 1;
     lastReset := lastReset c |}.

Definition GetRemainingQuota (now : Time) (c : ConnectionManager) : (Z * Z) * ConnectionManager :=
  let c := checkAndResetCounts now c in
  let daily := sub64 (DailyConnectionLimit (config c)) (dailyCount c) in
  let hourly := sub64 (HourlyConnectionLimit (config c)) (hourlyCount c) in
  ((daily, hourly), c).

(** A driver's use of the tracker: the calls it makes, in order. *)
Inductive call : Type :=
| CallIncrement
| CallCanSend (now : Time)
| CallQuota (now : Time).

Definition perform (c : ConnectionManager) (k : call) : ConnectionManager :=
  match k with
  | CallIncrement => incrementCount c
  | CallCanSend now => snd (canSendConnection now c)
  | CallQuota now => snd (GetRemainingQuota now c)
  end.

Definition run_calls (ks : list call) (c : ConnectionManager) : ConnectionManager :=
  fold_left perform ks c.

Definition is_increment (k : call) : bool :=
  match k with CallIncrement => true | _ => false end.

(** The number of [incrementCount] calls among the calls. *)
Definition increments (ks : list call) : Z :=
  Z.of_nat (List.length (filter is_increment ks)).

(** The instant at which a call reads the clock, if it reads it. *)
Definition call_time (k : call) : option Time :=
  match k with
  | CallIncrement => None
  | CallCanSend now | CallQuota now => Some now
  end.

(** Every clock reading of the calls falls on the calendar day of [t]. *)
Definition within_day (t : Time) (ks : list call) : Prop :=
  Forall (fun k => match call_time k with
                   | Some now => same_calendar_day t now
                   | None => True
                   end) ks.

(** ** Slices *)

(** [s[i] = v] on a slice, for an index in range. *)
Fixpoint set_nth {A : Type} (i : nat) (v : A) (s : list A) : list A :=
  match s, i with
  | [], _ => []
  | _ :: s', O => v :: s'
  | x :: s', S i' => x :: set_nth i' v s'
  end.

(** The indices [0, 1, ..., n-1] of a counting loop, as Go integers. *)
Definition indices (n : nat) : list Z := map Z.of_nat (seq 0 n).

(** ** Scrolling (pkg/stealth/scrolling.go) *)

Record ScrollingConfig : Type := mkScrollingConfig {
  scroll_Enabled : bool;
  MinScrollSpeed : Z;
  MaxScrollSpeed : Z;
  ScrollBackChance : float64;
  PauseChance : float64;
  SmoothScrolling : bool
}.

Record ScrollAction : Type := mkScrollAction {
  Delta : Z;
  action_Duration : Duration;
  Direction : string
}.

Section Scrolling.

Variable cfg : ScrollingConfig.

Definition calculateScrollDuration (distance : Z) : Gen Duration :=
  if SmoothScrolling cfg then
    let baseDuration := (float64_of_int distance / lit 2 1)%f64 in
    r <- Float64 ;;
    let variation := (baseDuration * lit 3 10 * (r * lit 2 1 - f1))%f64 in
    ret (mul64 (int_of_float64 (baseDuration + variation)%f64) Millisecond)
  else
    n <- Intn 100 ;;
    ret (mul64 (add64 50 n) Millisecond).

Definition calculateScrollAmount (remaining speed : Z) : Gen Z :=
  n <- Intn (quot64 speed 2) ;;
  let baseAmount := add64 speed n in
  r <- Float64 ;;
  let variation :=
    (float64_of_int baseAmount * lit 2 10 * (r * lit 2 1 - f1))%f64 in
  let amount := int_of_float64 (float64_of_int baseAmount + variation)%f64 in
  let amount := if remaining <? amount then remaining else amount in
  let amount := if amount <? 10 then 10 else amount in
  ret amount.

(** One turn of the [for remaining > 0] loop: the actions it appends and
    the distance that remains. *)
Definition scroll_turn (remaining : Z) : Gen (list ScrollAction * Z) :=
  n <- Intn (add64 (sub64 (MaxScrollSpeed cfg) (MinScrollSpeed cfg)) 1) ;;
  let speed := add64 (MinScrollSpeed cfg) n in
  scrollAmount <- calculateScrollAmount remaining speed ;;
  back <-
    (if mul64 scrollAmount 2 <? remaining then
       r <- Float64 ;;
       if (r <? ScrollBackChance cfg)%f64 then
         let backAmount := quot64 scrollAmount 3 in
         d <- calculateScrollDuration backAmount ;;
         ret [ {| Delta := backAmount; action_Duration := d; Direction := "up" |} ]
       else ret []
     else ret []) ;;
  d <- calculateScrollDuration scrollAmount ;;
  let forward :=
    {| Delta := scrollAmount; action_Duration := d; Direction := "down" |} in
  let remaining := sub64 remaining scrollAmount in
  r <- Float64 ;;
  pause <-
    (if (r <? PauseChance cfg)%f64 then
       n <- Intn 2000 ;;
       ret [ {| Delta := 0;
                action_Duration := mul64 (add64 500 n) Millisecond;
                Direction := "pause" |} ]
     else ret []) ;;
  ret (back ++ [forward] ++ pause, remaining).

Fixpoint scroll_loop (fuel : nat) (actions : list ScrollAction) (remaining : Z)
    : Gen (list ScrollAction) :=
  if 0 <? remaining then
    match fuel with
    | O => fun _ => OutOfFuel
    | S fuel' =>
        '(more, remaining') <- scroll_turn remaining ;;
        scroll_loop fuel' (actions ++ more) remaining'
    end
  else ret actions.

(** Every turn takes at least 10 off the remaining distance, so the loop
    makes at most [totalDistance] turns. *)
Definition GenerateScrollSequence (totalDistance : Z) : Gen (list ScrollAction) :=
  if negb (scroll_Enabled cfg) then
    ret [ {| Delta := totalDistance; action_Duration := 0; Direction := "down" |} ]
  else
    scroll_loop (Z.to_nat totalDistance) [] totalDistance.

(** The body of the loop of [GenerateSmoothScrollSteps] at index [i]. *)
Definition smooth_step (totalDelta : Z) (numSteps : Z) (i : Z)
    (st : list Z * Z) : Gen (list Z * Z) :=
  let '(steps, remaining) := st in
  let t := (float64_of_int i / float64_of_int (sub64 numSteps 1))%f64 in
  let eased := (f1 - Pow (f1 - t) (lit 3 1))%f64 in
  if i =? sub64 numSteps 1 then
    ret (set_nth (Z.to_nat i) remaining steps, remaining)
  else
    let step :=
      int_of_float64
        (float64_of_int totalDelta *
         (eased - float64_of_int (sub64 totalDelta remaining)
                  / float64_of_int totalDelta))%f64 in
    r <- Float64 ;;
    let variation :=
      int_of_float64 (float64_of_int step * lit 1 10 * (r * lit 2 1 - f1))%f64 in
    let step := add64 step variation in
    let step :=
      if (remaining <? step) && (0 <? remaining) then remaining else step in
    let step :=
      if (step <? neg64 remaining) && (remaining <? 0) then neg64 remaining
      else step in
    ret (set_nth (Z.to_nat i) step steps, sub64 remaining step).

Fixpoint smooth_loop (totalDelta numSteps : Z) (todo : list Z)
    (st : list Z * Z) : Gen (list Z * Z) :=
  match todo with
  | [] => ret st
  | i :: todo' =>
      st' <- smooth_step totalDelta numSteps i st ;;
      smooth_loop totalDelta numSteps todo' st'
  end.

Definition smooth_numSteps (totalDelta : Z) : Z :=
  let numSteps :=
    int_of_float64 (Abs (float64_of_int totalDelta) / lit 20 1)%f64 in
  let numSteps := if numSteps <? 5 then 5 else numSteps in
  if 50 <? numSteps then 50 else numSteps.

Definition GenerateSmoothScrollSteps (totalDelta : Z) : Gen (list Z) :=
  if negb (SmoothScrolling cfg) then ret [totalDelta]
  else
    let numSteps := smooth_numSteps totalDelta in
    let steps := repeat 0 (Z.to_nat numSteps) in
    '(steps, _) <- smooth_loop totalDelta numSteps
                     (indices (Z.to_nat numSteps)) (steps, totalDelta) ;;
    ret steps.

End Scrolling.

(** The signed delta of an action: forward counts positive, reverse
    negative, a pause nothing. *)
Definition signed_delta (a : ScrollAction) : Z :=
  if String.eqb (Direction a) "down" then Delta a
  else if String.eqb (Direction a) "up" then - Delta a
  else 0.

Definition signed_sum (actions : list ScrollAction) : Z :=
  fold_right (fun a acc => signed_delta a + acc) 0 actions.

(** The sum of the deltas of the actions of one direction. *)
Definition direction_sum (dir : string) (actions : list ScrollAction) : Z :=
  fold_right (fun a acc => (if String.eqb (Direction a) dir then Delta a else 0) + acc)
    0 actions.

(** The sum of a slice of [int] as a Go loop computes it, and the sum of
    the same numbers as mathematical integers. *)
Definition sum64 (steps : list Z) : Z := fold_left add64 steps 0.
Definition Zsum (steps : list Z) : Z := fold_right Z.add 0 steps.

(** The state of the loop of [GenerateSmoothScrollSteps] before index [i]:
    the first [i] entries of the [n] are written, the others still zero;
    while entries are left, the written ones together with [remaining] make
    up [totalDelta] in [int] arithmetic, and once all are written they make
    it up by themselves. *)
Definition smooth_inv (totalDelta : Z) (n i : nat) (st : list Z * Z) : Prop :=
  exists done,
    fst st = done ++ repeat 0 (n - i) /\
    List.length done = i /\
    ((i < n)%nat -> wrap64 (Zsum done + snd st) = totalDelta) /\
    (i = n -> wrap64 (Zsum done) = totalDelta).

(** ** Strings and runes

    A Go string is a sequence of bytes; [range] over it and [[]rune(s)]
    decode UTF-8, an invalid byte giving [RuneError] of width 1. *)

Definition rune := Z.
Definition RuneError : rune := 65533.

Definition bytes (s : string) : list Z :=
  map (fun a => Z.of_nat (nat_of_ascii a)) (list_ascii_of_string s).

(** [len(s)]: the number of bytes. *)
Definition len (s : string) : nat := String.length s.

Definition continuation (lo hi b : Z) : bool := (lo <=? b) && (b <=? hi).

(** [utf8.DecodeRuneInString] on a non-empty byte sequence: the rune and
    its width. *)
Definition decode_rune (bs : list Z) : rune * nat :=
  match bs with
  | [] => (RuneError, 0%nat)
  | b0 :: rest =>
      if b0 <? 128 then (b0, 1%nat)
      else
        let two := (194 <=? b0) && (b0 <=? 223) in
        let three := (224 <=? b0) && (b0 <=? 239) in
        let four := (240 <=? b0) && (b0 <=? 244) in
        let lo := if (b0 =? 224) then 160 else if (b0 =? 240) then 144 else 128 in
        let hi := if (b0 =? 237) then 159 else if (b0 =? 244) then 143 else 191 in
        match rest with
        | b1 :: rest1 =>
            if negb (two || three || four) || negb (continuation lo hi b1)
            then (RuneError, 1%nat)
            else if two then
              (Z.lor (Z.shiftl (Z.land b0 31) 6) (Z.land b1 63), 2%nat)
            else
              match rest1 with
              | b2 :: rest2 =>
                  if negb (continuation 128 191 b2) then (RuneError, 1%nat)
                  else if three then
                    (Z.lor (Z.shiftl (Z.land b0 15) 12)
                       (Z.lor (Z.shiftl (Z.land b1 63) 6) (Z.land b2 63)), 3%nat)
                  else
                    match rest2 with
                    | b3 :: _ =>
                        if negb (continuation 128 191 b3) then (RuneError, 1%nat)
                        else
                          (Z.lor (Z.shiftl (Z.land b0 7) 18)
                             (Z.lor (Z.shiftl (Z.land b1 63) 12)
                                (Z.lor (Z.shiftl (Z.land b2 63) 6) (Z.land b3 63))),
                           4%nat)
                    | [] => (RuneError, 1%nat)
                    end
              | [] => (RuneError, 1%nat)
              end
        | [] => (RuneError, 1%nat)
        end
  end.

(** The pairs [(i, char)] that [for i, char := range text] visits: byte
    offset and rune. *)
Fixpoint range_from (fuel : nat) (offset : nat) (bs : list Z) : list (nat * rune) :=
  match fuel, bs with
  | O, _ | _, [] => []
  | S fuel', _ =>
      let '(r, w) := decode_rune bs in
      (offset, r) :: range_from fuel' (offset + w)%nat (skipn w bs)
  end.

Definition range_string (text : string) : list (nat * rune) :=
  range_from (len text) 0 (bytes text).

(** [[]rune(text)]. *)
Definition runes_of (text : string) : list rune := map snd (range_string text).

(** [strings.ContainsRune] and [strings.IndexRune] on an ASCII string. *)
Definition ContainsRune (s : string) (r : rune) : bool :=
  existsb (Z.eqb r) (bytes s).

Fixpoint index_from (i : Z) (bs : list Z) (r : rune) : Z :=
  match bs with
  | [] => -1
  | b :: bs' => if b =? r then i else index_from (i + 1) bs' r
  end.

Definition IndexRune (s : string) (r : rune) : Z := index_from 0 (bytes s) r.

(** The tables of package [unicode] the typing controller consults. *)
Record Unicode : Type := mkUnicode {
  IsSpace : rune -> bool;
  IsUpper : rune -> bool;
  ToLower : rune -> rune;
  ToUpper : rune -> rune
}.

(** The tables restricted to ASCII, to run the model on ASCII and Latin
    text. *)
Definition ascii_tables : Unicode :=
  {| IsSpace := fun r => ((9 <=? r) && (r <=? 13)) || (r =? 32) || (r =? 133) || (r =? 160);
     IsUpper := fun r => (65 <=? r) && (r <=? 90);
     ToLower := fun r => if (65 <=? r) && (r <=? 90) then r + 32 else r;
     ToUpper := fun r => if (97 <=? r) && (r <=? 122) then r - 32 else r |}.

(** ** Typing (pkg/stealth, the typing controller) *)

Record TypingConfig : Type := mkTypingConfig {
  typing_Enabled : bool;
  MinKeyDelay : Duration;
  MaxKeyDelay : Duration;
  TypoChance : float64;
  CorrectionDelay : Duration;
  ThinkPauseChance : float64
}.

Record KeyStroke : Type := mkKeyStroke {
  Char : rune;
  Delay : Duration;
  IsTypo : bool;
  Backspace : bool
}.

(** The zero value of [KeyStroke], which [make] fills a slice with. *)
Definition zero_KeyStroke : KeyStroke :=
  {| Char := 0; Delay := 0; IsTypo := false; Backspace := false |}.

Definition keyboardRows : list string := ["qwertyuiop"; "asdfghjkl"; "zxcvbnm"]%string.

Definition keyboardLayout : list (string * string) :=
  [ ("q", "wa"); ("w", "qesa"); ("e", "wrds"); ("r", "etfd"); ("t", "rygf");
    ("y", "tuhg"); ("u", "yijh"); ("i", "uokj"); ("o", "iplk"); ("p", "ol");
    ("a", "qwsz"); ("s", "awedxz"); ("d", "serfcx"); ("f", "drtgvc");
    ("g", "ftyhbv"); ("h", "gyujnb"); ("j", "huikmn"); ("k", "jiolm");
    ("l", "kop"); ("z", "asx"); ("x", "zsdc"); ("c", "xdfv"); ("v", "cfgb");
    ("b", "vghn"); ("n", "bhjm"); ("m", "njk") ]%string.

(** [keyboardLayout[r]]: the neighbours of a key, if it is in the map. *)
Definition layout_lookup (r : rune) : option (list rune) :=
  match find (fun kv => existsb (Z.eqb r) (bytes (fst kv))) keyboardLayout with
  | Some kv => Some (bytes (snd kv))
  | None => None
  end.

Section Typing.

Variable U : Unicode.
Variable cfg : TypingConfig.

Definition abs (x : Z) : Z := if x <? 0 then neg64 x else x.

Definition areAdjacent (prev curr : rune) : bool :=
  let prevLower := ToLower U prev in
  let currLower := ToLower U curr in
  existsb (fun row =>
    let prevIdx := IndexRune row prevLower in
    let currIdx := IndexRune row currLower in
    (0 <=? prevIdx) && (0 <=? currIdx) && (abs (sub64 prevIdx currIdx) =? 1))
    keyboardRows.

Definition scale (base : Duration) (factor : float64) : Duration :=
  int_of_float64 (float64_of_int base * factor)%f64.

Definition calculateKeyDelay (char : rune) (position : Z) (text : list rune)
    : Gen Duration :=
  n <- Int63n (sub64 (MaxKeyDelay cfg) (MinKeyDelay cfg)) ;;
  let base := add64 (MinKeyDelay cfg) n in
  let base := if IsSpace U char then scale base (lit 7 10) else base in
  let base := if IsUpper U char then scale base (lit 13 10) else base in
  let base :=
    if ContainsRune "@#$%^&*()_+{}|:<>?" char then scale base (lit 15 10)
    else base in
  let base :=
    if (0 <? position) &&
       areAdjacent (nth (Z.to_nat (position - 1)) text 0) char
    then scale base (lit 85 100) else base in
  r <- Float64 ;;
  let variation := (float64_of_int base * lit 2 10 * (r * lit 2 1 - f1))%f64 in
  ret (add64 base (int_of_float64 variation)).

Definition isWordBoundary (position : Z) (text : list rune) : bool :=
  if position =? 0 then false
  else
    let prevIsSpace := IsSpace U (nth (Z.to_nat (position - 1)) text 0) in
    let currIsSpace := IsSpace U (nth (Z.to_nat position) text 0) in
    negb prevIsSpace && currIsSpace.

Definition generateTypo (char : rune) : Gen rune :=
  let lowerChar := ToLower U char in
  match layout_lookup lowerChar with
  | Some adjacent =>
      k <- Intn (Z.of_nat (List.length adjacent)) ;;
      let typo := nth (Z.to_nat k) adjacent 0 in
      if IsUpper U char then ret (ToUpper U typo) else ret typo
  | None => ret char
  end.

(** The body of the loop over [runes] at index [i]: the keystrokes it
    appends. *)
Definition keystrokes_at (runes : list rune) (i : Z) (char : rune)
    : Gen (list KeyStroke) :=
  delay <- calculateKeyDelay char i runes ;;
  r <- Float64 ;;
  delay <-
    (if (r <? ThinkPauseChance cfg)%f64 then
       if isWordBoundary i runes then
         n <- Intn 1500 ;;
         ret (add64 delay (mul64 (add64 500 n) Millisecond))
       else ret delay
     else ret delay) ;;
  r <- Float64 ;;
  if (r <? TypoChance cfg)%f64 && negb (IsSpace U char) then
    typoChar <- generateTypo char ;;
    delay' <- calculateKeyDelay char i runes ;;
    ret [ {| Char := typoChar; Delay := delay; IsTypo := true; Backspace := false |};
          {| Char := 0; Delay := CorrectionDelay cfg; IsTypo := false; Backspace := true |};
          {| Char := char; Delay := delay'; IsTypo := false; Backspace := false |} ]
  else
    ret [ {| Char := char; Delay := delay; IsTypo := false; Backspace := false |} ].

Fixpoint keystrokes_loop (runes : list rune) (i : Z) (todo : list rune)
    (keystrokes : list KeyStroke) : Gen (list KeyStroke) :=
  match todo with
  | [] => ret keystrokes
  | char :: todo' =>
      more <- keystrokes_at runes i char ;;
      keystrokes_loop runes (i + 1) todo' (keystrokes ++ more)
  end.

Definition GenerateKeystrokes (text : string) : Gen (list KeyStroke) :=
  if negb (typing_Enabled cfg) then
    let keystrokes := repeat zero_KeyStroke (len text) in
    ret (fold_left
           (fun ks ic =>
              set_nth (fst ic)
                {| Char := snd ic; Delay := 0; IsTypo := false; Backspace := false |}
                ks)
           (range_string text) keystrokes)
  else
    let runes := runes_of text in
    keystrokes_loop runes 0 runes [].

End Typing.

(** Replaying a keystroke sequence, as [ExecuteTyping] drives its two
    callbacks: a backspace removes the character typed last, any other
    keystroke types its character. *)
Definition replay_step (typed : list rune) (ks : KeyStroke) : list rune :=
  if Backspace ks then removelast typed else typed ++ [Char ks].

Definition replay (keystrokes : list KeyStroke) : list rune :=
  fold_left replay_step keystrokes [].

(** ** Mouse paths (pkg/stealth/mouse.go) *)

Record Point : Type := mkPoint { X : float64; Y : float64 }.

Record MouseMovementConfig : Type := mkMouseMovementConfig {
  mouse_Enabled : bool;
  MinSpeed : float64;
  MaxSpeed : float64;
  OvershootEnabled : bool;
  MicroMovements : bool;
  BezierComplexity : Z
}.

(** The zero value of [Point]. *)
Definition zero_Point : Point := {| X := f0; Y := f0 |}.

Definition binomial (n k : Z) : Z :=
  let k := if sub64 n k <? k then sub64 n k else k in
  fold_left (fun result i => quot64 (mul64 result (sub64 n i)) (add64 i 1))
    (indices (Z.to_nat k)) 1.

Definition bernstein (n k : Z) (t : float64) : float64 :=
  (float64_of_int (binomial n k) * Pow t (float64_of_int k)
   * Pow (f1 - t) (float64_of_int (sub64 n k)))%f64.

Definition applyEasing (t : float64) : float64 :=
  (t * t * (float64_of_int 3 - float64_of_int 2 * t))%f64.

(** The loop of [bezierPoint] from index [i] on, with the running sums. *)
Fixpoint bezier_sum (n : Z) (t : float64) (i : Z) (points : list Point)
    (x y : float64) : Point :=
  match points with
  | [] => {| X := x; Y := y |}
  | p :: points' =>
      let b := bernstein n i t in
      bezier_sum n t (i + 1) points' (x + X p * b)%f64 (y + Y p * b)%f64
  end.

Definition bezierPoint (points : list Point) (t : float64) : Point :=
  let n := Z.of_nat (List.length points) - 1 in
  bezier_sum n t 0 points f0 f0.

Section Mouse.

Variable cfg : MouseMovementConfig.

(** The loop over the interior control points, from index [i] on. *)
Fixpoint control_loop (start : Point) (dx dy distance : float64)
    (todo : list Z) (points : list Point) : Gen (list Point) :=
  match todo with
  | [] => ret points
  | i :: todo' =>
      let progress :=
        (float64_of_int i / float64_of_int (Z.of_nat (List.length points) - 1))%f64 in
      r <- Float64 ;;
      let deviation := (distance * lit 3 10 * (r - lit 5 10))%f64 in
      let perpX := (- dy / distance * deviation)%f64 in
      let perpY := (dx / distance * deviation)%f64 in
      let p := {| X := (X start + dx * progress + perpX)%f64;
                  Y := (Y start + dy * progress + perpY)%f64 |} in
      control_loop start dx dy distance todo' (set_nth (Z.to_nat i) p points)
  end.

Definition generateControlPoints (start end_ : Point) : Gen (list Point) :=
  let complexity := BezierComplexity cfg in
  let complexity := if complexity <? 2 then 2 else complexity in
  let n := add64 complexity 2 in
  if n <? 0 then panic "makeslice: len out of range"
  else
    let points := repeat zero_Point (Z.to_nat n) in
    let points := set_nth 0 start points in
    let points := set_nth (List.length points - 1) end_ points in
    let dx := (X end_ - X start)%f64 in
    let dy := (Y end_ - Y start)%f64 in
    let distance := Sqrt (dx * dx + dy * dy)%f64 in
    (* Guard against zero-distance to avoid division by zero and NaN
       coordinates *)
    if (distance == f0)%f64 then ret [start; end_]
    else
      control_loop start dx dy distance
        (map (fun i => i + 1) (indices (List.length points - 2))) points.

Definition generateBezierPath (start end_ : Point) (numSteps : Z) : Gen (list Point) :=
  controlPoints <- generateControlPoints start end_ ;;
  ret (map (fun i =>
              let t := (float64_of_int i / float64_of_int numSteps)%f64 in
              let t := applyEasing t in
              bezierPoint controlPoints t)
         (indices (Z.to_nat numSteps + 1))).

Definition addOvershoot (path : list Point) (target : Point) : Gen (list Point) :=
  match path with
  | [] => ret path
  | _ :: _ =>
      let last := List.last path zero_Point in
      let dx := (X target - X last)%f64 in
      let dy := (Y target - Y last)%f64 in
      r <- Float64 ;;
      let overshootDistance := (float64_of_int 5 + r * float64_of_int 15)%f64 in
      let overshoot :=
        {| X := (X target + dx * overshootDistance / float64_of_int 100)%f64;
           Y := (Y target + dy * overshootDistance / float64_of_int 100)%f64 |} in
      let path := path ++ [overshoot] in
      (* Generate correction path with fixed steps for smoothness *)
      correctionPath <- generateBezierPath overshoot target 20 ;;
      ret (path ++ tl correctionPath)
  end.

(** The loop of [addMicroMovements] from index [i] on; [n] is
    [len(path)]. *)
Fixpoint micro_loop (n : Z) (i : Z) (todo : list Point) (result : list Point)
    : Gen (list Point) :=
  match todo with
  | [] => ret result
  | p :: todo' =>
      r1 <- Float64 ;;
      let jitterX := ((r1 - lit 5 10) * float64_of_int 2)%f64 in
      r2 <- Float64 ;;
      let jitterY := ((r2 - lit 5 10) * float64_of_int 2)%f64 in
      let result := result ++ [ {| X := (X p + jitterX)%f64; Y := (Y p + jitterY)%f64 |} ] in
      result <-
        (if (0 <? i) && (i <? n - 1) then
           r <- Float64 ;;
           if (r <? lit 1 10)%f64 then
             r3 <- Float64 ;;
             let pauseJitterX := ((r3 - lit 5 10) * lit 5 10)%f64 in
             r4 <- Float64 ;;
             let pauseJitterY := ((r4 - lit 5 10) * lit 5 10)%f64 in
             ret (result ++ [ {| X := (X p + pauseJitterX)%f64;
                                 Y := (Y p + pauseJitterY)%f64 |} ])
           else ret result
         else ret result) ;;
      micro_loop n (i + 1) todo' result
  end.

Definition addMicroMovements (path : list Point) : Gen (list Point) :=
  micro_loop (Z.of_nat (List.length path)) 0 path [].

Definition path_numSteps (start end_ : Point) : Z :=
  (* Calculate distance *)
  let dist :=
    Sqrt (Pow (X end_ - X start) (float64_of_int 2)
          + Pow (Y end_ - Y start) (float64_of_int 2))%f64 in
  (* Balanced density for smoothness without being too slow *)
  let numSteps := int_of_float64 (dist / float64_of_int 3)%f64 in
  let numSteps := if numSteps <? 30 then 30 else numSteps in
  if 200 <? numSteps then 200 else numSteps.

Definition GeneratePath (start end_ : Point) : Gen (list Point) :=
  if negb (mouse_Enabled cfg) then ret [start; end_]
  else
    let numSteps := path_numSteps start end_ in
    path <- generateBezierPath start end_ numSteps ;;
    path <-
      (if OvershootEnabled cfg then
         r <- Float64 ;;
         if (r <? lit 3 10)%f64 then addOvershoot path end_ else ret path
       else ret path) ;;
    if MicroMovements cfg then addMicroMovements path else ret path.

End Mouse.

(** Go's [==] on two points: field-wise float comparison. *)
Definition Point_eqb (p q : Point) : bool := (X p == X q)%f64 && (Y p == Y q)%f64.

Definition Point_has_NaN (p : Point) : bool := IsNaN (X p) || IsNaN (Y p).

(** A float64 that is neither infinite nor NaN. *)
Definition finite64 (x : float64) : Prop :=
  valid_binary prec emax x = true /\
  match x with
  | S754_zero _ | S754_finite _ _ _ => True
  | S754_infinity _ | S754_nan => False
  end.

Definition finite_Point (p : Point) : Prop := finite64 (X p) /\ finite64 (Y p).

(** ** Delays (pkg/stealth/timing.go) *)

(** The deterministic part of [ExponentialBackoff]: the delay before the
    jitter is added. *)
Definition backoff_delay (attempt : Z) (base maxDelay : Duration) : Duration :=
  let delay := mul64 base (shl64 1 (uint64_of_int attempt)) in
  if maxDelay <? delay then maxDelay else delay.

Definition ExponentialBackoff (attempt : Z) (base maxDelay : Duration) : Gen Duration :=
  let delay := backoff_delay attempt base maxDelay in
  r <- Float64 ;;
  let jitter := int_of_float64 (float64_of_int delay * lit 3 10 * r)%f64 in
  ret (add64 delay jitter).

(** ** Running a generator *)

(** A tape that repeats one draw. *)
Definition constant_tape (z : Z) (u : float64) : Rand :=
  {| tape := fun _ => {| raw := z; unit := u |}; cursor := 0 |}.

(** A tape that plays the listed draws and then repeats the last one. *)
Definition tape_of (ds : list draw) (d : draw) : Rand :=
  {| tape := fun i => nth i ds d; cursor := 0 |}.

(** The value a run returns, if it returns. *)
Definition value {A : Type} (res : result (A * Rand)) : option A :=
  match res with
  | Ok (a, _) => Some a
  | _ => None
  end.

(** ** The default configuration (package config, [DefaultConfig]) *)

Definition default_scrolling : ScrollingConfig :=
  {| scroll_Enabled := true; MinScrollSpeed := 50; MaxScrollSpeed := 200;
     ScrollBackChance := lit 1 10; PauseChance := lit 15 100;
     SmoothScrolling := true |}.

Definition default_typing : TypingConfig :=
  {| typing_Enabled := true;
     MinKeyDelay := 50 * Millisecond; MaxKeyDelay := 150 * Millisecond;
     TypoChance := lit 2 100; CorrectionDelay := 300 * Millisecond;
     ThinkPauseChance := lit 5 100 |}.

Definition default_mouse : MouseMovementConfig :=
  {| mouse_Enabled := true; MinSpeed := lit 5 10; MaxSpeed := lit 2 1;
     OvershootEnabled := true; MicroMovements := true; BezierComplexity := 3 |}.

Definition default_rate_limits : RateLimitConfig :=
  {| DailyConnectionLimit := 25; HourlyConnectionLimit := 5;
     DailyMessageLimit := 50; HourlyMessageLimit := 10; DailySearchLimit := 100;
     CooldownPeriod := 30 * 60 * 1000 * Millisecond;
     BreakInterval := 45 * 60 * 1000 * Millisecond;
     BreakDuration := 10 * 60 * 1000 * Millisecond |}.

(** The text "\195\169": the two-byte UTF-8 encoding of U+00E9, e with
    acute accent. *)
Definition e_acute : string :=
  String (ascii_of_nat 195) (String (ascii_of_nat 169) EmptyString).

Definition disabled_typing : TypingConfig :=
  {| typing_Enabled := false;
     MinKeyDelay := 50 * Millisecond; MaxKeyDelay := 150 * Millisecond;
     TypoChance := lit 2 100; CorrectionDelay := 300 * Millisecond;
     ThinkPauseChance := lit 5 100 |}.

(** ** Magnitudes of floats *)

Definition emin : Z := SpecFloat.emin prec emax.

(** A float of magnitude below [2^k]: zero, or finite with
    [digits m + e <= k]. *)
Definition small (k : Z) (x : float64) : Prop :=
  match x with
  | S754_zero _ => True
  | S754_finite _ m e => Zdigits2 (Z.pos m) + e <= k
  | _ => False
  end.

(** The same, as a test that evaluates. *)
Definition smallb (k : Z) (x : float64) : bool :=
  match x with
  | S754_zero _ => true
  | S754_finite _ m e => Zdigits2 (Z.pos m) + e <=? k
  | _ => false
  end.

Definition small_Point (k : Z) (p : Point) : Prop := small k (X p) /\ small k (Y p).

(** ** The example of the path generator: from (0,0) to (1000,800) *)

Definition origin : Point := {| X := float64_of_int 0; Y := float64_of_int 0 |}.
Definition far_corner : Point := {| X := float64_of_int 1000; Y := float64_of_int 800 |}.

(** ** Zero-distance paths *)

(** Two floats that Go's [==] on finite values cannot tell apart: the same
    value, or two zeros of any signs. *)
Definition same_value (x y : float64) : Prop :=
  match x, y with
  | S754_zero _, S754_zero _ => True
  | _, _ => x = y
  end.

(** A float that is zero or carries the sign [s] (an infinity included). *)
Definition signed (s : bool) (x : float64) : Prop :=
  match x with
  | S754_zero _ => True
  | S754_finite s' _ _ | S754_infinity s' => s' = s
  | S754_nan => False
  end.

(** A finite float that is not negative. *)
Definition weight (w : float64) : bool :=
  match w with
  | S754_zero _ | S754_finite false _ _ => true
  | _ => false
  end.

(** The two Bernstein weights of a curve on two control points, at each of
    the parameter values [generateBezierPath] samples. *)
Definition sampled_weights (numSteps : Z) : list (float64 * float64) :=
  map (fun i =>
         let t := applyEasing (float64_of_int i / float64_of_int numSteps)%f64 in
         (bernstein 1 0 t, bernstein 1 1 t))
    (indices (Z.to_nat numSteps + 1)).

Definition no_NaN (path : list Point) : Prop :=
  Forall (fun q => Point_has_NaN q = false) path.

(** A point of finite coordinates with both coordinates equal. *)
Definition five_five : Point := {| X := float64_of_int 5; Y := float64_of_int 5 |}.

(** ** Total correctness of a generator

    [returns I c P]: from every random source that satisfies [I] the run of
    [c] returns (it neither panics nor runs out of fuel), it leaves a source
    that satisfies [I], and the value it returns satisfies [P]. *)
Definition returns {A : Type} (I : Rand -> Prop) (c : Gen A) (P : A -> Prop) : Prop :=
  forall r, I r -> exists a r', c r = Ok (a, r') /\ I r' /\ P a.

(** No demand on the random source. *)
Definition any_source (r : Rand) : Prop := True.

(** The speed range the scroll loop can draw from without a panic: [Intn]
    needs a positive bound for the speed and for half the speed. *)
Definition valid_speeds (cfg : ScrollingConfig) : Prop :=
  2 <= MinScrollSpeed cfg /\ MinScrollSpeed cfg <= MaxScrollSpeed cfg /\
  MaxScrollSpeed cfg <= max_int64.

(** ** What one turn of the scroll loop delivers

    A forward chunk [amount] between 10 and the larger of 10 and the
    remaining distance, taken off the remaining distance; at most one
    reverse action before it, of a third of the chunk; pauses of no
    delta. *)
Definition turn_post (remaining : Z) (out : list ScrollAction * Z) : Prop :=
  exists amount,
    10 <= amount <= Z.max remaining 10 /\
    snd out = remaining - amount /\
    direction_sum "down" (fst out) = amount /\
    0 <= 3 * direction_sum "up" (fst out) <= amount /\
    signed_sum (fst out) = amount - direction_sum "up" (fst out).

(* ===================================================================== *)
(** * Part I, continued.  The neighbouring functions                      *)
(* ===================================================================== *)

(** ** More of the timing controller (pkg/stealth/timing.go) *)

Record TimingConfig : Type := mkTimingConfig {
  MinActionDelay : Duration;
  MaxActionDelay : Duration;
  MinThinkTime : Duration;
  MaxThinkTime : Duration;
  PageLoadWait : Duration;
  HumanVariation : float64
}.

Section Timing.

Variable cfg : TimingConfig.

Definition RandomDelay (min max : Duration) : Gen Duration :=
  if max <=? min then ret min
  else
    n <- Int63n (sub64 max min) ;;
    let base := add64 min n in
    r <- Float64 ;;
    let variation :=
      (float64_of_int base * HumanVariation cfg * (r * lit 2 1 - f1))%f64 in
    let final := add64 base (int_of_float64 variation) in
    let final := if final <? min then min else final in
    ret final.

Definition ActionDelay : Gen Duration :=
  RandomDelay (MinActionDelay cfg) (MaxActionDelay cfg).

Definition ThinkDelay : Gen Duration :=
  RandomDelay (MinThinkTime cfg) (MaxThinkTime cfg).

Definition PageLoadDelay : Gen Duration :=
  let base := PageLoadWait cfg in
  r <- Float64 ;;
  let variation :=
    int_of_float64 (float64_of_int base * HumanVariation cfg * r)%f64 in
  ret (add64 base variation).

End Timing.

Definition default_timing : TimingConfig :=
  {| MinActionDelay := 500 * Millisecond; MaxActionDelay := 2000 * Millisecond;
     MinThinkTime := 1000 * Millisecond; MaxThinkTime := 5000 * Millisecond;
     PageLoadWait := 3000 * Millisecond; HumanVariation := lit 3 10 |}.

(** ** More of the scroll controller (pkg/stealth/scrolling.go) *)

Section MoreScrolling.

Variable cfg : ScrollingConfig.

Definition RandomViewportScroll : Gen ScrollAction :=
  n <- Intn 300 ;;
  let delta := add64 100 n in
  r <- Float64 ;;
  let direction := if (r <? lit 3 10)%f64 then "up"%string else "down"%string in
  d <- calculateScrollDuration cfg delta ;;
  ret {| Delta := delta; action_Duration := d; Direction := direction |}.

(** The loop of [ScrollToElement] over the actions: forward and reverse
    change places, a pause stays. *)
Definition swap_direction (a : ScrollAction) : ScrollAction :=
  if String.eqb (Direction a) "down" then
    {| Delta := Delta a; action_Duration := action_Duration a; Direction := "up" |}
  else if String.eqb (Direction a) "up" then
    {| Delta := Delta a; action_Duration := action_Duration a; Direction := "down" |}
  else a.

(** [ScrollToElement]; the [nil] it returns in the dead zone is the empty
    list. *)
Definition ScrollToElement (currentY targetY viewportHeight : Z)
    : Gen (list ScrollAction) :=
  let distance := sub64 (sub64 targetY currentY) (quot64 viewportHeight 3) in
  if 0 <? distance then GenerateScrollSequence cfg distance
  else if distance <? quot64 (neg64 viewportHeight) 2 then
    actions <- GenerateScrollSequence cfg (neg64 distance) ;;
    ret (map swap_direction actions)
  else ret [].

End MoreScrolling.

(** ** More of the typing controller *)

Section MoreTyping.

Variable U : Unicode.
Variable cfg : TypingConfig.

Definition TypingDuration (text : string) : Gen Duration :=
  keystrokes <- GenerateKeystrokes U cfg text ;;
  ret (fold_left (fun total ks => add64 total (Delay ks)) keystrokes 0).

End MoreTyping.

(** A text of ASCII characters only: every byte below 128. *)
Definition is_ascii (text : string) : bool :=
  forallb (fun b => b <? 128) (bytes text).

(** The keystroke the disabled path writes for a character. *)
Definition plain_key (char : rune) : KeyStroke :=
  {| Char := char; Delay := 0; IsTypo := false; Backspace := false |}.

(** The keystrokes of one character of the enabled path: the character
    alone, or a typo, a backspace after the correction delay, and the
    character. *)
Definition key_group (cfg : TypingConfig) (is_space : rune -> bool)
    (char : rune) (group : list KeyStroke) : Prop :=
  (exists delay,
     group = [ {| Char := char; Delay := delay; IsTypo := false; Backspace := false |} ])
  \/
  (is_space char = false /\
   exists typo delay delay',
     group = [ {| Char := typo; Delay := delay; IsTypo := true; Backspace := false |};
               {| Char := 0; Delay := CorrectionDelay cfg; IsTypo := false;
                  Backspace := true |};
               {| Char := char; Delay := delay'; IsTypo := false; Backspace := false |} ]).

(** The 26 lower-case letters. *)
Definition lower_letters : list rune := map Z.of_nat (seq 97 26).

(** ** More of the quota tracker *)

(** Every clock reading of the calls shows the day-of-month and the hour of
    [t]: the calls fall into the slot the tracker thinks it is in. *)
Definition within_slot (t : Time) (ks : list call) : Prop :=
  Forall (fun k => match call_time k with
                   | Some now => Day now = Day t /\ Hour now = Hour t
                   | None => True
                   end) ks.

(** ** The executors and what they touch

    [ExecuteScroll], [ExecuteTyping] and the sleeps act on things outside
    the program: a context that may be cancelled, the clock, and the
    callbacks they are handed.  The outside is a state [W] that every such
    operation reads and may change; what an operation answers is up to the
    outside.  The log lines the executors write are left out. *)

Definition error : Type := string.

(** An instant of the clock: nanoseconds since the zero [time.Time]. *)
Definition Instant : Type := Z.

Record Outside (W : Type) : Type := mkOutside {
  (** [<-ctx.Done()] in a [select] with a [default] branch: the error of
      the context, if it is done by now *)
  poll : W -> option error * W;
  (** [time.Sleep(d)] *)
  sleep : Duration -> W -> W;
  (** [select] on [<-ctx.Done()] and [<-time.After(d)]: the error of the
      context, if it is done before the time is up *)
  wait : Duration -> W -> option error * W;
  (** [time.Now()] *)
  now : W -> Instant * W
}.
Arguments poll {W} _ _.
Arguments sleep {W} _ _ _.
Arguments wait {W} _ _ _.
Arguments now {W} _ _.

(** Computations that act on the outside and draw from the random
    source. *)
Definition Run (W A : Type) : Type := W -> Rand -> result ((A * W) * Rand).

#[global] Instance Monad_Run {W : Type} : Monad (Run W) :=
  {| ret := fun A (a : A) (w : W) (r : Rand) => Ok ((a, w), r);
     bind := fun A B (c : Run W A) (k : A -> Run W B) (w : W) (r : Rand) =>
       match c w r with
       | Ok ((a, w'), r') => k a w' r'
       | Panic msg => Panic msg
       | OutOfFuel => OutOfFuel
       end |}.

(** A computation on the random source inside a run, and an operation of
    the outside. *)
Definition random {W A : Type} (g : Gen A) : Run W A := fun w r =>
  match g r with
  | Ok (a, r') => Ok ((a, w), r')
  | Panic msg => Panic msg
  | OutOfFuel => OutOfFuel
  end.

Definition outside {W A : Type} (f : W -> A * W) : Run W A := fun w r => Ok (f w, r).

(** [if err := c; err != nil { return err }], and then [k]. *)
Definition check {W : Type} (c : Run W (option error)) (k : Run W (option error))
    : Run W (option error) :=
  e <- c ;;
  match e with
  | Some err => ret (Some err)
  | None => k
  end.

Section Executors.

Context {W : Type}.
Variable O : Outside W.

(** [TimingController.Sleep]. *)
Definition Sleep (d : Duration) : Run W (option error) := outside (wait O d).

Section ExecuteScroll.

Variable cfg : ScrollingConfig.
Variable scrollFn : Z -> W -> option error * W.

(** The inner loop over the sub-steps of a smooth scroll. *)
Fixpoint smooth_steps_loop (stepDelay : Duration) (steps : list Z)
    : Run W (option error) :=
  match steps with
  | [] => ret None
  | step :: steps' =>
      check (outside (scrollFn step))
        (check (Sleep stepDelay) (smooth_steps_loop stepDelay steps'))
  end.

Fixpoint ExecuteScroll (actions : list ScrollAction) : Run W (option error) :=
  match actions with
  | [] => ret None
  | action :: actions' =>
      check (outside (poll O))
        (if String.eqb (Direction action) "pause" then
           check (Sleep (action_Duration action)) (ExecuteScroll actions')
         else
           let delta := Delta action in
           let delta :=
             if String.eqb (Direction action) "up" then neg64 delta else delta in
           if SmoothScrolling cfg then
             steps <- random (GenerateSmoothScrollSteps cfg delta) ;;
             if (List.length steps =? 0)%nat then
               fun _ _ => Panic "integer divide by zero"
             else
               let stepDelay :=
                 quot64 (action_Duration action) (Z.of_nat (List.length steps)) in
               check (smooth_steps_loop stepDelay steps) (ExecuteScroll actions')
           else
             check (outside (scrollFn delta))
               (check (Sleep (action_Duration action)) (ExecuteScroll actions')))
  end.

End ExecuteScroll.

Section ExecuteTyping.

Variable U : Unicode.
Variable cfg : TypingConfig.
Variable typeFn : rune -> W -> option error * W.
Variable backspaceFn : W -> option error * W.

(** The loop of [ExecuteTyping] over the keystrokes. *)
Fixpoint typing_loop (keystrokes : list KeyStroke) : Run W (option error) :=
  match keystrokes with
  | [] => ret None
  | ks :: keystrokes' =>
      check (outside (poll O))
        (_ <- (if 0 <? Delay ks then outside (fun w => (tt, sleep O (Delay ks) w))
               else ret tt) ;;
         check (if Backspace ks then outside backspaceFn
                else outside (typeFn (Char ks)))
           (typing_loop keystrokes'))
  end.

Definition ExecuteTyping (text : string) : Run W (option error) :=
  typingStart <- outside (now O) ;;
  keystrokes <- random (GenerateKeystrokes U cfg text) ;;
  check (typing_loop keystrokes)
    (_ <- (if typing_Enabled cfg then
             (* time.Since(typingStart), for the log *)
             t <- outside (now O) ;; ret tt
           else ret tt) ;;
     ret None).

End ExecuteTyping.

End Executors.

(** What [ExecuteScroll] makes of an action: a pause scrolls nothing, "up"
    scrolls by minus the delta, and every other direction by the delta. *)
Definition scroll_effect (a : ScrollAction) : Z :=
  if String.eqb (Direction a) "pause" then 0
  else if String.eqb (Direction a) "up" then - Delta a
  else Delta a.

Definition scroll_effects (actions : list ScrollAction) : Z :=
  fold_right (fun a acc => scroll_effect a + acc) 0 actions.

(** The three directions the generators write. *)
Definition known_direction (a : ScrollAction) : Prop :=
  Direction a = "down"%string \/ Direction a = "up"%string \/
  Direction a = "pause"%string.

(** An outside in which nothing happens: the context is never done, and
    the clock stands at 1. *)
Definition quiet_outside (W : Type) : Outside W :=
  {| poll := fun w => (None, w);
     sleep := fun _ w => w;
     wait := fun _ w => (None, w);
     now := fun w => (1, w) |}.

(** A page that keeps its scroll position, and a text field that keeps
    what is typed into it. *)
Definition page_scrollFn (delta : Z) (w : Z) : option error * Z :=
  (None, add64 w delta).

Definition field_typeFn (char : rune) (w : list rune) : option error * list rune :=
  (None, w ++ [char]).

Definition field_backspaceFn (w : list rune) : option error * list rune :=
  (None, removelast w).

(** ** Bounds on floats *)

(** A finite float of magnitude at most [T * 2^t], written with an
    exponent of at most [t]. *)
Definition below (T t : Z) (x : float64) : Prop :=
  match x with
  | S754_zero _ => True
  | S754_finite _ m e => e <= t /\ Z.pos m <= T * 2 ^ (t - e)
  | _ => False
  end.

(** A factor that takes a magnitude of at most [T] to one of at most [N]:
    a finite float [y] with [T * |y| <= N], written with an exponent of at
    most 0. *)
Definition scales (T N : Z) (y : float64) : Prop :=
  match y with
  | S754_zero _ => True
  | S754_finite _ m e => e <= 0 /\ T * Z.pos m <= N * 2 ^ (- e)
  | _ => False
  end.

(** A zero, or a finite float with the sign bit clear. *)
Definition not_negative (x : float64) : Prop :=
  match x with
  | S754_zero _ => True
  | S754_finite s _ _ => s = false
  | _ => False
  end.

(** A float of a value between 0 and the ratio [p/q]. *)
Definition at_most_ratio (p q : Z) (x : float64) : Prop :=
  match x with
  | S754_zero _ => True
  | S754_finite s m e => s = false /\ e <= 0 /\ q * Z.pos m <= p * 2 ^ (- e)
  | _ => False
  end.

(** A finite float of magnitude at least [T], written with an exponent of
    at most 0. *)
Definition at_least (T : Z) (x : float64) : Prop :=
  match x with
  | S754_zero _ => T <= 0
  | S754_finite _ m e => e <= 0 /\ T * 2 ^ (- e) <= Z.pos m
  | _ => False
  end.

(** A factor that takes a magnitude of at least [T] to one of at least
    [T']: a finite float [y] with [T' <= T * |y|]. *)
Definition scales_up (T T' : Z) (y : float64) : Prop :=
  match y with
  | S754_zero _ => T' <= 0
  | S754_finite _ m e => e <= 0 /\ T' * 2 ^ (- e) <= T * Z.pos m
  | _ => False
  end.

(** ** The pace of the keystrokes

    A key delay as [calculateKeyDelay] computes it: never negative, at
    least 0.7 * 0.85 * 0.8 = 47.6% of [MinKeyDelay] and at most
    1.3 * 1.5 * 1.2 = 234% of [MaxKeyDelay], to within 10 nanoseconds.
    The delay of a keystroke is such a delay, after a think pause of 500ms
    to 1999ms or none; a backspace waits the correction delay. *)
Definition human_delay (cfg : TypingConfig) (d : Duration) : Prop :=
  0 <= d /\
  476 * MinKeyDelay cfg <= 1000 * (d + 10) /\
  100 * (d - 10) <= 234 * MaxKeyDelay cfg.

Definition paced (cfg : TypingConfig) (k : KeyStroke) : Prop :=
  if Backspace k then Delay k = CorrectionDelay cfg
  else
    exists pause,
      (pause = 0 \/ 500 * Millisecond <= pause <= 1999 * Millisecond) /\
      human_delay cfg (Delay k - pause).

(** ** Sleeping, and the action timer (pkg/stealth/timing.go) *)

(** [t.IsZero()], and [t.Sub(u)]: the difference of two instants, kept
    within the range of a [Duration]. *)
Definition IsZero (t : Instant) : bool := t =? 0.

Definition Sub (t u : Instant) : Duration :=
  let d := t - u in
  if d <? min_int64 then min_int64
  else if max_int64 <? d then max_int64
  else d.

Record ActionTimer : Type := mkActionTimer {
  lastAction : Instant;
  minGap : Duration
}.

Definition NewActionTimer (gap : Duration) : ActionTimer :=
  {| lastAction := 0; minGap := gap |}.

Section Sleeping.

Context {W : Type}.
Variable O : Outside W.
Variable cfg : TimingConfig.

Definition SleepAction : Run W (option error) :=
  d <- random (ActionDelay cfg) ;; Sleep O d.

Definition SleepThink : Run W (option error) :=
  d <- random (ThinkDelay cfg) ;; Sleep O d.

Definition SleepPageLoad : Run W (option error) :=
  d <- random (PageLoadDelay cfg) ;; Sleep O d.

Definition SleepWithJitter (base : Duration) : Run W (option error) :=
  r <- random Float64 ;;
  let jitter :=
    int_of_float64 (float64_of_int base * lit 2 10 * (r * lit 2 1 - f1))%f64 in
  Sleep O (add64 base jitter).

(** [a.lastAction = time.Now()]: the timer is updated in place; here the
    updated timer is returned. *)
Definition Record_now (a : ActionTimer) : Run W ActionTimer :=
  t <- outside (now O) ;;
  ret {| lastAction := t; minGap := minGap a |}.

Definition WaitForNext (a : ActionTimer) : Run W (option error * ActionTimer) :=
  if IsZero (lastAction a) then
    a' <- Record_now a ;; ret (None, a')
  else
    t <- outside (now O) ;;
    let elapsed := Sub t (lastAction a) in
    if elapsed <? minGap a then
      let waitTime := sub64 (minGap a) elapsed in
      extra <- random (RandomDelay cfg 0 (quot64 waitTime 2)) ;;
      let waitTime := add64 waitTime extra in
      e <- Sleep O waitTime ;;
      match e with
      | Some err => ret (Some err, a)
      | None => a' <- Record_now a ;; ret (None, a')
      end
    else
      a' <- Record_now a ;; ret (None, a').

End Sleeping.

(** An outside whose state is the clock: reading the time takes none, a
    sleep takes as long as asked, and the context is never done. *)
Definition ticking_outside : Outside Z :=
  {| poll := fun w => (None, w);
     sleep := fun d w => w + d;
     wait := fun d w => (None, w + d);
     now := fun w => (w, w) |}.

(** ** Browser.Scroll (package browser)

    [Scroll] has the scroll controller generate a sequence for [deltaY] and
    execute it.  What it does to the browser in between is up to the
    outside: the evaluation of an empty script, whose result and error are
    dropped; the move of the mouse to the page, which may fail; and the
    wrapped scroll function, which scrolls the page by script, moves the
    cursor overlay, sleeps 10ms and always returns nil. *)

Section BrowserScroll.

Context {W : Type}.
Variable O : Outside W.
Variable cfg : ScrollingConfig.
Variable pageEval : W -> W.
Variable mouseMoveTo : W -> option error * W.
Variable scrollPage : Z -> W -> W.

Definition wrappedScrollFn (delta : Z) (w : W) : option error * W :=
  (None, scrollPage delta w).

Definition Scroll (deltaY : Z) : Run W (option error) :=
  actions <- random (GenerateScrollSequence cfg deltaY) ;;
  _ <- outside (fun w => (tt, pageEval w)) ;;
  e <- outside mouseMoveTo ;;
  match e with
  | Some err => ret (Some ("mouse move for scroll failed: " ++ err)%string)
  | None => ExecuteScroll O cfg wrappedScrollFn actions
  end.

End BrowserScroll.

(** An action the executor can take as it is meant: one of the three
    directions, and a delta that is an [int]. *)
Definition well_formed_action (a : ScrollAction) : Prop :=
  known_direction a /\ in_int64 (Delta a).

(** What scrolling by [delta] does to a page that keeps its position. *)
Definition page_scrollBy (delta : Z) (w : Z) : Z := add64 w delta.

(** ** Sending connection requests (package connection)

    [SendConnectionRequest] and [ProcessProfiles] drive the browser and
    the storage between the reads and writes of the quota tracker.  What
    the browser and the storage do is up to the outside, and so is what
    the helpers that only drive the browser answer ([extractProfileName],
    [clickConnectButton], [addConnectionNote], [confirmConnection]): each
    is an arbitrary computation on the outside and the random source.  The
    sleeps are those of the timing controller, and the log lines are left
    out. *)

Record ConnectionResult : Type := mkConnectionResult {
  ProfileURL : string;
  Name : string;
  Success : bool;
  Message : string;
  Error : option error
}.

(** The fields of [storage.Connection] that [SendConnectionRequest] sets,
    and those of [storage.Profile] that [ProcessProfiles] reads. *)
Record Connection : Type := mkConnection {
  conn_ProfileURL : string;
  conn_Name : string;
  RequestedAt : Time;
  Status : string;
  Note : string
}.

Record Profile : Type := mkProfile {
  URL : string;
  profile_Name : string;
  Title : string;
  Company : string;
  Location : string;
  Industry : string
}.

(** [strings.ReplaceAll(s, old, new)] for a non-empty [old]: the
    occurrences of [old] are found from left to right and do not overlap.
    [skip] counts the bytes of the occurrence just replaced that are still
    to be dropped. *)
Fixpoint replace_from (old new : string) (skip : nat) (s : string) : string :=
  match s with
  | EmptyString => EmptyString
  | String ch rest =>
      match skip with
      | S skip' => replace_from old new skip' rest
      | O =>
          if String.prefix old s then
            (new ++ replace_from old new (String.length old - 1) rest)%string
          else String ch (replace_from old new O rest)
      end
  end.

Definition ReplaceAll (s old new : string) : string := replace_from old new 0 s.

(** [strings.Split(s, " ")[0]]: what comes before the first space. *)
Fixpoint first_field (s : string) : string :=
  match s with
  | EmptyString => EmptyString
  | String ch rest =>
      if Ascii.eqb ch " " then EmptyString else String ch (first_field rest)
  end.

Definition personalizeNote (template : string) (profile : Profile) : string :=
  let note := template in
  let firstName := first_field (profile_Name profile) in
  let note := ReplaceAll note "{{.FirstName}}" firstName in
  let note := ReplaceAll note "{{.Name}}" (profile_Name profile) in
  let note := ReplaceAll note "{{.Title}}" (Title profile) in
  let note := ReplaceAll note "{{.Company}}" (Company profile) in
  let note := ReplaceAll note "{{.Location}}" (Location profile) in
  let note := ReplaceAll note "{{.Industry}}" (Industry profile) in
  note.

Section Connections.

Context {W : Type}.
Variable O : Outside W.
Variable timing : TimingConfig.

(** [time.Now()], read through its civil fields. *)
Variable clock : W -> Time * W.

(** The storage, the browser, and the helpers that drive the browser. *)
Variable ConnectionExists : string -> Run W (bool * option error).
Variable AddConnection : Connection -> Run W (option error).
Variable UpdateTodayStats : Run W Datatypes.unit.
Variable MarkProfileProcessed : string -> Run W (option error).
Variable Navigate : string -> Run W (option error).
Variable extractProfileName : Run W string.
Variable clickConnectButton : Run W (option error).
Variable addConnectionNote : string -> Run W (option error).
Variable confirmConnection : Run W (option error).

(** A result that only says why nothing was sent. *)
Definition not_sent (profileURL name message : string) (err : option error)
    : ConnectionResult :=
  {| ProfileURL := profileURL; Name := name; Success := false;
     Message := message; Error := err |}.

(** The result and the error [SendConnectionRequest] returns, and the
    manager it leaves behind. *)
Definition SendConnectionRequest (c : ConnectionManager) (profileURL note : string)
    : Run W ((option ConnectionResult * option error) * ConnectionManager) :=
  now <- outside clock ;;
  let '(can, c) := canSendConnection now c in
  if negb can then
    ret ((Some (not_sent profileURL "" "Rate limit reached" None), None), c)
  else
    '(exists_, _) <- ConnectionExists profileURL ;;
    if exists_ : bool then
      ret ((Some (not_sent profileURL "" "Connection already exists or pending" None),
            None), c)
    else
      e <- Navigate profileURL ;;
      match e with
      | Some err => ret ((Some (not_sent profileURL "" "" (Some err)), Some err), c)
      | None =>
      e <- SleepPageLoad O timing ;;
      match e with
      | Some err => ret ((None, Some err), c)
      | None =>
      name <- extractProfileName ;;
      e <- clickConnectButton ;;
      match e with
      | Some err =>
          ret ((Some (not_sent profileURL name
                        ("Failed to click connect: " ++ err) None), None), c)
      | None =>
      e <- SleepAction O timing ;;
      match e with
      | Some err => ret ((None, Some err), c)
      | None =>
      _ <- (if String.eqb note "" then ret None else addConnectionNote note) ;;
      e <- confirmConnection ;;
      match e with
      | Some err =>
          ret ((Some (not_sent profileURL name
                        ("Failed to confirm connection: " ++ err) None), None), c)
      | None =>
      requestedAt <- outside clock ;;
      _ <- AddConnection {| conn_ProfileURL := profileURL; conn_Name := name;
                            RequestedAt := requestedAt; Status := "pending";
                            Note := note |} ;;
      let c := incrementCount c in
      _ <- UpdateTodayStats ;;
      ret ((Some {| ProfileURL := profileURL; Name := name; Success := true;
                    Message := "Connection request sent"; Error := None |},
            None), c)
      end end end end end.

(** The loop of [ProcessProfiles] over the profiles that are left. *)
Fixpoint process_loop (c : ConnectionManager) (profiles : list Profile)
    (noteTemplate : string) (results : list ConnectionResult)
    : Run W ((list ConnectionResult * option error) * ConnectionManager) :=
  match profiles with
  | [] => ret ((results, None), c)
  | profile :: profiles' =>
      now <- outside clock ;;
      let '(can, c) := canSendConnection now c in
      if negb can then ret ((results, None), c)
      else
        let note := personalizeNote noteTemplate profile in
        '((result, _), c) <- SendConnectionRequest c (URL profile) note ;;
        let results :=
          match result with
          | Some r => results ++ [r]
          | None => results
          end in
        _ <- MarkProfileProcessed (URL profile) ;;
        e <- SleepThink O timing ;;
        match e with
        | Some err => ret ((results, Some err), c)
        | None => process_loop c profiles' noteTemplate results
        end
  end.

Definition ProcessProfiles (c : ConnectionManager) (profiles : list Profile)
    (noteTemplate : string)
    : Run W ((list ConnectionResult * option error) * ConnectionManager) :=
  process_loop c profiles noteTemplate [].

End Connections.

(** A manager within its limits, and the requests among the results that
    were sent. *)
Definition within_limits (c : ConnectionManager) : Prop :=
  0 <= dailyCount c <= DailyConnectionLimit (config c) /\
  0 <= hourlyCount c <= HourlyConnectionLimit (config c).

Definition sent (results : list ConnectionResult) : Z :=
  Z.of_nat (List.length (filter Success results)).

(** An outside in which the browser and the storage do as asked: no
    connection exists yet, every step succeeds, and the clock stands at
    ten o'clock on the 15th. *)
Definition ten_o_clock : Time :=
  {| Year := 2024; Month := 1; Day := 15;
     Hour := 10; Minute := 0; Second := 0; Nanosecond := 0 |}.

Definition fine {A : Type} (a : A) : Run Z A := fun w r => Ok ((a, w), r).

Definition two_profiles : list Profile :=
  [ {| URL := "https://www.linkedin.com/in/ada"; profile_Name := "Ada Lovelace";
       Title := "Analyst"; Company := "Analytical Engines"; Location := "London";
       Industry := "Computing" |};
    {| URL := "https://www.linkedin.com/in/grace"; profile_Name := "Grace Hopper";
       Title := "Rear Admiral"; Company := "Navy"; Location := "Arlington";
       Industry := "Computing" |} ].

Definition fine_send
    : ConnectionManager -> string -> string ->
      Run Z ((option ConnectionResult * option error) * ConnectionManager) :=
  SendConnectionRequest (quiet_outside Z) default_timing
    (fun w => (ten_o_clock, w))
    (fun _ => fine (false, None)) (fun _ => fine None) (fine tt)
    (fun _ => fine None) (fine "Ada Lovelace"%string) (fine None)
    (fun _ => fine None) (fine None).

Definition fine_batch
    : ConnectionManager -> list Profile -> string ->
      Run Z ((list ConnectionResult * option error) * ConnectionManager) :=
  ProcessProfiles (quiet_outside Z) default_timing
    (fun w => (ten_o_clock, w))
    (fun _ => fine (false, None)) (fun _ => fine None) (fine tt)
    (fun _ => fine None)
    (fun _ => fine None) (fine "Ada Lovelace"%string) (fine None)
    (fun _ => fine None) (fine None).

(** ** The durations of a scroll sequence

    What [calculateScrollDuration] gives for a distance: with smooth
    scrolling a whole number of milliseconds between 35% and 65% of the
    distance (half of it, varied by up to 30%), to within two; without, 50
    to 149 milliseconds.  A pause lasts 500 to 2499 milliseconds. *)
Definition scroll_duration (cfg : ScrollingConfig) (distance : Z) (d : Duration)
    : Prop :=
  if SmoothScrolling cfg then
    exists ms,
      d = ms * Millisecond /\ 0 <= ms /\
      7 * distance - 40 <= 20 * ms <= 13 * distance + 40
  else 50 * Millisecond <= d <= 149 * Millisecond.

Definition timed (cfg : ScrollingConfig) (a : ScrollAction) : Prop :=
  if String.eqb (Direction a) "pause" then
    Delta a = 0 /\ 500 * Millisecond <= action_Duration a <= 2499 * Millisecond
  else 3 <= Delta a /\ scroll_duration cfg (Delta a) (action_Duration a).

(** A string without an opening brace: no placeholder can begin in it. *)
Fixpoint brace_free (s : string) : bool :=
  match s with
  | EmptyString => true
  | String ch rest => negb (Ascii.eqb ch "{") && brace_free rest
  end.

(** The placeholders of a note template, and what [personalizeNote] puts
    in their place. *)
Definition placeholders (profile : Profile) : list (string * string) :=
  [ ("{{.FirstName}}", first_field (profile_Name profile));
    ("{{.Name}}", profile_Name profile);
    ("{{.Title}}", Title profile);
    ("{{.Company}}", Company profile);
    ("{{.Location}}", Location profile);
    ("{{.Industry}}", Industry profile) ]%string.

Definition plain_profile (profile : Profile) : Prop :=
  brace_free (profile_Name profile) = true /\
  brace_free (Title profile) = true /\
  brace_free (Company profile) = true /\
  brace_free (Location profile) = true /\
  brace_free (Industry profile) = true.

(** A template in pieces: text without an opening brace, and placeholders,
    given by their place in the list above.  [written j] is the template as
    it stands before the [j]-th replacement of [personalizeNote]: the
    placeholders before the [j]-th are filled in, the others still
    written out. *)
Inductive piece : Type :=
| Text (s : string)
| Field (k : nat).

Definition written (j : nat) (profile : Profile) (p : piece) : string :=
  match p with
  | Text s => s
  | Field k =>
      let ph := nth k (placeholders profile) (EmptyString, EmptyString) in
      if (k <? j)%nat then snd ph else fst ph
  end.

Definition render (f : piece -> string) (template : list piece) : string :=
  fold_right (fun p rest => (f p ++ rest)%string) EmptyString template.

Definition well_formed_piece (p : piece) : Prop :=
  match p with
  | Text s => brace_free s = true
  | Field k => (k < 6)%nat
  end.

(* ===================================================================== *)
(** * Part II.  Properties                                                 *)
(* ===================================================================== *)

(** The two powers of two of the [int] range, as numerals for [lia]. *)
Ltac int64_consts :=
  change (2 ^ 64) with 18446744073709551616 in *;
  change (2 ^ 63) with 9223372036854775808 in *.

(** ** The quota tracker *)

Section QuotaFacts.

Implicit Types (c : ConnectionManager) (now : Time).

Lemma checkAndResetCounts_same_slot c now :
  Day now = Day (lastReset c) -> Hour now = Hour (lastReset c) ->
  checkAndResetCounts now c = c.
Proof.
  intros Hd Hh. unfold checkAndResetCounts.
  rewrite Hd, Hh, !Z.eqb_refl. reflexivity.
Qed.

Lemma checkAndResetCounts_config c now :
  config (checkAndResetCounts now c) = config c.
Proof.
  unfold checkAndResetCounts.
  destruct (Day now =? Day (lastReset c)), (Hour now =? Hour (lastReset c));
    reflexivity.
Qed.

Lemma checkAndResetCounts_new_day c now :
  Day now <> Day (lastReset c) ->
  checkAndResetCounts now c =
  {| config := config c; dailyCount := 0; hourlyCount := 0; lastReset := now |}.
Proof.
  intros Hd. unfold checkAndResetCounts.
  destruct (Z.eqb_spec (Day now) (Day (lastReset c))); [contradiction | reflexivity].
Qed.

(** Within one day-of-month the daily counter survives a check, and the
    stamp stays on that day. *)
Lemma checkAndResetCounts_same_day c now :
  Day now = Day (lastReset c) ->
  dailyCount (checkAndResetCounts now c) = dailyCount c /\
  Day (lastReset (checkAndResetCounts now c)) = Day (lastReset c).
Proof.
  intros Hd. unfold checkAndResetCounts.
  rewrite Hd, Z.eqb_refl. simpl.
  destruct (Hour now =? Hour (lastReset c)); simpl; auto.
Qed.

(** A manager is unchanged by a check exactly when the clock reads the
    day-of-month and hour of the last reset. *)
Lemma checkAndResetCounts_fixed_iff c now :
  checkAndResetCounts now c = c <->
  Day now = Day (lastReset c) /\ Hour now = Hour (lastReset c).
Proof.
  split.
  - unfold checkAndResetCounts.
    destruct (Z.eqb_spec (Day now) (Day (lastReset c))) as [Hd | Hd]; simpl.
    + destruct (Z.eqb_spec (Hour now) (Hour (lastReset c))) as [Hh | Hh]; simpl.
      * auto.
      * intros E. apply (f_equal lastReset) in E. simpl in E.
        subst now. contradiction.
    + intros E. apply (f_equal lastReset) in E. simpl in E.
      subst now. contradiction.
  - intros [Hd Hh]. now apply checkAndResetCounts_same_slot.
Qed.

End QuotaFacts.

(** C10.  The reset decision reads only the day-of-month and the
    hour-of-day.  When the clock shows the day-of-month and hour of the
    last reset, whatever the month and year, the manager is left as it
    was: both counters and the stamp are unchanged.  And two clock
    readings that agree on day-of-month and hour leave the same
    counters. *)
Theorem C10_reset_reads_only_day_and_hour :
  forall (c : ConnectionManager) (now : Time),
    Day now = Day (lastReset c) -> Hour now = Hour (lastReset c) ->
    checkAndResetCounts now c = c /\
    (forall now' : Time,
        Day now' = Day now -> Hour now' = Hour now ->
        dailyCount (checkAndResetCounts now' c) = dailyCount c /\
        hourlyCount (checkAndResetCounts now' c) = hourlyCount c /\
        lastReset (checkAndResetCounts now' c) = lastReset c).
Proof.
  intros c now Hd Hh. split.
  - now apply checkAndResetCounts_same_slot.
  - intros now' Hd' Hh'.
    rewrite checkAndResetCounts_same_slot by congruence. auto.
Qed.

(** A manager last reset on 15 January 2024 at 10:05 with 25 requests
    counted, asked again on 15 February 2024 at 10:40: nothing is reset. *)
Lemma C10_one_month_later :
  let jan := mkTime 2024 1 15 10 5 0 0 in
  let feb := mkTime 2024 2 15 10 40 0 0 in
  let cfg := mkRateLimitConfig 25 5 50 10 100 0 0 0 in
  let c := mkConnectionManager cfg 25 5 jan in
  checkAndResetCounts feb c = c /\
  (forall now' : Time,
      Day now' = Day feb -> Hour now' = Hour feb ->
      dailyCount (checkAndResetCounts now' c) = dailyCount c /\
      hourlyCount (checkAndResetCounts now' c) = hourlyCount c /\
      lastReset (checkAndResetCounts now' c) = lastReset c).
Proof.
  intros jan feb cfg c.
  apply (C10_reset_reads_only_day_and_hour c feb); reflexivity.
Defined.

(** C4 as stated fails: a read on the day after the last reset zeroes both
    counters and moves the stamp. *)
Lemma C4_read_resets_on_a_new_day :
  let cfg := mkRateLimitConfig 25 5 50 10 100 0 0 0 in
  let c := mkConnectionManager cfg 7 3 (mkTime 2024 1 15 10 5 0 0) in
  let now := mkTime 2024 1 16 9 0 0 0 in
  fst (GetRemainingQuota now c) = (25, 5) /\
  dailyCount (snd (GetRemainingQuota now c)) <> dailyCount c /\
  hourlyCount (snd (GetRemainingQuota now c)) <> hourlyCount c /\
  lastReset (snd (GetRemainingQuota now c)) <> lastReset c.
Proof.
  cbv zeta. repeat split; vm_compute; discriminate.
Qed.

(** C4, amended.  [GetRemainingQuota] first runs the lazy reset, so it
    leaves the manager untouched exactly when the clock reads the
    day-of-month and hour of the last reset; on a new day-of-month it zeroes
    both counters, on a new hour the hourly one, and re-stamps.  The
    configuration is never touched, and the answer is the limits minus the
    counters as the reset leaves them. *)
Theorem C4_quota_read_runs_the_reset :
  forall (c : ConnectionManager) (now : Time),
    snd (GetRemainingQuota now c) = checkAndResetCounts now c /\
    (snd (GetRemainingQuota now c) = c <->
     Day now = Day (lastReset c) /\ Hour now = Hour (lastReset c)) /\
    config (snd (GetRemainingQuota now c)) = config c /\
    fst (GetRemainingQuota now c) =
      (sub64 (DailyConnectionLimit (config c))
         (dailyCount (checkAndResetCounts now c)),
       sub64 (HourlyConnectionLimit (config c))
         (hourlyCount (checkAndResetCounts now c))).
Proof.
  intros c now. unfold GetRemainingQuota. simpl.
  rewrite checkAndResetCounts_config.
  repeat split; try apply checkAndResetCounts_fixed_iff; auto.
Qed.

Section DailyLimit.

Implicit Types (c : ConnectionManager) (now : Time) (ks : list call).

Lemma wrap64_small z : in_int64 z -> wrap64 z = z.
Proof.
  unfold in_int64, min_int64, max_int64, wrap64. int64_consts. intros H.
  rewrite Z.mod_small; lia.
Qed.

Lemma wrap64_range z : in_int64 (wrap64 z).
Proof.
  unfold in_int64, min_int64, max_int64, wrap64. int64_consts.
  pose proof (Z.mod_pos_bound (z + 9223372036854775808) 18446744073709551616
                ltac:(lia)). lia.
Qed.

Lemma increments_cons k ks :
  increments (k :: ks) = (if is_increment k then 1 else 0) + increments ks.
Proof.
  unfold increments. cbn [filter].
  destruct (is_increment k); cbn [List.length]; lia.
Qed.

Lemma increments_nonneg ks : 0 <= increments ks.
Proof. unfold increments. lia. Qed.

(** Calls made within one calendar day keep the stamp on that day and add
    one to the daily counter per increment. *)
Lemma run_calls_within_day ks : forall c t,
  Day (lastReset c) = Day t ->
  within_day t ks ->
  0 <= dailyCount c ->
  dailyCount c + increments ks <= max_int64 ->
  Day (lastReset (run_calls ks c)) = Day t /\
  dailyCount (run_calls ks c) = dailyCount c + increments ks /\
  config (run_calls ks c) = config c.
Proof.
  induction ks as [| k ks IH]; intros c t Hday Hin Hpos Hmax.
  - unfold increments. simpl. repeat split; auto; lia.
  - inversion Hin as [| ? ? Hk Hks]; subst.
    rewrite increments_cons in Hmax |- *.
    pose proof (increments_nonneg ks) as Hn.
    assert (Hstep : Day (lastReset (perform c k)) = Day t /\
                    dailyCount (perform c k)
                    = dailyCount c + (if is_increment k then 1 else 0) /\
                    config (perform c k) = config c).
    { destruct k as [| now | now]; cbn [is_increment call_time perform] in *.
      - repeat split; auto.
        unfold add64. apply wrap64_small.
        unfold in_int64, min_int64, max_int64 in *. int64_consts. lia.
      - destruct Hk as (_ & _ & Hd).
        destruct (checkAndResetCounts_same_day c now) as [Hc Hl]; [congruence |].
        pose proof (checkAndResetCounts_config c now) as Hcfg.
        unfold canSendConnection.
        destruct (_ <=? _); [| destruct (_ <=? _)]; simpl;
          repeat split; auto; try lia; congruence.
      - destruct Hk as (_ & _ & Hd).
        destruct (checkAndResetCounts_same_day c now) as [Hc Hl]; [congruence |].
        pose proof (checkAndResetCounts_config c now) as Hcfg.
        unfold GetRemainingQuota; simpl. repeat split; auto; try lia; congruence. }
    destruct Hstep as (Hd1 & Hc1 & Hcfg1).
    change (run_calls (k :: ks) c) with (run_calls ks (perform c k)).
    destruct (IH (perform c k) t) as (Hd2 & Hc2 & Hcfg2); auto.
    + destruct (is_increment k); lia.
    + destruct (is_increment k); lia.
    + repeat split; auto; try congruence.
      rewrite Hc2, Hc1. lia.
Qed.

(** The date after a valid date has another day-of-month. *)
Lemma day_rollover_changes_day t now :
  valid_time t -> day_rollover t now -> Day now <> Day t.
Proof.
  unfold valid_time, day_rollover, next_date.
  intros (Hm & Hd & _) E.
  assert (28 <= days_in_month (Year t) (Month t)).
  { unfold days_in_month.
    destruct (Month t =? 2); [destruct (leap_year (Year t)); lia |].
    destruct (_ || _); lia. }
  destruct (Z.ltb_spec (Day t) (days_in_month (Year t) (Month t))).
  - injection E as _ _ E. lia.
  - destruct (Month t <? 12); injection E as _ _ E; lia.
Qed.

End DailyLimit.

(** C3.  Take a manager whose daily counter stands at zero (a fresh
    manager, or one just reset), and any calls that all read the clock on
    the calendar day of its stamp, exactly
    [DailyConnectionLimit] of them being [incrementCount].  Then
    [canSendConnection], asked on that day, answers false.  Asked on the
    following calendar day it answers true and leaves both counters at 0
    (the limits being positive). *)
Theorem C3_daily_limit_then_rollover :
  forall (c : ConnectionManager) (ks : list call),
    valid_time (lastReset c) ->
    dailyCount c = 0 ->
    0 < DailyConnectionLimit (config c) <= max_int64 ->
    0 < HourlyConnectionLimit (config c) ->
    within_day (lastReset c) ks ->
    increments ks = DailyConnectionLimit (config c) ->
    let c' := run_calls ks c in
    (forall now, same_calendar_day (lastReset c) now ->
                 fst (canSendConnection now c') = false) /\
    (forall now, day_rollover (lastReset c) now ->
                 fst (canSendConnection now c') = true /\
                 dailyCount (snd (canSendConnection now c')) = 0 /\
                 hourlyCount (snd (canSendConnection now c')) = 0).
Proof.
  intros c ks Hv H0 Hlim Hh Hin Hn c'.
  destruct (run_calls_within_day ks c (lastReset c)) as (Hd & Hc & Hcfg);
    auto; try lia.
  fold c' in Hd, Hc, Hcfg. split.
  - intros now (_ & _ & Hday).
    destruct (checkAndResetCounts_same_day c' now) as [Hcount _]; [congruence |].
    unfold canSendConnection.
    rewrite checkAndResetCounts_config, Hcount, Hc, Hcfg.
    destruct (Z.leb_spec (DailyConnectionLimit (config c)) (dailyCount c + increments ks));
      [reflexivity | lia].
  - intros now Hroll.
    pose proof (day_rollover_changes_day _ _ Hv Hroll) as Hne.
    unfold canSendConnection.
    rewrite checkAndResetCounts_new_day by congruence. simpl. rewrite Hcfg.
    destruct (Z.leb_spec (DailyConnectionLimit (config c)) 0); [lia |].
    destruct (Z.leb_spec (HourlyConnectionLimit (config c)) 0); [lia |].
    auto.
Qed.

(** A fresh manager with a daily limit of 3 and an hourly limit of 2: three
    requests spread over 15 January 2024, with checks in between. *)
Lemma C3_three_requests_in_a_day :
  let cfg := mkRateLimitConfig 3 2 50 10 100 0 0 0 in
  let at_ h m := mkTime 2024 1 15 h m 0 0 in
  let c := New cfg (at_ 9 0) in
  let ks := [CallCanSend (at_ 9 1); CallIncrement; CallCanSend (at_ 9 30);
             CallIncrement; CallQuota (at_ 11 0); CallCanSend (at_ 11 5);
             CallIncrement] in
  let c' := run_calls ks c in
  (forall now, same_calendar_day (lastReset c) now ->
               fst (canSendConnection now c') = false) /\
  (forall now, day_rollover (lastReset c) now ->
               fst (canSendConnection now c') = true /\
               dailyCount (snd (canSendConnection now c')) = 0 /\
               hourlyCount (snd (canSendConnection now c')) = 0).
Proof.
  intros cfg at_ c ks.
  apply (C3_daily_limit_then_rollover c ks).
  - vm_compute. repeat split; congruence.
  - reflexivity.
  - vm_compute. split; [reflexivity | discriminate].
  - reflexivity.
  - repeat constructor.
  - reflexivity.
Defined.

(** ** Generators: the rules of [returns] *)

Section ReturnsRules.

Context {A B : Type}.
Variable I : Rand -> Prop.

Lemma returns_ret (a : A) (P : A -> Prop) : P a -> returns I (ret a) P.
Proof. intros H r Hr. exists a, r. auto. Qed.

Lemma returns_bind (c : Gen A) (k : A -> Gen B) (P : A -> Prop) (Q : B -> Prop) :
  returns I c P ->
  (forall a, P a -> returns I (k a) Q) ->
  returns I (bind c k) Q.
Proof.
  intros Hc Hk r Hr.
  destruct (Hc r Hr) as (a & r1 & E & Hr1 & Ha).
  destruct (Hk a Ha r1 Hr1) as (b & r2 & E2 & Hr2 & Hb).
  exists b, r2. simpl. rewrite E. auto.
Qed.

Lemma returns_weaken (c : Gen A) (P Q : A -> Prop) :
  returns I c P -> (forall a, P a -> Q a) -> returns I c Q.
Proof.
  intros Hc HPQ r Hr. destruct (Hc r Hr) as (a & r1 & E & Hr1 & Ha).
  exists a, r1. auto.
Qed.

End ReturnsRules.

Lemma Rand_ok_advance r : Rand_ok r -> Rand_ok (advance r).
Proof. intros H i. apply H. Qed.

Lemma any_source_advance r : any_source r -> any_source (advance r).
Proof. auto. Qed.

Section DrawRules.

Variable I : Rand -> Prop.
Hypothesis I_advance : forall r, I r -> I (advance r).

Lemma returns_Intn n : 0 < n -> returns I (Intn n) (fun z => 0 <= z < n).
Proof.
  intros Hn r Hr. unfold Intn.
  destruct (Z.leb_spec n 0); [lia |].
  eexists _, _. repeat split; eauto; apply Z.mod_pos_bound; lia.
Qed.

Lemma returns_Int63n n : 0 < n -> returns I (Int63n n) (fun z => 0 <= z < n).
Proof.
  intros Hn r Hr. unfold Int63n.
  destruct (Z.leb_spec n 0); [lia |].
  eexists _, _. repeat split; eauto; apply Z.mod_pos_bound; lia.
Qed.

Lemma returns_Float64 : returns I Float64 (fun _ => True).
Proof. intros r Hr. unfold Float64. eexists _, _. eauto. Qed.

End DrawRules.

Lemma returns_Float64_unit : returns Rand_ok Float64 unit_interval.
Proof.
  intros r Hr. unfold Float64. eexists _, _.
  repeat split; try apply Rand_ok_advance; auto; apply Hr.
Qed.

(** ** Scrolling *)

(** Decide the direction tests on the literal directions of the actions. *)
Ltac eval_directions :=
  unfold signed_delta;
  cbn [Direction Delta];
  cbv [String.eqb Ascii.eqb Bool.eqb].

Section ScrollFacts.

Variable cfg : ScrollingConfig.
Variable I : Rand -> Prop.
Hypothesis I_advance : forall r, I r -> I (advance r).

Lemma direction_sum_app dir a b :
  direction_sum dir (a ++ b) = direction_sum dir a + direction_sum dir b.
Proof.
  unfold direction_sum. induction a as [| x a IH]; simpl; [reflexivity |].
  rewrite IH. lia.
Qed.

Lemma signed_sum_app a b : signed_sum (a ++ b) = signed_sum a + signed_sum b.
Proof.
  unfold signed_sum. induction a as [| x a IH]; simpl; [reflexivity |].
  rewrite IH. lia.
Qed.

Lemma direction_sum_one dir a :
  direction_sum dir [a] = if String.eqb (Direction a) dir then Delta a else 0.
Proof.
  unfold direction_sum. cbn [fold_right]. destruct (String.eqb _ _); lia.
Qed.

Lemma signed_sum_one a : signed_sum [a] = signed_delta a.
Proof. unfold signed_sum. cbn [fold_right]. lia. Qed.

Lemma sub64_exact a b : in_int64 (a - b) -> sub64 a b = a - b.
Proof. apply wrap64_small. Qed.

Lemma quot64_pos a b : 0 <= a <= max_int64 -> 0 < b -> quot64 a b = a / b.
Proof.
  intros Ha Hb. unfold quot64. rewrite Z.quot_div_nonneg by lia.
  apply wrap64_small. unfold in_int64, min_int64, max_int64 in *. int64_consts.
  pose proof (Z.div_pos a b ltac:(lia) Hb).
  pose proof (Z.div_le_upper_bound a b a Hb ltac:(nia)). lia.
Qed.

Lemma calculateScrollDuration_returns distance :
  returns I (calculateScrollDuration cfg distance) (fun _ => True).
Proof.
  unfold calculateScrollDuration. destruct (SmoothScrolling cfg).
  - eapply returns_bind; [apply returns_Float64; auto |].
    intros r _. now apply returns_ret.
  - eapply returns_bind; [apply returns_Intn; auto; lia |].
    intros n _. now apply returns_ret.
Qed.

(** The chunk is cut down to the remaining distance and then raised to 10:
    it lies between 10 and the larger of 10 and the remaining distance. *)
Lemma calculateScrollAmount_returns remaining speed :
  0 < quot64 speed 2 ->
  returns I (calculateScrollAmount remaining speed)
    (fun amount => 10 <= amount <= Z.max remaining 10).
Proof.
  intros Hs. unfold calculateScrollAmount.
  eapply returns_bind; [apply returns_Intn; auto |].
  intros n _. eapply returns_bind; [apply returns_Float64; auto |].
  intros r _. apply returns_ret.
  set (raw := int_of_float64 _). clearbody raw.
  destruct (Z.ltb_spec remaining raw);
    match goal with |- context [?x <? 10] => destruct (Z.ltb_spec x 10) end; lia.
Qed.

Hypothesis speeds : valid_speeds cfg.

Lemma scroll_turn_returns remaining :
  0 < remaining <= max_int64 ->
  returns I (scroll_turn cfg remaining) (turn_post remaining).
Proof.
  intros Hrem. unfold scroll_turn.
  destruct speeds as (Hmin & Hmm & Hmax).
  assert (Hspan : add64 (sub64 (MaxScrollSpeed cfg) (MinScrollSpeed cfg)) 1
                  = MaxScrollSpeed cfg - MinScrollSpeed cfg + 1).
  { unfold add64, sub64. rewrite !wrap64_small; try lia;
      unfold in_int64, min_int64, max_int64 in *; int64_consts;
      try rewrite wrap64_small;
      unfold in_int64, min_int64, max_int64 in *; int64_consts; lia. }
  rewrite Hspan.
  eapply returns_bind; [apply returns_Intn; auto; lia |].
  intros n Hn. cbv beta in Hn |- *.
  assert (Hspeed : add64 (MinScrollSpeed cfg) n = MinScrollSpeed cfg + n).
  { apply wrap64_small. unfold in_int64, min_int64, max_int64 in *.
    int64_consts. lia. }
  rewrite Hspeed.
  eapply returns_bind.
  { apply calculateScrollAmount_returns.
    rewrite quot64_pos by (unfold max_int64 in *; lia).
    apply Z.div_str_pos. lia. }
  intros amount Hamount. cbv beta in Hamount |- *.
  assert (Hback : quot64 amount 3 = amount / 3).
  { apply quot64_pos; unfold max_int64 in *; lia. }
  assert (Hleft : sub64 remaining amount = remaining - amount).
  { apply sub64_exact. unfold in_int64, min_int64, max_int64 in *.
    int64_consts. lia. }
  eapply returns_bind with
    (P := fun back => direction_sum "down" back = 0 /\
                      0 <= 3 * direction_sum "up" back <= amount /\
                      signed_sum back = - direction_sum "up" back).
  { destruct (_ <? remaining).
    - eapply returns_bind; [apply returns_Float64; auto |].
      intros r _. destruct (fltb r _).
      + eapply returns_bind; [apply calculateScrollDuration_returns; auto |].
        intros d _. apply returns_ret.
        rewrite Hback, !direction_sum_one, signed_sum_one. eval_directions.
        pose proof (Z.mul_div_le amount 3 ltac:(lia)).
        pose proof (Z.div_pos amount 3 ltac:(lia) ltac:(lia)).
        repeat split; try reflexivity; lia.
      + apply returns_ret. unfold direction_sum, signed_sum.
        cbn [fold_right]. lia.
    - apply returns_ret. unfold direction_sum, signed_sum.
      cbn [fold_right]. lia. }
  intros back (Hbd & Hbu & Hbs).
  eapply returns_bind; [apply calculateScrollDuration_returns; auto |].
  intros d _.
  eapply returns_bind; [apply returns_Float64; auto |].
  intros r _.
  eapply returns_bind with
    (P := fun pause => direction_sum "down" pause = 0 /\
                       direction_sum "up" pause = 0 /\
                       signed_sum pause = 0).
  { destruct (fltb r _).
    - eapply returns_bind; [apply returns_Intn; auto; lia |].
      intros k _. apply returns_ret.
      rewrite !direction_sum_one, signed_sum_one. eval_directions. auto.
    - apply returns_ret. unfold direction_sum, signed_sum.
      cbn [fold_right]. auto. }
  intros pause (Hpd & Hpu & Hps).
  apply returns_ret. exists amount. cbn [fst snd].
  rewrite !direction_sum_app, !signed_sum_app, Hbd, Hbs, Hpd, Hpu, Hps, Hleft.
  rewrite !direction_sum_one, signed_sum_one. eval_directions.
  repeat split; lia.
Qed.

(** The loop: with fuel for the remaining distance it returns; the forward
    deltas it adds cover the remaining distance and overshoot it by at most
    9; the reverse deltas it adds are at most a third of the forward ones. *)
Lemma scroll_loop_returns fuel : forall actions remaining,
  remaining <= Z.of_nat fuel ->
  -9 <= remaining <= max_int64 ->
  returns I (scroll_loop cfg fuel actions remaining)
    (fun out =>
       let down := direction_sum "down" out - direction_sum "down" actions in
       let up := direction_sum "up" out - direction_sum "up" actions in
       Z.max remaining 0 <= down <= Z.max remaining 0 + 9 /\
       (remaining <= 0 -> down = 0) /\
       0 <= 3 * up <= down /\
       signed_sum out - signed_sum actions = down - up).
Proof.
  induction fuel as [| fuel IH]; intros actions remaining Hfuel Hrem.
  - cbn [scroll_loop]. destruct (Z.ltb_spec 0 remaining); [lia |].
    apply returns_ret. cbv zeta. lia.
  - cbn [scroll_loop]. destruct (Z.ltb_spec 0 remaining).
    + eapply returns_bind; [apply scroll_turn_returns; lia |].
      intros [more remaining'] (amount & Ha & Hr & Hd & Hu & Hs).
      cbn [fst snd] in *. subst remaining'.
      eapply returns_weaken.
      * apply IH; lia.
      * cbv zeta. intros out.
        rewrite !direction_sum_app, signed_sum_app. lia.
    + apply returns_ret. cbv zeta. lia.
Qed.

End ScrollFacts.




(** ** Smooth scrolling *)

Section SmoothFacts.

Variable I : Rand -> Prop.
Hypothesis I_advance : forall r, I r -> I (advance r).

Lemma wrap64_congr a b :
  a mod 2 ^ 64 = b mod 2 ^ 64 -> wrap64 a = wrap64 b.
Proof.
  intros H. unfold wrap64.
  rewrite (Z.add_mod a), (Z.add_mod b), H by (int64_consts; lia). reflexivity.
Qed.

Lemma wrap64_mod a : wrap64 a mod 2 ^ 64 = a mod 2 ^ 64.
Proof.
  unfold wrap64. int64_consts.
  rewrite Zminus_mod, Zmod_mod, <- Zminus_mod.
  f_equal. lia.
Qed.

Lemma wrap64_add_l a b : wrap64 (wrap64 a + b) = wrap64 (a + b).
Proof.
  apply wrap64_congr. rewrite Z.add_mod, wrap64_mod, <- Z.add_mod;
    int64_consts; lia.
Qed.

Lemma wrap64_add_r a b : wrap64 (a + wrap64 b) = wrap64 (a + b).
Proof. rewrite (Z.add_comm a), wrap64_add_l. f_equal. lia. Qed.

Lemma wrap64_idem a : wrap64 (wrap64 a) = wrap64 a.
Proof. apply wrap64_small, wrap64_range. Qed.

Lemma fold_add64 l : forall a,
  fold_left add64 l (wrap64 a) = wrap64 (a + Zsum l).
Proof.
  induction l as [| x l IH]; intros a; cbn [fold_left Zsum fold_right].
  - f_equal. lia.
  - unfold add64 at 2. rewrite wrap64_add_l, IH. f_equal.
    unfold Zsum. lia.
Qed.

(** The Go sum is the mathematical sum wrapped to [int]. *)
Lemma sum64_Zsum l : sum64 l = wrap64 (Zsum l).
Proof.
  unfold sum64. change 0 with (wrap64 0) at 1. now rewrite fold_add64.
Qed.

Lemma Zsum_app a b : Zsum (a ++ b) = Zsum a + Zsum b.
Proof.
  unfold Zsum. induction a as [| x a IH]; cbn [app fold_right]; lia.
Qed.

Lemma Zsum_zeros k : Zsum (repeat 0 k) = 0.
Proof. unfold Zsum. induction k; cbn [repeat fold_right]; lia. Qed.

Lemma set_nth_length {A} (i : nat) (v : A) l :
  List.length (set_nth i v l) = List.length l.
Proof.
  revert i. induction l as [| x l IH]; intros [| i]; cbn [set_nth List.length];
    auto.
Qed.

Lemma set_nth_app {A} (done : list A) v x rest :
  set_nth (List.length done) v (done ++ x :: rest) = done ++ v :: rest.
Proof.
  induction done as [| y done IH]; cbn [List.length set_nth app]; [reflexivity |].
  now rewrite IH.
Qed.

(** One pass of the loop body writes entry [i] and keeps the invariant,
    whatever the float computation gives. *)
Lemma smooth_step_returns totalDelta numSteps n i st :
  (i < n <= 50)%nat ->
  Z.of_nat n = numSteps ->
  smooth_inv totalDelta n i st ->
  returns I (smooth_step totalDelta numSteps (Z.of_nat i) st)
    (smooth_inv totalDelta n (S i)).
Proof.
  intros [Hi Hn50] Hn (done & Hsteps & Hlen & Hsum & _).
  specialize (Hsum Hi).
  destruct st as [steps remaining]. cbn [fst snd] in *.
  assert (Hzeros : repeat 0 (n - i) = 0 :: repeat 0 (n - S i)).
  { replace (n - i)%nat with (S (n - S i)) by lia. reflexivity. }
  assert (Hlast : sub64 numSteps 1 = numSteps - 1).
  { apply sub64_exact. unfold in_int64, min_int64, max_int64.
    int64_consts. lia. }
  unfold smooth_step. rewrite Nat2Z.id, Hlast.
  assert (Hwrite : forall v,
             set_nth i v steps = (done ++ [v]) ++ repeat 0 (n - S i)).
  { intros v. rewrite Hsteps, Hzeros, <- Hlen, set_nth_app, <- app_assoc.
    reflexivity. }
  destruct (Z.eqb_spec (Z.of_nat i) (numSteps - 1)) as [Heq | Hne].
  - apply returns_ret. exists (done ++ [remaining]). cbn [fst snd].
    rewrite Hwrite, length_app, Zsum_app. cbn [List.length].
    repeat split; try lia.
    intros _. rewrite <- Hsum. f_equal. unfold Zsum. cbn [fold_right]. lia.
  - eapply returns_bind; [apply returns_Float64; auto |].
    intros r _.
    match goal with
    | |- returns _ (ret (set_nth _ ?s _, _)) _ => generalize s
    end.
    intros step. apply returns_ret. exists (done ++ [step]). cbn [fst snd].
    rewrite Hwrite, length_app, Zsum_app. cbn [List.length].
    repeat split; try lia.
    intros _. unfold sub64. rewrite wrap64_add_r, <- Hsum. f_equal.
    unfold Zsum. cbn [fold_right]. lia.
Qed.

Lemma smooth_loop_returns totalDelta numSteps n k : forall i st,
  (i + k = n)%nat -> (n <= 50)%nat ->
  Z.of_nat n = numSteps ->
  smooth_inv totalDelta n i st ->
  returns I (smooth_loop totalDelta numSteps (map Z.of_nat (seq i k)) st)
    (smooth_inv totalDelta n n).
Proof.
  induction k as [| k IH]; intros i st Hik Hn50 Hn Hinv;
    cbn [seq map smooth_loop].
  - apply returns_ret. replace i with n in Hinv by lia. exact Hinv.
  - eapply returns_bind.
    + apply (smooth_step_returns totalDelta numSteps n i st); auto. lia.
    + intros st' Hinv'. apply IH; auto. lia.
Qed.

Lemma smooth_numSteps_range totalDelta : 5 <= smooth_numSteps totalDelta <= 50.
Proof.
  unfold smooth_numSteps.
  set (raw := int_of_float64 _). clearbody raw.
  destruct (Z.ltb_spec raw 5);
    match goal with |- context [50 <? ?x] => destruct (Z.ltb_spec 50 x) end; lia.
Qed.

End SmoothFacts.



(** ** Typing *)

Section TypingFacts.

Variable U : Unicode.
Variable cfg : TypingConfig.
Variable I : Rand -> Prop.
Hypothesis I_advance : forall r, I r -> I (advance r).

(** [Int63n] is handed [MaxKeyDelay - MinKeyDelay], which has to be
    positive. *)
Hypothesis key_delays : 0 < sub64 (MaxKeyDelay cfg) (MinKeyDelay cfg).

Lemma calculateKeyDelay_returns char position text :
  returns I (calculateKeyDelay U cfg char position text) (fun _ => True).
Proof.
  unfold calculateKeyDelay.
  eapply returns_bind; [apply returns_Int63n; auto |].
  intros n _. eapply returns_bind; [apply returns_Float64; auto |].
  intros r _. now apply returns_ret.
Qed.

Lemma layout_lookup_nonempty r adjacent :
  layout_lookup r = Some adjacent -> (0 < List.length adjacent)%nat.
Proof.
  unfold layout_lookup.
  destruct (find _ keyboardLayout) as [kv |] eqn:E; [| discriminate].
  intros [= <-]. apply find_some in E. destruct E as [Hin _].
  assert (Hall : Forall (fun kv => (0 < List.length (bytes (snd kv)))%nat)
                   keyboardLayout).
  { repeat constructor. }
  rewrite Forall_forall in Hall. now apply Hall.
Qed.

Lemma generateTypo_returns char :
  returns I (generateTypo U char) (fun _ => True).
Proof.
  unfold generateTypo.
  destruct (layout_lookup _) as [adjacent |] eqn:E.
  - apply layout_lookup_nonempty in E.
    eapply returns_bind; [apply returns_Intn; auto; lia |].
    intros k _. destruct (IsUpper U char); now apply returns_ret.
  - now apply returns_ret.
Qed.

(** Replayed after anything typed so far, the keystrokes of one character
    add that character: a typo is typed and taken back before it. *)
Lemma keystrokes_at_returns runes i char :
  returns I (keystrokes_at U cfg runes i char)
    (fun more => forall typed, fold_left replay_step more typed = typed ++ [char]).
Proof.
  unfold keystrokes_at.
  eapply returns_bind; [apply calculateKeyDelay_returns |].
  intros delay _. eapply returns_bind; [apply returns_Float64; auto |].
  intros r _.
  eapply returns_bind with (P := fun _ => True).
  { destruct (fltb r _); [| now apply returns_ret].
    destruct (isWordBoundary U i runes); [| now apply returns_ret].
    eapply returns_bind; [apply returns_Intn; auto; lia |].
    intros n _. now apply returns_ret. }
  intros delay' _. eapply returns_bind; [apply returns_Float64; auto |].
  intros r' _. destruct (_ && _).
  - eapply returns_bind; [apply generateTypo_returns |].
    intros typoChar _.
    eapply returns_bind; [apply calculateKeyDelay_returns |].
    intros delay'' _. apply returns_ret. intros typed.
    cbn [fold_left]. unfold replay_step at 2 3. cbn [Backspace Char].
    unfold replay_step. cbn [Backspace Char].
    now rewrite removelast_last.
  - apply returns_ret. intros typed. reflexivity.
Qed.

Lemma replay_app a b : replay (a ++ b) = fold_left replay_step b (replay a).
Proof. unfold replay. apply fold_left_app. Qed.

Lemma keystrokes_loop_returns runes todo : forall i keystrokes,
  returns I (keystrokes_loop U cfg runes i todo keystrokes)
    (fun out => replay out = replay keystrokes ++ todo).
Proof.
  induction todo as [| char todo IH]; intros i keystrokes;
    cbn [keystrokes_loop].
  - apply returns_ret. now rewrite app_nil_r.
  - eapply returns_bind; [apply keystrokes_at_returns |].
    intros more Hmore. eapply returns_weaken; [apply IH |].
    intros out ->. rewrite replay_app, Hmore, <- app_assoc. reflexivity.
Qed.

End TypingFacts.

(** X3.  With typing enabled (and a key-delay range [Int63n] accepts) the
    replay of the keystrokes is the text, rune for rune, whatever the typo
    and think-pause chances and whatever the random source. *)
Theorem GenerateKeystrokes_enabled_replay :
  forall (U : Unicode) (cfg : TypingConfig) (text : string) (rng : Rand),
    typing_Enabled cfg = true ->
    0 < sub64 (MaxKeyDelay cfg) (MinKeyDelay cfg) ->
    exists keystrokes rng',
      GenerateKeystrokes U cfg text rng = Ok (keystrokes, rng') /\
      replay keystrokes = runes_of text.
Proof.
  intros U cfg text rng En Hdelays. unfold GenerateKeystrokes.
  rewrite En. cbn [negb].
  destruct (keystrokes_loop_returns U cfg any_source any_source_advance Hdelays
              (runes_of text) (runes_of text) 0 [] rng Logic.I)
    as (ks & rng' & E & _ & H).
  exists ks, rng'. split; [exact E | exact H].
Qed.

(** C2 fails on the disabled path for a text with a multi-byte character.
    The slice is made with [len(text)] entries, the number of bytes, and is
    filled at the byte offsets [range] yields; for the two bytes of U+00E9
    the entry at offset 1 keeps its zero value.  The replay types U+00E9
    and then U+0000: two characters for a text of one. *)
Theorem C2_disabled_typing_of_multibyte_text :
  forall rng : Rand,
    runes_of e_acute = [233] /\
    GenerateKeystrokes ascii_tables disabled_typing e_acute rng
    = Ok ([ {| Char := 233; Delay := 0; IsTypo := false; Backspace := false |};
            zero_KeyStroke ], rng) /\
    option_map replay
      (value (GenerateKeystrokes ascii_tables disabled_typing e_acute rng))
    = Some [233; 0].
Proof. intros rng. repeat split. Qed.

(** ** Floats: digits, shifts and rounding *)

Section FloatFacts.

Lemma digits2_pos_size p : digits2_pos p = Pos.size p.
Proof. induction p; simpl; congruence. Qed.

Lemma Zdigits2_bounds M : 0 < M -> 2 ^ (Zdigits2 M - 1) <= M < 2 ^ Zdigits2 M.
Proof.
  destruct M as [| p | p]; try lia. intros _. cbn [Zdigits2].
  rewrite digits2_pos_size.
  pose proof (Pos.size_gt p) as Hgt. pose proof (Pos.size_le p) as Hle.
  split.
  - assert (2 ^ Z.pos (Pos.size p) <= 2 * Z.pos p).
    { change 2 with (Z.pos 2) at 1. rewrite <- Pos2Z.inj_pow.
      change (2 * Z.pos p) with (Z.pos (p~0)). now apply Pos2Z.pos_le_pos. }
    replace (Z.pos (Pos.size p)) with (Z.succ (Z.pos (Pos.size p) - 1)) in H by lia.
    rewrite Z.pow_succ_r in H by lia. lia.
  - change 2 with (Z.pos 2). rewrite <- Pos2Z.inj_pow. now apply Pos2Z.pos_lt_pos.
Qed.

Lemma Zdigits2_nonneg M : 0 <= Zdigits2 M.
Proof. destruct M; simpl; lia. Qed.

Lemma Zdigits2_le M k : 0 <= k -> 0 <= M < 2 ^ k -> Zdigits2 M <= k.
Proof.
  intros Hk [H0 Hlt]. destruct (Z.eq_dec M 0) as [-> | Hne]; [simpl; lia |].
  pose proof (Zdigits2_bounds M ltac:(lia)) as [Hlo _].
  destruct (Z.le_gt_cases (Zdigits2 M) k) as [| Hgt]; [assumption |].
  exfalso. assert (2 ^ k <= 2 ^ (Zdigits2 M - 1)) by (apply Z.pow_le_mono_r; lia).
  lia.
Qed.

Lemma Zdigits2_ge M k : 0 < k -> 2 ^ (k - 1) <= M -> k <= Zdigits2 M.
Proof.
  intros Hk Hlo.
  assert (0 < M) by (pose proof (Z.pow_pos_nonneg 2 (k - 1)); lia).
  pose proof (Zdigits2_bounds M H) as [_ Hhi].
  destruct (Z.le_gt_cases k (Zdigits2 M)) as [| Hgt]; [assumption |].
  exfalso. assert (2 ^ Zdigits2 M <= 2 ^ (k - 1)) by (apply Z.pow_le_mono_r; lia).
  lia.
Qed.

Lemma shr_1_m mrs : 0 <= shr_m mrs -> shr_m (shr_1 mrs) = shr_m mrs / 2.
Proof.
  destruct mrs as [m r s]. cbn [shr_m]. intros Hm.
  destruct m as [| [p | p |] | p]; cbn [shr_1 shr_m]; try lia; try reflexivity.
  - apply Z.div_unique with 1; lia.
  - apply Z.div_unique with 0; lia.
Qed.

Lemma pow2_xO n : 2 ^ Z.pos n~0 = 2 ^ Z.pos n * 2 ^ Z.pos n.
Proof.
  replace (Z.pos n~0) with (Z.pos n + Z.pos n) by lia.
  now rewrite Z.pow_add_r by lia.
Qed.

Lemma pow2_xI n : 2 ^ Z.pos n~1 = 2 * (2 ^ Z.pos n * 2 ^ Z.pos n).
Proof.
  replace (Z.pos n~1) with (1 + (Z.pos n + Z.pos n)) by lia.
  rewrite Z.pow_add_r, Z.pow_add_r by lia. reflexivity.
Qed.

Lemma pow2_pos k : 0 <= k -> 0 < 2 ^ k.
Proof. intros. apply Z.pow_pos_nonneg; lia. Qed.

Lemma iter_shr_1_m n : forall mrs,
  0 <= shr_m mrs ->
  shr_m (iter_pos shr_1 n mrs) = shr_m mrs / 2 ^ Z.pos n.
Proof.
  induction n as [n IH | n IH |]; intros mrs Hm; cbn [iter_pos].
  - assert (H1 : 0 <= shr_m (shr_1 mrs)).
    { rewrite shr_1_m by assumption. apply Z.div_pos; lia. }
    assert (H2 : 0 <= shr_m (iter_pos shr_1 n (shr_1 mrs))).
    { rewrite IH by assumption. apply Z.div_pos; [lia | apply pow2_pos; lia]. }
    pose proof (pow2_pos (Z.pos n) ltac:(lia)).
    rewrite IH, IH, shr_1_m by assumption.
    rewrite !Z.div_div by lia. now rewrite pow2_xI.
  - assert (H2 : 0 <= shr_m (iter_pos shr_1 n mrs)).
    { rewrite IH by assumption. apply Z.div_pos; [lia | apply pow2_pos; lia]. }
    pose proof (pow2_pos (Z.pos n) ltac:(lia)).
    rewrite IH, IH by assumption.
    rewrite !Z.div_div by lia. now rewrite pow2_xO.
  - rewrite shr_1_m by assumption. reflexivity.
Qed.

(** The mantissa and exponent [shr_fexp] leaves. *)
Lemma shr_fexp_m M e l :
  0 <= M ->
  let n := fexp prec emax (Zdigits2 M + e) - e in
  shr_m (fst (shr_fexp prec emax M e l)) = M / 2 ^ Z.max n 0 /\
  snd (shr_fexp prec emax M e l) = e + Z.max n 0.
Proof.
  intros HM n. unfold shr_fexp. fold n.
  assert (Hrec : shr_m (shr_record_of_loc M l) = M).
  { destruct l as [| []]; reflexivity. }
  unfold shr. destruct n as [| p | p] eqn:En; cbn [fst snd].
  - rewrite Hrec. cbn. rewrite Z.div_1_r. split; lia.
  - rewrite iter_shr_1_m, Hrec by (rewrite Hrec; assumption).
    replace (Z.max (Z.pos p) 0) with (Z.pos p) by lia. auto.
  - rewrite Hrec. replace (Z.max (Z.neg p) 0) with 0 by lia.
    cbn. rewrite Z.div_1_r. split; lia.
Qed.

Lemma round_nearest_even_cases m l :
  round_nearest_even m l = m \/ round_nearest_even m l = m + 1.
Proof.
  destruct l as [| []]; cbn [round_nearest_even]; auto.
  destruct (Z.even m); auto.
Qed.

(** The two stages of [binary_round_aux] spelled out: shift to the target
    exponent, round to a neighbour, shift once more if the rounding carried. *)
Lemma binary_round_aux_stages s M e l :
  0 < M ->
  let n := Z.max (fexp prec emax (Zdigits2 M + e) - e) 0 in
  let e' := e + n in
  exists m1,
    (m1 = M / 2 ^ n \/ m1 = M / 2 ^ n + 1) /\
    let n2 := Z.max (fexp prec emax (Zdigits2 m1 + e') - e') 0 in
    binary_round_aux prec emax s M e l =
    match m1 / 2 ^ n2 with
    | 0 => S754_zero s
    | Z.pos m => if e' + n2 <=? emax - prec then S754_finite s m (e' + n2)
                 else S754_infinity s
    | Z.neg _ => S754_nan
    end.
Proof.
  intros HM n e'. unfold binary_round_aux.
  pose proof (shr_fexp_m M e l ltac:(lia)) as [Hm He]. cbv zeta in Hm, He.
  fold n in Hm, He. fold e' in He.
  destruct (shr_fexp prec emax M e l) as [mrs' e1]. cbn [fst snd] in Hm, He.
  subst e1.
  set (m1 := round_nearest_even (shr_m mrs') (loc_of_shr_record mrs')).
  assert (Hm1 : m1 = M / 2 ^ n \/ m1 = M / 2 ^ n + 1).
  { unfold m1. rewrite <- Hm. apply round_nearest_even_cases. }
  exists m1. split; [exact Hm1 |].
  assert (H0 : 0 <= m1).
  { assert (0 <= M / 2 ^ n) by (apply Z.div_pos; [lia | apply pow2_pos; lia]).
    lia. }
  pose proof (shr_fexp_m m1 e' loc_Exact H0) as [Hm2 He2]. cbv zeta in Hm2, He2.
  destruct (shr_fexp prec emax m1 e' loc_Exact) as [mrs'' e2].
  cbn [fst snd] in Hm2, He2. subst e2. rewrite Hm2. reflexivity.
Qed.

Lemma Zdigits2_div_pow2 M n :
  0 < M -> 0 <= n -> Zdigits2 (M / 2 ^ n) = Z.max (Zdigits2 M - n) 0.
Proof.
  intros HM Hn. pose proof (Zdigits2_bounds M HM) as [Hlo Hhi].
  pose proof (pow2_pos n Hn) as Hp.
  destruct (Z.le_gt_cases (Zdigits2 M) n) as [Hle | Hgt].
  - rewrite Z.div_small.
    + cbn. lia.
    + split; [lia |]. assert (2 ^ Zdigits2 M <= 2 ^ n) by (apply Z.pow_le_mono_r; lia).
      lia.
  - replace (Z.max (Zdigits2 M - n) 0) with (Zdigits2 M - n) by lia.
    apply Z.le_antisymm.
    + apply Zdigits2_le; [lia |]. split.
      * apply Z.div_pos; lia.
      * apply Z.div_lt_upper_bound; [lia |].
        rewrite <- Z.pow_add_r by lia. replace (n + (Zdigits2 M - n)) with (Zdigits2 M) by lia.
        assumption.
    + apply Zdigits2_ge; [lia |].
      apply Z.div_le_lower_bound; [lia |].
      rewrite <- Z.pow_add_r by lia. replace (n + (Zdigits2 M - n - 1)) with (Zdigits2 M - 1) by lia.
      assumption.
Qed.

Lemma Zdigits2_succ_le m : 0 <= m -> Zdigits2 (m + 1) <= Zdigits2 m + 1.
Proof.
  intros Hm. pose proof (Zdigits2_nonneg m).
  apply Zdigits2_le; [lia |].
  destruct (Z.eq_dec m 0) as [-> | Hne]; [cbn; lia |].
  pose proof (Zdigits2_bounds m ltac:(lia)) as [_ Hhi].
  rewrite Z.pow_add_r by lia. change (2 ^ 1) with 2. lia.
Qed.

Lemma Zdigits2_mono a b : 0 <= a <= b -> Zdigits2 a <= Zdigits2 b.
Proof.
  intros [Ha Hab]. destruct (Z.eq_dec b 0) as [-> | Hne].
  - replace a with 0 by lia. lia.
  - apply Zdigits2_le; [apply Zdigits2_nonneg |].
    pose proof (Zdigits2_bounds b ltac:(lia)). lia.
Qed.



(** Rounding a magnitude below [2^k] stays below [2^(k+1)]: no overflow
    while [k] is well inside the exponent range. *)
Lemma binary_round_aux_small s M e l k :
  0 < M -> Zdigits2 M + e <= k -> emin <= k -> k + 1 <= emax - prec ->
  small (k + 1) (binary_round_aux prec emax s M e l).
Proof.
  intros HM Hk Hlo Hhi.
  destruct (binary_round_aux_stages s M e l HM) as (m1 & Hm1 & E).
  cbv zeta in E, Hm1. rewrite E. clear E.
  set (n := Z.max (fexp prec emax (Zdigits2 M + e) - e) 0) in *.
  set (e' := e + n) in *.
  set (n2 := Z.max (fexp prec emax (Zdigits2 m1 + e') - e') 0).
  pose proof (Zdigits2_bounds M HM) as HdM.
  assert (Hd1 : 1 <= Zdigits2 M).
  { destruct M; cbn; lia. }
  assert (Hm' : 0 <= M / 2 ^ n) by (apply Z.div_pos; [lia | apply pow2_pos; lia]).
  assert (Hdm' : Zdigits2 (M / 2 ^ n) = Z.max (Zdigits2 M - n) 0)
    by (apply Zdigits2_div_pow2; lia).
  assert (H0 : 0 <= m1) by lia.
  assert (Hdm1 : Zdigits2 m1 <= Zdigits2 (M / 2 ^ n) + 1).
  { destruct Hm1 as [-> | ->]; [lia | now apply Zdigits2_succ_le]. }
  unfold fexp, emin, SpecFloat.emin, prec, emax in *.
  destruct (m1 / 2 ^ n2) as [| m | m] eqn:Eout; cbn [small]; auto.
  - assert (Hdout : Zdigits2 (m1 / 2 ^ n2) = Z.max (Zdigits2 m1 - n2) 0).
    { apply Zdigits2_div_pow2; [| lia].
      destruct (Z.eq_dec m1 0) as [-> | ]; [| lia].
      rewrite Z.div_0_l in Eout; [discriminate |].
      pose proof (pow2_pos n2 ltac:(lia)). lia. }
    rewrite Eout in Hdout.
    assert (1 <= Zdigits2 (Z.pos m)) by (cbn; lia).
    destruct (Z.leb_spec (e' + n2) (1024 - 53)); cbn [small]; lia.
  - pose proof (pow2_pos n2 ltac:(lia)).
    pose proof (Z.div_pos m1 (2 ^ n2) H0 ltac:(lia)). lia.
Qed.

Lemma binary_round_aux_sign s M e l :
  0 < M ->
  match binary_round_aux prec emax s M e l with
  | S754_zero s' | S754_finite s' _ _ | S754_infinity s' => s' = s
  | S754_nan => False
  end.
Proof.
  intros HM.
  destruct (binary_round_aux_stages s M e l HM) as (m1 & Hm1 & E).
  cbv zeta in E, Hm1. rewrite E. clear E.
  set (n := Z.max (fexp prec emax (Zdigits2 M + e) - e) 0) in *.
  set (n2 := Z.max _ 0).
  assert (0 <= M / 2 ^ n) by (apply Z.div_pos; [lia | apply pow2_pos; lia]).
  assert (0 <= m1 / 2 ^ n2) by (apply Z.div_pos; [lia | apply pow2_pos; lia]).
  destruct (m1 / 2 ^ n2); try lia; auto.
  destruct (_ <=? _); auto.
Qed.

Lemma iter_xO m d : Z.pos (Pos.iter xO m d) = Z.pos m * 2 ^ Z.pos d.
Proof.
  change (Pos.iter xO m d) with (shift_pos d m).
  rewrite shift_pos_correct, Z.pow_pos_fold. lia.
Qed.

(** [shl_align] lowers the exponent to the target, if it is lower, and
    scales the mantissa to keep the value. *)
Lemma shl_align_spec m e e2 :
  let '(mz, ez) := shl_align m e e2 in
  ez = Z.min e e2 /\ Z.pos mz = Z.pos m * 2 ^ (e - ez).
Proof.
  unfold shl_align. destruct (e2 - e) as [| d | d] eqn:Ed.
  - replace (Z.min e e2) with e by lia. rewrite Z.sub_diag. cbn. lia.
  - replace (Z.min e e2) with e by lia. rewrite Z.sub_diag. cbn. lia.
  - replace (Z.min e e2) with e2 by lia. split; [reflexivity |].
    rewrite iter_xO. f_equal. f_equal. lia.
Qed.

Lemma Zdigits2_mul_pow2 M j :
  0 < M -> 0 <= j -> Zdigits2 (M * 2 ^ j) = Zdigits2 M + j.
Proof.
  intros HM Hj. pose proof (Zdigits2_bounds M HM) as [Hlo Hhi].
  pose proof (pow2_pos j Hj). pose proof (Zdigits2_nonneg M).
  assert (1 <= Zdigits2 M) by (destruct M; cbn; lia).
  apply Z.le_antisymm.
  - apply Zdigits2_le; [lia |]. split; [nia |].
    rewrite Z.pow_add_r by lia. nia.
  - apply Zdigits2_ge; [lia |].
    replace (Zdigits2 M + j - 1) with (Zdigits2 M - 1 + j) by lia.
    rewrite Z.pow_add_r by lia. nia.
Qed.

Lemma binary_round_small s m e k :
  Zdigits2 (Z.pos m) + e <= k -> emin <= k -> k + 1 <= emax - prec ->
  small (k + 1) (binary_round prec emax s m e).
Proof.
  intros Hk Hlo Hhi. unfold binary_round.
  pose proof (shl_align_spec m e (fexp prec emax (Z.pos (digits2_pos m) + e))) as H.
  destruct (shl_align _ _ _) as [mz ez]. destruct H as [Hez Hmz].
  apply binary_round_aux_small; try lia.
  rewrite Hmz, Zdigits2_mul_pow2 by lia. lia.
Qed.

Lemma binary_round_sign s m e :
  match binary_round prec emax s m e with
  | S754_zero s' | S754_finite s' _ _ | S754_infinity s' => s' = s
  | S754_nan => False
  end.
Proof.
  unfold binary_round. destruct (shl_align _ _ _) as [mz ez].
  apply binary_round_aux_sign. lia.
Qed.

Lemma binary_normalize_small M e k :
  Zdigits2 M + e <= k -> emin <= k -> k + 1 <= emax - prec ->
  small (k + 1) (binary_normalize prec emax M e false).
Proof.
  intros Hk Hlo Hhi. destruct M as [| p | p]; cbn [binary_normalize small]; auto;
    apply binary_round_small; auto.
Qed.

(** The product of two small floats is small: no overflow. *)
Lemma fmul_small a b x y :
  small a x -> small b y -> emin <= a + b -> a + b + 1 <= emax - prec ->
  small (a + b + 1) (x * y)%f64.
Proof.
  intros Hx Hy Hlo Hhi.
  destruct x as [sx | sx | | sx mx ex], y as [sy | sy | | sy my ey];
    cbn [small] in *; try contradiction; cbn [fmul SFmul small]; auto.
  unfold fmul. cbn [SFmul].
  apply binary_round_aux_small; try lia.
  pose proof (Zdigits2_bounds (Z.pos mx) ltac:(lia)) as [_ Hx1].
  pose proof (Zdigits2_bounds (Z.pos my) ltac:(lia)) as [_ Hy1].
  pose proof (Zdigits2_nonneg (Z.pos mx)). pose proof (Zdigits2_nonneg (Z.pos my)).
  assert (Zdigits2 (Z.pos (mx * my)) <= Zdigits2 (Z.pos mx) + Zdigits2 (Z.pos my)).
  { apply Zdigits2_le; [lia |]. rewrite Pos2Z.inj_mul, Z.pow_add_r by lia. nia. }
  lia.
Qed.

Lemma aligned_sum_digits sx mx ex sy my ey a b (sub : bool) :
  Zdigits2 (Z.pos mx) + ex <= a -> Zdigits2 (Z.pos my) + ey <= b ->
  let ez := Z.min ex ey in
  let u := cond_Zopp sx (Z.pos (fst (shl_align mx ex ez))) in
  let v := cond_Zopp sy (Z.pos (fst (shl_align my ey ez))) in
  Zdigits2 (if sub then u - v else u + v) + ez <= Z.max a b + 1.
Proof.
  intros Hx Hy ez u v.
  pose proof (shl_align_spec mx ex ez) as H1.
  pose proof (shl_align_spec my ey ez) as H2.
  subst u v. destruct (shl_align mx ex ez) as [mx' ex'], (shl_align my ey ez) as [my' ey'].
  cbn [fst]. destruct H1 as [He1 Hm1], H2 as [He2 Hm2].
  assert (ex' = ez) by (unfold ez in *; lia).
  assert (ey' = ez) by (unfold ez in *; lia). subst ex' ey'.
  replace (Z.min ex ez) with ez in Hm1 by (unfold ez; lia).
  replace (Z.min ey ez) with ez in Hm2 by (unfold ez; lia).
  assert (Hdx : Zdigits2 (Z.pos mx') = Zdigits2 (Z.pos mx) + (ex - ez)).
  { rewrite Hm1. apply Zdigits2_mul_pow2; unfold ez; lia. }
  assert (Hdy : Zdigits2 (Z.pos my') = Zdigits2 (Z.pos my) + (ey - ez)).
  { rewrite Hm2. apply Zdigits2_mul_pow2; unfold ez; lia. }
  pose proof (Zdigits2_bounds (Z.pos mx') ltac:(lia)) as [_ Hbx].
  pose proof (Zdigits2_bounds (Z.pos my') ltac:(lia)) as [_ Hby].
  set (K := Z.max a b + 1 - ez).
  assert (HK : 0 <= K - 1).
  { pose proof (Zdigits2_nonneg (Z.pos mx)). assert (1 <= Zdigits2 (Z.pos mx)) by (cbn; lia).
    unfold K, ez. lia. }
  assert (Hpx : 2 ^ Zdigits2 (Z.pos mx') <= 2 ^ (K - 1)) by (apply Z.pow_le_mono_r; unfold K; lia).
  assert (Hpy : 2 ^ Zdigits2 (Z.pos my') <= 2 ^ (K - 1)) by (apply Z.pow_le_mono_r; unfold K; lia).
  assert (Hpow : 2 ^ K = 2 * 2 ^ (K - 1)).
  { replace K with (1 + (K - 1)) at 1 by lia. rewrite Z.pow_add_r by lia. reflexivity. }
  assert (Habs : forall w, Z.abs w < 2 ^ K -> Zdigits2 w <= K).
  { intros w Hw. destruct w as [| p | p]; cbn [Zdigits2]; [lia | |].
    - apply (Zdigits2_le (Z.pos p)); lia.
    - change (Z.pos (digits2_pos p)) with (Zdigits2 (Z.pos p)).
      apply (Zdigits2_le (Z.pos p)); lia. }
  assert (Zdigits2 (if sub then cond_Zopp sx (Z.pos mx') - cond_Zopp sy (Z.pos my')
                    else cond_Zopp sx (Z.pos mx') + cond_Zopp sy (Z.pos my')) <= K).
  { apply Habs. destruct sub, sx, sy; cbn [cond_Zopp]; lia. }
  unfold K in *. lia.
Qed.

(** The sum and the difference of two small floats are small. *)
Lemma fadd_small a b x y :
  small a x -> small b y -> emin <= Z.max a b + 1 -> Z.max a b + 2 <= emax - prec ->
  small (Z.max a b + 2) (x + y)%f64.
Proof.
  intros Hx Hy Hlo Hhi.
  destruct x as [sx | sx | | sx mx ex], y as [sy | sy | | sy my ey];
    cbn [small] in *; try contradiction; unfold fadd; cbn [SFadd small]; try lia.
  - destruct sx, sy; cbn [small]; auto.
  - replace (Z.max a b + 2) with (Z.max a b + 1 + 1) by lia.
    apply binary_normalize_small; try lia.
    apply (aligned_sum_digits sx mx ex sy my ey a b false); assumption.
Qed.

Lemma fsub_small a b x y :
  small a x -> small b y -> emin <= Z.max a b + 1 -> Z.max a b + 2 <= emax - prec ->
  small (Z.max a b + 2) (x - y)%f64.
Proof.
  intros Hx Hy Hlo Hhi.
  destruct x as [sx | sx | | sx mx ex], y as [sy | sy | | sy my ey];
    cbn [small] in *; try contradiction; unfold fsub; cbn [SFsub small]; try lia.
  - destruct sx, sy; cbn [small]; auto.
  - replace (Z.max a b + 2) with (Z.max a b + 1 + 1) by lia.
    apply binary_normalize_small; try lia.
    apply (aligned_sum_digits sx mx ex sy my ey a b true); assumption.
Qed.

Lemma small_weaken a b x : a <= b -> small a x -> small b x.
Proof. intros Hab. destruct x; cbn [small]; auto. lia. Qed.

Lemma f1_eq : f1 = S754_finite false 4503599627370496 (-52).
Proof. vm_compute. reflexivity. Qed.

(** A draw of [Float64] is below 1 in magnitude. *)
Lemma unit_interval_small r : unit_interval r -> small 0 r.
Proof.
  intros (Hv & H0 & H1). rewrite f1_eq in H1.
  destruct r as [s | s | | s m e]; cbn [small]; auto.
  - destruct s; [discriminate H0 | discriminate H1].
  - discriminate H1.
  - cbn [valid_binary] in Hv. unfold bounded, canonical_mantissa in Hv.
    apply andb_prop in Hv. destruct Hv as [Hc _]. apply Z.eqb_eq in Hc.
    change (Z.pos (digits2_pos m)) with (Zdigits2 (Z.pos m)) in Hc.
    unfold fexp, SpecFloat.emin, prec, emax in Hc.
    destruct s; [discriminate H0 |].
    unfold fltb, SFltb in H1. cbn [SFcompare] in H1.
    destruct (Z.compare_spec e (-52)) as [-> | Hlt | Hgt];
      [| clear H0 H1; lia | discriminate H1].
    assert (Ec : Z.pos m < 4503599627370496).
    { apply Pos2Z.pos_lt_pos. unfold Pos.lt, Pos.compare.
      destruct (Pos.compare_cont Eq m 4503599627370496);
        [discriminate H1 | reflexivity | discriminate H1]. }
    clear H0 H1.
    assert (Zdigits2 (Z.pos m) <= 52).
    { apply Zdigits2_le; [lia |]. change (2 ^ 52) with 4503599627370496. lia. }
    lia.
Qed.

(** A small float times zero is a zero. *)
Lemma fmul_zero_r k x s : small k x -> exists s', (x * S754_zero s)%f64 = S754_zero s'.
Proof.
  destruct x; cbn [small]; try contradiction; intros _; eexists; reflexivity.
Qed.

Lemma fmul_zero_l k x s : small k x -> exists s', (S754_zero s * x)%f64 = S754_zero s'.
Proof.
  destruct x; cbn [small]; try contradiction; intros _; eexists; reflexivity.
Qed.

Lemma fadd_pzero_zero s : (f0 + S754_zero s)%f64 = f0.
Proof. destruct s; reflexivity. Qed.


End FloatFacts.

Lemma smallb_small k x : smallb k x = true -> small k x.
Proof.
  destruct x; cbn [smallb small]; auto; try discriminate. apply Z.leb_le.
Qed.

(** Smallness of a closed float, by evaluation. *)
Ltac small_closed := apply smallb_small; vm_compute; reflexivity.



(** An interior control point: base position plus the perpendicular
    deviation; it does not overflow. *)
Lemma control_coordinate_small A K G r :
  small 10 A -> small 1 K -> small 10 G -> unit_interval r ->
  small 20 (A + K * (G * (r - lit 5 10)))%f64.
Proof.
  intros HA HK HG Hr. apply unit_interval_small in Hr.
  assert (H5 : small 0 (lit 5 10)) by small_closed.
  pose proof (fsub_small 0 0 r (lit 5 10) Hr H5) as H1.
  cbn [Z.max] in H1. specialize (H1 ltac:(unfold emin, SpecFloat.emin, prec, emax; lia)
                                    ltac:(unfold prec, emax; lia)).
  pose proof (fmul_small 10 _ G _ HG H1) as H2.
  specialize (H2 ltac:(unfold emin, SpecFloat.emin, prec, emax; lia)
                 ltac:(unfold prec, emax; lia)).
  pose proof (fmul_small 1 _ K _ HK H2) as H3.
  specialize (H3 ltac:(unfold emin, SpecFloat.emin, prec, emax; lia)
                 ltac:(unfold prec, emax; lia)).
  pose proof (fadd_small 10 _ A _ HA H3) as H4.
  specialize (H4 ltac:(unfold emin, SpecFloat.emin, prec, emax; lia)
                 ltac:(unfold prec, emax; lia)).
  eapply small_weaken; [| exact H4]. lia.
Qed.


Lemma nth_set_nth {A} (l : list A) : forall i j v d,
  nth j (set_nth i v l) d =
  if (j =? i)%nat && (i <? List.length l)%nat then v else nth j l d.
Proof.
  induction l as [| x l IH]; intros [| i] [| j] v d; cbn [set_nth nth List.length];
    try reflexivity.
  - destruct (_ =? _)%nat; reflexivity.
  - rewrite IH. reflexivity.
Qed.

(** The loop over the interior control points draws once per point; the
    points it writes are small, the other entries are left as they were. *)
Lemma control_loop_returns start dx dy distance : forall todo points r,
  (forall i, In i todo ->
     0 <= i /\
     small 10 (X start + dx * (float64_of_int i
                 / float64_of_int (Z.of_nat (List.length points) - 1)))%f64 /\
     small 10 (Y start + dy * (float64_of_int i
                 / float64_of_int (Z.of_nat (List.length points) - 1)))%f64) ->
  small 1 (- dy / distance)%f64 -> small 1 (dx / distance)%f64 ->
  small 10 (distance * lit 3 10)%f64 ->
  Rand_ok r ->
  exists out,
    control_loop start dx dy distance todo points r
    = Ok (out, Nat.iter (List.length todo) advance r) /\
    List.length out = List.length points /\
    forall j,
      (In (Z.of_nat j) todo -> (j < List.length points)%nat ->
       small_Point 20 (nth j out zero_Point)) /\
      (~ In (Z.of_nat j) todo -> nth j out zero_Point = nth j points zero_Point).
Proof.
  induction todo as [| i todo IH]; intros points r Hbase Hkx Hky Hg Hr;
    cbn [control_loop].
  - exists points. split; [reflexivity |]. split; [reflexivity |].
    intros j. split; [intros [] | auto].
  - destruct (Hbase i (or_introl eq_refl)) as (Hi & Hax & Hay).
    cbn [bind Monad_Gen]. unfold Float64 at 1.
    match goal with
    | |- context [control_loop _ _ _ _ _ (set_nth _ ?p _)] => set (c := p)
    end.
    assert (Hc : small_Point 20 c).
    { split; cbn [X Y c]; apply control_coordinate_small; auto; apply Hr. }
    clearbody c.
    assert (Hbase' : forall k, In k todo ->
              0 <= k /\
              small 10 (X start + dx * (float64_of_int k
                / float64_of_int
                    (Z.of_nat (List.length (set_nth (Z.to_nat i) c points)) - 1)))%f64 /\
              small 10 (Y start + dy * (float64_of_int k
                / float64_of_int
                    (Z.of_nat (List.length (set_nth (Z.to_nat i) c points)) - 1)))%f64).
    { rewrite set_nth_length. intros k Hk. apply Hbase. now right. }
    destruct (IH (set_nth (Z.to_nat i) c points) (advance r) Hbase' Hkx Hky Hg
                (Rand_ok_advance r Hr)) as (out & E & Hlen & Hout).
    exists out. rewrite E. rewrite set_nth_length in Hlen.
    split; [| split; [exact Hlen |]].
    { f_equal. f_equal. cbn [List.length]. now rewrite Nat.iter_succ_r. }
    intros j. destruct (Hout j) as [Hin Hnot].
    destruct (in_dec Z.eq_dec (Z.of_nat j) todo) as [Hj | Hj].
    + split; [intros _ Hlt; apply Hin; [assumption | now rewrite set_nth_length] |].
      intros Hn. exfalso. apply Hn. now right.
    + rewrite (Hnot Hj), nth_set_nth. split.
      * intros [-> | Hj'] Hlt; [| contradiction].
        rewrite Nat2Z.id, Nat.eqb_refl.
        destruct (Nat.ltb_spec j (List.length points)); [exact Hc | lia].
      * intros Hn.
        destruct (Nat.eqb_spec j (Z.to_nat i)) as [-> | Hne]; [| reflexivity].
        exfalso. apply Hn. left. lia.
Qed.

Section PathFacts.

Variable cfg : MouseMovementConfig.
Hypothesis complexity3 : BezierComplexity cfg = 3.

Lemma generateControlPoints_corner r :
  Rand_ok r ->
  exists c1 c2 c3,
    generateControlPoints cfg origin far_corner r
    = Ok ([origin; c1; c2; c3; far_corner], advance (advance (advance r))) /\
    small_Point 20 c1 /\ small_Point 20 c2 /\ small_Point 20 c3.
Proof.
  intros Hr. unfold generateControlPoints. rewrite complexity3.
  replace (add64 (if 3 <? 2 then 2 else 3) 2) with 5 by (vm_compute; reflexivity).
  change (5 <? 0) with false. cbv iota.
  replace (Sqrt _ == f0)%f64 with false by (vm_compute; reflexivity).
  change (repeat zero_Point (Z.to_nat 5))
    with [zero_Point; zero_Point; zero_Point; zero_Point; zero_Point].
  cbn [List.length set_nth Nat.sub].
  change (map (fun i => i + 1) (indices 3)) with [1; 2; 3].
  match goal with
  | |- context [control_loop ?s ?dx ?dy ?d ?todo ?pts r] =>
      destruct (control_loop_returns s dx dy d todo pts r) as (out & E & Hlen & Hout);
        try small_closed; auto
  end.
  { intros i [<- | [<- | [<- | []]]]; (split; [lia |]); split; small_closed. }
  cbn [List.length] in Hlen.
  destruct out as [| p0 [| c1 [| c2 [| c3 [| p4 [| ? ?]]]]]]; try discriminate Hlen.
  exists c1, c2, c3.
  pose proof (proj2 (Hout 0%nat)) as H0. pose proof (proj2 (Hout 4%nat)) as H4.
  pose proof (proj1 (Hout 1%nat)) as H1. pose proof (proj1 (Hout 2%nat)) as H2.
  pose proof (proj1 (Hout 3%nat)) as H3.
  cbn [nth List.length] in *.
  rewrite H0, H4 in E.
  - rewrite E. repeat split; try (apply H1 || apply H2 || apply H3); cbn; auto; lia.
  - cbn. intros [H | [H | [H | []]]]; discriminate H.
  - cbn. intros [H | [H | [H | []]]]; discriminate H.
Qed.

Lemma bezierPoint_5 p0 p1 p2 p3 p4 t :
  bezierPoint [p0; p1; p2; p3; p4] t =
  {| X := (f0 + X p0 * bernstein 4 0 t + X p1 * bernstein 4 1 t
           + X p2 * bernstein 4 2 t + X p3 * bernstein 4 3 t
           + X p4 * bernstein 4 4 t)%f64;
     Y := (f0 + Y p0 * bernstein 4 0 t + Y p1 * bernstein 4 1 t
           + Y p2 * bernstein 4 2 t + Y p3 * bernstein 4 3 t
           + Y p4 * bernstein 4 4 t)%f64 |}.
Proof. reflexivity. Qed.

Lemma hd_map_indices {A} (f : Z -> A) n d : hd d (map f (indices (S n))) = f 0.
Proof. reflexivity. Qed.

Lemma last_map_indices {A} (f : Z -> A) n d :
  List.last (map f (indices (S n))) d = f (Z.of_nat n).
Proof.
  unfold indices. rewrite seq_S, !map_app. cbn [map]. now rewrite last_last.
Qed.

Lemma bezier_corner_endpoints c1 c2 c3 :
  small_Point 20 c1 -> small_Point 20 c2 -> small_Point 20 c3 ->
  bezierPoint [origin; c1; c2; c3; far_corner]
    (applyEasing (float64_of_int 0 / float64_of_int 200)%f64) = origin /\
  bezierPoint [origin; c1; c2; c3; far_corner]
    (applyEasing (float64_of_int (Z.of_nat 200) / float64_of_int 200)%f64)
  = far_corner.
Proof.
  intros [H1x H1y] [H2x H2y] [H3x H3y].
  destruct (fmul_zero_r 20 (X c1) false H1x) as [s1x E1x].
  destruct (fmul_zero_r 20 (Y c1) false H1y) as [s1y E1y].
  destruct (fmul_zero_r 20 (X c2) false H2x) as [s2x E2x].
  destruct (fmul_zero_r 20 (Y c2) false H2y) as [s2y E2y].
  destruct (fmul_zero_r 20 (X c3) false H3x) as [s3x E3x].
  destruct (fmul_zero_r 20 (Y c3) false H3y) as [s3y E3y].
  split; rewrite bezierPoint_5.
  - replace (bernstein 4 0 _) with f1 by (vm_compute; reflexivity).
    replace (bernstein 4 1 _) with (S754_zero false) by (vm_compute; reflexivity).
    replace (bernstein 4 2 _) with (S754_zero false) by (vm_compute; reflexivity).
    replace (bernstein 4 3 _) with (S754_zero false) by (vm_compute; reflexivity).
    replace (bernstein 4 4 _) with (S754_zero false) by (vm_compute; reflexivity).
    rewrite E1x, E1y, E2x, E2y, E3x, E3y.
    replace (f0 + X origin * f1)%f64 with f0 by (vm_compute; reflexivity).
    replace (f0 + Y origin * f1)%f64 with f0 by (vm_compute; reflexivity).
    rewrite !fadd_pzero_zero. vm_compute. reflexivity.
  - replace (bernstein 4 0 _) with (S754_zero false) by (vm_compute; reflexivity).
    replace (bernstein 4 1 _) with (S754_zero false) by (vm_compute; reflexivity).
    replace (bernstein 4 2 _) with (S754_zero false) by (vm_compute; reflexivity).
    replace (bernstein 4 3 _) with (S754_zero false) by (vm_compute; reflexivity).
    replace (bernstein 4 4 _) with f1 by (vm_compute; reflexivity).
    rewrite E1x, E1y, E2x, E2y, E3x, E3y.
    replace (f0 + X origin * S754_zero false)%f64 with f0 by (vm_compute; reflexivity).
    replace (f0 + Y origin * S754_zero false)%f64 with f0 by (vm_compute; reflexivity).
    rewrite !fadd_pzero_zero. vm_compute. reflexivity.
Qed.

Lemma generateBezierPath_corner r :
  Rand_ok r ->
  exists path,
    generateBezierPath cfg origin far_corner 200 r
    = Ok (path, advance (advance (advance r))) /\
    List.length path = 201%nat /\
    hd zero_Point path = origin /\
    List.last path zero_Point = far_corner.
Proof.
  intros Hr. unfold generateBezierPath. cbn [bind Monad_Gen].
  destruct (generateControlPoints_corner r Hr) as (c1 & c2 & c3 & E & H1 & H2 & H3).
  rewrite E. cbn [ret Monad_Gen].
  destruct (bezier_corner_endpoints c1 c2 c3 H1 H2 H3) as [Hfirst Hlast].
  eexists. split; [reflexivity |].
  change (Z.to_nat 200 + 1)%nat with 201%nat.
  split; [| split].
  - unfold indices. now rewrite length_map, length_map, length_seq.
  - rewrite hd_map_indices. exact Hfirst.
  - rewrite last_map_indices. exact Hlast.
Qed.

Lemma path_numSteps_corner : path_numSteps origin far_corner = 200.
Proof. vm_compute. reflexivity. Qed.

End PathFacts.

(** C6 as stated fails on the number of points: the curve is sampled at
    the parameter values i/200 for i = 0, ..., 200, both ends included,
    which makes 201 points, one more than the 200 the claim allows. *)
Lemma C6_the_example_has_201_points :
  option_map (@List.length Point)
    (value (GeneratePath
              (mkMouseMovementConfig true (lit 5 10) (lit 2 1) false false 3)
              origin far_corner (constant_tape 7 (lit 1 4))))
  = Some 201%nat.
Proof. vm_compute. reflexivity. Qed.

(** C6, amended.  For start (0,0), end (1000,800), complexity 3, overshoot
    and micro-movements disabled, and every random source, [GeneratePath]
    returns a path of exactly 201 points, the step count 200 plus one; its
    first point is exactly (0,0) and its last point exactly (1000,800). *)
Theorem C6_path_of_the_example :
  forall (cfg : MouseMovementConfig) (rng : Rand),
    mouse_Enabled cfg = true -> BezierComplexity cfg = 3 ->
    OvershootEnabled cfg = false -> MicroMovements cfg = false ->
    Rand_ok rng ->
    exists path rng',
      GeneratePath cfg origin far_corner rng = Ok (path, rng') /\
      List.length path = 201%nat /\
      hd zero_Point path = origin /\
      List.last path zero_Point = far_corner.
Proof.
  intros cfg rng En Hc Ho Hm Hr. unfold GeneratePath.
  rewrite En, Ho, Hm, path_numSteps_corner. cbn [negb bind Monad_Gen].
  destruct (generateBezierPath_corner cfg Hc rng Hr) as (path & E & H).
  rewrite E. cbn [ret Monad_Gen]. eauto.
Qed.

(** ** The overshoot *)

Section OvershootFacts.

Variable cfg : MouseMovementConfig.

(** Between two equal points the control points are the two points: the
    zero-distance guard returns before any draw. *)
Lemma generateControlPoints_far_corner r :
  BezierComplexity cfg = 3 ->
  generateControlPoints cfg far_corner far_corner r
  = Ok ([far_corner; far_corner], r).
Proof.
  intros Hc. unfold generateControlPoints. rewrite Hc.
  replace (add64 (if 3 <? 2 then 2 else 3) 2) with 5 by (vm_compute; reflexivity).
  change (5 <? 0) with false. cbv iota.
  replace (Sqrt _ == f0)%f64 with true by (vm_compute; reflexivity).
  reflexivity.
Qed.

(** The corrective curve from the target to the target: 21 points, the
    last of them the target. *)
Lemma correction_path_far_corner r :
  BezierComplexity cfg = 3 ->
  exists correction,
    generateBezierPath cfg far_corner far_corner 20 r = Ok (correction, r) /\
    List.length correction = 21%nat /\
    List.last (tl correction) zero_Point = far_corner.
Proof.
  intros Hc. unfold generateBezierPath. cbn [bind Monad_Gen].
  rewrite generateControlPoints_far_corner by assumption.
  cbn [ret Monad_Gen]. eexists. split; [reflexivity |].
  split; vm_compute; reflexivity.
Qed.

Lemma fadd_finite_zero s m e s' :
  (S754_finite s m e + S754_zero s')%f64 = S754_finite s m e.
Proof. reflexivity. Qed.

Lemma fdiv_zero_finite s s' m e :
  (S754_zero s / S754_finite s' m e)%f64 = S754_zero (xorb s s').
Proof. reflexivity. Qed.

(** The excess, 5 plus up to 15 percent, is a small float. *)
Lemma overshootDistance_small unit_draw :
  unit_interval unit_draw ->
  small 10 (float64_of_int 5 + unit_draw * float64_of_int 15)%f64.
Proof.
  intros Hr. apply unit_interval_small in Hr.
  assert (H15 : small 4 (float64_of_int 15)) by small_closed.
  assert (H5 : small 3 (float64_of_int 5)) by small_closed.
  assert (H1 : small (0 + 4 + 1) (unit_draw * float64_of_int 15)%f64).
  { apply fmul_small; auto; unfold emin, SpecFloat.emin, prec, emax; lia. }
  assert (H2 : small (Z.max 3 (0 + 4 + 1) + 2)
                 (float64_of_int 5 + unit_draw * float64_of_int 15)%f64).
  { apply fadd_small; auto; unfold emin, SpecFloat.emin, prec, emax; lia. }
  eapply small_weaken; [| exact H2]. lia.
Qed.

(** From a path that ends at the target, the "overshoot" goes nowhere:
    the difference between target and last point is zero, so the point
    appended is the target itself, and the corrective curve runs from the
    target to the target. *)
Lemma addOvershoot_far_corner path r :
  BezierComplexity cfg = 3 ->
  path <> [] ->
  List.last path zero_Point = far_corner ->
  unit_interval (unit (current r)) ->
  exists correction,
    addOvershoot cfg path far_corner r
    = Ok (path ++ far_corner :: correction, advance r) /\
    List.length correction = 20%nat /\
    List.last correction zero_Point = far_corner.
Proof.
  intros Hc Hne Hlast Hr. unfold addOvershoot.
  destruct path as [| p path']; [contradiction |].
  rewrite Hlast. cbn [bind Monad_Gen]. unfold Float64 at 1.
  set (od := (float64_of_int 5 + unit (current r) * float64_of_int 15)%f64).
  pose proof (overshootDistance_small _ Hr) as Hod. fold od in Hod.
  replace (X far_corner - X far_corner)%f64 with (S754_zero false)
    by (vm_compute; reflexivity).
  replace (Y far_corner - Y far_corner)%f64 with (S754_zero false)
    by (vm_compute; reflexivity).
  destruct (fmul_zero_l 10 od false Hod) as [s E]. rewrite E.
  replace (float64_of_int 100) with (S754_finite false 7036874417766400 (-46))
    by (vm_compute; reflexivity).
  rewrite fdiv_zero_finite.
  replace (X far_corner) with (S754_finite false 8796093022208000 (-43))
    by (vm_compute; reflexivity).
  replace (Y far_corner) with (S754_finite false 7036874417766400 (-43))
    by (vm_compute; reflexivity).
  rewrite !fadd_finite_zero.
  change {| X := S754_finite false 8796093022208000 (-43);
            Y := S754_finite false 7036874417766400 (-43) |} with far_corner.
  destruct (correction_path_far_corner (advance r) Hc) as (corr & E' & Hlen & Hl).
  rewrite E'. cbn [ret Monad_Gen].
  exists (tl corr). split; [| split].
  - rewrite <- app_assoc. reflexivity.
  - destruct corr; [discriminate Hlen |]. cbn [tl List.length] in *. lia.
  - exact Hl.
Qed.

End OvershootFacts.

(** C7: the code at (0,0), (1000,800), complexity 3, overshoot enabled,
    micro-movements disabled.  Whenever the overshoot branch runs (the
    fourth draw of the run, after the three of the interior control points,
    is below 0.3), the path has 222 points and ends exactly at the target,
    as the claim says; but the overshoot point, at index 201, is the target
    itself: [addOvershoot] measures the excess along the vector from the
    last point of the path to the target, and that last point already is
    the target, so the excess of 5 to 20 percent is taken of a distance of
    zero.  For every random source. *)
Theorem C7_overshoot_point_is_the_target :
  forall (cfg : MouseMovementConfig) (rng : Rand),
    mouse_Enabled cfg = true -> BezierComplexity cfg = 3 ->
    OvershootEnabled cfg = true -> MicroMovements cfg = false ->
    Rand_ok rng ->
    (unit (current (advance (advance (advance rng)))) <? lit 3 10)%f64 = true ->
    exists path rng',
      GeneratePath cfg origin far_corner rng = Ok (path, rng') /\
      List.length path = 222%nat /\
      nth 200 path zero_Point = far_corner /\
      nth 201 path zero_Point = far_corner /\
      List.last path zero_Point = far_corner.
Proof.
  intros cfg rng En Hc Ho Hm Hr Hdraw. unfold GeneratePath.
  rewrite En, Ho, Hm, path_numSteps_corner. cbn [negb bind Monad_Gen].
  destruct (generateBezierPath_corner cfg Hc rng Hr) as (path & E & Hlen & _ & Hlast).
  rewrite E. unfold Float64 at 1. rewrite Hdraw.
  assert (Hne : path <> []) by (destruct path; [discriminate Hlen | discriminate]).
  destruct (addOvershoot_far_corner cfg path (advance (advance (advance (advance rng))))
              Hc Hne Hlast) as (corr & E' & Hclen & Hclast).
  { apply Hr. }
  rewrite E'. cbn [ret Monad_Gen]. eexists _, _. split; [reflexivity |].
  assert (H200 : nth 200 path zero_Point = far_corner).
  { rewrite <- Hlast. destruct path as [| p path'] using rev_ind; [contradiction |].
    rewrite last_last. rewrite length_app in Hlen. cbn [List.length] in Hlen.
    rewrite app_nth2 by lia. replace (200 - List.length path')%nat with 0%nat by lia.
    reflexivity. }
  repeat split.
  - rewrite length_app. cbn [List.length]. lia.
  - rewrite app_nth1 by lia. exact H200.
  - rewrite app_nth2 by lia. rewrite Hlen. reflexivity.
  - destruct corr as [| q corr'] using rev_ind; [discriminate Hclen |].
    rewrite last_last in Hclast. subst q.
    rewrite app_comm_cons, app_assoc. apply last_last.
Qed.

Lemma Rand_ok_constant_tape z u : unit_interval u -> Rand_ok (constant_tape z u).
Proof. intros H i. exact H. Qed.

Lemma unit_interval_quarter : unit_interval (lit 1 4).
Proof. repeat split; vm_compute; reflexivity. Qed.

(** The example on a tape whose draws are all 0.25. *)
Lemma C6_example_run :
  exists path rng',
    GeneratePath (mkMouseMovementConfig true (lit 5 10) (lit 2 1) false false 3)
      origin far_corner (constant_tape 7 (lit 1 4)) = Ok (path, rng') /\
    List.length path = 201%nat /\
    hd zero_Point path = origin /\
    List.last path zero_Point = far_corner.
Proof.
  apply (C6_path_of_the_example
           (mkMouseMovementConfig true (lit 5 10) (lit 2 1) false false 3)
           (constant_tape 7 (lit 1 4))); try reflexivity.
  apply Rand_ok_constant_tape, unit_interval_quarter.
Defined.

(** The same example with the overshoot enabled, on a tape whose draws are
    all 0.25: the fourth draw is below 0.3 and the overshoot branch runs. *)
Lemma C7_overshoot_run :
  exists path rng',
    GeneratePath (mkMouseMovementConfig true (lit 5 10) (lit 2 1) true false 3)
      origin far_corner (constant_tape 7 (lit 1 4)) = Ok (path, rng') /\
    List.length path = 222%nat /\
    nth 200 path zero_Point = far_corner /\
    nth 201 path zero_Point = far_corner /\
    List.last path zero_Point = far_corner.
Proof.
  apply (C7_overshoot_point_is_the_target
           (mkMouseMovementConfig true (lit 5 10) (lit 2 1) true false 3)
           (constant_tape 7 (lit 1 4))); try reflexivity.
  apply Rand_ok_constant_tape, unit_interval_quarter.
Defined.

(** ** Floats: exact cases *)

Section ExactFacts.

Lemma shr_1_r mrs :
  0 <= shr_m mrs -> shr_r (shr_1 mrs) = Z.testbit (shr_m mrs) 0.
Proof.
  destruct mrs as [m r s]. cbn [shr_m]. intros Hm.
  destruct m as [| [p | p |] | p]; cbn [shr_1 shr_r]; try reflexivity; lia.
Qed.

(** After [n] shifts the round bit is bit [n-1] of the mantissa. *)
Lemma iter_shr_1_r n : forall mrs,
  0 <= shr_m mrs ->
  shr_r (iter_pos shr_1 n mrs) = Z.testbit (shr_m mrs) (Z.pos n - 1).
Proof.
  induction n as [n IH | n IH |]; intros mrs Hm; cbn [iter_pos].
  - assert (H1 : 0 <= shr_m (shr_1 mrs)).
    { rewrite shr_1_m by assumption. apply Z.div_pos; lia. }
    assert (H2 : 0 <= shr_m (iter_pos shr_1 n (shr_1 mrs))).
    { rewrite iter_shr_1_m by assumption. apply Z.div_pos; [lia | apply pow2_pos; lia]. }
    rewrite IH, iter_shr_1_m, shr_1_m by assumption.
    rewrite Z.div_div by (try apply pow2_pos; lia).
    replace (2 * 2 ^ Z.pos n) with (2 ^ (Z.pos n + 1)).
    + rewrite Z.div_pow2_bits by lia. f_equal. lia.
    + rewrite Z.pow_add_r by lia. lia.
  - assert (H2 : 0 <= shr_m (iter_pos shr_1 n mrs)).
    { rewrite iter_shr_1_m by assumption. apply Z.div_pos; [lia | apply pow2_pos; lia]. }
    rewrite IH, iter_shr_1_m by assumption.
    rewrite Z.div_pow2_bits by lia. f_equal. lia.
  - now apply shr_1_r.
Qed.

(** Rounding from an exact location: the mantissa is rounded up only if
    the highest bit shifted out is set. *)
Lemma binary_round_aux_stages_exact s M e :
  0 < M ->
  let n := Z.max (fexp prec emax (Zdigits2 M + e) - e) 0 in
  let e' := e + n in
  exists m1,
    (m1 = M / 2 ^ n \/
     (m1 = M / 2 ^ n + 1 /\ 0 < n /\ Z.testbit M (n - 1) = true)) /\
    let n2 := Z.max (fexp prec emax (Zdigits2 m1 + e') - e') 0 in
    binary_round_aux prec emax s M e loc_Exact =
    match m1 / 2 ^ n2 with
    | 0 => S754_zero s
    | Z.pos m => if e' + n2 <=? emax - prec then S754_finite s m (e' + n2)
                 else S754_infinity s
    | Z.neg _ => S754_nan
    end.
Proof.
  intros HM n e'. unfold binary_round_aux.
  pose proof (shr_fexp_m M e loc_Exact ltac:(lia)) as [Hm He]. cbv zeta in Hm, He.
  fold n in Hm, He. fold e' in He.
  set (k := fexp prec emax (Zdigits2 M + e) - e) in *.
  assert (Hk : n = Z.max k 0) by reflexivity. clearbody n.
  assert (Hr : 0 < n -> shr_r (fst (shr_fexp prec emax M e loc_Exact))
                        = Z.testbit M (n - 1)).
  { intros Hn. unfold shr_fexp. fold k. unfold shr. cbn [shr_record_of_loc].
    destruct k as [| p | p] eqn:En; try lia.
    cbn [fst]. rewrite iter_shr_1_r by (cbn; lia). cbn [shr_m].
    f_equal. lia. }
  assert (H0n : n = 0 -> fst (shr_fexp prec emax M e loc_Exact)
                        = Build_shr_record M false false).
  { intros Hn. unfold shr_fexp. fold k. unfold shr. cbn [shr_record_of_loc].
    destruct k as [| p | p] eqn:En; try lia; reflexivity. }
  destruct (shr_fexp prec emax M e loc_Exact) as [mrs' e1]. cbn [fst snd] in *.
  subst e1.
  set (m1 := round_nearest_even (shr_m mrs') (loc_of_shr_record mrs')).
  assert (Hm1 : m1 = M / 2 ^ n \/
                (m1 = M / 2 ^ n + 1 /\ 0 < n /\ Z.testbit M (n - 1) = true)).
  { destruct (Z.eq_dec n 0) as [Hn | Hn].
    - left. unfold m1. rewrite (H0n Hn). cbn. rewrite Hn. cbn. now rewrite Z.div_1_r.
    - assert (Hpos : 0 < n) by lia.
      specialize (Hr Hpos). unfold m1. rewrite <- Hm.
      destruct mrs' as [m' r' s']. cbn [shr_r shr_m] in *.
      destruct r'.
      + destruct (round_nearest_even_cases m' (loc_of_shr_record (Build_shr_record m' true s')))
          as [-> | ->]; auto.
      + left. destruct s'; reflexivity. }
  exists m1. split; [exact Hm1 |].
  assert (H0 : 0 <= m1).
  { assert (0 <= M / 2 ^ n) by (apply Z.div_pos; [lia | apply pow2_pos; lia]).
    destruct Hm1 as [-> | [-> _]]; lia. }
  pose proof (shr_fexp_m m1 e' loc_Exact H0) as [Hm2 He2]. cbv zeta in Hm2, He2.
  destruct (shr_fexp prec emax m1 e' loc_Exact) as [mrs'' e2].
  cbn [fst snd] in Hm2, He2. subst e2. rewrite Hm2. reflexivity.
Qed.

(** Multiplying a binary64 value by one gives it back. *)
Lemma fmul_one s m e :
  bounded prec emax m e = true ->
  (S754_finite s m e * f1)%f64 = S754_finite s m e.
Proof.
  intros Hb. unfold bounded, canonical_mantissa in Hb.
  apply andb_prop in Hb. destruct Hb as [Hc Hmax].
  apply Z.eqb_eq in Hc. apply Z.leb_le in Hmax.
  change (Z.pos (digits2_pos m)) with (Zdigits2 (Z.pos m)) in Hc.
  rewrite f1_eq. unfold fmul. cbn [SFmul]. rewrite Bool.xorb_false_r.
  set (M := Z.pos (m * 4503599627370496)).
  assert (HM : M = Z.pos m * 2 ^ 52) by (unfold M; rewrite Pos2Z.inj_mul; reflexivity).
  assert (HdM : Zdigits2 M = Zdigits2 (Z.pos m) + 52).
  { rewrite HM. apply Zdigits2_mul_pow2; lia. }
  destruct (binary_round_aux_stages_exact s M (e + -52) ltac:(unfold M; lia))
    as (m1 & Hm1 & E).
  cbv zeta in Hm1, E. rewrite E. clear E.
  replace (Zdigits2 M + (e + -52)) with (Zdigits2 (Z.pos m) + e) in * by lia.
  rewrite Hc in *.
  replace (Z.max (e - (e + -52)) 0) with 52 in * by lia.
  assert (Hq : M / 2 ^ 52 = Z.pos m).
  { rewrite HM. apply Z.div_mul. lia. }
  assert (Hbit : Z.testbit M (52 - 1) = false).
  { rewrite HM. apply Z.mul_pow2_bits_low. lia. }
  assert (m1 = Z.pos m).
  { destruct Hm1 as [-> | (_ & _ & Hb)]; [exact Hq | congruence]. }
  subst m1. replace (e + -52 + 52) with e by lia.
  rewrite Hc. replace (Z.max (e - e) 0) with 0 by lia.
  cbn [Z.pow]. rewrite Z.div_1_r, Z.add_0_r.
  destruct (Z.leb_spec e (emax - prec)); [reflexivity | lia].
Qed.

(** The difference of a finite float with itself is [+0]. *)
Lemma fsub_diag x :
  match x with S754_zero _ | S754_finite _ _ _ => True | _ => False end ->
  (x - x)%f64 = f0.
Proof.
  destruct x as [[] | | | s m e]; try contradiction; intros _; try reflexivity.
  unfold fsub. cbn [SFsub]. rewrite Z.sub_diag. reflexivity.
Qed.

End ExactFacts.

(** ** Zero-distance paths *)

Section SignFacts.

Lemma feqb_same x y :
  finite64 x -> finite64 y -> (x == y)%f64 = true -> same_value x y.
Proof.
  intros [_ Hx] [_ Hy]. unfold feqb, SFeqb.
  destruct x as [sx | | | sx mx ex], y as [sy | | | sy my ey];
    try contradiction; cbn [SFcompare same_value]; auto.
  - destruct sy; intros H; discriminate H.
  - destruct sx; intros H; discriminate H.
  - destruct sx, sy; try (intros Hd; discriminate Hd);
      destruct (Z.compare_spec ex ey) as [-> | |]; cbv beta iota;
      try (intros Hd; discriminate Hd);
      destruct (Pos.compare_cont Eq mx my) eqn:Ec; cbn [CompOpp]; cbv beta iota;
      try (intros Hd; discriminate Hd);
      intros _; apply (Pos.compare_eq mx my) in Ec; subst my; reflexivity.
Qed.

Lemma fsub_same x y :
  finite64 x -> finite64 y -> same_value x y ->
  exists s, (y - x)%f64 = S754_zero s.
Proof.
  intros [_ Hx] [_ Hy].
  destruct x as [sx | | | sx mx ex], y as [sy | | | sy my ey];
    try contradiction; cbn [same_value]; intros E; try discriminate E.
  - destruct sx, sy; eexists; reflexivity.
  - injection E as <- <- <-. exists false. apply fsub_diag. exact I.
Qed.

Lemma signed_not_NaN s x : signed s x -> IsNaN x = false.
Proof. destruct x; cbn; auto. contradiction. Qed.

Lemma binary_normalize_signed s M e :
  0 < M ->
  signed s (binary_normalize prec emax (cond_Zopp s M) e false).
Proof.
  intros HM. destruct M as [| p | p]; try lia.
  destruct s; cbn [cond_Zopp Z.opp binary_normalize].
  - pose proof (binary_round_sign true p e) as H.
    destruct (binary_round prec emax true p e); cbn [signed]; auto.
  - pose proof (binary_round_sign false p e) as H.
    destruct (binary_round prec emax false p e); cbn [signed]; auto.
Qed.

Lemma binary_normalize_not_NaN M e :
  IsNaN (binary_normalize prec emax M e false) = false.
Proof.
  destruct M as [| p | p]; cbn [binary_normalize]; [reflexivity | |].
  - pose proof (binary_round_sign false p e) as H.
    destruct (binary_round prec emax false p e); auto. contradiction.
  - pose proof (binary_round_sign true p e) as H.
    destruct (binary_round prec emax true p e); auto. contradiction.
Qed.

(** A finite coordinate times a weight keeps the sign of the coordinate. *)
Lemma fmul_weight_signed s x w :
  finite64 x -> signed s x -> weight w = true -> signed s (x * w)%f64.
Proof.
  intros [_ Hx] Hs Hw.
  destruct x as [sx | | | sx mx ex]; try contradiction;
    destruct w as [sw | | | [] mw ew]; try discriminate Hw;
    unfold fmul; cbn [SFmul signed]; auto.
  cbn [signed] in Hs. subst sx. rewrite Bool.xorb_false_r.
  pose proof (binary_round_aux_sign s (Z.pos (mx * mw)) (ex + ew) loc_Exact
                ltac:(lia)) as H.
  destruct (binary_round_aux prec emax s (Z.pos (mx * mw)) (ex + ew) loc_Exact);
    cbn [signed]; auto.
Qed.

(** Adding two floats of one sign gives that sign, and no NaN. *)
Lemma fadd_signed s x y : signed s x -> signed s y -> signed s (x + y)%f64.
Proof.
  intros Hx Hy.
  destruct x as [sx | sx | | sx mx ex], y as [sy | sy | | sy my ey];
    cbn [signed] in *; try contradiction; unfold fadd; cbn [SFadd signed]; auto.
  - destruct sx, sy; exact I.
  - subst sx sy. destruct s; reflexivity.
  - subst sx sy.
    set (a := fst (shl_align mx ex (Z.min ex ey))).
    set (b := fst (shl_align my ey (Z.min ex ey))).
    replace (cond_Zopp s (Z.pos a) + cond_Zopp s (Z.pos b))
      with (cond_Zopp s (Z.pos (a + b))) by (destruct s; cbn [cond_Zopp]; lia).
    apply binary_normalize_signed. lia.
Qed.

(** Adding a small float to a float that is not NaN gives no NaN. *)
Lemma fadd_small_not_NaN k x j :
  IsNaN x = false -> small k j -> IsNaN (x + j)%f64 = false.
Proof.
  intros Hx Hj.
  destruct x as [sx | sx | | sx mx ex], j as [sj | sj | | sj mj ej];
    cbn [small] in Hj; try contradiction; try discriminate Hx;
    unfold fadd; cbn [SFadd IsNaN]; auto.
  - destruct sx, sj; reflexivity.
  - apply binary_normalize_not_NaN.
Qed.

Lemma same_value_signed x y :
  finite64 x -> finite64 y -> same_value x y -> exists s, signed s x /\ signed s y.
Proof.
  intros [_ Hx] [_ Hy].
  destruct x as [sx | | | sx mx ex], y as [sy | | | sy my ey];
    try contradiction; cbn [same_value]; intros E; try discriminate E.
  - exists false. split; exact I.
  - injection E as <- <- <-. exists sx. split; reflexivity.
Qed.

End SignFacts.

Section ZeroDistanceFacts.

Variable cfg : MouseMovementConfig.
Hypothesis complexity_fits : BezierComplexity cfg <= max_int64 - 2.

Lemma bezierPoint_2 a b t :
  bezierPoint [a; b] t =
  {| X := (f0 + X a * bernstein 1 0 t + X b * bernstein 1 1 t)%f64;
     Y := (f0 + Y a * bernstein 1 0 t + Y b * bernstein 1 1 t)%f64 |}.
Proof. reflexivity. Qed.

(** The zero-distance guard: between two points that compare equal the
    control points are the two points, and nothing is drawn. *)
Lemma generateControlPoints_same start end_ r :
  (exists s, (X end_ - X start)%f64 = S754_zero s) ->
  (exists s, (Y end_ - Y start)%f64 = S754_zero s) ->
  generateControlPoints cfg start end_ r = Ok ([start; end_], r).
Proof.
  intros [sx Ex] [sy Ey]. unfold generateControlPoints.
  set (c := if BezierComplexity cfg <? 2 then 2 else BezierComplexity cfg).
  pose proof complexity_fits as Hfit. unfold max_int64 in Hfit.
  assert (Hc : 2 <= c <= 2 ^ 63 - 3).
  { unfold c. destruct (Z.ltb_spec (BezierComplexity cfg) 2); int64_consts; lia. }
  assert (Hn : add64 c 2 = c + 2).
  { unfold add64. apply wrap64_small. unfold in_int64, min_int64, max_int64.
    int64_consts. lia. }
  rewrite Hn. destruct (Z.ltb_spec (c + 2) 0); [lia |].
  rewrite Ex, Ey.
  replace (Sqrt (S754_zero sx * S754_zero sx + S754_zero sy * S754_zero sy) == f0)%f64
    with true by (destruct sx, sy; vm_compute; reflexivity).
  reflexivity.
Qed.

Lemma path_numSteps_same start end_ :
  (exists s, (X end_ - X start)%f64 = S754_zero s) ->
  (exists s, (Y end_ - Y start)%f64 = S754_zero s) ->
  path_numSteps start end_ = 30.
Proof.
  intros [sx Ex] [sy Ey]. unfold path_numSteps. rewrite Ex, Ey.
  destruct sx, sy; vm_compute; reflexivity.
Qed.

(** A point of the curve on two control points of one sign. *)
Lemma bezierPoint_2_no_NaN a b w0 w1 :
  finite_Point a -> finite_Point b ->
  same_value (X a) (X b) -> same_value (Y a) (Y b) ->
  weight w0 = true -> weight w1 = true ->
  Point_has_NaN {| X := (f0 + X a * w0 + X b * w1)%f64;
                   Y := (f0 + Y a * w0 + Y b * w1)%f64 |} = false.
Proof.
  intros [Hax Hay] [Hbx Hby] Sx Sy H0 H1.
  destruct (same_value_signed _ _ Hax Hbx Sx) as (sx & Sax & Sbx).
  destruct (same_value_signed _ _ Hay Hby Sy) as (sy & Say & Sby).
  unfold Point_has_NaN. cbn [X Y].
  rewrite (signed_not_NaN sx), (signed_not_NaN sy); [reflexivity | |];
    repeat apply fadd_signed; try exact I; apply fmul_weight_signed; assumption.
Qed.

Lemma sampled_weights_30 :
  forallb (fun w => weight (fst w) && weight (snd w)) (sampled_weights 30) = true.
Proof. vm_compute. reflexivity. Qed.

Lemma sampled_weights_20 :
  forallb (fun w => weight (fst w) && weight (snd w)) (sampled_weights 20) = true.
Proof. vm_compute. reflexivity. Qed.

(** At the end of the curve the weights are exactly 0 and 1. *)
Lemma last_weights numSteps :
  numSteps = 30 \/ numSteps = 20 ->
  let t := applyEasing (float64_of_int (Z.of_nat (Z.to_nat numSteps))
                        / float64_of_int numSteps)%f64 in
  bernstein 1 0 t = f0 /\ bernstein 1 1 t = f1.
Proof. intros [-> | ->]; split; vm_compute; reflexivity. Qed.

(** With weights 0 and 1 the curve is at its second control point, up to
    the sign of a zero. *)
Lemma bezier_end_coordinate xa xb :
  finite64 xa -> finite64 xb ->
  same_value (f0 + xa * f0 + xb * f1)%f64 xb /\
  finite64 (f0 + xa * f0 + xb * f1)%f64.
Proof.
  intros [Va Ha] [Vb Hb].
  assert (E0 : (f0 + xa * f0)%f64 = f0).
  { destruct xa as [sa | | | sa ma ea]; try contradiction.
    - unfold fmul. cbn [SFmul]. apply fadd_pzero_zero.
    - unfold fmul, f0. cbn [SFmul]. apply fadd_pzero_zero. }
  rewrite E0.
  destruct xb as [sb | | | sb mb eb]; try contradiction.
  - rewrite f1_eq. unfold fmul. cbn [SFmul]. rewrite fadd_pzero_zero.
    split; [exact I | split; [reflexivity | exact I]].
  - cbn [valid_binary] in Vb. rewrite (fmul_one sb mb eb Vb).
    change (f0 + S754_finite sb mb eb)%f64 with (S754_finite sb mb eb).
    split; [reflexivity | split; [exact Vb | exact I]].
Qed.

(** The sampled curve between two points that compare equal. *)
Lemma generateBezierPath_same start end_ numSteps r :
  numSteps = 30 \/ numSteps = 20 ->
  finite_Point start -> finite_Point end_ ->
  same_value (X start) (X end_) -> same_value (Y start) (Y end_) ->
  exists path,
    generateBezierPath cfg start end_ numSteps r = Ok (path, r) /\
    List.length path = (Z.to_nat numSteps + 1)%nat /\
    no_NaN path /\
    finite_Point (List.last path zero_Point) /\
    same_value (X (List.last path zero_Point)) (X end_) /\
    same_value (Y (List.last path zero_Point)) (Y end_).
Proof.
  intros Hn Hs He Sx Sy. unfold generateBezierPath. cbn [bind Monad_Gen].
  rewrite generateControlPoints_same
    by (apply fsub_same; solve [apply Hs | apply He | assumption]).
  cbn [ret Monad_Gen]. eexists. split; [reflexivity |]. split; [| split].
  - unfold indices. now rewrite !length_map, length_seq.
  - assert (Hw : forallb (fun w => weight (fst w) && weight (snd w))
                   (sampled_weights numSteps) = true).
    { destruct Hn as [-> | ->]; [apply sampled_weights_30 | apply sampled_weights_20]. }
    rewrite forallb_forall in Hw. unfold no_NaN. rewrite Forall_forall.
    intros q Hq. apply in_map_iff in Hq. destruct Hq as (i & <- & Hi).
    rewrite bezierPoint_2.
    specialize (Hw (bernstein 1 0 (applyEasing (float64_of_int i / float64_of_int numSteps)%f64),
                    bernstein 1 1 (applyEasing (float64_of_int i / float64_of_int numSteps)%f64))).
    cbn [fst snd] in Hw.
    apply andb_prop in Hw.
    + destruct Hw. now apply bezierPoint_2_no_NaN.
    + unfold sampled_weights. apply in_map_iff. exists i. split; [reflexivity | exact Hi].
  - replace (Z.to_nat numSteps + 1)%nat with (S (Z.to_nat numSteps)) by lia.
    rewrite last_map_indices. cbv zeta. rewrite bezierPoint_2.
    destruct (last_weights numSteps Hn) as [-> ->]. cbn [X Y].
    destruct Hs as [Hsx Hsy], He as [Hex Hey].
    destruct (bezier_end_coordinate (X start) (X end_) Hsx Hex) as [Ax Bx].
    destruct (bezier_end_coordinate (Y start) (Y end_) Hsy Hey) as [Ay By].
    repeat split; assumption || apply Bx || apply By.
Qed.

End ZeroDistanceFacts.

Section ZeroDistancePath.

Variable cfg : MouseMovementConfig.
Hypothesis complexity_fits : BezierComplexity cfg <= max_int64 - 2.

Lemma fadd_zero_same x s :
  finite64 x ->
  same_value (x + S754_zero s)%f64 x /\ finite64 (x + S754_zero s)%f64.
Proof.
  intros [Vx Hx]. destruct x as [sx | | | sx mx ex]; try contradiction.
  - destruct sx, s; repeat split.
  - rewrite fadd_finite_zero. repeat split. exact Vx.
Qed.

Lemma finite_Point_no_NaN p : finite_Point p -> Point_has_NaN p = false.
Proof.
  intros [[_ Hx] [_ Hy]]. unfold Point_has_NaN.
  destruct (X p), (Y p); try contradiction; reflexivity.
Qed.

Lemma no_NaN_tl path : no_NaN path -> no_NaN (tl path).
Proof. intros H. destruct path; [exact H | now inversion H]. Qed.

(** From a path that ends where the target is, the overshoot adds the
    overshoot point and the 20 further points of the corrective curve, none
    of them with a NaN. *)
Lemma addOvershoot_same path target r :
  path <> [] ->
  finite_Point target -> finite_Point (List.last path zero_Point) ->
  same_value (X (List.last path zero_Point)) (X target) ->
  same_value (Y (List.last path zero_Point)) (Y target) ->
  no_NaN path ->
  unit_interval (unit (current r)) ->
  exists out,
    addOvershoot cfg path target r = Ok (out, advance r) /\
    List.length out = (List.length path + 21)%nat /\
    no_NaN out.
Proof.
  intros Hne Ht Hl Sx Sy Hp Hr. unfold addOvershoot.
  destruct path as [| p0 path']; [contradiction |].
  set (path := p0 :: path') in *. set (last := List.last path zero_Point) in *.
  cbn [bind Monad_Gen]. unfold Float64 at 1.
  set (od := (float64_of_int 5 + unit (current r) * float64_of_int 15)%f64).
  pose proof (overshootDistance_small _ Hr) as Hod. fold od in Hod.
  destruct Ht as [Htx Hty], Hl as [Hlx Hly].
  destruct (fsub_same _ _ Hlx Htx Sx) as [sx ->].
  destruct (fsub_same _ _ Hly Hty Sy) as [sy ->].
  destruct (fmul_zero_l 10 od sx Hod) as [sx' ->].
  destruct (fmul_zero_l 10 od sy Hod) as [sy' ->].
  replace (float64_of_int 100) with (S754_finite false 7036874417766400 (-46))
    by (vm_compute; reflexivity).
  rewrite !fdiv_zero_finite.
  destruct (fadd_zero_same (X target) (xorb sx' false) Htx) as [Ox Fx].
  destruct (fadd_zero_same (Y target) (xorb sy' false) Hty) as [Oy Fy].
  set (overshoot := {| X := (X target + S754_zero (xorb sx' false))%f64;
                       Y := (Y target + S754_zero (xorb sy' false))%f64 |}).
  destruct (generateBezierPath_same cfg complexity_fits overshoot target 20 (advance r))
    as (corr & E & Hlen & Hnan & _); auto; try (split; assumption).
  rewrite E. cbn [ret Monad_Gen]. eexists. split; [reflexivity |]. split.
  - rewrite !length_app. cbn [List.length].
    destruct corr; [discriminate Hlen |]. cbn [tl List.length] in *.
    change (Z.to_nat 20) with 20%nat in Hlen. lia.
  - unfold no_NaN. rewrite !Forall_app. repeat split.
    + exact Hp.
    + constructor; [| constructor]. apply finite_Point_no_NaN. split; assumption.
    + apply no_NaN_tl. exact Hnan.
Qed.

Lemma addOvershoot_returns path target :
  path <> [] ->
  finite_Point target -> finite_Point (List.last path zero_Point) ->
  same_value (X (List.last path zero_Point)) (X target) ->
  same_value (Y (List.last path zero_Point)) (Y target) ->
  no_NaN path ->
  returns Rand_ok (addOvershoot cfg path target)
    (fun out => List.length out = (List.length path + 21)%nat /\ no_NaN out).
Proof.
  intros Hne Ht Hl Sx Sy Hp r Hr.
  destruct (addOvershoot_same path target r Hne Ht Hl Sx Sy Hp (Hr (cursor r)))
    as (out & E & H).
  exists out, (advance r). split; [exact E |]. split; [| exact H].
  now apply Rand_ok_advance.
Qed.

(** The jitter of a micro-movement: a draw less a half, scaled by a
    constant of the program. *)
Lemma jitter_small r c :
  unit_interval r -> small 2 c -> small 5 ((r - lit 5 10) * c)%f64.
Proof.
  intros Hr Hc. apply unit_interval_small in Hr.
  assert (Hh : small 0 (lit 5 10)) by small_closed.
  assert (H1 : small (Z.max 0 0 + 2) (r - lit 5 10)%f64).
  { apply fsub_small; auto; unfold emin, SpecFloat.emin, prec, emax; lia. }
  assert (H2 : small (Z.max 0 0 + 2 + 2 + 1) ((r - lit 5 10) * c)%f64).
  { apply fmul_small; auto; unfold emin, SpecFloat.emin, prec, emax; lia. }
  exact H2.
Qed.

Lemma jittered_no_NaN p jx jy :
  Point_has_NaN p = false -> small 5 jx -> small 5 jy ->
  Point_has_NaN {| X := (X p + jx)%f64; Y := (Y p + jy)%f64 |} = false.
Proof.
  unfold Point_has_NaN. cbn [X Y]. intros Hp Hx Hy.
  apply Bool.orb_false_iff in Hp. destruct Hp as [Hpx Hpy].
  rewrite (fadd_small_not_NaN 5 _ _ Hpx Hx), (fadd_small_not_NaN 5 _ _ Hpy Hy).
  reflexivity.
Qed.

Lemma no_NaN_snoc path p : no_NaN path -> Point_has_NaN p = false -> no_NaN (path ++ [p]).
Proof.
  intros H Hp. unfold no_NaN. rewrite Forall_app. split; [exact H |].
  constructor; [exact Hp | constructor].
Qed.

(** The micro-movements keep every point of the path, perturbed, and add
    pause points; a path without NaN stays without NaN. *)
Lemma micro_loop_returns n : forall todo i result,
  no_NaN todo -> no_NaN result ->
  returns Rand_ok (micro_loop n i todo result)
    (fun out => no_NaN out /\
                (List.length result + List.length todo <= List.length out)%nat).
Proof.
  assert (H2 : small 2 (float64_of_int 2)) by small_closed.
  assert (Hh : small 2 (lit 5 10)) by small_closed.
  induction todo as [| p todo IH]; intros i result Ht Hres; cbn [micro_loop].
  - apply returns_ret. split; [exact Hres | cbn [List.length]; lia].
  - inversion Ht as [| p' todo' Hp Ht']; subst.
    apply returns_bind with (P := unit_interval); [apply returns_Float64_unit |].
    intros r1 Hr1.
    apply returns_bind with (P := unit_interval); [apply returns_Float64_unit |].
    intros r2 Hr2. cbv zeta.
    set (q := {| X := (X p + (r1 - lit 5 10) * float64_of_int 2)%f64;
                 Y := (Y p + (r2 - lit 5 10) * float64_of_int 2)%f64 |}).
    assert (Hq : no_NaN (result ++ [q])).
    { apply no_NaN_snoc; [exact Hres |].
      apply jittered_no_NaN; [exact Hp | |]; apply jitter_small; assumption. }
    apply returns_bind
      with (P := fun res => no_NaN res /\
                            (List.length result + 1 <= List.length res)%nat).
    + destruct ((0 <? i) && (i <? n - 1)).
      * apply returns_bind with (P := unit_interval); [apply returns_Float64_unit |].
        intros r Hr. destruct (r <? lit 1 10)%f64.
        -- apply returns_bind with (P := unit_interval); [apply returns_Float64_unit |].
           intros r3 Hr3.
           apply returns_bind with (P := unit_interval); [apply returns_Float64_unit |].
           intros r4 Hr4. cbv zeta. apply returns_ret. split.
           ++ apply no_NaN_snoc; [exact Hq |].
              apply jittered_no_NaN; [exact Hp | |]; apply jitter_small; assumption.
           ++ rewrite !length_app. cbn [List.length]. lia.
        -- apply returns_ret. split; [exact Hq |].
           rewrite length_app. cbn [List.length]. lia.
      * apply returns_ret. split; [exact Hq |].
        rewrite length_app. cbn [List.length]. lia.
    + intros res [Hres' Hlen]. cbv beta.
      eapply returns_weaken; [apply IH; assumption |].
      cbv beta. intros out [Hout Hl]. split; [exact Hout |].
      cbn [List.length]. lia.
Qed.

Lemma addMicroMovements_returns path :
  no_NaN path ->
  returns Rand_ok (addMicroMovements path)
    (fun out => no_NaN out /\ (List.length path <= List.length out)%nat).
Proof.
  intros Hp. unfold addMicroMovements.
  eapply returns_weaken; [apply micro_loop_returns; [exact Hp | constructor] |].
  cbv beta. intros out [H1 H2]. cbn [List.length] in H2. auto.
Qed.

End ZeroDistancePath.



Lemma finite_Point_five_five : finite_Point five_five.
Proof. repeat split. Qed.


(** ** The jitter of the backoff *)

Section JitterFacts.

(** A finite draw of [Float64] is positive and at most [1 - 2^-53]. *)
Lemma unit_interval_finite s m e :
  unit_interval (S754_finite s m e) ->
  s = false /\ e <= -53 /\ Z.pos m <= (2 ^ 53 - 1) * 2 ^ (- e - 53).
Proof.
  intros Hu. pose proof (unit_interval_small _ Hu) as Hs. cbn [small] in Hs.
  destruct Hu as (Hv & H0 & _).
  cbn [valid_binary] in Hv. unfold bounded, canonical_mantissa in Hv.
  apply andb_prop in Hv. destruct Hv as [Hc _]. apply Z.eqb_eq in Hc.
  change (Z.pos (digits2_pos m)) with (Zdigits2 (Z.pos m)) in Hc.
  unfold fexp, SpecFloat.emin, prec, emax in Hc.
  assert (Hsign : s = false) by (destruct s; [discriminate H0 | reflexivity]).
  clear H0.
  pose proof (Zdigits2_bounds (Z.pos m) ltac:(lia)) as [_ Hhi].
  assert (He : e <= -53) by lia.
  assert (Hd : Zdigits2 (Z.pos m) <= 53) by lia.
  assert (Hp : 2 ^ Zdigits2 (Z.pos m) <= 2 ^ 53) by (apply Z.pow_le_mono_r; lia).
  assert (Hq : 1 <= 2 ^ (- e - 53)) by (pose proof (pow2_pos (- e - 53) ltac:(lia)); lia).
  change (2 ^ 53) with 9007199254740992 in *.
  repeat split; auto. nia.
Qed.

(** An integer below [2^53] converts to the float of the same value, with
    a full mantissa. *)
Lemma float64_of_int_exact d :
  0 < d < 2 ^ 53 ->
  exists md ed,
    float64_of_int d = S754_finite false md ed /\
    - 52 <= ed <= 0 /\ Z.pos md = d * 2 ^ (- ed) /\ 2 ^ 52 <= Z.pos md < 2 ^ 53.
Proof.
  intros [Hd0 Hd]. destruct d as [| p | p]; try lia.
  unfold float64_of_int. cbn [binary_normalize]. unfold binary_round.
  pose proof (shl_align_spec p 0 (fexp prec emax (Z.pos (digits2_pos p) + 0))) as H.
  destruct (shl_align _ _ _) as [mz ez]. destruct H as [Hez Hmz].
  change (Z.pos (digits2_pos p)) with (Zdigits2 (Z.pos p)) in Hez.
  pose proof (Zdigits2_bounds (Z.pos p) ltac:(lia)) as [Hlo Hhi].
  assert (Hdp : 1 <= Zdigits2 (Z.pos p) <= 53).
  { split; [cbn; lia | apply Zdigits2_le; lia]. }
  assert (Eez : ez = Zdigits2 (Z.pos p) - 53).
  { unfold fexp, SpecFloat.emin, prec, emax in Hez. lia. }
  assert (Hdz : Zdigits2 (Z.pos mz) = 53).
  { rewrite Hmz, Zdigits2_mul_pow2 by lia. lia. }
  destruct (binary_round_aux_stages_exact false (Z.pos mz) ez ltac:(lia))
    as (m1 & Hm1 & E).
  cbv zeta in Hm1, E. rewrite E. clear E.
  rewrite Hdz in *.
  assert (En : Z.max (fexp prec emax (53 + ez) - ez) 0 = 0).
  { unfold fexp, SpecFloat.emin, prec, emax. lia. }
  rewrite En in *. cbn [Z.pow] in Hm1. rewrite Z.div_1_r, Z.add_0_r in *.
  assert (m1 = Z.pos mz) by (destruct Hm1 as [-> | (_ & Hn & _)]; [reflexivity | lia]).
  subst m1. rewrite Hdz, En. cbn [Z.pow]. rewrite Z.div_1_r, Z.add_0_r.
  destruct (Z.leb_spec ez (emax - prec)); [| unfold emax, prec in *; lia].
  exists mz, ez. split; [reflexivity |].
  pose proof (Zdigits2_bounds (Z.pos mz) ltac:(lia)) as Hb. rewrite Hdz in Hb.
  replace (0 - ez) with (- ez) in Hmz by lia.
  repeat split; try lia.
Qed.

(** The product with the constant 0.3 (the float [lit 3 10], which is
    below 3/10) stays at or below any integer above 3d/10. *)
Lemma fmul_lit_below d md ed N :
  - 52 <= ed <= 0 -> Z.pos md = d * 2 ^ (- ed) -> 2 ^ 52 <= Z.pos md < 2 ^ 53 ->
  3 * d < 10 * N ->
  exists my ey,
    (S754_finite false md ed * lit 3 10)%f64 = S754_finite false my ey /\
    2 ^ 52 <= Z.pos my < 2 ^ 53 /\ -54 <= ey <= 0 /\
    Z.pos my <= N * 2 ^ (- ey).
Proof.
  intros Hed Hmd Hrange HN.
  replace (lit 3 10) with (S754_finite false 5404319552844595 (-54))
    by (vm_compute; reflexivity).
  unfold fmul. cbn [SFmul xorb].
  set (M := Z.pos (md * 5404319552844595)).
  assert (HM : M = Z.pos md * 5404319552844595) by (unfold M; lia).
  assert (HM0 : 0 < M) by (unfold M; lia).
  set (e := ed + -54).
  pose proof (pow2_pos (- ed) ltac:(lia)) as Hped.
  assert (Hd0 : 0 < d).
  { destruct (Z.lt_trichotomy d 0) as [Hneg | [-> | Hpos]]; [| lia | exact Hpos].
    assert (d * 2 ^ (- ed) < 0) by (apply Z.mul_neg_pos; lia). lia. }
  change (2 ^ 52) with 4503599627370496 in Hrange.
  change (2 ^ 53) with 9007199254740992 in Hrange.
  assert (HdM : 105 <= Zdigits2 M <= 106).
  { split.
    - apply Zdigits2_ge; [lia |].
      change (2 ^ (105 - 1)) with (4503599627370496 * 4503599627370496). nia.
    - apply Zdigits2_le; [lia |].
      change (2 ^ 106) with (9007199254740992 * 9007199254740992). nia. }
  destruct (binary_round_aux_stages_exact false M e HM0) as (m1 & Hm1 & E).
  cbv zeta in Hm1, E. rewrite E. clear E.
  set (n1 := Z.max (fexp prec emax (Zdigits2 M + e) - e) 0) in *.
  assert (En1 : n1 = Zdigits2 M - 53).
  { unfold n1, e, fexp, SpecFloat.emin, prec, emax. lia. }
  set (e' := e + n1) in *.
  assert (He' : -54 <= e' <= -1) by (unfold e', e; lia).
  pose proof (pow2_pos n1 ltac:(lia)) as Hpn1.
  set (q := M / 2 ^ n1) in *.
  assert (Hdq : Zdigits2 q = 53).
  { unfold q. rewrite Zdigits2_div_pow2 by lia. lia. }
  assert (Hq0 : 0 < q).
  { destruct (Z.lt_trichotomy q 0) as [Hneg | [Hz | Hpos]]; [| | exact Hpos].
    - assert (0 <= q) by (apply Z.div_pos; lia). lia.
    - rewrite Hz in Hdq. discriminate Hdq. }
  pose proof (Zdigits2_bounds q Hq0) as Hbq. rewrite Hdq in Hbq.
  change (2 ^ (53 - 1)) with 4503599627370496 in Hbq.
  change (2 ^ 53) with 9007199254740992 in Hbq.
  (* the exact product is below N *)
  pose proof (pow2_pos (- e') ltac:(lia)) as Hpe'.
  assert (Hlt : M < 2 ^ n1 * (N * 2 ^ (- e'))).
  { assert (Hsplit : 2 ^ n1 * 2 ^ (- e') = 2 ^ 54 * 2 ^ (- ed)).
    { rewrite <- !Z.pow_add_r by lia. f_equal. unfold e', e. lia. }
    change (2 ^ 54) with 18014398509481984 in Hsplit.
    assert (d * 5404319552844595 < N * 18014398509481984) by nia.
    rewrite HM, Hmd. nia. }
  assert (Hq : q < N * 2 ^ (- e')) by (apply Z.div_lt_upper_bound; lia).
  assert (Hm1q : 4503599627370496 <= m1 <= 9007199254740992 /\ m1 <= N * 2 ^ (- e')).
  { destruct Hm1 as [-> | (-> & _)]; fold q; lia. }
  destruct Hm1q as [Hm1r Hm1N]. clear Hm1.
  assert (Hdm1 : Zdigits2 m1 = 53 \/ (Zdigits2 m1 = 54 /\ m1 = 9007199254740992)).
  { destruct (Z.eq_dec m1 9007199254740992) as [-> | Hne].
    - right. split; reflexivity.
    - left. apply Z.le_antisymm.
      + apply Zdigits2_le; [lia |]. change (2 ^ 53) with 9007199254740992. lia.
      + apply Zdigits2_ge; [lia |]. change (2 ^ (53 - 1)) with 4503599627370496. lia. }
  set (n2 := Z.max (fexp prec emax (Zdigits2 m1 + e') - e') 0).
  assert (En2 : n2 = Zdigits2 m1 - 53).
  { unfold n2, fexp, SpecFloat.emin, prec, emax. lia. }
  assert (Hn2 : 0 <= n2 <= 1) by lia.
  pose proof (pow2_pos n2 ltac:(lia)) as Hpn2.
  assert (Hdf : Zdigits2 (m1 / 2 ^ n2) = 53).
  { rewrite Zdigits2_div_pow2 by lia. lia. }
  assert (Hmul : 2 ^ n2 * (m1 / 2 ^ n2) <= m1) by (apply Z.mul_div_le; lia).
  assert (Hf0 : 0 <= m1 / 2 ^ n2) by (apply Z.div_pos; lia).
  destruct (m1 / 2 ^ n2) as [| mf | mf] eqn:Ef; try discriminate Hdf; try lia.
  destruct (Z.leb_spec (e' + n2) (emax - prec)); [| unfold emax, prec in *; lia].
  exists mf, (e' + n2). split; [reflexivity |].
  pose proof (Zdigits2_bounds (Z.pos mf) ltac:(lia)) as Hbf. rewrite Hdf in Hbf.
  split; [exact Hbf |]. split; [lia |].
  pose proof (pow2_pos (- (e' + n2)) ltac:(lia)) as Hpey.
  assert (Hsplit2 : 2 ^ (- e') = 2 ^ n2 * 2 ^ (- (e' + n2))).
  { rewrite <- Z.pow_add_r by lia. f_equal. lia. }
  rewrite Hsplit2 in Hm1N. nia.
Qed.


(** A normal float times a draw of [Float64] is strictly below the float:
    the draw is at most [1 - 2^-53], and rounding to nearest cannot make up
    for that. *)
Lemma fmul_unit_below my ey r :
  2 ^ 52 <= Z.pos my < 2 ^ 53 -> emin < ey <= 0 ->
  unit_interval r ->
  match (S754_finite false my ey * r)%f64 with
  | S754_zero _ => True
  | S754_finite s mz ez =>
      s = false /\ ez <= ey /\ Z.pos mz < Z.pos my * 2 ^ (ey - ez)
  | _ => False
  end.
Proof.
  intros Hmy Hey Hr.
  destruct r as [sr | sr | | sr mr er].
  - exact I.
  - apply unit_interval_small in Hr. contradiction.
  - apply unit_interval_small in Hr. contradiction.
  - destruct (unit_interval_finite _ _ _ Hr) as (-> & Her & Hmr). clear Hr.
    unfold fmul. cbn [SFmul xorb].
    set (M := Z.pos (my * mr)).
    assert (HM : M = Z.pos my * Z.pos mr) by (unfold M; lia).
    assert (HM0 : 0 < M) by (unfold M; lia).
    set (e := ey + er).
    set (K := - er). assert (HK : 53 <= K) by (unfold K; lia).
    replace (- er - 53) with (K - 53) in Hmr by (unfold K; lia).
    pose proof (pow2_pos (K - 53) ltac:(lia)) as HQ.
    set (Q := 2 ^ (K - 53)) in *.
    assert (HP : 2 ^ K = 9007199254740992 * Q).
    { unfold Q. change 9007199254740992 with (2 ^ 53).
      rewrite <- Z.pow_add_r by lia. f_equal. lia. }
    assert (HH : 2 ^ (K - 1) = 4503599627370496 * Q).
    { unfold Q. change 4503599627370496 with (2 ^ 52).
      rewrite <- Z.pow_add_r by lia. f_equal. lia. }
    change (2 ^ 52) with 4503599627370496 in Hmy.
    change (2 ^ 53) with 9007199254740992 in Hmy, Hmr.
    (* the exact product, against the mantissa of [y] at the exponent of
       the product *)
    assert (HMle : M <= Z.pos my * 2 ^ K - Z.pos my * Q).
    { rewrite HM, HP. nia. }
    assert (HdM : Zdigits2 M <= 53 + K).
    { apply Zdigits2_le; [lia |]. split; [lia |].
      rewrite Z.pow_add_r by lia. change (2 ^ 53) with 9007199254740992. nia. }
    destruct (binary_round_aux_stages_exact false M e HM0) as (m1 & Hm1 & E).
    cbv zeta in Hm1, E. rewrite E. clear E.
    set (n1 := Z.max (fexp prec emax (Zdigits2 M + e) - e) 0) in *.
    assert (Hn1 : 0 <= n1 <= K).
    { unfold n1, e, K, fexp, emin, SpecFloat.emin, prec, emax in *. lia. }
    set (e' := e + n1) in *.
    assert (He' : e' <= ey) by (unfold e', e, K in *; lia).
    pose proof (pow2_pos n1 ltac:(lia)) as Hpn1.
    pose proof (pow2_pos (ey - e') ltac:(lia)) as HpT.
    set (T := Z.pos my * 2 ^ (ey - e')).
    assert (HT : T * 2 ^ n1 = Z.pos my * 2 ^ K).
    { unfold T. rewrite <- Z.mul_assoc, <- Z.pow_add_r by lia.
      f_equal. f_equal. unfold e', e, K. lia. }
    assert (Hq0 : 0 <= M / 2 ^ n1) by (apply Z.div_pos; lia).
    assert (Hm1T : 0 <= m1 < T).
    { destruct Hm1 as [-> | (-> & Hn1pos & Hbit)].
      - split; [exact Hq0 |]. apply Z.div_lt_upper_bound; [lia |]. nia.
      - split; [lia |].
        (* the round bit is set: the remainder is at least half *)
        apply Z.testbit_true in Hbit; [| lia].
        pose proof (pow2_pos (n1 - 1) ltac:(lia)) as Hph.
        assert (Hpow : 2 ^ n1 = 2 * 2 ^ (n1 - 1)).
        { replace n1 with (1 + (n1 - 1)) at 1 by lia.
          rewrite Z.pow_add_r by lia. reflexivity. }
        set (u := M / 2 ^ (n1 - 1)) in *.
        assert (Hu : 2 ^ (n1 - 1) * u <= M) by (apply Z.mul_div_le; lia).
        assert (Hq : M / 2 ^ n1 = u / 2).
        { unfold u. rewrite Z.div_div by lia. f_equal. lia. }
        rewrite Hq.
        pose proof (Z.div_mod u 2 ltac:(lia)) as Hdm. rewrite Hbit in Hdm.
        assert (Hhalf : 2 ^ (n1 - 1) <= 2 ^ (K - 1)) by (apply Z.pow_le_mono_r; lia).
        destruct (Z.lt_ge_cases (u / 2 + 1) T) as [Hlt | Hge]; [exact Hlt | exfalso].
        (* equality would need [my = 2^52] and [n1 = K], and then the
           product has a digit less *)
        assert (Hmy52 : Z.pos my = 4503599627370496) by nia.
        assert (Hn1K : n1 = K).
        { destruct (Z.eq_dec n1 K) as [| Hne]; [assumption | exfalso].
          assert (2 ^ (n1 - 1) * 2 <= 2 ^ (K - 1)).
          { replace (K - 1) with ((n1 - 1) + (K - n1)) by lia.
            rewrite Z.pow_add_r by lia.
            assert (2 ^ 1 <= 2 ^ (K - n1)) by (apply Z.pow_le_mono_r; lia).
            change (2 ^ 1) with 2 in *. nia. }
          nia. }
        assert (HdM' : Zdigits2 M <= 52 + K).
        { apply Zdigits2_le; [lia |]. split; [lia |].
          rewrite Z.pow_add_r by lia. change (2 ^ 52) with 4503599627370496. nia. }
        unfold n1, e, K, fexp, emin, SpecFloat.emin, prec, emax in *. lia. }
    clear Hm1.
    set (n2 := Z.max (fexp prec emax (Zdigits2 m1 + e') - e') 0).
    assert (Hdm1 : Zdigits2 m1 + e' <= 53 + ey).
    { assert (Zdigits2 m1 <= 53 + (ey - e')); [| lia].
      apply Zdigits2_le; [lia |]. split; [lia |].
      rewrite Z.pow_add_r by lia. change (2 ^ 53) with 9007199254740992.
      unfold T in Hm1T. nia. }
    assert (Hn2 : 0 <= n2 /\ e' + n2 <= ey).
    { unfold n2, fexp, emin, SpecFloat.emin, prec, emax in *. lia. }
    pose proof (pow2_pos n2 ltac:(lia)) as Hpn2.
    assert (Hmul : 2 ^ n2 * (m1 / 2 ^ n2) <= m1) by (apply Z.mul_div_le; lia).
    assert (Hf0 : 0 <= m1 / 2 ^ n2) by (apply Z.div_pos; lia).
    destruct (m1 / 2 ^ n2) as [| mz | mz] eqn:Ef; [exact I | | lia].
    destruct (Z.leb_spec (e' + n2) (emax - prec)); [| unfold emax, prec in *; lia].
    split; [reflexivity |]. split; [lia |].
    pose proof (pow2_pos (ey - (e' + n2)) ltac:(lia)) as Hpz.
    assert (Hsplit : 2 ^ (ey - e') = 2 ^ n2 * 2 ^ (ey - (e' + n2))).
    { rewrite <- Z.pow_add_r by lia. f_equal. lia. }
    unfold T in Hm1T. rewrite Hsplit in Hm1T. nia.
Qed.

(** The jitter: the integer part of delay * 0.3 * draw is not negative and
    at most three tenths of the delay. *)
Lemma jitter_bound d r :
  0 <= d < 2 ^ 53 -> unit_interval r ->
  let jitter := int_of_float64 (float64_of_int d * lit 3 10 * r)%f64 in
  0 <= jitter /\ 10 * jitter <= 3 * d.
Proof.
  intros [Hd0 Hd] Hr. cbv zeta.
  destruct (Z.eq_dec d 0) as [-> | Hne].
  - replace (float64_of_int 0 * lit 3 10)%f64 with (S754_zero false)
      by (vm_compute; reflexivity).
    destruct (fmul_zero_l 0 r false (unit_interval_small r Hr)) as [s ->].
    cbn [int_of_float64]. lia.
  - destruct (float64_of_int_exact d ltac:(lia)) as (md & ed & -> & Hed & Hmd & Hmdr).
    set (N := 3 * d / 10 + 1).
    assert (HN : 3 * d < 10 * N).
    { unfold N. pose proof (Z.div_mod (3 * d) 10 ltac:(lia)).
      pose proof (Z.mod_pos_bound (3 * d) 10 ltac:(lia)). lia. }
    assert (HNd : 10 * (N - 1) <= 3 * d).
    { unfold N. pose proof (Z.div_mod (3 * d) 10 ltac:(lia)).
      pose proof (Z.mod_pos_bound (3 * d) 10 ltac:(lia)). lia. }
    destruct (fmul_lit_below d md ed N Hed Hmd Hmdr HN)
      as (my & ey & -> & Hmy & Hey & HyN).
    pose proof (fmul_unit_below my ey r Hmy) as Hz.
    assert (Hemin : emin < ey <= 0) by (unfold emin, SpecFloat.emin, prec, emax; lia).
    specialize (Hz Hemin Hr).
    destruct (S754_finite false my ey * r)%f64 as [sz | sz | | sz mz ez];
      try contradiction.
    + cbn [int_of_float64]. lia.
    + destruct Hz as (-> & Hez & Hmz).
      assert (Hlt : Z.pos mz < N * 2 ^ (- ez)).
      { pose proof (pow2_pos (ey - ez) ltac:(lia)).
        pose proof (pow2_pos (- ey) ltac:(lia)).
        assert (Hsplit : 2 ^ (- ez) = 2 ^ (- ey) * 2 ^ (ey - ez)).
        { rewrite <- Z.pow_add_r by lia. f_equal. lia. }
        rewrite Hsplit. nia. }
      assert (HNle : N <= 2 ^ 53) by (unfold N in *; lia).
      assert (Ha : 0 <= (if 0 <=? ez then Z.pos mz * 2 ^ ez
                         else Z.pos mz / 2 ^ (- ez)) < N).
      { destruct (Z.leb_spec 0 ez).
        - replace ez with 0 in * by lia. cbn [Z.pow Z.opp] in *. lia.
        - pose proof (pow2_pos (- ez) ltac:(lia)). split.
          + apply Z.div_pos; lia.
          + apply Z.div_lt_upper_bound; lia. }
      unfold int_of_float64.
      set (a := if 0 <=? ez then Z.pos mz * 2 ^ ez else Z.pos mz / 2 ^ (- ez)) in *.
      cbv zeta.
      assert (Hin : (min_int64 <=? a) && (a <=? max_int64) = true).
      { apply andb_true_intro. unfold min_int64, max_int64.
        change (2 ^ 53) with 9007199254740992 in HNle.
        split; apply Z.leb_le; int64_consts; lia. }
      rewrite Hin. lia.
Qed.

End JitterFacts.

(** ** Exponential backoff *)

Section BackoffFacts.

Variables base cap : Duration.
Hypothesis base_pos : 0 < base.
Hypothesis cap_pos : 0 < cap.

(** While [base * 2^attempt] fits in an [int64] the delay before jitter is
    the smaller of it and the cap. *)
Lemma backoff_delay_min attempt :
  0 <= attempt -> base * 2 ^ attempt <= max_int64 ->
  backoff_delay attempt base cap = Z.min (base * 2 ^ attempt) cap.
Proof.
  intros Ha Hfit. unfold max_int64 in Hfit.
  pose proof (pow2_pos attempt Ha) as Hp.
  assert (Ha63 : attempt < 63).
  { destruct (Z.lt_ge_cases attempt 63) as [| Hge]; [assumption | exfalso].
    assert (2 ^ 63 <= 2 ^ attempt) by (apply Z.pow_le_mono_r; lia). nia. }
  unfold backoff_delay, uint64_of_int, shl64.
  rewrite Z.mod_small by (int64_consts; lia).
  destruct (Z.leb_spec 64 attempt); [lia |].
  rewrite Z.shiftl_1_l.
  rewrite (wrap64_small (2 ^ attempt))
    by (unfold in_int64, min_int64, max_int64; int64_consts; nia).
  unfold mul64. rewrite wrap64_small
    by (unfold in_int64, min_int64, max_int64; int64_consts; nia).
  destruct (Z.ltb_spec cap (base * 2 ^ attempt)); lia.
Qed.

Lemma backoff_delay_mono attempt attempt' :
  0 <= attempt <= attempt' ->
  Z.min (base * 2 ^ attempt) cap <= Z.min (base * 2 ^ attempt') cap.
Proof.
  intros Ha.
  assert (2 ^ attempt <= 2 ^ attempt') by (apply Z.pow_le_mono_r; lia).
  assert (base * 2 ^ attempt <= base * 2 ^ attempt') by nia. lia.
Qed.

(** One call: the value is the delay plus a jitter of at most three tenths
    of it. *)
Lemma ExponentialBackoff_returns attempt :
  0 <= attempt -> base * 2 ^ attempt <= max_int64 ->
  Z.min (base * 2 ^ attempt) cap < 2 ^ 53 ->
  returns Rand_ok (ExponentialBackoff attempt base cap)
    (fun v => Z.min (base * 2 ^ attempt) cap <= v /\
              10 * v <= 13 * Z.min (base * 2 ^ attempt) cap).
Proof.
  intros Ha Hfit Hsmall. unfold ExponentialBackoff.
  rewrite backoff_delay_min by assumption.
  set (d := Z.min (base * 2 ^ attempt) cap) in *.
  assert (Hd0 : 0 < d).
  { pose proof (pow2_pos attempt Ha). unfold d. assert (0 < base * 2 ^ attempt) by nia. lia. }
  apply returns_bind with (P := unit_interval); [apply returns_Float64_unit |].
  intros r Hr. cbv zeta. apply returns_ret.
  destruct (jitter_bound d r ltac:(lia) Hr) as [Hj0 Hj].
  set (jitter := int_of_float64 (float64_of_int d * lit 3 10 * r)%f64) in *.
  unfold add64. rewrite wrap64_small.
  - lia.
  - change (2 ^ 53) with 9007199254740992 in Hsmall.
    unfold in_int64, min_int64, max_int64. int64_consts. lia.
Qed.

End BackoffFacts.

(** C8 as stated fails twice.  At the cap the jitter decides: two calls in
    a row with attempts 4 and 5 (base 1s, cap 10s), on draws 0.9 and 0,
    return 12.7s and then 10s.  Past the range of [int64] the product
    [base * 2^attempt] wraps around before the cap is applied: with base 1s
    and cap 60s attempt 33 returns 69s and attempt 34 a negative duration;
    with base 1ns and cap 1ns attempt 63 returns more than 7.8e18 ns. *)
Lemma C8_backoff_decreases_and_exceeds :
  value ((v1 <- ExponentialBackoff 4 1000000000 10000000000 ;;
          v2 <- ExponentialBackoff 5 1000000000 10000000000 ;;
          ret (v1, v2))
           (tape_of [ {| raw := 0; unit := lit 9 10 |} ] {| raw := 0; unit := f0 |}))
  = Some (12700000000, 10000000000) /\
  value (ExponentialBackoff 33 1000000000 60000000000 (constant_tape 0 (lit 1 2)))
  = Some 69000000000 /\
  value (ExponentialBackoff 34 1000000000 60000000000 (constant_tape 0 (lit 1 2)))
  = Some (-1456906123165984352) /\
  value (ExponentialBackoff 63 1 1 (constant_tape 0 (lit 1 2)))
  = Some 7839866231326559488.
Proof. repeat split; vm_compute; reflexivity. Qed.

(** C8, amended.  For base > 0 and cap > 0, attempts 0 <= attempt <=
    attempt' for which [base * 2^attempt'] fits in an [int64], a capped
    delay below 2^53 ns (the range in which the conversion to float64 is
    exact), and every two random sources: the delay before jitter is
    [min(base * 2^attempt, cap)] and is non-decreasing in the attempt; each
    call returns a value between its delay and 1.3 times its delay, hence
    at most 1.3 times the cap; and while the later attempt is not capped
    the earlier call returns no more than the later one, whatever the
    draws. *)
Theorem C8_backoff_bounds :
  forall (base cap attempt attempt' : Z) (rng rng' : Rand),
    0 < base -> 0 < cap ->
    0 <= attempt <= attempt' ->
    base * 2 ^ attempt' <= max_int64 ->
    Z.min (base * 2 ^ attempt') cap < 2 ^ 53 ->
    Rand_ok rng -> Rand_ok rng' ->
    let d := Z.min (base * 2 ^ attempt) cap in
    let d' := Z.min (base * 2 ^ attempt') cap in
    backoff_delay attempt base cap = d /\
    backoff_delay attempt' base cap = d' /\
    d <= d' /\
    exists v v' rng1 rng1',
      ExponentialBackoff attempt base cap rng = Ok (v, rng1) /\
      ExponentialBackoff attempt' base cap rng' = Ok (v', rng1') /\
      d <= v /\ 10 * v <= 13 * d /\ 10 * v <= 13 * cap /\
      d' <= v' /\ 10 * v' <= 13 * d' /\ 10 * v' <= 13 * cap /\
      (attempt < attempt' -> base * 2 ^ attempt' <= cap -> v <= v').
Proof.
  intros base cap attempt attempt' rng rng' Hb Hc Ha Hfit' Hsmall' Hr Hr' d d'.
  assert (Hpow : 2 ^ attempt <= 2 ^ attempt') by (apply Z.pow_le_mono_r; lia).
  pose proof (pow2_pos attempt ltac:(lia)) as Hp.
  assert (Hfit : base * 2 ^ attempt <= max_int64).
  { assert (base * 2 ^ attempt <= base * 2 ^ attempt') by nia. lia. }
  assert (Hmono : d <= d') by (apply backoff_delay_mono; lia).
  assert (Hsmall : d < 2 ^ 53) by (fold d' in Hsmall'; lia).
  destruct (ExponentialBackoff_returns base cap Hb Hc attempt
              ltac:(lia) Hfit Hsmall rng Hr) as (v & rng1 & E & _ & Hv1 & Hv2).
  destruct (ExponentialBackoff_returns base cap Hb Hc attempt'
              ltac:(lia) Hfit' Hsmall' rng' Hr') as (v' & rng1' & E' & _ & Hv1' & Hv2').
  fold d in Hv1, Hv2. fold d' in Hv1', Hv2'.
  split; [apply backoff_delay_min; lia |].
  split; [apply backoff_delay_min; lia |].
  split; [exact Hmono |].
  exists v, v', rng1, rng1'.
  repeat split; try assumption; try (unfold d, d' in *; lia).
  intros Hlt Hcap.
  assert (Hdouble : 2 * 2 ^ attempt <= 2 ^ attempt').
  { replace attempt' with (1 + attempt + (attempt' - attempt - 1)) by lia.
    rewrite !Z.pow_add_r by lia. change (2 ^ 1) with 2.
    pose proof (pow2_pos (attempt' - attempt - 1) ltac:(lia)). nia. }
  assert (2 * (base * 2 ^ attempt) <= base * 2 ^ attempt') by nia.
  unfold d, d' in *. lia.
Qed.

Lemma unit_interval_half : unit_interval (lit 1 2).
Proof. repeat split; vm_compute; reflexivity. Qed.

(** Base 1s, cap 60s, attempts 2 and 5, on tapes whose draws are all 0.5
    and all 0.25. *)
Lemma C8_backoff_run :
  let d := Z.min (1000000000 * 2 ^ 2) 60000000000 in
  let d' := Z.min (1000000000 * 2 ^ 5) 60000000000 in
  backoff_delay 2 1000000000 60000000000 = d /\
  backoff_delay 5 1000000000 60000000000 = d' /\
  d <= d' /\
  exists v v' rng1 rng1',
    ExponentialBackoff 2 1000000000 60000000000 (constant_tape 0 (lit 1 2))
    = Ok (v, rng1) /\
    ExponentialBackoff 5 1000000000 60000000000 (constant_tape 0 (lit 1 4))
    = Ok (v', rng1') /\
    d <= v /\ 10 * v <= 13 * d /\ 10 * v <= 13 * 60000000000 /\
    d' <= v' /\ 10 * v' <= 13 * d' /\ 10 * v' <= 13 * 60000000000 /\
    (2 < 5 -> 1000000000 * 2 ^ 5 <= 60000000000 -> v <= v').
Proof.
  apply (C8_backoff_bounds 1000000000 60000000000 2 5
           (constant_tape 0 (lit 1 2)) (constant_tape 0 (lit 1 4))).
  - lia.
  - lia.
  - lia.
  - vm_compute. intros H; discriminate H.
  - vm_compute. reflexivity.
  - apply Rand_ok_constant_tape, unit_interval_half.
  - apply Rand_ok_constant_tape, unit_interval_quarter.
Defined.

(* ===================================================================== *)
(** * Part III.  Properties of the neighbouring functions                 *)
(* ===================================================================== *)

(** ** The quota tracker: the hourly limit and the counters *)

Section HourlyLimit.

Implicit Types (c : ConnectionManager) (now : Time) (ks : list call).

(** Calls made within the slot of the stamp leave the stamp alone and add
    one to both counters per increment. *)
Lemma run_calls_within_slot ks : forall c,
  within_slot (lastReset c) ks ->
  0 <= dailyCount c -> 0 <= hourlyCount c ->
  dailyCount c + increments ks <= max_int64 ->
  hourlyCount c + increments ks <= max_int64 ->
  lastReset (run_calls ks c) = lastReset c /\
  dailyCount (run_calls ks c) = dailyCount c + increments ks /\
  hourlyCount (run_calls ks c) = hourlyCount c + increments ks /\
  config (run_calls ks c) = config c.
Proof.
  induction ks as [| k ks IH]; intros c Hin Hd Hh Hdm Hhm.
  - unfold increments. simpl. repeat split; lia.
  - inversion Hin as [| ? ? Hk Hks]; subst.
    rewrite increments_cons in *.
    pose proof (increments_nonneg ks) as Hn.
    change (run_calls (k :: ks) c) with (run_calls ks (perform c k)).
    assert (Hstep : lastReset (perform c k) = lastReset c /\
                    dailyCount (perform c k)
                    = dailyCount c + (if is_increment k then 1 else 0) /\
                    hourlyCount (perform c k)
                    = hourlyCount c + (if is_increment k then 1 else 0) /\
                    config (perform c k) = config c).
    { destruct k as [| now | now]; cbn [is_increment call_time perform] in *.
      - unfold incrementCount, add64.
        cbn [lastReset dailyCount hourlyCount config].
        rewrite !wrap64_small
          by (unfold in_int64, min_int64, max_int64 in *; int64_consts; lia).
        repeat split; reflexivity.
      - destruct Hk as [Hday Hhour].
        unfold canSendConnection.
        rewrite (checkAndResetCounts_same_slot c now Hday Hhour).
        destruct (_ <=? _); [| destruct (_ <=? _)]; cbn [snd];
          repeat split; lia.
      - destruct Hk as [Hday Hhour].
        unfold GetRemainingQuota.
        rewrite (checkAndResetCounts_same_slot c now Hday Hhour). cbn [snd].
        repeat split; lia. }
    destruct Hstep as (Hl1 & Hd1 & Hh1 & Hc1).
    destruct (IH (perform c k)) as (Hl2 & Hd2 & Hh2 & Hc2).
    + rewrite Hl1. exact Hks.
    + destruct (is_increment k); lia.
    + destruct (is_increment k); lia.
    + destruct (is_increment k); lia.
    + destruct (is_increment k); lia.
    + rewrite Hl2, Hd2, Hh2, Hc2, Hl1, Hd1, Hh1, Hc1. repeat split; lia.
Qed.

(** Whatever the calls and their clock readings, the hourly counter stays
    between 0 and the daily counter, and the daily counter never exceeds
    the requests counted. *)
Lemma run_calls_counters ks : forall c,
  0 <= hourlyCount c <= dailyCount c ->
  dailyCount c + increments ks <= max_int64 ->
  0 <= hourlyCount (run_calls ks c) <= dailyCount (run_calls ks c) /\
  dailyCount (run_calls ks c) <= dailyCount c + increments ks /\
  config (run_calls ks c) = config c.
Proof.
  induction ks as [| k ks IH]; intros c Hc Hmax.
  - unfold increments. simpl. repeat split; lia.
  - rewrite increments_cons in *.
    pose proof (increments_nonneg ks) as Hn.
    change (run_calls (k :: ks) c) with (run_calls ks (perform c k)).
    assert (Hstep : 0 <= hourlyCount (perform c k) <= dailyCount (perform c k) /\
                    dailyCount (perform c k)
                    <= dailyCount c + (if is_increment k then 1 else 0) /\
                    config (perform c k) = config c).
    { assert (Hreset : forall now,
                0 <= hourlyCount (checkAndResetCounts now c)
                  <= dailyCount (checkAndResetCounts now c) /\
                dailyCount (checkAndResetCounts now c) <= dailyCount c /\
                config (checkAndResetCounts now c) = config c).
      { intros now. unfold checkAndResetCounts.
        destruct (negb _); [cbn; repeat split; lia |].
        destruct (negb _); cbn; repeat split; lia. }
      destruct k as [| now | now]; cbn [is_increment perform] in *.
      - unfold incrementCount, add64. cbn [hourlyCount dailyCount config].
        rewrite !wrap64_small
          by (unfold in_int64, min_int64, max_int64 in *; int64_consts; lia).
        repeat split; lia.
      - unfold canSendConnection. specialize (Hreset now).
        destruct (_ <=? _); [| destruct (_ <=? _)]; cbn [snd];
          repeat split; lia || apply Hreset.
      - unfold GetRemainingQuota. specialize (Hreset now). cbn [snd].
        repeat split; lia || apply Hreset. }
    destruct Hstep as (Hh1 & Hd1 & Hc1).
    destruct (IH (perform c k)) as (Hh2 & Hd2 & Hc2).
    + exact Hh1.
    + destruct (is_increment k); lia.
    + repeat split; try lia. congruence.
Qed.

End HourlyLimit.

(** X1.  The hourly limit.  Take a manager whose hourly counter stands at zero,
    and any calls that all read the clock in the slot of its stamp (the
    same day-of-month and hour), exactly [HourlyConnectionLimit] of them
    being [incrementCount].  Then [canSendConnection], asked in that slot,
    answers false.  Asked in another hour of that day-of-month it zeroes
    the hourly counter, keeps the daily one, and answers true exactly when
    the daily counter is still below the daily limit. *)
Theorem hourly_limit_then_next_hour :
  forall (c : ConnectionManager) (ks : list call),
    hourlyCount c = 0 -> 0 <= dailyCount c ->
    0 < HourlyConnectionLimit (config c) ->
    dailyCount c + HourlyConnectionLimit (config c) <= max_int64 ->
    within_slot (lastReset c) ks ->
    increments ks = HourlyConnectionLimit (config c) ->
    let c' := run_calls ks c in
    (forall now,
        Day now = Day (lastReset c) -> Hour now = Hour (lastReset c) ->
        fst (canSendConnection now c') = false) /\
    (forall now,
        Day now = Day (lastReset c) -> Hour now <> Hour (lastReset c) ->
        fst (canSendConnection now c')
        = (dailyCount c + HourlyConnectionLimit (config c)
           <? DailyConnectionLimit (config c)) /\
        hourlyCount (snd (canSendConnection now c')) = 0 /\
        dailyCount (snd (canSendConnection now c'))
        = dailyCount c + HourlyConnectionLimit (config c)).
Proof.
  intros c ks Hh0 Hd0 Hlim Hmax Hin Hinc c'.
  destruct (run_calls_within_slot ks c Hin Hd0 ltac:(lia) ltac:(lia) ltac:(lia))
    as (Hl & Hd & Hh & Hc).
  fold c' in Hl, Hd, Hh, Hc. rewrite Hinc in Hd, Hh. rewrite Hh0 in Hh.
  split.
  - intros now Hday Hhour. unfold canSendConnection.
    rewrite checkAndResetCounts_same_slot by congruence.
    rewrite Hc, Hh.
    destruct (_ <=? dailyCount c'); [reflexivity |].
    destruct (Z.leb_spec (HourlyConnectionLimit (config c))
                (0 + HourlyConnectionLimit (config c))); [reflexivity | lia].
  - intros now Hday Hhour. unfold canSendConnection, checkAndResetCounts.
    rewrite Hl.
    destruct (Z.eqb_spec (Day now) (Day (lastReset c))) as [_ | Hne]; [| contradiction].
    destruct (Z.eqb_spec (Hour now) (Hour (lastReset c))) as [He | _]; [contradiction |].
    cbn [negb config dailyCount hourlyCount]. rewrite Hc, Hd.
    destruct (Z.leb_spec (DailyConnectionLimit (config c))
                (dailyCount c + HourlyConnectionLimit (config c)));
      destruct (Z.ltb_spec (dailyCount c + HourlyConnectionLimit (config c))
                  (DailyConnectionLimit (config c))); try lia.
    + cbn [fst snd dailyCount hourlyCount]. auto.
    + destruct (Z.leb_spec (HourlyConnectionLimit (config c)) 0); [lia |].
      cbn [fst snd dailyCount hourlyCount]. auto.
Qed.

(** A fresh manager with a daily limit of 25 and an hourly limit of 2: two
    requests between 9:00 and 10:00 on the 15th. *)
Lemma hourly_limit_two_requests :
  let cfg := mkRateLimitConfig 25 2 50 10 100 0 0 0 in
  let at_ h m := mkTime 2024 1 15 h m 0 0 in
  let c := New cfg (at_ 9 0) in
  let ks := [CallCanSend (at_ 9 1); CallIncrement; CallQuota (at_ 9 20);
             CallIncrement] in
  let c' := run_calls ks c in
  (forall now,
      Day now = Day (lastReset c) -> Hour now = Hour (lastReset c) ->
      fst (canSendConnection now c') = false) /\
  (forall now,
      Day now = Day (lastReset c) -> Hour now <> Hour (lastReset c) ->
      fst (canSendConnection now c')
      = (dailyCount c + HourlyConnectionLimit (config c)
         <? DailyConnectionLimit (config c)) /\
      hourlyCount (snd (canSendConnection now c')) = 0 /\
      dailyCount (snd (canSendConnection now c'))
      = dailyCount c + HourlyConnectionLimit (config c)).
Proof.
  apply (hourly_limit_then_next_hour
           (New (mkRateLimitConfig 25 2 50 10 100 0 0 0) (mkTime 2024 1 15 9 0 0 0))
           [CallCanSend (mkTime 2024 1 15 9 1 0 0); CallIncrement;
            CallQuota (mkTime 2024 1 15 9 20 0 0); CallIncrement]).
  - reflexivity.
  - simpl. lia.
  - simpl. lia.
  - vm_compute. intros H; discriminate H.
  - repeat constructor.
  - reflexivity.
Defined.

(** X2.  The counters of a tracker, whatever calls are made and whenever: the
    hourly counter stays between 0 and the daily counter, the daily counter
    never exceeds what it was plus the number of [incrementCount] calls,
    and the configuration is the one it was given. *)
Theorem counters_never_exceed_requests :
  forall (c : ConnectionManager) (ks : list call),
    0 <= hourlyCount c <= dailyCount c ->
    dailyCount c + increments ks <= max_int64 ->
    0 <= hourlyCount (run_calls ks c) <= dailyCount (run_calls ks c) /\
    dailyCount (run_calls ks c) <= dailyCount c + increments ks /\
    config (run_calls ks c) = config c.
Proof. intros c ks. apply run_calls_counters. Qed.

(** A fresh manager over two days. *)
Lemma counters_over_two_days :
  let cfg := mkRateLimitConfig 25 5 50 10 100 0 0 0 in
  let c := New cfg (mkTime 2024 1 15 9 0 0 0) in
  let ks := [CallIncrement; CallCanSend (mkTime 2024 1 15 11 0 0 0); CallIncrement;
             CallQuota (mkTime 2024 1 16 8 0 0 0); CallIncrement] in
  0 <= hourlyCount (run_calls ks c) <= dailyCount (run_calls ks c) /\
  dailyCount (run_calls ks c) <= dailyCount c + increments ks /\
  config (run_calls ks c) = config c.
Proof.
  apply (counters_never_exceed_requests
           (New (mkRateLimitConfig 25 5 50 10 100 0 0 0) (mkTime 2024 1 15 9 0 0 0))
           [CallIncrement; CallCanSend (mkTime 2024 1 15 11 0 0 0); CallIncrement;
            CallQuota (mkTime 2024 1 16 8 0 0 0); CallIncrement]).
  - simpl. lia.
  - vm_compute. intros H; discriminate H.
Defined.

(** ** The typing controller *)

(** The default configuration typing two letters, on a tape whose draws are
    all 0.25. *)
Lemma GenerateKeystrokes_default_run :
  exists keystrokes rng',
    GenerateKeystrokes ascii_tables default_typing "Hi" (constant_tape 7 (lit 1 4))
    = Ok (keystrokes, rng') /\
    replay keystrokes = runes_of "Hi".
Proof.
  apply (GenerateKeystrokes_enabled_replay ascii_tables default_typing "Hi"
           (constant_tape 7 (lit 1 4))).
  - reflexivity.
  - vm_compute. reflexivity.
Defined.

Section KeyGroups.

Variable U : Unicode.
Variable cfg : TypingConfig.
Variable I : Rand -> Prop.
Hypothesis I_advance : forall r, I r -> I (advance r).
Hypothesis key_delays : 0 < sub64 (MaxKeyDelay cfg) (MinKeyDelay cfg).

Lemma keystrokes_at_group runes i char :
  returns I (keystrokes_at U cfg runes i char) (key_group cfg (IsSpace U) char).
Proof.
  unfold keystrokes_at.
  eapply returns_bind; [apply calculateKeyDelay_returns; assumption |].
  intros delay _. eapply returns_bind; [apply returns_Float64; auto |].
  intros r _.
  eapply returns_bind with (P := fun _ => True).
  { destruct (fltb r _); [| now apply returns_ret].
    destruct (isWordBoundary U i runes); [| now apply returns_ret].
    eapply returns_bind; [apply returns_Intn; auto; lia |].
    intros n _. now apply returns_ret. }
  intros delay' _. eapply returns_bind; [apply returns_Float64; auto |].
  intros r' _. destruct (fltb r' _); cbn [andb].
  - destruct (IsSpace U char) eqn:Es; cbn [negb].
    + apply returns_ret. left. eexists. reflexivity.
    + eapply returns_bind; [apply generateTypo_returns; assumption |].
      intros typoChar _.
      eapply returns_bind; [apply calculateKeyDelay_returns; assumption |].
      intros delay'' _. apply returns_ret. right. split; [exact Es |].
      eexists _, _, _. reflexivity.
  - apply returns_ret. left. eexists. reflexivity.
Qed.

Lemma keystrokes_loop_groups runes todo : forall i keystrokes,
  returns I (keystrokes_loop U cfg runes i todo keystrokes)
    (fun out => exists groups,
       out = keystrokes ++ List.concat groups /\
       Forall2 (key_group cfg (IsSpace U)) todo groups).
Proof.
  induction todo as [| char todo IH]; intros i keystrokes;
    cbn [keystrokes_loop].
  - apply returns_ret. exists []. cbn [List.concat]. rewrite app_nil_r.
    split; [reflexivity | constructor].
  - eapply returns_bind; [apply keystrokes_at_group |].
    intros more Hmore. eapply returns_weaken; [apply IH |].
    cbv beta. intros out (groups & -> & Hg).
    exists (more :: groups). cbn [List.concat]. rewrite <- app_assoc.
    split; [reflexivity | now constructor].
Qed.

End KeyGroups.

Lemma key_group_length cfg is_space char group :
  key_group cfg is_space char group -> (1 <= List.length group <= 3)%nat.
Proof.
  intros [(d & ->) | (_ & t & d & d' & ->)]; cbn [List.length]; lia.
Qed.

Lemma concat_groups_length cfg is_space runes groups :
  Forall2 (key_group cfg is_space) runes groups ->
  (List.length runes <= List.length (List.concat groups) <= 3 * List.length runes)%nat.
Proof.
  induction 1 as [| char group runes groups Hg _ IH]; cbn [List.concat List.length].
  - lia.
  - rewrite length_app. apply key_group_length in Hg. lia.
Qed.

(** X4.  The shape of the keystrokes of the enabled path.  They come in one
    group per character of the text, in order: the character alone, or a
    typo, a backspace that waits the correction delay, and the character.
    No typo is made on a white-space character, and the sequence holds
    between one and three keystrokes per character. *)
Theorem GenerateKeystrokes_enabled_groups :
  forall (U : Unicode) (cfg : TypingConfig) (text : string) (rng : Rand),
    typing_Enabled cfg = true ->
    0 < sub64 (MaxKeyDelay cfg) (MinKeyDelay cfg) ->
    exists groups keystrokes rng',
      GenerateKeystrokes U cfg text rng = Ok (keystrokes, rng') /\
      keystrokes = List.concat groups /\
      Forall2 (key_group cfg (IsSpace U)) (runes_of text) groups /\
      (List.length (runes_of text) <= List.length keystrokes
       <= 3 * List.length (runes_of text))%nat.
Proof.
  intros U cfg text rng En Hdelays. unfold GenerateKeystrokes.
  rewrite En. cbn [negb].
  destruct (keystrokes_loop_groups U cfg any_source any_source_advance Hdelays
              (runes_of text) (runes_of text) 0 [] rng Logic.I)
    as (ks & rng' & E & _ & groups & -> & Hg).
  exists groups, (List.concat groups), rng'. cbn [app] in *.
  repeat split; try assumption; eapply concat_groups_length; eassumption.
Qed.

Lemma GenerateKeystrokes_groups_run :
  exists groups keystrokes rng',
    GenerateKeystrokes ascii_tables default_typing "a b" (constant_tape 7 (lit 1 100))
    = Ok (keystrokes, rng') /\
    keystrokes = List.concat groups /\
    Forall2 (key_group default_typing (IsSpace ascii_tables)) (runes_of "a b") groups /\
    (List.length (runes_of "a b") <= List.length keystrokes
     <= 3 * List.length (runes_of "a b"))%nat.
Proof.
  apply (GenerateKeystrokes_enabled_groups ascii_tables default_typing "a b"
           (constant_tape 7 (lit 1 100))).
  - reflexivity.
  - vm_compute. reflexivity.
Defined.

(** X5.  A key-delay range that is empty or reversed makes the enabled path
    panic on the first character: [Int63n] is called with
    [MaxKeyDelay - MinKeyDelay], which has to be positive.  Only the empty
    text gets through. *)
Theorem GenerateKeystrokes_empty_delay_range :
  forall (U : Unicode) (cfg : TypingConfig) (text : string) (rng : Rand),
    typing_Enabled cfg = true ->
    sub64 (MaxKeyDelay cfg) (MinKeyDelay cfg) <= 0 ->
    (runes_of text = [] -> GenerateKeystrokes U cfg text rng = Ok ([], rng)) /\
    (runes_of text <> [] ->
     GenerateKeystrokes U cfg text rng = Panic "invalid argument to Int63n").
Proof.
  intros U cfg text rng En Hrange. unfold GenerateKeystrokes.
  rewrite En. cbn [negb]. split.
  - intros ->. reflexivity.
  - intros Hne. destruct (runes_of text) as [| char runes]; [contradiction |].
    cbn [keystrokes_loop]. unfold keystrokes_at, calculateKeyDelay.
    cbn [bind Monad_Gen]. unfold Int63n at 1.
    destruct (Z.leb_spec (sub64 (MaxKeyDelay cfg) (MinKeyDelay cfg)) 0); [| lia].
    reflexivity.
Qed.

(** Both key delays at 100ms, and the text "a". *)
Lemma GenerateKeystrokes_equal_delays :
  let cfg := mkTypingConfig true (100 * Millisecond) (100 * Millisecond)
               (lit 2 100) (300 * Millisecond) (lit 5 100) in
  (runes_of "a" = [] ->
   GenerateKeystrokes ascii_tables cfg "a" (constant_tape 7 (lit 1 4))
   = Ok ([], constant_tape 7 (lit 1 4))) /\
  (runes_of "a" <> [] ->
   GenerateKeystrokes ascii_tables cfg "a" (constant_tape 7 (lit 1 4))
   = Panic "invalid argument to Int63n").
Proof.
  apply (GenerateKeystrokes_empty_delay_range ascii_tables
           (mkTypingConfig true (100 * Millisecond) (100 * Millisecond)
              (lit 2 100) (300 * Millisecond) (lit 5 100))
           "a" (constant_tape 7 (lit 1 4))).
  - reflexivity.
  - vm_compute. intros H; discriminate H.
Defined.

(** *** The disabled path on ASCII text *)

Lemma length_bytes text : List.length (bytes text) = len text.
Proof.
  unfold bytes, len. rewrite length_map.
  induction text as [| a text IH]; cbn; congruence.
Qed.

(** On bytes below 128 [range] visits every byte, at its own offset. *)
Lemma range_from_ascii bs : forall fuel offset,
  forallb (fun b => b <? 128) bs = true ->
  (List.length bs <= fuel)%nat ->
  range_from fuel offset bs = combine (seq offset (List.length bs)) bs.
Proof.
  induction bs as [| b bs IH]; intros fuel offset Hall Hfuel.
  - destruct fuel; reflexivity.
  - cbn [forallb] in Hall. apply andb_prop in Hall. destruct Hall as [Hb Hall].
    destruct fuel as [| fuel]; [cbn [List.length] in Hfuel; lia |].
    cbn [range_from decode_rune]. rewrite Hb. cbn [skipn List.length seq combine].
    rewrite IH by (cbn [List.length] in Hfuel; auto; lia).
    replace (offset + 1)%nat with (S offset) by lia. reflexivity.
Qed.

Lemma fill_keystrokes bs : forall done,
  fold_left (fun ks ic => set_nth (fst ic) (plain_key (snd ic)) ks)
    (combine (seq (List.length done) (List.length bs)) bs)
    (done ++ repeat zero_KeyStroke (List.length bs))
  = done ++ map plain_key bs.
Proof.
  induction bs as [| b bs IH]; intros done.
  - reflexivity.
  - cbn [List.length seq combine fold_left repeat map fst snd].
    rewrite set_nth_app.
    replace (done ++ plain_key b :: repeat zero_KeyStroke (List.length bs))
      with ((done ++ [plain_key b]) ++ repeat zero_KeyStroke (List.length bs))
      by (rewrite <- app_assoc; reflexivity).
    replace (S (List.length done)) with (List.length (done ++ [plain_key b]))
      by (rewrite length_app; cbn [List.length]; lia).
    rewrite IH, <- app_assoc. reflexivity.
Qed.

Lemma replay_plain bs : forall typed,
  fold_left replay_step (map plain_key bs) typed = typed ++ bs.
Proof.
  induction bs as [| b bs IH]; intros typed; cbn [map fold_left].
  - now rewrite app_nil_r.
  - rewrite IH. unfold replay_step, plain_key. cbn [Backspace Char].
    now rewrite <- app_assoc.
Qed.

Lemma map_snd_combine_seq {A} (l : list A) k :
  map snd (combine (seq k (List.length l)) l) = l.
Proof.
  revert k. induction l as [| x l IH]; intros k; [reflexivity |].
  cbn [List.length seq combine map snd]. now rewrite IH.
Qed.

Lemma GenerateKeystrokes_disabled_keys U cfg text rng :
  typing_Enabled cfg = false ->
  is_ascii text = true ->
  GenerateKeystrokes U cfg text rng = Ok (map plain_key (bytes text), rng) /\
  runes_of text = bytes text.
Proof.
  intros En Hascii. unfold is_ascii in Hascii.
  assert (Hrange : range_string text
                   = combine (seq 0 (List.length (bytes text))) (bytes text)).
  { unfold range_string. apply range_from_ascii; [exact Hascii |].
    rewrite length_bytes. lia. }
  split.
  - unfold GenerateKeystrokes. rewrite En. cbn [negb]. rewrite Hrange.
    rewrite <- length_bytes. cbn [ret Monad_Gen]. do 2 f_equal.
    exact (fill_keystrokes (bytes text) []).
  - unfold runes_of. rewrite Hrange. apply map_snd_combine_seq.
Qed.

(** X6.  With typing disabled and a text of ASCII characters, the keystrokes are
    the characters of the text, one each, in order, without delay, typo or
    backspace; nothing is drawn, and the replay is the text. *)
Theorem GenerateKeystrokes_disabled_ascii :
  forall (U : Unicode) (cfg : TypingConfig) (text : string) (rng : Rand),
    typing_Enabled cfg = false ->
    is_ascii text = true ->
    GenerateKeystrokes U cfg text rng = Ok (map plain_key (bytes text), rng) /\
    runes_of text = bytes text /\
    replay (map plain_key (bytes text)) = runes_of text.
Proof.
  intros U cfg text rng En Hascii.
  destruct (GenerateKeystrokes_disabled_keys U cfg text rng En Hascii)
    as [E Hrunes].
  split; [exact E |]. split; [exact Hrunes |].
  rewrite Hrunes. unfold replay. apply (replay_plain (bytes text) []).
Qed.

Lemma GenerateKeystrokes_disabled_run :
  GenerateKeystrokes ascii_tables disabled_typing "Hello, world"
    (constant_tape 7 (lit 1 4))
  = Ok (map plain_key (bytes "Hello, world"), constant_tape 7 (lit 1 4)) /\
  runes_of "Hello, world" = bytes "Hello, world" /\
  replay (map plain_key (bytes "Hello, world")) = runes_of "Hello, world".
Proof.
  apply (GenerateKeystrokes_disabled_ascii ascii_tables disabled_typing
           "Hello, world" (constant_tape 7 (lit 1 4))); reflexivity.
Defined.

(** *** Typos *)

Lemma find_all_false {A} (f : A -> bool) l :
  Forall (fun x => f x = false) l -> find f l = None.
Proof.
  induction 1 as [| x l Hx _ IH]; cbn [find]; [reflexivity |].
  now rewrite Hx.
Qed.

Lemma layout_lookup_letter c :
  97 <= c <= 122 ->
  exists adjacent,
    layout_lookup c = Some adjacent /\
    (0 < List.length adjacent)%nat /\
    Forall (fun t => 97 <= t <= 122 /\ t <> c) adjacent.
Proof.
  intros Hc.
  assert (Hin : In c lower_letters).
  { unfold lower_letters. apply in_map_iff. exists (Z.to_nat c).
    split; [lia | apply in_seq; lia]. }
  assert (Hall : forallb (fun c =>
            match layout_lookup c with
            | Some adjacent =>
                negb (Nat.eqb (List.length adjacent) 0) &&
                forallb (fun t => (97 <=? t) && (t <=? 122) && negb (t =? c)) adjacent
            | None => false
            end) lower_letters = true) by (vm_compute; reflexivity).
  rewrite forallb_forall in Hall. specialize (Hall c Hin).
  destruct (layout_lookup c) as [adjacent |]; [| discriminate Hall].
  apply andb_prop in Hall. destruct Hall as [Hlen Hadj].
  exists adjacent. split; [reflexivity |]. split.
  - destruct adjacent; [discriminate Hlen | cbn [List.length]; lia].
  - rewrite Forall_forall. intros t Ht. rewrite forallb_forall in Hadj.
    specialize (Hadj t Ht). apply andb_prop in Hadj. destruct Hadj as [Hr Hne].
    apply andb_prop in Hr. destruct Hr as [Hlo Hhi].
    apply Z.leb_le in Hlo. apply Z.leb_le in Hhi.
    apply Bool.negb_true_iff in Hne. apply Z.eqb_neq in Hne. lia.
Qed.

Lemma layout_lookup_other c : c < 97 \/ 122 < c -> layout_lookup c = None.
Proof.
  intros Hc. unfold layout_lookup. rewrite find_all_false; [reflexivity |].
  assert (Hkeys : forallb (fun kv =>
            match bytes (fst kv) with
            | [k] => (97 <=? k) && (k <=? 122)
            | _ => false
            end) keyboardLayout = true) by (vm_compute; reflexivity).
  rewrite forallb_forall in Hkeys. rewrite Forall_forall. intros kv Hin.
  specialize (Hkeys kv Hin).
  destruct (bytes (fst kv)) as [| k [| k' rest]]; try discriminate Hkeys.
  apply andb_prop in Hkeys. destruct Hkeys as [Hlo Hhi].
  apply Z.leb_le in Hlo. apply Z.leb_le in Hhi. cbn [existsb].
  destruct (Z.eqb_spec c k); [lia | reflexivity].
Qed.


(** *** The estimate of the typing time *)

(** X8.  With typing disabled [TypingDuration] is zero for every text, and
    nothing is drawn. *)
Theorem TypingDuration_disabled :
  forall (U : Unicode) (cfg : TypingConfig) (text : string) (rng : Rand),
    typing_Enabled cfg = false ->
    TypingDuration U cfg text rng = Ok (0, rng).
Proof.
  intros U cfg text rng En. unfold TypingDuration, GenerateKeystrokes.
  rewrite En. cbn [negb bind ret Monad_Gen].
  set (write := fun ks (ic : nat * rune) => set_nth (fst ic) _ ks).
  assert (Hzero : forall pairs ks,
            Forall (fun k => Delay k = 0) ks ->
            Forall (fun k => Delay k = 0) (fold_left write pairs ks)).
  { induction pairs as [| ic pairs IH]; intros ks Hks; cbn [fold_left]; [exact Hks |].
    apply IH. unfold write. clear IH. revert ks Hks.
    generalize (fst ic). intros i ks Hks. revert i.
    induction Hks as [| k ks Hk Hks IH]; intros i; destruct i; cbn [set_nth];
      constructor; auto. }
  assert (Hsum : forall ks, Forall (fun k => Delay k = 0) ks ->
            fold_left (fun total k => add64 total (Delay k)) ks 0 = 0).
  { induction 1 as [| k ks Hk _ IH]; cbn [fold_left]; [reflexivity |].
    rewrite Hk. exact IH. }
  rewrite Hsum; [reflexivity |].
  apply Hzero. clear. induction (len text); cbn [repeat]; constructor; auto.
Qed.

Lemma TypingDuration_disabled_run :
  TypingDuration ascii_tables disabled_typing e_acute (constant_tape 7 (lit 1 4))
  = Ok (0, constant_tape 7 (lit 1 4)).
Proof.
  apply (TypingDuration_disabled ascii_tables disabled_typing e_acute
           (constant_tape 7 (lit 1 4))).
  reflexivity.
Defined.

(** ** The timing controller *)

(** X9.  A shift count outside 0..63.  [1 << uint(attempt)] is 0 when the
    attempt is negative (the conversion to [uint] makes it huge) or at
    least 64, so the delay is 0 whatever the base: a retry loop that gets
    that far is no longer slowed down. *)
Theorem ExponentialBackoff_shift_out_of_range :
  forall (attempt : Z) (base cap : Duration) (rng : Rand),
    in_int64 attempt -> attempt < 0 \/ 64 <= attempt -> 0 <= cap ->
    unit_interval (unit (current rng)) ->
    ExponentialBackoff attempt base cap rng = Ok (0, advance rng).
Proof.
  intros attempt base cap rng Hin Hout Hcap Hr.
  unfold ExponentialBackoff, backoff_delay.
  assert (Hshift : shl64 1 (uint64_of_int attempt) = 0).
  { unfold shl64, uint64_of_int.
    unfold in_int64, min_int64, max_int64 in Hin. int64_consts.
    destruct Hout as [Hneg | Hbig].
    - replace (attempt mod 18446744073709551616)
        with (attempt + 18446744073709551616).
      + destruct (Z.leb_spec 64 (attempt + 18446744073709551616)); [reflexivity | lia].
      + apply Z.mod_unique with (-1); lia.
    - rewrite Z.mod_small by lia.
      destruct (Z.leb_spec 64 attempt); [reflexivity | lia]. }
  rewrite Hshift. unfold mul64. rewrite Z.mul_0_r.
  change (wrap64 0) with 0.
  destruct (Z.ltb_spec cap 0); [lia |].
  cbn [bind Monad_Gen]. unfold Float64 at 1.
  replace (float64_of_int 0 * lit 3 10)%f64 with (S754_zero false)
    by (vm_compute; reflexivity).
  destruct (fmul_zero_l 0 (unit (current rng)) false (unit_interval_small _ Hr))
    as [s ->].
  reflexivity.
Qed.

(** Attempt 64 with a base of one second and a cap of one minute. *)
Lemma ExponentialBackoff_attempt_64 :
  ExponentialBackoff 64 1000000000 60000000000 (constant_tape 0 (lit 1 2))
  = Ok (0, advance (constant_tape 0 (lit 1 2))).
Proof.
  apply (ExponentialBackoff_shift_out_of_range 64 1000000000 60000000000
           (constant_tape 0 (lit 1 2))).
  - unfold in_int64, min_int64, max_int64. lia.
  - right. lia.
  - lia.
  - exact unit_interval_half.
Defined.

(** X10.  [RandomDelay(min, max)].  An empty or reversed range gives [min] and
    draws nothing.  Otherwise the delay is never below [min], whatever the
    variation and the draws; it is not kept below [max].  A range wider
    than an [int64] makes [Int63n] panic. *)
Theorem RandomDelay_at_least_min :
  forall (cfg : TimingConfig) (min max : Duration) (rng : Rand),
    in_int64 min -> in_int64 max ->
    (max <= min -> RandomDelay cfg min max rng = Ok (min, rng)) /\
    (min < max -> max - min <= max_int64 ->
     exists v rng', RandomDelay cfg min max rng = Ok (v, rng') /\ min <= v) /\
    (max_int64 < max - min ->
     RandomDelay cfg min max rng = Panic "invalid argument to Int63n").
Proof.
  intros cfg min max rng Hmin Hmax. unfold RandomDelay.
  unfold in_int64, min_int64, max_int64 in *. int64_consts.
  split; [| split].
  - intros Hle. destruct (Z.leb_spec max min); [reflexivity | lia].
  - intros Hlt Hfit. destruct (Z.leb_spec max min); [lia |].
    assert (Hspan : sub64 max min = max - min).
    { apply sub64_exact. unfold in_int64, min_int64, max_int64. int64_consts. lia. }
    rewrite Hspan. cbn [bind Monad_Gen]. unfold Int63n at 1.
    destruct (Z.leb_spec (max - min) 0); [lia |].
    unfold Float64 at 1. cbn [ret Monad_Gen].
    eexists _, _. split; [reflexivity |].
    match goal with |- _ <= (if ?c then _ else _) => destruct c eqn:E end; [lia |].
    apply Z.ltb_ge in E. exact E.
  - intros Hwide. destruct (Z.leb_spec max min); [lia |].
    assert (Hspan : sub64 max min = max - min - 18446744073709551616).
    { unfold sub64, wrap64. int64_consts.
      replace ((max - min + 9223372036854775808) mod 18446744073709551616)
        with (max - min + 9223372036854775808 - 18446744073709551616); [lia |].
      apply Z.mod_unique with 1; lia. }
    rewrite Hspan. cbn [bind Monad_Gen]. unfold Int63n at 1.
    destruct (Z.leb_spec (max - min - 18446744073709551616) 0); [reflexivity | lia].
Qed.

(** With the default timing and the range 500ms to 2s, the delay is at
    least 500ms. *)
Lemma RandomDelay_default_run :
  exists v rng',
    RandomDelay default_timing 500000000 2000000000
      (constant_tape 0 (lit 1 2)) = Ok (v, rng') /\
    500000000 <= v.
Proof.
  destruct (RandomDelay_at_least_min default_timing 500000000 2000000000
              (constant_tape 0 (lit 1 2))) as [_ [H _]].
  - unfold in_int64, min_int64, max_int64. lia.
  - unfold in_int64, min_int64, max_int64. lia.
  - apply H; [lia | unfold max_int64; lia].
Defined.

(** ** The scroll controller *)

Section ScrollMoreFacts.

Variable cfg : ScrollingConfig.

(** The sums of a scroll sequence, for any positive distance. *)
Lemma GenerateScrollSequence_sums (totalDistance : Z) (rng : Rand) :
  0 < totalDistance <= max_int64 ->
  (scroll_Enabled cfg = true -> valid_speeds cfg) ->
  exists actions rng',
    GenerateScrollSequence cfg totalDistance rng = Ok (actions, rng') /\
    totalDistance <= direction_sum "down" actions <= totalDistance + 9 /\
    0 <= 3 * direction_sum "up" actions <= direction_sum "down" actions /\
    signed_sum actions = direction_sum "down" actions - direction_sum "up" actions.
Proof.
  intros HD Hspeeds. unfold GenerateScrollSequence.
  destruct (scroll_Enabled cfg) eqn:En; cbn [negb].
  - destruct (scroll_loop_returns cfg any_source any_source_advance
                (Hspeeds eq_refl) (Z.to_nat totalDistance) [] totalDistance
                ltac:(lia) ltac:(lia) rng)
      as (actions & rng' & E & _ & H); [exact Logic.I |].
    exists actions, rng'. split; [exact E |].
    cbv zeta in H.
    change (direction_sum "down" []) with 0 in H.
    change (direction_sum "up" []) with 0 in H.
    change (signed_sum []) with 0 in H.
    repeat split; lia.
  - eexists _, _. split; [reflexivity |].
    rewrite !direction_sum_one, signed_sum_one. eval_directions.
    repeat split; lia.
Qed.

Lemma swap_direction_sums actions :
  direction_sum "up" (map swap_direction actions) = direction_sum "down" actions /\
  direction_sum "down" (map swap_direction actions) = direction_sum "up" actions /\
  signed_sum (map swap_direction actions) = - signed_sum actions.
Proof.
  unfold direction_sum, signed_sum.
  induction actions as [| a actions (IHu & IHd & IHs)]; cbn [map fold_right].
  - repeat split; reflexivity.
  - rewrite IHu, IHd, IHs. unfold swap_direction, signed_delta.
    destruct (String.eqb (Direction a) "down") eqn:Ed.
    + cbn [Direction Delta]. apply String.eqb_eq in Ed. rewrite Ed.
      cbv [String.eqb Ascii.eqb Bool.eqb]. repeat split; lia.
    + destruct (String.eqb (Direction a) "up") eqn:Eu.
      * cbn [Direction Delta]. cbv [String.eqb Ascii.eqb Bool.eqb].
        repeat split; lia.
      * rewrite Ed, Eu. repeat split; lia.
Qed.

End ScrollMoreFacts.

(** X11.  [ScrollToElement] brings the target to a third of the viewport below
    the top.  With [d] the distance still to go: for [d > 0] it scrolls
    down, the forward deltas covering [d] with at most 9 to spare; for
    [d < -(viewportHeight/2)] it scrolls up in the same way, the roles of
    "up" and "down" exchanged; in between, up to half a viewport too far
    down, it does nothing and draws nothing. *)
Theorem ScrollToElement_zones :
  forall (cfg : ScrollingConfig) (currentY targetY viewportHeight : Z) (rng : Rand),
    0 <= viewportHeight <= max_int64 ->
    in_int64 (targetY - currentY) ->
    (scroll_Enabled cfg = true -> valid_speeds cfg) ->
    let d := targetY - currentY - viewportHeight / 3 in
    - max_int64 <= d <= max_int64 ->
    (0 < d ->
     exists actions rng',
       ScrollToElement cfg currentY targetY viewportHeight rng = Ok (actions, rng') /\
       d <= direction_sum "down" actions <= d + 9 /\
       0 <= 3 * direction_sum "up" actions <= direction_sum "down" actions) /\
    (d < - (viewportHeight / 2) ->
     exists actions rng',
       ScrollToElement cfg currentY targetY viewportHeight rng = Ok (actions, rng') /\
       - d <= direction_sum "up" actions <= - d + 9 /\
       0 <= 3 * direction_sum "down" actions <= direction_sum "up" actions) /\
    (- (viewportHeight / 2) <= d <= 0 ->
     ScrollToElement cfg currentY targetY viewportHeight rng = Ok ([], rng)).
Proof.
  intros cfg currentY targetY vh rng Hvh Hty Hspeeds d Hd.
  unfold ScrollToElement.
  assert (Hthird : quot64 vh 3 = vh / 3) by (apply quot64_pos; lia).
  assert (Hdist : sub64 (sub64 targetY currentY) (quot64 vh 3) = d).
  { rewrite Hthird, (sub64_exact targetY currentY) by assumption.
    apply sub64_exact. unfold in_int64, min_int64, max_int64 in *.
    int64_consts. unfold d in Hd. lia. }
  assert (Hhalf : quot64 (neg64 vh) 2 = - (vh / 2)).
  { unfold neg64. rewrite wrap64_small
      by (unfold in_int64, min_int64, max_int64 in *; int64_consts; lia).
    unfold quot64. rewrite Z.quot_opp_l, Z.quot_div_nonneg by lia.
    apply wrap64_small.
    pose proof (Z.div_pos vh 2 ltac:(lia) ltac:(lia)).
    pose proof (Z.div_le_upper_bound vh 2 vh ltac:(lia) ltac:(lia)).
    unfold in_int64, min_int64, max_int64 in *. int64_consts. lia. }
  rewrite Hdist, Hhalf.
  pose proof (Z.div_pos vh 2 ltac:(lia) ltac:(lia)) as Hh0.
  split; [| split].
  - intros Hpos. destruct (Z.ltb_spec 0 d); [| lia].
    destruct (GenerateScrollSequence_sums cfg d rng ltac:(lia) Hspeeds)
      as (actions & rng' & E & Hdown & Hup & _).
    exists actions, rng'. auto.
  - intros Hneg. destruct (Z.ltb_spec 0 d); [lia |].
    destruct (Z.ltb_spec d (- (vh / 2))); [| lia].
    assert (Hnd : neg64 d = - d).
    { unfold neg64. apply wrap64_small.
      unfold in_int64, min_int64, max_int64 in *. int64_consts. lia. }
    rewrite Hnd. cbn [bind Monad_Gen].
    destruct (GenerateScrollSequence_sums cfg (- d) rng ltac:(lia) Hspeeds)
      as (actions & rng' & E & Hdown & Hup & _).
    rewrite E. cbn [ret Monad_Gen].
    exists (map swap_direction actions), rng'. split; [reflexivity |].
    destruct (swap_direction_sums actions) as (Eu & Ed & _).
    rewrite Eu, Ed. auto.
  - intros Hmid. destruct (Z.ltb_spec 0 d); [lia |].
    destruct (Z.ltb_spec d (- (vh / 2))); [lia | reflexivity].
Qed.

(** An element 2000 pixels up the page, in a viewport of 900. *)
Lemma ScrollToElement_up_run :
  let d := 1000 - 3000 - 900 / 3 in
  (0 < d ->
   exists actions rng',
     ScrollToElement default_scrolling 3000 1000 900 (constant_tape 7 (lit 1 100))
     = Ok (actions, rng') /\
     d <= direction_sum "down" actions <= d + 9 /\
     0 <= 3 * direction_sum "up" actions <= direction_sum "down" actions) /\
  (d < - (900 / 2) ->
   exists actions rng',
     ScrollToElement default_scrolling 3000 1000 900 (constant_tape 7 (lit 1 100))
     = Ok (actions, rng') /\
     - d <= direction_sum "up" actions <= - d + 9 /\
     0 <= 3 * direction_sum "down" actions <= direction_sum "up" actions) /\
  (- (900 / 2) <= d <= 0 ->
   ScrollToElement default_scrolling 3000 1000 900 (constant_tape 7 (lit 1 100))
   = Ok ([], constant_tape 7 (lit 1 100))).
Proof.
  apply (ScrollToElement_zones default_scrolling 3000 1000 900
           (constant_tape 7 (lit 1 100))).
  - unfold max_int64. lia.
  - unfold in_int64, min_int64, max_int64. lia.
  - intros _. unfold valid_speeds, max_int64. simpl. lia.
  - unfold max_int64. simpl. lia.
Defined.

(** X12.  [RandomViewportScroll] always returns: a delta between 100 and 399, up
    or down, never a pause. *)
Theorem RandomViewportScroll_range :
  forall (cfg : ScrollingConfig) (rng : Rand),
    exists action rng',
      RandomViewportScroll cfg rng = Ok (action, rng') /\
      100 <= Delta action <= 399 /\
      (Direction action = "up"%string \/ Direction action = "down"%string).
Proof.
  intros cfg rng.
  assert (H : returns any_source (RandomViewportScroll cfg)
                (fun action => 100 <= Delta action <= 399 /\
                   (Direction action = "up"%string \/
                    Direction action = "down"%string))).
  { unfold RandomViewportScroll.
    eapply returns_bind; [apply returns_Intn; [apply any_source_advance | lia] |].
    intros n Hn. cbv beta in Hn.
    eapply returns_bind; [apply returns_Float64; apply any_source_advance |].
    intros r _.
    eapply returns_bind;
      [apply calculateScrollDuration_returns; apply any_source_advance |].
    intros d _. apply returns_ret. cbn [Delta Direction].
    unfold add64. rewrite wrap64_small
      by (unfold in_int64, min_int64, max_int64; int64_consts; lia).
    split; [lia |]. destruct (fltb r _); auto. }
  destruct (H rng Logic.I) as (action & rng' & E & _ & Hpost).
  exists action, rng'. auto.
Qed.

(** X13.  A speed range from which no speed of 2 or more can come makes the
    scroll loop panic on its first turn: either [MaxScrollSpeed] is below
    [MinScrollSpeed] and [Intn] gets a bound that is not positive, or the
    speed drawn is -1, 0 or 1 and [Intn(speed/2)] gets 0. *)
Theorem GenerateScrollSequence_bad_speeds :
  forall (cfg : ScrollingConfig) (totalDistance : Z) (rng : Rand),
    scroll_Enabled cfg = true ->
    0 < totalDistance ->
    (MaxScrollSpeed cfg < MinScrollSpeed cfg /\
     min_int64 <= MaxScrollSpeed cfg - MinScrollSpeed cfg) \/
    (-1 <= MinScrollSpeed cfg /\ MinScrollSpeed cfg <= MaxScrollSpeed cfg /\
     MaxScrollSpeed cfg <= 1) ->
    GenerateScrollSequence cfg totalDistance rng = Panic "invalid argument to Intn".
Proof.
  intros cfg D rng En HD Hbad. unfold GenerateScrollSequence.
  rewrite En. cbn [negb].
  destruct (Z.to_nat D) as [| fuel] eqn:EF; [lia |].
  cbn [scroll_loop]. destruct (Z.ltb_spec 0 D); [| lia].
  cbn [bind Monad_Gen]. unfold scroll_turn. cbn [bind Monad_Gen].
  unfold min_int64 in Hbad.
  assert (Hspan : add64 (sub64 (MaxScrollSpeed cfg) (MinScrollSpeed cfg)) 1
                  = MaxScrollSpeed cfg - MinScrollSpeed cfg + 1).
  { unfold add64, sub64.
    rewrite (wrap64_small (MaxScrollSpeed cfg - MinScrollSpeed cfg))
      by (unfold in_int64, min_int64, max_int64; int64_consts; lia).
    apply wrap64_small. unfold in_int64, min_int64, max_int64. int64_consts. lia. }
  rewrite Hspan. unfold Intn at 1.
  destruct Hbad as [[Hrev Hlo] | (Hlo & Hle & Hhi)].
  - destruct (Z.leb_spec (MaxScrollSpeed cfg - MinScrollSpeed cfg + 1) 0);
      [reflexivity | lia].
  - destruct (Z.leb_spec (MaxScrollSpeed cfg - MinScrollSpeed cfg + 1) 0); [lia |].
    set (n := raw (current rng) mod (MaxScrollSpeed cfg - MinScrollSpeed cfg + 1)).
    assert (Hn : 0 <= n < MaxScrollSpeed cfg - MinScrollSpeed cfg + 1)
      by (apply Z.mod_pos_bound; lia).
    unfold calculateScrollAmount. cbn [bind Monad_Gen].
    assert (Hhalf : quot64 (add64 (MinScrollSpeed cfg) n) 2 = 0).
    { unfold add64. rewrite wrap64_small
        by (unfold in_int64, min_int64, max_int64; int64_consts; lia).
      unfold quot64.
      assert (Hq : Z.quot (MinScrollSpeed cfg + n) 2 = 0).
      { assert (Hcases : MinScrollSpeed cfg + n = -1 \/ MinScrollSpeed cfg + n = 0 \/
                         MinScrollSpeed cfg + n = 1) by lia.
        destruct Hcases as [-> | [-> | ->]]; reflexivity. }
      rewrite Hq. reflexivity. }
    rewrite Hhalf. reflexivity.
Qed.

(** Both speeds at 1. *)
Lemma GenerateScrollSequence_speed_one :
  GenerateScrollSequence (mkScrollingConfig true 1 1 (lit 1 10) (lit 15 100) true)
    500 (constant_tape 7 (lit 1 4))
  = Panic "invalid argument to Intn".
Proof.
  apply (GenerateScrollSequence_bad_speeds
           (mkScrollingConfig true 1 1 (lit 1 10) (lit 15 100) true)
           500 (constant_tape 7 (lit 1 4))).
  - reflexivity.
  - lia.
  - right. simpl. lia.
Defined.

(** ** The executors *)

(** The sub-steps of a smooth scroll: at least five, and they sum to the
    total in [int] arithmetic. *)
Lemma GenerateSmoothScrollSteps_sum cfg totalDelta rng :
  SmoothScrolling cfg = true ->
  in_int64 totalDelta ->
  exists steps rng',
    GenerateSmoothScrollSteps cfg totalDelta rng = Ok (steps, rng') /\
    (5 <= List.length steps)%nat /\
    wrap64 (Zsum steps) = totalDelta.
Proof.
  intros Hsmooth Hint.
  unfold GenerateSmoothScrollSteps. rewrite Hsmooth. cbn [negb].
  pose proof (smooth_numSteps_range totalDelta) as Hn.
  set (numSteps := smooth_numSteps totalDelta) in *.
  set (n := Z.to_nat numSteps).
  assert (Hloop : returns any_source
            (smooth_loop totalDelta numSteps (map Z.of_nat (seq 0 n))
               (repeat 0 n, totalDelta))
            (smooth_inv totalDelta n n)).
  { apply smooth_loop_returns; try (unfold n; lia); [apply any_source_advance |].
    exists []. cbn [fst snd app List.length]. rewrite Nat.sub_0_r.
    repeat split; auto.
    - intros _. unfold Zsum. cbn [fold_right]. now apply wrap64_small.
    - unfold n. lia. }
  destruct (Hloop rng Logic.I)
    as ([steps remaining] & rng' & E & _ & done & Hsteps & Hlen & _ & Hsum).
  cbn [fst snd] in *. rewrite Nat.sub_diag in Hsteps. cbn [repeat] in Hsteps.
  rewrite app_nil_r in Hsteps. subst steps.
  exists done, rng'. unfold indices. cbn [bind Monad_Gen]. rewrite E.
  split; [reflexivity |]. split; [unfold n in Hlen; lia |].
  apply Hsum. reflexivity.
Qed.

(** A page at [p] moved by [s], which is [d] in [int] arithmetic, [d]
    standing for [e], and then by [rest]. *)
Lemma wrap64_moved p s d e rest :
  wrap64 s = d ->
  wrap64 (p + d) = wrap64 (p + e) ->
  wrap64 (wrap64 (p + s) + rest) = wrap64 (p + (e + rest)).
Proof.
  intros Hs Hd.
  rewrite wrap64_add_l.
  replace (p + s + rest) with (p + rest + s) by lia.
  rewrite <- (wrap64_add_r (p + rest) s), Hs.
  replace (p + rest + d) with (rest + (p + d)) by lia.
  rewrite <- (wrap64_add_r rest (p + d)), Hd, (wrap64_add_r rest (p + e)).
  f_equal. lia.
Qed.

Section ExecuteScrollFacts.

Context {W : Type}.
Variable O : Outside W.
Variable cfg : ScrollingConfig.
Variable scrollFn : Z -> W -> option error * W.

(** The position of the page, as the outside keeps it. *)
Variable position : W -> Z.
Hypothesis position_int : forall w, in_int64 (position w).

(** The context is never done, and neither polling it nor sleeping moves
    the page. *)
Hypothesis poll_quiet :
  forall w, fst (poll O w) = None /\ position (snd (poll O w)) = position w.
Hypothesis wait_quiet :
  forall d w, fst (wait O d w) = None /\ position (snd (wait O d w)) = position w.
(** The callback moves the page by the delta it is given. *)
Hypothesis scrollFn_moves :
  forall delta w,
    fst (scrollFn delta w) = None /\
    position (snd (scrollFn delta w)) = add64 (position w) delta.

Lemma smooth_steps_loop_moves stepDelay steps : forall w rng,
  exists w',
    smooth_steps_loop O scrollFn stepDelay steps w rng = Ok ((None, w'), rng) /\
    position w' = wrap64 (position w + Zsum steps).
Proof.
  induction steps as [| step steps IH]; intros w rng.
  - exists w. split; [reflexivity |]. unfold Zsum. cbn [fold_right].
    rewrite Z.add_0_r. symmetry. apply wrap64_small, position_int.
  - cbn [smooth_steps_loop]. unfold check at 1, outside at 1.
    cbn [bind Monad_Run].
    destruct (scrollFn_moves step w) as [E1 P1].
    destruct (scrollFn step w) as [e1 w1]. cbn [fst snd] in *. subst e1.
    unfold check at 1, Sleep at 1, outside at 1. cbn [bind Monad_Run].
    destruct (wait_quiet stepDelay w1) as [E2 P2].
    destruct (wait O stepDelay w1) as [e2 w2]. cbn [fst snd] in *. subst e2.
    destruct (IH w2 rng) as (w' & E & P).
    exists w'. split; [exact E |].
    rewrite P, P2, P1. unfold add64, Zsum. cbn [fold_right].
    rewrite wrap64_add_l. f_equal. lia.
Qed.

Lemma ExecuteScroll_moves actions : forall w rng,
  Forall (fun a => in_int64 (Delta a)) actions ->
  exists w' rng',
    ExecuteScroll O cfg scrollFn actions w rng = Ok ((None, w'), rng') /\
    position w' = wrap64 (position w + scroll_effects actions).
Proof.
  induction actions as [| action actions IH]; intros w rng Hint.
  - exists w, rng. split; [reflexivity |]. unfold scroll_effects. cbn [fold_right].
    rewrite Z.add_0_r. symmetry. apply wrap64_small, position_int.
  - inversion Hint as [| ? ? Hdelta Hrest]; subst.
    cbn [ExecuteScroll]. unfold check at 1, outside at 1. cbn [bind Monad_Run].
    destruct (poll_quiet w) as [E0 P0].
    destruct (poll O w) as [e0 w0]. cbn [fst snd] in *. subst e0.
    unfold scroll_effects. cbn [fold_right]. fold (scroll_effects actions).
    unfold scroll_effect.
    destruct (String.eqb (Direction action) "pause").
    + unfold check at 1, Sleep at 1, outside at 1. cbn [bind Monad_Run].
      destruct (wait_quiet (action_Duration action) w0) as [E1 P1].
      destruct (wait O (action_Duration action) w0) as [e1 w1].
      cbn [fst snd] in *. subst e1.
      destruct (IH w1 rng Hrest) as (w' & rng' & E & P).
      exists w', rng'. split; [exact E |]. rewrite P, P1, P0. f_equal.
    + set (delta := if String.eqb (Direction action) "up"
                    then neg64 (Delta action) else Delta action).
      assert (Hd : in_int64 delta /\
                   wrap64 (position w0 + delta)
                   = wrap64 (position w0 +
                             (if String.eqb (Direction action) "up"
                              then - Delta action else Delta action))).
      { unfold delta. destruct (String.eqb (Direction action) "up").
        - split; [apply wrap64_range |]. unfold neg64. apply wrap64_add_r.
        - split; [assumption | reflexivity]. }
      destruct Hd as [Hdin Hdsum]. cbv zeta. fold delta.
      destruct (SmoothScrolling cfg) eqn:Hsmooth.
      * cbn [bind Monad_Run]. unfold random at 1.
        destruct (GenerateSmoothScrollSteps_sum cfg delta rng Hsmooth Hdin)
          as (steps & rng1 & Esteps & Hlen & Hsum).
        rewrite Esteps.
        destruct (Nat.eqb_spec (List.length steps) 0); [lia |].
        unfold check at 1. cbn [bind Monad_Run].
        destruct (smooth_steps_loop_moves
                    (quot64 (action_Duration action) (Z.of_nat (List.length steps)))
                    steps w0 rng1) as (w1 & E1 & P1).
        rewrite E1.
        destruct (IH w1 rng1 Hrest) as (w' & rng' & E & P).
        exists w', rng'. split; [exact E |].
        rewrite P, P1, <- P0. apply (wrap64_moved _ _ delta); assumption.
      * unfold check at 1, outside at 1. cbn [bind Monad_Run].
        destruct (scrollFn_moves delta w0) as [E1 P1].
        destruct (scrollFn delta w0) as [e1 w1]. cbn [fst snd] in *. subst e1.
        unfold check at 1, Sleep at 1, outside at 1. cbn [bind Monad_Run].
        destruct (wait_quiet (action_Duration action) w1) as [E2 P2].
        destruct (wait O (action_Duration action) w1) as [e2 w2].
        cbn [fst snd] in *. subst e2.
        destruct (IH w2 rng Hrest) as (w' & rng' & E & P).
        exists w', rng'. split; [exact E |].
        rewrite P, P2, P1, <- P0. unfold add64.
        apply (wrap64_moved _ _ delta); [apply wrap64_small |]; assumption.
Qed.

End ExecuteScrollFacts.

Lemma scroll_effects_known actions :
  Forall known_direction actions -> scroll_effects actions = signed_sum actions.
Proof.
  unfold scroll_effects, signed_sum.
  induction 1 as [| a actions Ha _ IH]; cbn [fold_right]; [reflexivity |].
  rewrite IH. f_equal. unfold scroll_effect, signed_delta.
  destruct Ha as [-> | [-> | ->]]; reflexivity.
Qed.



Section ExecuteTypingFacts.

Context {W : Type}.
Variable O : Outside W.
Variable U : Unicode.
Variable cfg : TypingConfig.
Variable typeFn : rune -> W -> option error * W.
Variable backspaceFn : W -> option error * W.

(** The content of the field typed into, as the outside keeps it. *)
Variable content : W -> list rune.

Hypothesis poll_quiet :
  forall w, fst (poll O w) = None /\ content (snd (poll O w)) = content w.
Hypothesis sleep_quiet : forall d w, content (sleep O d w) = content w.
Hypothesis now_quiet : forall w, content (snd (now O w)) = content w.
Hypothesis typeFn_types :
  forall char w,
    fst (typeFn char w) = None /\ content (snd (typeFn char w)) = content w ++ [char].
Hypothesis backspaceFn_deletes :
  forall w,
    fst (backspaceFn w) = None /\ content (snd (backspaceFn w)) = removelast (content w).

Lemma typing_loop_replays keystrokes : forall w rng,
  exists w',
    typing_loop O typeFn backspaceFn keystrokes w rng = Ok ((None, w'), rng) /\
    content w' = fold_left replay_step keystrokes (content w).
Proof.
  induction keystrokes as [| ks keystrokes IH]; intros w rng.
  - exists w. split; reflexivity.
  - cbn [typing_loop fold_left]. unfold check at 1, outside at 1.
    cbn [bind Monad_Run].
    destruct (poll_quiet w) as [E0 P0].
    destruct (poll O w) as [e0 w0]. cbn [fst snd] in *. subst e0.
    set (w1 := if 0 <? Delay ks then sleep O (Delay ks) w0 else w0).
    assert (P1 : content w1 = content w).
    { unfold w1. destruct (0 <? Delay ks); [rewrite sleep_quiet |]; exact P0. }
    assert (E1 : (if 0 <? Delay ks
                  then outside (fun w => (tt, sleep O (Delay ks) w))
                  else ret tt) w0 rng = Ok ((tt, w1), rng)).
    { unfold w1. destruct (0 <? Delay ks); reflexivity. }
    rewrite E1. unfold check at 1. cbn [bind Monad_Run].
    unfold replay_step at 2.
    destruct (Backspace ks).
    + unfold outside at 1.
      destruct (backspaceFn_deletes w1) as [E2 P2].
      destruct (backspaceFn w1) as [e2 w2]. cbn [fst snd] in *. subst e2.
      destruct (IH w2 rng) as (w' & E & P).
      exists w'. split; [exact E |]. rewrite P, P2, P1. reflexivity.
    + unfold outside at 1.
      destruct (typeFn_types (Char ks) w1) as [E2 P2].
      destruct (typeFn (Char ks) w1) as [e2 w2]. cbn [fst snd] in *. subst e2.
      destruct (IH w2 rng) as (w' & E & P).
      exists w'. split; [exact E |]. rewrite P, P2, P1. reflexivity.
Qed.

End ExecuteTypingFacts.

(** Replayed after anything typed so far, the groups of a text add the
    text. *)
Lemma replay_groups cfg is_space runes groups :
  Forall2 (key_group cfg is_space) runes groups ->
  forall typed, fold_left replay_step (List.concat groups) typed = typed ++ runes.
Proof.
  induction 1 as [| char group runes groups Hg _ IH]; intros typed;
    cbn [List.concat].
  - cbn [fold_left]. now rewrite app_nil_r.
  - rewrite fold_left_app, IH.
    destruct Hg as [(d & ->) | (_ & t & d & d' & ->)]; cbn [fold_left];
      unfold replay_step; cbn [Backspace Char].
    + now rewrite <- app_assoc.
    + rewrite removelast_last, <- app_assoc. reflexivity.
Qed.



(** ** The size of a mouse path *)

Section PathCountFacts.

Variable cfg : MouseMovementConfig.

Hypothesis complexity_fits : BezierComplexity cfg <= max_int64 - 2.

Lemma control_loop_length start dx dy distance : forall todo points,
  returns any_source (control_loop start dx dy distance todo points)
    (fun out => List.length out = List.length points).
Proof.
  induction todo as [| i todo IH]; intros points; cbn [control_loop].
  - apply returns_ret. reflexivity.
  - eapply returns_bind; [apply returns_Float64; apply any_source_advance |].
    intros r _. eapply returns_weaken; [apply IH |].
    intros out H. cbv beta in H. rewrite H. apply set_nth_length.
Qed.

Lemma generateControlPoints_any start end_ :
  returns any_source (generateControlPoints cfg start end_) (fun _ => True).
Proof.
  unfold generateControlPoints.
  set (c := if BezierComplexity cfg <? 2 then 2 else BezierComplexity cfg).
  assert (Hc : 2 <= c <= max_int64 - 2).
  { subst c. destruct (Z.ltb_spec (BezierComplexity cfg) 2);
      [unfold max_int64; lia | lia]. }
  assert (Hn : add64 c 2 = c + 2).
  { unfold add64. apply wrap64_small. unfold in_int64, min_int64, max_int64 in *. lia. }
  rewrite Hn. destruct (Z.ltb_spec (c + 2) 0); [lia |].
  match goal with |- returns _ (if ?b then _ else _) _ => destruct b end.
  - apply returns_ret. exact I.
  - eapply returns_weaken; [apply control_loop_length |]. intros; exact I.
Qed.

Lemma generateBezierPath_length start end_ numSteps :
  returns any_source (generateBezierPath cfg start end_ numSteps)
    (fun path => List.length path = (Z.to_nat numSteps + 1)%nat).
Proof.
  unfold generateBezierPath.
  eapply returns_bind; [apply generateControlPoints_any |].
  intros controlPoints _. apply returns_ret.
  unfold indices. rewrite !length_map, length_seq. reflexivity.
Qed.

Lemma addOvershoot_length path target :
  path <> [] ->
  returns any_source (addOvershoot cfg path target)
    (fun out => List.length out = (List.length path + 21)%nat).
Proof.
  intros Hne. unfold addOvershoot. destruct path as [| p path']; [congruence |].
  eapply returns_bind; [apply returns_Float64; apply any_source_advance |].
  intros r _.
  eapply returns_bind; [apply generateBezierPath_length |].
  intros correctionPath Hlen. cbv beta in Hlen. apply returns_ret.
  rewrite !length_app. cbn [List.length].
  destruct correctionPath as [| q rest]; cbn [List.length tl] in *; lia.
Qed.

(** The pauses [addMicroMovements] may add: one for each interior index
    among the [k] indices from [i] on, of a path of [n] points. *)
Lemma micro_loop_length n : forall todo i result,
  returns any_source (micro_loop n i todo result)
    (fun out =>
       Z.of_nat (List.length result + List.length todo)
       <= Z.of_nat (List.length out)
       <= Z.of_nat (List.length result + List.length todo)
          + Z.max 0 (Z.min (n - 1) (i + Z.of_nat (List.length todo)) - Z.max 1 i)).
Proof.
  induction todo as [| p todo IH]; intros i result; cbn [micro_loop].
  - apply returns_ret. cbn [List.length]. lia.
  - eapply returns_bind; [apply returns_Float64; apply any_source_advance |].
    intros r1 _.
    eapply returns_bind; [apply returns_Float64; apply any_source_advance |].
    intros r2 _.
    eapply returns_bind with
      (P := fun res : list Point =>
              Z.of_nat (List.length result) + 1 <= Z.of_nat (List.length res)
              <= Z.of_nat (List.length result) + 1
                 + (if (0 <? i) && (i <? n - 1) then 1 else 0)).
    + destruct ((0 <? i) && (i <? n - 1)).
      * eapply returns_bind; [apply returns_Float64; apply any_source_advance |].
        intros r _.
        match goal with |- returns _ (if ?b then _ else _) _ => destruct b end.
        -- eapply returns_bind; [apply returns_Float64; apply any_source_advance |].
           intros r3 _.
           eapply returns_bind; [apply returns_Float64; apply any_source_advance |].
           intros r4 _. apply returns_ret.
           rewrite !length_app. cbn [List.length]. lia.
        -- apply returns_ret. rewrite !length_app. cbn [List.length]. lia.
      * apply returns_ret. rewrite !length_app. cbn [List.length]. lia.
    + intros res Hres. cbv beta in Hres.
      eapply returns_weaken; [apply IH |].
      intros out Hout. cbv beta in Hout. cbn [List.length].
      destruct (Z.ltb_spec 0 i); destruct (Z.ltb_spec i (n - 1));
        cbn [andb] in Hres; lia.
Qed.

Lemma addMicroMovements_length path :
  returns any_source (addMicroMovements path)
    (fun out =>
       (List.length path <= List.length out)%nat /\
       (List.length out <= List.length path + (List.length path - 2))%nat).
Proof.
  unfold addMicroMovements.
  eapply returns_weaken; [apply micro_loop_length |].
  intros out H. cbv beta in H. cbn [List.length] in H. lia.
Qed.

Lemma path_numSteps_range start end_ : 30 <= path_numSteps start end_ <= 200.
Proof.
  unfold path_numSteps.
  match goal with |- context [int_of_float64 ?x] => generalize (int_of_float64 x) end.
  intros v. destruct (Z.ltb_spec v 30).
  - destruct (Z.ltb_spec 200 30); lia.
  - destruct (Z.ltb_spec 200 v); lia.
Qed.

Lemma GeneratePath_length start end_ :
  mouse_Enabled cfg = true ->
  returns any_source (GeneratePath cfg start end_)
    (fun path =>
       let steps := Z.to_nat (path_numSteps start end_) in
       (steps + 1 <= List.length path <= 2 * (steps + 22) - 2)%nat /\
       (OvershootEnabled cfg = false ->
        steps + 1 <= List.length path <= 2 * (steps + 1) - 2)%nat /\
       (MicroMovements cfg = false ->
        List.length path = steps + 1 \/ List.length path = steps + 22)%nat /\
       (OvershootEnabled cfg = false -> MicroMovements cfg = false ->
        List.length path = steps + 1)%nat).
Proof.
  intros Hen. unfold GeneratePath. rewrite Hen. cbn [negb].
  pose proof (path_numSteps_range start end_) as Hsteps.
  set (numSteps := path_numSteps start end_) in *.
  eapply returns_bind; [apply generateBezierPath_length |].
  intros path Hpath. cbv beta in Hpath.
  eapply returns_bind with
    (P := fun p : list Point =>
            (List.length p = Z.to_nat numSteps + 1 \/
             (OvershootEnabled cfg = true /\
              List.length p = Z.to_nat numSteps + 22))%nat).
  - destruct (OvershootEnabled cfg).
    + eapply returns_bind; [apply returns_Float64; apply any_source_advance |].
      intros r _.
      match goal with |- returns _ (if ?b then _ else _) _ => destruct b end.
      * eapply returns_weaken; [apply addOvershoot_length |].
        -- intros ->. cbn [List.length] in Hpath. lia.
        -- intros a Ha. cbv beta in Ha. right. split; [reflexivity | lia].
      * apply returns_ret. left. exact Hpath.
    + apply returns_ret. left. exact Hpath.
  - intros p Hp. cbv beta in Hp.
    destruct (MicroMovements cfg).
    + eapply returns_weaken; [apply addMicroMovements_length |].
      intros out [Hlo Hhi]. cbv zeta.
      destruct Hp as [Hp | [Hov Hp]];
        (split; [lia |
         split; [intros Hov'; try congruence; lia |
         split; [intros Hm; discriminate | intros _ Hm; discriminate]]]).
    + apply returns_ret. cbv zeta.
      destruct Hp as [Hp | [Hov Hp]];
        (split; [lia |
         split; [intros Hov'; try congruence; lia |
         split; [intros _; lia | intros Hov' _; try congruence; lia]]]).
Qed.

End PathCountFacts.



(** ** Rounding never crosses a float *)

Section BoundFacts.

(** Rounding to nearest does not take a value above a bound that is itself
    a float: [T * 2^t] with [T] of at most 53 digits. *)
Lemma binary_round_aux_below s M e T t :
  0 < M -> 0 < T -> Zdigits2 T <= 53 -> emin <= t <= 971 -> e <= t ->
  M <= T * 2 ^ (t - e) ->
  below T t (binary_round_aux prec emax s M e loc_Exact).
Proof.
  intros HM HT HdT Ht Het Hle.
  destruct (binary_round_aux_stages_exact s M e HM) as (m1 & Hm1 & E).
  cbv zeta in Hm1, E. rewrite E. clear E.
  unfold emin, SpecFloat.emin, prec, emax in Ht.
  assert (HdM : Zdigits2 M <= Zdigits2 T + (t - e)).
  { rewrite <- Zdigits2_mul_pow2 by lia. apply Zdigits2_mono. lia. }
  set (n := Z.max (fexp prec emax (Zdigits2 M + e) - e) 0) in *.
  assert (Hn : 0 <= n <= t - e).
  { subst n. unfold fexp, SpecFloat.emin, prec, emax. lia. }
  set (e' := e + n) in *.
  set (T' := T * 2 ^ (t - e')).
  assert (HT' : T * 2 ^ (t - e) = T' * 2 ^ n).
  { subst T' e'. rewrite <- Z.mul_assoc, <- Z.pow_add_r by lia.
    do 2 f_equal. lia. }
  assert (Hpn : 0 < 2 ^ n) by (apply Z.pow_pos_nonneg; lia).
  assert (HT'pos : 0 < T').
  { subst T'. apply Z.mul_pos_pos; [lia | apply Z.pow_pos_nonneg; lia]. }
  assert (Hq : 0 <= M / 2 ^ n <= T').
  { split; [apply Z.div_pos; lia |].
    apply Z.div_le_upper_bound; [lia |]. rewrite Z.mul_comm. lia. }
  assert (Hm1le : 0 <= m1 <= T').
  { destruct Hm1 as [-> | (-> & Hn0 & Hbit)]; [exact Hq |].
    split; [lia |].
    destruct (Z.eq_dec (M / 2 ^ n) T') as [Eq | Ne]; [| lia].
    exfalso.
    assert (EM : M = T' * 2 ^ n).
    { pose proof (Z.mul_div_le M (2 ^ n) Hpn) as Hlow. rewrite Eq in Hlow. lia. }
    rewrite EM in Hbit. rewrite Z.mul_pow2_bits_low in Hbit by lia.
    discriminate Hbit. }
  assert (Hd1 : Zdigits2 m1 <= Zdigits2 T + (t - e')).
  { transitivity (Zdigits2 T'); [apply Zdigits2_mono; lia |].
    subst T'. rewrite Zdigits2_mul_pow2 by lia. lia. }
  set (n2 := Z.max (fexp prec emax (Zdigits2 m1 + e') - e') 0).
  assert (Hn2 : 0 <= n2 <= t - e').
  { subst n2. unfold fexp, SpecFloat.emin, prec, emax. lia. }
  assert (Hpn2 : 0 < 2 ^ n2) by (apply Z.pow_pos_nonneg; lia).
  destruct (m1 / 2 ^ n2) as [| mf | mf] eqn:Emf.
  - exact I.
  - destruct (Z.leb_spec (e' + n2) (emax - prec)); [| unfold emax, prec in *; lia].
    cbn [below]. split; [lia |].
    rewrite <- Emf. apply Z.div_le_upper_bound; [lia |].
    replace (2 ^ n2 * (T * 2 ^ (t - (e' + n2)))) with T'; [lia |].
    subst T'. replace (t - e') with (n2 + (t - (e' + n2))) by lia.
    rewrite Z.pow_add_r by lia. ring.
  - exfalso. pose proof (Z.div_pos m1 (2 ^ n2) ltac:(lia) Hpn2). lia.
Qed.

Lemma binary_round_below s m e T t :
  0 < T -> Zdigits2 T <= 53 -> emin <= t <= 971 -> e <= t ->
  Z.pos m <= T * 2 ^ (t - e) ->
  below T t (binary_round prec emax s m e).
Proof.
  intros HT HdT Ht Het Hle. unfold binary_round.
  pose proof (shl_align_spec m e (fexp prec emax (Z.pos (digits2_pos m) + e))) as H.
  destruct (shl_align _ _ _) as [mz ez]. destruct H as [Hez Hmz].
  apply binary_round_aux_below; try assumption; try lia.
  rewrite Hmz.
  replace (t - ez) with ((t - e) + (e - ez)) by lia.
  rewrite Z.pow_add_r by lia.
  pose proof (Z.pow_pos_nonneg 2 (e - ez) ltac:(lia) ltac:(lia)).
  pose proof (Z.pow_pos_nonneg 2 (t - e) ltac:(lia) ltac:(lia)).
  nia.
Qed.

Lemma binary_normalize_below D e T t :
  0 < T -> Zdigits2 T <= 53 -> emin <= t <= 971 -> e <= t ->
  - (T * 2 ^ (t - e)) <= D <= T * 2 ^ (t - e) ->
  below T t (binary_normalize prec emax D e false).
Proof.
  intros HT HdT Ht Het HD.
  destruct D as [| p | p]; cbn [binary_normalize].
  - exact I.
  - apply binary_round_below; try assumption; lia.
  - apply binary_round_below; try assumption; lia.
Qed.

(** A product stays below what its factors allow. *)
Lemma fmul_below x y T N :
  0 < N < 2 ^ 53 -> below T 0 x -> scales T N y -> below N 0 (x * y)%f64.
Proof.
  intros HN Hx Hy.
  destruct x as [sx | sx | | sx mx ex], y as [sy | sy | | sy my ey];
    cbn [below scales] in Hx, Hy; try contradiction; try exact I.
  unfold fmul. cbn [SFmul].
  destruct Hx as [Hex Hmx], Hy as [Hey Hmy].
  apply binary_round_aux_below; try lia.
  - apply Zdigits2_le; lia.
  - unfold emin, SpecFloat.emin, prec, emax. lia.
  - rewrite Pos2Z.inj_mul.
    replace (0 - (ex + ey)) with ((- ex) + (- ey)) by lia.
    rewrite Z.pow_add_r by lia.
    replace (0 - ex) with (- ex) in Hmx by lia.
    pose proof (Z.pow_pos_nonneg 2 (- ex) ltac:(lia) ltac:(lia)).
    pose proof (Z.pow_pos_nonneg 2 (- ey) ltac:(lia) ltac:(lia)).
    nia.
Qed.

Lemma below_scales y T : 0 <= T -> below 1 0 y -> scales T T y.
Proof.
  intros HT. destruct y as [s | s | | s m e]; cbn [below scales]; auto.
  intros [He Hm]. split; [exact He |].
  replace (0 - e) with (- e) in Hm by lia. nia.
Qed.

Lemma at_most_ratio_scales p q y T N :
  0 <= T -> 0 < q -> at_most_ratio p q y -> p * T <= q * N -> scales T N y.
Proof.
  intros HT Hq. destruct y as [s | s | | s m e]; cbn [at_most_ratio scales]; auto.
  intros (_ & He & Hm) HN. split; [exact He |].
  pose proof (Z.pow_pos_nonneg 2 (- e) ltac:(lia) ltac:(lia)). nia.
Qed.

Lemma at_most_ratio_not_negative p q y : at_most_ratio p q y -> not_negative y.
Proof.
  destruct y; cbn [at_most_ratio not_negative]; auto. intros (H & _); exact H.
Qed.

Lemma fmul_not_negative x y T t :
  not_negative x -> not_negative y -> below T t (x * y)%f64 ->
  not_negative (x * y)%f64.
Proof.
  destruct x as [sx | sx | | sx mx ex], y as [sy | sy | | sy my ey];
    cbn [not_negative]; try contradiction; intros Hx Hy; try (intros; exact I).
  subst sx sy. unfold fmul. cbn [SFmul xorb].
  pose proof (binary_round_aux_sign false (Z.pos (mx * my)) (ex + ey) loc_Exact
                ltac:(lia)) as Hs.
  destruct (binary_round_aux _ _ _ _ _ _); cbn [below not_negative];
    try contradiction; auto.
Qed.

(** [time.Duration(x)] of a float below an integer. *)
Lemma int_of_float64_below x N :
  0 <= N <= max_int64 -> below N 0 x ->
  - N <= int_of_float64 x <= N /\
  (not_negative x -> 0 <= int_of_float64 x).
Proof.
  intros HN. unfold max_int64 in HN.
  destruct x as [s | s | | s m e]; cbn [below not_negative int_of_float64];
    try contradiction.
  - intros _. lia.
  - intros [He Hm]. replace (0 - e) with (- e) in Hm by lia.
    set (a := if 0 <=? e then Z.pos m * 2 ^ e else Z.pos m / 2 ^ (- e)).
    assert (Ha : 0 <= a <= N).
    { subst a. destruct (Z.leb_spec 0 e).
      - assert (e = 0) by lia. subst e. cbn [Z.opp Z.pow] in *. lia.
      - pose proof (Z.pow_pos_nonneg 2 (- e) ltac:(lia) ltac:(lia)).
        split; [apply Z.div_pos; lia |].
        apply Z.div_le_upper_bound; [lia |]. rewrite Z.mul_comm. exact Hm. }
    clearbody a.
    assert (Hv : - N <= (if s then - a else a) <= N) by (destruct s; lia).
    destruct (Z.leb_spec min_int64 (if s then - a else a));
      [| unfold min_int64 in *; lia].
    destruct (Z.leb_spec (if s then - a else a) max_int64);
      [| unfold max_int64 in *; lia].
    cbn [andb]. split; [exact Hv |]. intros ->. lia.
Qed.

Lemma float64_of_int_below d :
  0 <= d < 2 ^ 53 ->
  below d 0 (float64_of_int d) /\ not_negative (float64_of_int d).
Proof.
  intros Hd. destruct (Z.eq_dec d 0) as [-> | Hne].
  - split; exact I.
  - destruct (float64_of_int_exact d ltac:(lia)) as (md & ed & E & Hed & Hmd & _).
    rewrite E. cbn [below not_negative]. split; [| reflexivity].
    split; [lia |]. replace (0 - ed) with (- ed) by lia. lia.
Qed.

Lemma lit_2_1_eq : lit 2 1 = S754_finite false 4503599627370496 (-51).
Proof. vm_compute. reflexivity. Qed.

(** A draw of [Float64], doubled and moved down by one, lies between -1
    and 1. *)
Lemma centred_draw_below r :
  unit_interval r -> below 1 0 (r * lit 2 1 - f1)%f64.
Proof.
  intros Hu. rewrite lit_2_1_eq, f1_eq.
  destruct r as [s | s | | s m e].
  - unfold fmul, fsub. cbn [SFmul SFsub below]. split; [lia |].
    cbn [negb]. vm_compute. intros Hd; discriminate Hd.
  - pose proof (unit_interval_small _ Hu) as Hs. cbn [small] in Hs. contradiction.
  - pose proof (unit_interval_small _ Hu) as Hs. cbn [small] in Hs. contradiction.
  - destruct (unit_interval_finite s m e Hu) as (-> & He & Hm). clear Hu.
    assert (Hm' : Z.pos m <= 2 ^ (- e)).
    { replace (- e) with (53 + (- e - 53)) by lia. rewrite Z.pow_add_r by lia.
      pose proof (Z.pow_pos_nonneg 2 (- e - 53) ltac:(lia) ltac:(lia)).
      change (2 ^ 53) with 9007199254740992 in *. nia. }
    assert (Hr2 : below 4503599627370496 (-51)
                    (S754_finite false m e * S754_finite false 4503599627370496 (-51))%f64).
    { unfold fmul. cbn [SFmul xorb].
      apply binary_round_aux_below; try lia.
      - vm_compute. intros Hd; discriminate Hd.
      - unfold emin, SpecFloat.emin, prec, emax. lia.
      - rewrite Pos2Z.inj_mul. replace (-51 - (e + -51)) with (- e) by lia.
        nia. }
    assert (Hs2 : not_negative
                    (S754_finite false m e * S754_finite false 4503599627370496 (-51))%f64).
    { eapply fmul_not_negative; [reflexivity | reflexivity | exact Hr2]. }
    destruct (S754_finite false m e * S754_finite false 4503599627370496 (-51))%f64
      as [s2 | s2 | | s2 m2 e2]; cbn [below not_negative] in Hr2, Hs2;
      try contradiction.
    + unfold fsub. cbn [SFsub below negb]. split; [lia |].
      vm_compute. intros Hd; discriminate Hd.
    + subst s2. destruct Hr2 as [He2 Hm2].
      unfold fsub. cbn [SFsub cond_Zopp].
      set (ez := Z.min e2 (-52)).
      assert (Hez : ez <= e2 /\ ez <= -52) by (subst ez; lia).
      pose proof (shl_align_spec m2 e2 ez) as Ha.
      pose proof (shl_align_spec 4503599627370496 (-52) ez) as Hb.
      destruct (shl_align m2 e2 ez) as [ma ea].
      destruct (shl_align 4503599627370496 (-52) ez) as [mb eb].
      cbn [fst]. destruct Ha as [Eea Ha], Hb as [Eeb Hb].
      replace ea with ez in Ha by lia. replace eb with ez in Hb by lia.
      clear Eea Eeb. clearbody ez.
      replace (Z.pos 4503599627370496) with (2 ^ 52) in Hb by reflexivity.
      replace 4503599627370496 with (2 ^ 52) in Hm2 by reflexivity.
      assert (Eb : Z.pos mb = 2 ^ (- ez)).
      { rewrite Hb, <- Z.pow_add_r by lia. f_equal. lia. }
      assert (Ea : Z.pos ma <= 2 * 2 ^ (- ez)).
      { rewrite Ha.
        replace (2 * 2 ^ (- ez)) with (2 ^ 52 * 2 ^ (-51 - e2) * 2 ^ (e2 - ez)).
        - apply Z.mul_le_mono_nonneg_r; [apply Z.pow_nonneg; lia | exact Hm2].
        - rewrite <- !Z.pow_add_r by lia.
          replace (52 + (-51 - e2) + (e2 - ez)) with (1 + - ez) by lia.
          rewrite Z.pow_add_r by lia. reflexivity. }
      apply binary_normalize_below; try lia.
      * vm_compute. intros Hd; discriminate Hd.
      * unfold emin, SpecFloat.emin, prec, emax. lia.
      * replace (0 - ez) with (- ez) by lia. lia.
Qed.

End BoundFacts.

(** ** The variation of a delay *)

Lemma unit_interval_below r : unit_interval r -> below 1 0 r /\ not_negative r.
Proof.
  intros Hu. destruct r as [s | s | | s m e].
  - split; exact I.
  - pose proof (unit_interval_small _ Hu) as Hs. cbn [small] in Hs. contradiction.
  - pose proof (unit_interval_small _ Hu) as Hs. cbn [small] in Hs. contradiction.
  - destruct (unit_interval_finite s m e Hu) as (-> & He & Hm).
    cbn [below not_negative]. split; [| reflexivity]. split; [lia |].
    replace (0 - e) with (53 + (- e - 53)) by lia. rewrite Z.pow_add_r by lia.
    pose proof (Z.pow_pos_nonneg 2 (- e - 53) ltac:(lia) ltac:(lia)).
    change (2 ^ 53) with 9007199254740992 in *. nia.
Qed.

(** [time.Duration(float64(base) * c * h)] for a factor [c] that takes
    [base] to at most [N], and an [h] between -1 and 1. *)
Lemma scaled_variation base c h N :
  0 <= base < 2 ^ 53 -> 0 < N < 2 ^ 53 ->
  scales base N c -> below 1 0 h ->
  let variation := int_of_float64 (float64_of_int base * c * h)%f64 in
  - N <= variation <= N /\
  (not_negative c -> not_negative h -> 0 <= variation).
Proof.
  intros Hbase HN Hc Hh. cbv zeta.
  destruct (float64_of_int_below base Hbase) as [Hx0 Hs0].
  assert (Hx1 : below N 0 (float64_of_int base * c)%f64)
    by (apply fmul_below with (T := base); assumption).
  assert (Hx2 : below N 0 (float64_of_int base * c * h)%f64).
  { apply fmul_below with (T := N); [assumption | assumption |].
    apply below_scales; [lia | exact Hh]. }
  assert (HNmax : 0 <= N <= max_int64).
  { unfold max_int64. change (2 ^ 53) with 9007199254740992 in HN. lia. }
  destruct (int_of_float64_below _ N HNmax Hx2) as [Hv Hpos].
  split; [exact Hv |].
  intros Hsc Hsh. apply Hpos.
  eapply fmul_not_negative; [| exact Hsh | exact Hx2].
  eapply fmul_not_negative; [exact Hs0 | exact Hsc | exact Hx1].
Qed.

Lemma float64_of_int_0 : float64_of_int 0 = S754_zero false.
Proof. reflexivity. Qed.

(** Nothing varies a base of zero. *)
Lemma zero_variation c h T N :
  scales T N c -> below 1 0 h ->
  int_of_float64 (float64_of_int 0 * c * h)%f64 = 0.
Proof.
  rewrite float64_of_int_0. intros Hc Hh.
  destruct c as [s | s | | s m e]; cbn [scales] in Hc; try contradiction;
    destruct h as [s' | s' | | s' m' e']; cbn [below] in Hh; try contradiction;
    reflexivity.
Qed.

(** The variation by a ratio of at most one: it is within the base, and
    within the ratio of the base, to the nanosecond. *)
Lemma ratio_variation base hv h p q :
  0 <= base < 2 ^ 53 -> 0 <= p <= q -> 0 < q ->
  at_most_ratio p q hv -> below 1 0 h ->
  let variation := int_of_float64 (float64_of_int base * hv * h)%f64 in
  - base <= variation <= base /\
  - (p * base + q) <= q * variation <= p * base + q /\
  (not_negative h -> 0 <= variation).
Proof.
  intros Hbase Hp Hq Hhv Hh. cbv zeta.
  destruct (Z.eq_dec base 0) as [-> | Hne].
  - rewrite (zero_variation hv h 0 0);
      [lia | apply at_most_ratio_scales with (p := p) (q := q); try assumption; lia
      | exact Hh].
  - set (N := Z.min base (p * base / q + 1)).
    pose proof (Z.mul_div_le (p * base) q Hq) as Hlow.
    pose proof (Z.mul_succ_div_gt (p * base) q Hq) as Hhigh.
    assert (Hdiv : 0 <= p * base / q) by (apply Z.div_pos; nia).
    assert (HN : 0 < N <= base) by (subst N; lia).
    assert (HpN : p * base <= q * N).
    { subst N. destruct (Z.min_spec base (p * base / q + 1)) as [[_ ->] | [_ ->]]; nia. }
    assert (HqN : q * N <= p * base + q) by (subst N; nia).
    clearbody N.
    destruct (scaled_variation base hv h N Hbase ltac:(lia)) as [Hv Hpos].
    { apply at_most_ratio_scales with (p := p) (q := q); try assumption; lia. }
    { exact Hh. }
    split; [lia |]. split; [nia |].
    intros Hsh. apply Hpos; [| exact Hsh].
    eapply at_most_ratio_not_negative; exact Hhv.
Qed.

Lemma lit_2_10_eq : lit 2 10 = S754_finite false 7205759403792794 (-55).
Proof. vm_compute. reflexivity. Qed.

Lemma lit_3_10_eq : lit 3 10 = S754_finite false 5404319552844595 (-54).
Proof. vm_compute. reflexivity. Qed.

(** The jitter [float64(base) * 0.2 * (r*2 - 1)]: within a fifth of the
    base, and one nanosecond. *)
Lemma fifth_variation base r :
  0 <= base < 2 ^ 53 -> unit_interval r ->
  let jitter := int_of_float64 (float64_of_int base * lit 2 10 * (r * lit 2 1 - f1))%f64 in
  - (base / 5 + 1) <= jitter <= base / 5 + 1 /\ 0 <= base + jitter.
Proof.
  intros Hbase Hr. cbv zeta.
  pose proof (centred_draw_below r Hr) as Hh.
  destruct (Z.eq_dec base 0) as [-> | Hne].
  { rewrite (zero_variation (lit 2 10) _ 0 1); [cbn; lia | | exact Hh].
    rewrite lit_2_10_eq. cbn [scales]. split; [lia |].
    change (2 ^ (- -55)) with 36028797018963968. lia. }
  pose proof (Z.mul_succ_div_gt base 5 ltac:(lia)) as Hhigh.
  pose proof (Z.div_pos base 5 ltac:(lia) ltac:(lia)) as Hdiv.
  pose proof (Z.mul_div_le base 5 ltac:(lia)) as Hlow.
  change (2 ^ 53) with 9007199254740992 in *.
  destruct (scaled_variation base (lit 2 10) (r * lit 2 1 - f1)%f64 (base / 5 + 1))
    as [Hv _].
  - change (2 ^ 53) with 9007199254740992. exact Hbase.
  - change (2 ^ 53) with 9007199254740992. lia.
  - rewrite lit_2_10_eq. cbn [scales]. split; [lia |].
    change (2 ^ (- -55)) with 36028797018963968. lia.
  - exact Hh.
  - split; [exact Hv | lia].
Qed.

(** ** The delays of the timing controller *)

Section DelayFacts.

Variable cfg : TimingConfig.
Variables p q : Z.
Hypothesis ratio : 0 <= p <= q.
Hypothesis q_pos : 0 < q.
Hypothesis variation_ratio : at_most_ratio p q (HumanVariation cfg).

Lemma RandomDelay_returns (min max : Duration) :
  0 <= min -> max < 2 ^ 53 ->
  returns Rand_ok (RandomDelay cfg min max)
    (fun v => min <= v /\
              (max <= min -> v = min) /\
              (min < max -> q * v <= (p + q) * max)).
Proof.
  intros Hmin Hmax. unfold RandomDelay.
  change (2 ^ 53) with 9007199254740992 in *.
  destruct (Z.leb_spec max min) as [Hle | Hlt].
  - apply returns_ret. split; [lia |]. split; [reflexivity | lia].
  - assert (Hspan : sub64 max min = max - min).
    { apply sub64_exact. unfold in_int64, min_int64, max_int64. lia. }
    rewrite Hspan.
    eapply returns_bind; [apply returns_Int63n; [apply Rand_ok_advance | lia] |].
    intros n Hn. cbv beta in Hn.
    assert (Hbase : add64 min n = min + n).
    { unfold add64. apply wrap64_small. unfold in_int64, min_int64, max_int64. lia. }
    rewrite Hbase.
    eapply returns_bind; [apply returns_Float64_unit |].
    intros r Hr. apply returns_ret.
    destruct (ratio_variation (min + n) (HumanVariation cfg) (r * lit 2 1 - f1)%f64 p q)
      as (Hv & Hq & _); try assumption.
    { change (2 ^ 53) with 9007199254740992. lia. }
    { apply centred_draw_below. exact Hr. }
    set (variation := int_of_float64 _) in *. clearbody variation.
    assert (Hfinal : add64 (min + n) variation = min + n + variation).
    { unfold add64. apply wrap64_small. unfold in_int64, min_int64, max_int64. lia. }
    rewrite Hfinal.
    destruct (Z.ltb_spec (min + n + variation) min).
    + split; [lia |]. split; [lia |]. intros _. nia.
    + split; [lia |]. split; [lia |]. intros _. nia.
Qed.

Lemma PageLoadDelay_returns :
  0 <= PageLoadWait cfg < 2 ^ 53 ->
  returns Rand_ok (PageLoadDelay cfg)
    (fun v => PageLoadWait cfg <= v <= 2 * PageLoadWait cfg /\
              q * (v - PageLoadWait cfg) <= p * PageLoadWait cfg + q).
Proof.
  intros Hbase. unfold PageLoadDelay.
  eapply returns_bind; [apply returns_Float64_unit |].
  intros r Hr. apply returns_ret.
  destruct (unit_interval_below r Hr) as [Hb Hs].
  destruct (ratio_variation (PageLoadWait cfg) (HumanVariation cfg) r p q)
    as (Hv & Hq & Hpos); try assumption.
  specialize (Hpos Hs).
  set (variation := int_of_float64 _) in *. clearbody variation.
  change (2 ^ 53) with 9007199254740992 in *.
  assert (Hfinal : add64 (PageLoadWait cfg) variation = PageLoadWait cfg + variation).
  { unfold add64. apply wrap64_small. unfold in_int64, min_int64, max_int64. lia. }
  rewrite Hfinal. split; [lia | nia].
Qed.

End DelayFacts.

Lemma at_most_ratio_default : at_most_ratio 3 10 (HumanVariation default_timing).
Proof.
  cbn [HumanVariation default_timing]. rewrite lit_3_10_eq. cbn [at_most_ratio].
  split; [reflexivity |]. split; [lia |].
  change (2 ^ (- -54)) with 18014398509481984. lia.
Qed.

(** X17.  The range of [RandomDelay].  Let [HumanVariation] be a float between 0
    and a ratio [p/q] of at most one, and [0 <= min < max < 2^53]
    nanoseconds.  Then [RandomDelay(min, max)] returns a delay of at least
    [min] and at most [(1 + p/q) * max]: with the default variation of 0.3,
    at most 1.3 times [max]. *)
Theorem RandomDelay_range :
  forall (cfg : TimingConfig) (p q : Z) (min max : Duration) (rng : Rand),
    0 <= p <= q -> 0 < q ->
    at_most_ratio p q (HumanVariation cfg) ->
    0 <= min < max -> max < 2 ^ 53 ->
    Rand_ok rng ->
    exists v rng',
      RandomDelay cfg min max rng = Ok (v, rng') /\
      min <= v /\ q * v <= (p + q) * max.
Proof.
  intros cfg p q min max rng Hp Hq Hhv Hmin Hmax Hrng.
  destruct (RandomDelay_returns cfg p q Hp Hq Hhv min max ltac:(lia) Hmax rng Hrng)
    as (v & rng' & Hrun & _ & Hlo & _ & Hhi).
  exists v, rng'. split; [exact Hrun |]. split; [exact Hlo |]. apply Hhi. lia.
Qed.

(** The default timing and the range of the action delay, 500ms to 2s: the
    delay is between 500ms and 2.6s. *)
Lemma RandomDelay_default_range :
  exists v rng',
    RandomDelay default_timing 500000000 2000000000 (constant_tape 0 (lit 1 2))
    = Ok (v, rng') /\
    500000000 <= v /\ 10 * v <= (3 + 10) * 2000000000.
Proof.
  apply (RandomDelay_range default_timing 3 10 500000000 2000000000
           (constant_tape 0 (lit 1 2))).
  - lia.
  - lia.
  - exact at_most_ratio_default.
  - lia.
  - change (2 ^ 53) with 9007199254740992. lia.
  - apply Rand_ok_constant_tape, unit_interval_half.
Defined.

(** X18.  The range of [PageLoadDelay].  With [HumanVariation] between 0 and a
    ratio [p/q] of at most one, the delay is the configured wait plus a
    variation that is never negative and at most [p/q] of the wait, to the
    nanosecond: a page load is never waited for less than [PageLoadWait],
    and never more than twice as long. *)
Theorem PageLoadDelay_range :
  forall (cfg : TimingConfig) (p q : Z) (rng : Rand),
    0 <= p <= q -> 0 < q ->
    at_most_ratio p q (HumanVariation cfg) ->
    0 <= PageLoadWait cfg < 2 ^ 53 ->
    unit_interval (unit (current rng)) ->
    exists v,
      PageLoadDelay cfg rng = Ok (v, advance rng) /\
      PageLoadWait cfg <= v <= 2 * PageLoadWait cfg /\
      q * (v - PageLoadWait cfg) <= p * PageLoadWait cfg + q.
Proof.
  intros cfg p q rng Hp Hq Hhv Hbase Hr. unfold PageLoadDelay.
  cbn [bind Monad_Gen]. unfold Float64 at 1. cbn [ret Monad_Gen].
  eexists. split; [reflexivity |].
  destruct (unit_interval_below _ Hr) as [Hb Hs].
  destruct (ratio_variation (PageLoadWait cfg) (HumanVariation cfg)
              (unit (current rng)) p q) as (Hv & Hvq & Hpos); try assumption.
  specialize (Hpos Hs).
  set (variation := int_of_float64 _) in *. clearbody variation.
  change (2 ^ 53) with 9007199254740992 in *.
  assert (Hfinal : add64 (PageLoadWait cfg) variation = PageLoadWait cfg + variation).
  { unfold add64. apply wrap64_small. unfold in_int64, min_int64, max_int64. lia. }
  rewrite Hfinal. split; [lia | nia].
Qed.

(** The default timing: the page-load delay is between 3s and 3.9s. *)
Lemma PageLoadDelay_default_range :
  exists v,
    PageLoadDelay default_timing (constant_tape 0 (lit 1 2))
    = Ok (v, advance (constant_tape 0 (lit 1 2))) /\
    PageLoadWait default_timing <= v <= 2 * PageLoadWait default_timing /\
    10 * (v - PageLoadWait default_timing) <= 3 * PageLoadWait default_timing + 10.
Proof.
  apply (PageLoadDelay_range default_timing 3 10 (constant_tape 0 (lit 1 2))).
  - lia.
  - lia.
  - exact at_most_ratio_default.
  - cbn [PageLoadWait default_timing]. unfold Millisecond.
    change (2 ^ 53) with 9007199254740992. lia.
  - exact unit_interval_half.
Defined.

(** X19.  [SleepWithJitter(base)] is a [Sleep] of a duration within a fifth of
    [base], and one nanosecond: between 80% and 120% of it, and never
    negative. *)
Theorem SleepWithJitter_range :
  forall (W : Type) (O : Outside W) (base : Duration) (w : W) (rng : Rand),
    0 <= base < 2 ^ 53 ->
    unit_interval (unit (current rng)) ->
    exists d,
      SleepWithJitter O base w rng = Sleep O d w (advance rng) /\
      base - (base / 5 + 1) <= d <= base + (base / 5 + 1) /\
      0 <= d.
Proof.
  intros W O base w rng Hbase Hr. unfold SleepWithJitter.
  cbn [bind Monad_Run]. unfold random, Float64. 
  eexists. split; [reflexivity |].
  destruct (fifth_variation base (unit (current rng)) Hbase Hr) as [Hj Hpos].
  set (jitter := int_of_float64 _) in *. clearbody jitter.
  change (2 ^ 53) with 9007199254740992 in *.
  pose proof (Z.div_pos base 5 ltac:(lia) ltac:(lia)) as Hdiv.
  pose proof (Z.mul_div_le base 5 ltac:(lia)) as Hlow.
  assert (Hfinal : add64 base jitter = base + jitter).
  { unfold add64. apply wrap64_small. unfold in_int64, min_int64, max_int64. lia. }
  rewrite Hfinal. split; [lia | exact Hpos].
Qed.

(** A sleep of 100ms with jitter, on a draw of 0.5. *)
Lemma SleepWithJitter_run :
  exists d,
    SleepWithJitter (quiet_outside Z) 100000000 0 (constant_tape 0 (lit 1 2))
    = Sleep (quiet_outside Z) d 0 (advance (constant_tape 0 (lit 1 2))) /\
    100000000 - (100000000 / 5 + 1) <= d <= 100000000 + (100000000 / 5 + 1) /\
    0 <= d.
Proof.
  apply (SleepWithJitter_range Z (quiet_outside Z) 100000000 0
           (constant_tape 0 (lit 1 2))).
  - change (2 ^ 53) with 9007199254740992. lia.
  - exact unit_interval_half.
Defined.

(** X20.  The action timer keeps its gap.  Let the clock never run backwards,
    let a sleep take at least as long as asked, and let the context never
    be done.  With [HumanVariation] between 0 and a ratio of at most one,
    [WaitForNext] returns nil and stamps the timer with an instant that is
    at least [minGap] after the previous stamp: two actions are never
    closer than the gap.  (The first call, on a fresh timer, only stamps
    it.) *)
Theorem WaitForNext_keeps_the_gap :
  forall (W : Type) (O : Outside W) (clock : W -> Instant) (cfg : TimingConfig)
         (p q : Z) (a : ActionTimer) (w : W) (rng : Rand),
    (forall w, clock w <= fst (now O w) <= clock (snd (now O w))) ->
    (forall d w, fst (wait O d w) = None /\ clock w + d <= clock (snd (wait O d w))) ->
    0 <= p <= q -> 0 < q ->
    at_most_ratio p q (HumanVariation cfg) ->
    Rand_ok rng ->
    0 <= minGap a < 2 ^ 53 ->
    lastAction a <= clock w ->
    exists a' w' rng',
      WaitForNext O cfg a w rng = Ok (((None, a'), w'), rng') /\
      minGap a' = minGap a /\
      lastAction a' <= clock w' /\
      (lastAction a <> 0 -> lastAction a + minGap a <= lastAction a').
Proof.
  intros W O clock cfg p q a w rng Hnow Hwait Hp Hq Hhv Hrng Hgap Hpast.
  change (2 ^ 53) with 9007199254740992 in *.
  unfold WaitForNext, IsZero.
  destruct (Z.eqb_spec (lastAction a) 0) as [Ez | Hnz].
  - unfold Record_now, outside. cbn [bind ret Monad_Run].
    destruct (now O w) as [t w1] eqn:En.
    pose proof (Hnow w) as Ht. rewrite En in Ht. cbn [fst snd] in Ht.
    eexists _, _, _. split; [reflexivity |]. cbn [minGap lastAction].
    split; [reflexivity |]. split; [lia |]. intros Hd. contradiction.
  - unfold outside at 1. cbn [bind Monad_Run].
    destruct (now O w) as [t w1] eqn:En.
    pose proof (Hnow w) as Ht. rewrite En in Ht. cbn [fst snd] in Ht.
    assert (Hel : Sub t (lastAction a) = Z.min (t - lastAction a) max_int64).
    { unfold Sub. cbv zeta.
      destruct (Z.ltb_spec (t - lastAction a) min_int64);
        [unfold min_int64 in *; lia |].
      destruct (Z.ltb_spec max_int64 (t - lastAction a)); lia. }
    rewrite Hel. set (elapsed := Z.min (t - lastAction a) max_int64).
    assert (Helapsed : 0 <= elapsed <= t - lastAction a /\
                       (elapsed < minGap a -> elapsed = t - lastAction a)).
    { subst elapsed. unfold max_int64. lia. }
    clearbody elapsed. clear Hel.
    destruct (Z.ltb_spec elapsed (minGap a)) as [Hshort | Hlong].
    + destruct Helapsed as [Hel0 Hel]. specialize (Hel Hshort).
      assert (Hwt : sub64 (minGap a) elapsed = minGap a - elapsed).
      { apply sub64_exact. unfold in_int64, min_int64, max_int64. lia. }
      rewrite Hwt. set (waitTime := minGap a - elapsed) in *.
      assert (Hhalf : quot64 waitTime 2 = waitTime / 2).
      { apply quot64_pos; [unfold max_int64; lia | lia]. }
      rewrite Hhalf.
      pose proof (Z.mul_div_le waitTime 2 ltac:(lia)) as Hlow.
      pose proof (Z.div_pos waitTime 2 ltac:(lia) ltac:(lia)) as Hdiv.
      destruct (RandomDelay_returns cfg p q Hp Hq Hhv 0 (waitTime / 2)
                  ltac:(lia) ltac:(change (2 ^ 53) with 9007199254740992; lia)
                  rng Hrng)
        as (extra & rng' & Hrun & _ & Hlo & Hnone & Hhi).
      unfold random at 1. rewrite Hrun.
      assert (Hextra : 0 <= extra <= waitTime).
      { split; [exact Hlo |].
        destruct (Z_le_gt_dec (waitTime / 2) 0) as [Hz | Hz].
        - rewrite Hnone by lia. lia.
        - specialize (Hhi ltac:(lia)). nia. }
      assert (Hsum : add64 waitTime extra = waitTime + extra).
      { unfold add64. apply wrap64_small. unfold in_int64, min_int64, max_int64. lia. }
      rewrite Hsum. unfold Sleep, outside at 1. cbn [bind Monad_Run].
      destruct (wait O (waitTime + extra) w1) as [e w2] eqn:Ew.
      pose proof (Hwait (waitTime + extra) w1) as Hw. rewrite Ew in Hw.
      cbn [fst snd] in Hw. destruct Hw as [-> Hw].
      unfold Record_now, outside. cbn [bind ret Monad_Run].
      destruct (now O w2) as [t' w3] eqn:En'.
      pose proof (Hnow w2) as Ht'. rewrite En' in Ht'. cbn [fst snd] in Ht'.
      eexists _, _, _. split; [reflexivity |]. cbn [minGap lastAction].
      split; [reflexivity |]. split; [lia |]. intros _. lia.
    + unfold Record_now, outside. cbn [bind ret Monad_Run].
      destruct (now O w1) as [t' w2] eqn:En'.
      pose proof (Hnow w1) as Ht'. rewrite En' in Ht'. cbn [fst snd] in Ht'.
      eexists _, _, _. split; [reflexivity |]. cbn [minGap lastAction].
      split; [reflexivity |]. split; [lia |]. intros _. lia.
Qed.

(** A timer stamped at instant 1 with a gap of one second, asked again at
    instant 5: the new stamp is at least one second after the old one. *)
Lemma WaitForNext_run :
  exists a' w' rng',
    WaitForNext ticking_outside default_timing
      {| lastAction := 1; minGap := 1000000000 |} 5 (constant_tape 0 (lit 1 2))
    = Ok (((None, a'), w'), rng') /\
    minGap a' = 1000000000 /\
    lastAction a' <= w' /\
    ((1 : Z) <> 0 -> 1 + 1000000000 <= lastAction a').
Proof.
  apply (WaitForNext_keeps_the_gap Z ticking_outside (fun w => w) default_timing
           3 10 {| lastAction := 1; minGap := 1000000000 |} 5
           (constant_tape 0 (lit 1 2))).
  - intros w. cbn [now ticking_outside fst snd]. lia.
  - intros d w. cbn [wait ticking_outside fst snd]. split; [reflexivity | lia].
  - lia.
  - lia.
  - exact at_most_ratio_default.
  - apply Rand_ok_constant_tape, unit_interval_half.
  - cbn [minGap]. change (2 ^ 53) with 9007199254740992. lia.
  - cbn [lastAction]. lia.
Defined.

(** ** Browser.Scroll *)

(** Two facts about what a computation returns hold together. *)
Lemma returns_and {A : Type} (I : Rand -> Prop) (c : Gen A) (P Q : A -> Prop) :
  returns I c P -> returns I c Q -> returns I c (fun a => P a /\ Q a).
Proof.
  intros HP HQ r Hr.
  destruct (HP r Hr) as (a & r' & E & Hi & Ha).
  destruct (HQ r Hr) as (a2 & r2 & E2 & _ & Ha2).
  rewrite E in E2. injection E2 as <- <-.
  exists a, r'. repeat split; assumption.
Qed.

Section ScrollShapeFacts.

Variable cfg : ScrollingConfig.
Hypothesis speeds : valid_speeds cfg.

Lemma scroll_turn_shape remaining :
  0 < remaining <= max_int64 ->
  returns any_source (scroll_turn cfg remaining)
    (fun out => Forall well_formed_action (fst out)).
Proof.
  intros Hrem. unfold scroll_turn.
  destruct speeds as (Hmin & Hmm & Hmax).
  assert (Hspan : add64 (sub64 (MaxScrollSpeed cfg) (MinScrollSpeed cfg)) 1
                  = MaxScrollSpeed cfg - MinScrollSpeed cfg + 1).
  { unfold add64, sub64. unfold max_int64 in *.
    rewrite (wrap64_small (MaxScrollSpeed cfg - MinScrollSpeed cfg))
      by (unfold in_int64, min_int64, max_int64; lia).
    apply wrap64_small. unfold in_int64, min_int64, max_int64. lia. }
  rewrite Hspan.
  eapply returns_bind; [apply returns_Intn; [apply any_source_advance | lia] |].
  intros n Hn. cbv beta in Hn |- *.
  assert (Hspeed : add64 (MinScrollSpeed cfg) n = MinScrollSpeed cfg + n).
  { apply wrap64_small. unfold in_int64, min_int64, max_int64 in *. lia. }
  rewrite Hspeed.
  eapply returns_bind.
  { apply calculateScrollAmount_returns; [apply any_source_advance |].
    rewrite quot64_pos by (unfold max_int64 in *; lia).
    apply Z.div_str_pos. lia. }
  intros amount Hamount. cbv beta in Hamount |- *.
  assert (Hback : quot64 amount 3 = amount / 3).
  { apply quot64_pos; unfold max_int64 in *; lia. }
  pose proof (Z.mul_div_le amount 3 ltac:(lia)) as Hthird.
  pose proof (Z.div_pos amount 3 ltac:(lia) ltac:(lia)) as Hthird0.
  eapply returns_bind with (P := Forall well_formed_action).
  { destruct (_ <? remaining).
    - eapply returns_bind; [apply returns_Float64; apply any_source_advance |].
      intros r _. destruct (fltb r _).
      + eapply returns_bind;
          [apply calculateScrollDuration_returns; apply any_source_advance |].
        intros d _. apply returns_ret. constructor; [| constructor].
        split; [right; left; reflexivity |]. cbn [Delta]. rewrite Hback.
        unfold in_int64, min_int64, max_int64 in *. lia.
      + apply returns_ret. constructor.
    - apply returns_ret. constructor. }
  intros back Hbackwf.
  eapply returns_bind;
    [apply calculateScrollDuration_returns; apply any_source_advance |].
  intros d _.
  eapply returns_bind; [apply returns_Float64; apply any_source_advance |].
  intros r _.
  eapply returns_bind with (P := Forall well_formed_action).
  { destruct (fltb r _).
    - eapply returns_bind; [apply returns_Intn; [apply any_source_advance | lia] |].
      intros k _. apply returns_ret. constructor; [| constructor].
      split; [right; right; reflexivity |]. cbn [Delta].
      unfold in_int64, min_int64, max_int64. lia.
    - apply returns_ret. constructor. }
  intros pause Hpausewf. apply returns_ret. cbn [fst].
  apply Forall_app. split; [exact Hbackwf |].
  apply Forall_app. split; [| exact Hpausewf].
  constructor; [| constructor].
  split; [left; reflexivity |]. cbn [Delta].
  unfold in_int64, min_int64, max_int64 in *. lia.
Qed.

Lemma scroll_loop_shape fuel : forall actions remaining,
  remaining <= Z.of_nat fuel ->
  -9 <= remaining <= max_int64 ->
  Forall well_formed_action actions ->
  returns any_source (scroll_loop cfg fuel actions remaining)
    (Forall well_formed_action).
Proof.
  induction fuel as [| fuel IH]; intros actions remaining Hfuel Hrem Hwf.
  - cbn [scroll_loop]. destruct (Z.ltb_spec 0 remaining); [lia |].
    apply returns_ret. exact Hwf.
  - cbn [scroll_loop]. destruct (Z.ltb_spec 0 remaining).
    + eapply returns_bind.
      { apply returns_and.
        - apply (scroll_turn_returns cfg any_source any_source_advance speeds).
          lia.
        - apply scroll_turn_shape. lia. }
      intros [more remaining'] [(amount & Ha & Hr & _) Hshape].
      cbn [fst snd] in *. subst remaining'.
      apply IH; [lia | lia |]. apply Forall_app. split; assumption.
    + apply returns_ret. exact Hwf.
Qed.

End ScrollShapeFacts.

(** The actions of a scroll sequence are well formed. *)
Lemma GenerateScrollSequence_shape cfg totalDistance :
  in_int64 totalDistance ->
  (scroll_Enabled cfg = true -> 0 < totalDistance -> valid_speeds cfg) ->
  returns any_source (GenerateScrollSequence cfg totalDistance)
    (Forall well_formed_action).
Proof.
  intros Hint Hspeeds. unfold GenerateScrollSequence.
  destruct (scroll_Enabled cfg) eqn:En; cbn [negb].
  - destruct (Z_lt_le_dec 0 totalDistance) as [Hpos | Hneg].
    + apply scroll_loop_shape; [apply (Hspeeds eq_refl Hpos) | lia | | constructor].
      unfold in_int64, min_int64, max_int64 in *. lia.
    + destruct (Z.to_nat totalDistance); cbn [scroll_loop];
        (destruct (Z.ltb_spec 0 totalDistance); [lia |]);
        apply returns_ret; constructor.
  - apply returns_ret. constructor; [| constructor].
    split; [left; reflexivity | exact Hint].
Qed.

Lemma well_formed_actions actions :
  Forall well_formed_action actions ->
  Forall (fun a => in_int64 (Delta a)) actions /\ Forall known_direction actions.
Proof.
  induction 1 as [| a actions [Hk Hi] _ [IHi IHk]]; split; constructor; assumption.
Qed.

(** X21.  [Scroll] cannot scroll back.  With scrolling enabled, a [deltaY] that
    is negative or zero gives an empty sequence: the loop of
    [GenerateScrollSequence] runs while the remaining distance is
    positive.  So [Scroll] evaluates its script and moves the mouse, and
    that is all: the wrapped scroll function is never called, whatever the
    outside does, and the random source is not touched. *)
Theorem Scroll_backwards_does_nothing :
  forall (W : Type) (O : Outside W) (cfg : ScrollingConfig)
         (pageEval : W -> W) (mouseMoveTo : W -> option error * W)
         (scrollPage : Z -> W -> W) (deltaY : Z) (w : W) (rng : Rand),
    scroll_Enabled cfg = true -> deltaY <= 0 ->
    GenerateScrollSequence cfg deltaY rng = Ok ([], rng) /\
    Scroll O cfg pageEval mouseMoveTo scrollPage deltaY w rng
    = Ok ((option_map (fun err => ("mouse move for scroll failed: " ++ err)%string)
             (fst (mouseMoveTo (pageEval w))),
           snd (mouseMoveTo (pageEval w))), rng).
Proof.
  intros W O cfg pageEval mouseMoveTo scrollPage deltaY w rng En Hneg.
  assert (E : GenerateScrollSequence cfg deltaY rng = Ok ([], rng)).
  { unfold GenerateScrollSequence. rewrite En. cbn [negb].
    destruct (Z.to_nat deltaY); cbn [scroll_loop];
      (destruct (Z.ltb_spec 0 deltaY); [lia | reflexivity]). }
  split; [exact E |].
  unfold Scroll. cbn [bind Monad_Run]. unfold random at 1. rewrite E.
  unfold outside. destruct (mouseMoveTo (pageEval w)) as [[err |] w1];
    reflexivity.
Qed.

(** A [Scroll(ctx, -700)] under the default configuration: the page stays
    where it is. *)
Lemma Scroll_up_700 :
  GenerateScrollSequence default_scrolling (-700) (constant_tape 7 (lit 1 4))
  = Ok ([], constant_tape 7 (lit 1 4)) /\
  Scroll (quiet_outside Z) default_scrolling (fun w => w) (fun w => (None, w))
    page_scrollBy (-700) 0 (constant_tape 7 (lit 1 4))
  = Ok ((None, 0), constant_tape 7 (lit 1 4)).
Proof.
  apply (Scroll_backwards_does_nothing Z (quiet_outside Z) default_scrolling
           (fun w => w) (fun w => (None, w)) page_scrollBy (-700) 0
           (constant_tape 7 (lit 1 4))).
  - reflexivity.
  - lia.
Defined.



(** ** Connection requests and the limits *)

Lemma sent_snoc results r :
  sent (results ++ [r]) = sent results + (if Success r then 1 else 0).
Proof.
  unfold sent. rewrite filter_app, length_app. cbn [filter].
  destruct (Success r); cbn [List.length]; lia.
Qed.

Lemma checkAndResetCounts_within_limits now c :
  within_limits c -> within_limits (checkAndResetCounts now c).
Proof.
  unfold within_limits, checkAndResetCounts. intros H.
  destruct (negb _); [cbn [config dailyCount hourlyCount]; lia |].
  destruct (negb _); [cbn [config dailyCount hourlyCount]; lia | exact H].
Qed.

Lemma canSendConnection_snd now c :
  snd (canSendConnection now c) = checkAndResetCounts now c.
Proof.
  unfold canSendConnection. cbv zeta.
  destruct (_ <=? _); [reflexivity |]. destruct (_ <=? _); reflexivity.
Qed.

Lemma canSendConnection_true now c :
  fst (canSendConnection now c) = true ->
  dailyCount (checkAndResetCounts now c)
  < DailyConnectionLimit (config (checkAndResetCounts now c)) /\
  hourlyCount (checkAndResetCounts now c)
  < HourlyConnectionLimit (config (checkAndResetCounts now c)).
Proof.
  unfold canSendConnection. cbv zeta.
  destruct (Z.leb_spec (DailyConnectionLimit (config (checkAndResetCounts now c)))
              (dailyCount (checkAndResetCounts now c))); [discriminate |].
  destruct (Z.leb_spec (HourlyConnectionLimit (config (checkAndResetCounts now c)))
              (hourlyCount (checkAndResetCounts now c))); [discriminate |].
  intros _. lia.
Qed.

(** A request that was let through and counted stays within the limits. *)
Lemma incrementCount_within_limits now c :
  DailyConnectionLimit (config c) <= max_int64 ->
  HourlyConnectionLimit (config c) <= max_int64 ->
  within_limits c ->
  fst (canSendConnection now c) = true ->
  within_limits (incrementCount (checkAndResetCounts now c)) /\
  dailyCount (incrementCount (checkAndResetCounts now c))
  = dailyCount (checkAndResetCounts now c) + 1 /\
  hourlyCount (incrementCount (checkAndResetCounts now c))
  = hourlyCount (checkAndResetCounts now c) + 1.
Proof.
  intros Hd Hh Hc Hcan.
  pose proof (checkAndResetCounts_within_limits now c Hc) as H0.
  pose proof (canSendConnection_true now c Hcan) as Hlt.
  pose proof (checkAndResetCounts_config c now) as Hcfg.
  set (c0 := checkAndResetCounts now c) in *. clearbody c0.
  unfold within_limits in *.
  unfold incrementCount. cbn [config dailyCount hourlyCount].
  rewrite Hcfg in *.
  unfold add64. unfold max_int64 in *.
  rewrite !wrap64_small by (unfold in_int64, min_int64, max_int64; lia).
  lia.
Qed.

Section ConnectionFacts.

Context {W : Type}.
Variable O : Outside W.
Variable timing : TimingConfig.
Variable clock : W -> Time * W.
Variable ConnectionExists : string -> Run W (bool * option error).
Variable AddConnection : Connection -> Run W (option error).
Variable UpdateTodayStats : Run W Datatypes.unit.
Variable MarkProfileProcessed : string -> Run W (option error).
Variable Navigate : string -> Run W (option error).
Variable extractProfileName : Run W string.
Variable clickConnectButton : Run W (option error).
Variable addConnectionNote : string -> Run W (option error).
Variable confirmConnection : Run W (option error).

Let send :=
  SendConnectionRequest O timing clock ConnectionExists AddConnection
    UpdateTodayStats Navigate extractProfileName clickConnectButton
    addConnectionNote confirmConnection.

Let loop :=
  process_loop O timing clock ConnectionExists AddConnection
    UpdateTodayStats MarkProfileProcessed Navigate extractProfileName
    clickConnectButton addConnectionNote confirmConnection.

(** One step of a run that is known to return. *)
Local Tactic Notation "run_step" hyp(E) ident(a) ident(w) ident(g) :=
  match type of E with
  | match ?x with Ok _ => _ | Panic _ => _ | OutOfFuel => _ end = Ok _ =>
      destruct x as [[[a w] g] | ? | ] eqn:?; [| discriminate E | discriminate E]
  end.

Ltac run_done E :=
  cbn [ret Monad_Run] in E; injection E as <- <- <- <- <-.

(** What [SendConnectionRequest] leaves behind: either the manager as the
    quota check left it, and no request sent; or the check passed, the
    request was sent, and it was counted once. *)
Lemma SendConnectionRequest_outcome c profileURL note w rng result err c' w' rng' :
  send c profileURL note w rng = Ok ((((result, err), c'), w'), rng') ->
  let now := fst (clock w) in
  (c' = checkAndResetCounts now c /\
   match result with Some r => Success r = false | None => True end) \/
  (fst (canSendConnection now c) = true /\
   c' = incrementCount (checkAndResetCounts now c) /\
   exists r, result = Some r /\ Success r = true).
Proof.
  intros E. cbv zeta. subst send. unfold SendConnectionRequest in E.
  cbn [bind Monad_Run] in E. unfold outside at 1 in E.
  destruct (clock w) as [now w0]. cbn [fst].
  pose proof (canSendConnection_snd now c) as Hsnd.
  destruct (canSendConnection now c) as [can c0]. cbn [fst snd] in *. subst c0.
  destruct can; cbn [negb] in E.
  2:{ run_done E. left. split; reflexivity. }
  run_step E ex w1 g1. destruct ex as [exists_ er].
  destruct exists_.
  { run_done E. left. split; reflexivity. }
  run_step E e2 w2 g2. destruct e2 as [e |].
  { run_done E. left. split; reflexivity. }
  run_step E e3 w3 g3. destruct e3 as [e |].
  { run_done E. left. split; [reflexivity | exact Logic.I]. }
  run_step E name w4 g4. run_step E e5 w5 g5. destruct e5 as [e |].
  { run_done E. left. split; reflexivity. }
  run_step E e6 w6 g6. destruct e6 as [e |].
  { run_done E. left. split; [reflexivity | exact Logic.I]. }
  run_step E e7 w7 g7. run_step E e8 w8 g8. destruct e8 as [e |].
  { run_done E. left. split; reflexivity. }
  unfold outside at 1 in E. destruct (clock w8) as [requestedAt w9].
  run_step E e10 w10 g10. run_step E u11 w11 g11.
  run_done E.
  right. split; [reflexivity |]. split; [reflexivity |].
  eexists. split; reflexivity.
Qed.

(** The manager stays within its limits, and in one slot of the clock a
    request sent is a request counted. *)
Lemma SendConnectionRequest_limits c profileURL note w rng result err c' w' rng' :
  DailyConnectionLimit (config c) <= max_int64 ->
  HourlyConnectionLimit (config c) <= max_int64 ->
  within_limits c ->
  send c profileURL note w rng = Ok ((((result, err), c'), w'), rng') ->
  within_limits c' /\ config c' = config c /\
  ((forall w, Day (fst (clock w)) = Day (lastReset c) /\
              Hour (fst (clock w)) = Hour (lastReset c)) ->
   let n := match result with
            | Some r => if Success r then 1 else 0
            | None => 0
            end in
   lastReset c' = lastReset c /\
   dailyCount c' = dailyCount c + n /\ hourlyCount c' = hourlyCount c + n).
Proof.
  intros Hd Hh Hc E.
  destruct (SendConnectionRequest_outcome _ _ _ _ _ _ _ _ _ _ E)
    as [[-> Hres] | (Hcan & -> & r & -> & Hr)]; cbv zeta.
  - split; [apply checkAndResetCounts_within_limits; exact Hc |].
    split; [apply checkAndResetCounts_config |].
    intros Hslot. destruct (Hslot w) as [Hday Hhour].
    rewrite (checkAndResetCounts_same_slot c _ Hday Hhour).
    assert (En : match result with
                 | Some r => if Success r then 1 else 0
                 | None => 0
                 end = 0).
    { destruct result as [r |]; [rewrite Hres |]; reflexivity. }
    rewrite En. split; [reflexivity | lia].
  - destruct (incrementCount_within_limits (fst (clock w)) c Hd Hh Hc Hcan)
      as (Hlim & Hdc & Hhc).
    split; [exact Hlim |].
    split; [cbn [incrementCount config]; apply checkAndResetCounts_config |].
    intros Hslot. destruct (Hslot w) as [Hday Hhour].
    rewrite Hdc, Hhc, Hr.
    rewrite (checkAndResetCounts_same_slot c _ Hday Hhour).
    split; [reflexivity | lia].
Qed.

Lemma process_loop_limits profiles noteTemplate :
  forall c results w rng results' err c' w' rng',
    DailyConnectionLimit (config c) <= max_int64 ->
    HourlyConnectionLimit (config c) <= max_int64 ->
    within_limits c ->
    loop c profiles noteTemplate results w rng
    = Ok ((((results', err), c'), w'), rng') ->
    within_limits c' /\ config c' = config c /\
    (List.length results' <= List.length results + List.length profiles)%nat /\
    ((forall w, Day (fst (clock w)) = Day (lastReset c) /\
                Hour (fst (clock w)) = Hour (lastReset c)) ->
     lastReset c' = lastReset c /\
     dailyCount c' = dailyCount c + (sent results' - sent results) /\
     hourlyCount c' = hourlyCount c + (sent results' - sent results)).
Proof.
  subst loop.
  induction profiles as [| profile profiles IH];
    intros c results w rng results' err c' w' rng' Hd Hh Hc E;
    cbn [process_loop] in E.
  - run_done E. split; [exact Hc |]. split; [reflexivity |].
    split; [lia |]. intros _. split; [reflexivity | lia].
  - cbn [bind Monad_Run] in E. unfold outside at 1 in E.
    destruct (clock w) as [now w0] eqn:Eclock.
    pose proof (canSendConnection_snd now c) as Hsnd.
    destruct (canSendConnection now c) as [can c0]. cbn [fst snd] in *. subst c0.
    pose proof (checkAndResetCounts_within_limits now c Hc) as Hc0.
    pose proof (checkAndResetCounts_config c now) as Hcfg0.
    assert (Hslot0 : (forall w, Day (fst (clock w)) = Day (lastReset c) /\
                                Hour (fst (clock w)) = Hour (lastReset c)) ->
                     checkAndResetCounts now c = c).
    { intros Hslot. destruct (Hslot w) as [Hday Hhour]. rewrite Eclock in *.
      apply checkAndResetCounts_same_slot; assumption. }
    destruct can; cbn [negb] in E.
    2:{ run_done E. split; [exact Hc0 |]. split; [exact Hcfg0 |].
        split; [lia |]. intros Hslot. rewrite (Hslot0 Hslot).
        split; [reflexivity | lia]. }
    match type of E with
    | match ?x with Ok _ => _ | Panic _ => _ | OutOfFuel => _ end = Ok _ =>
        destruct x as [[[[[result serr] c1] w1] g1] | ? | ] eqn:Esend;
          [| discriminate E | discriminate E]
    end.
    destruct (SendConnectionRequest_limits _ _ _ _ _ _ _ _ _ _
                ltac:(rewrite Hcfg0; exact Hd) ltac:(rewrite Hcfg0; exact Hh)
                Hc0 Esend) as (Hc1 & Hcfg1 & Hcount1).
    run_step E e2 w2 g2. run_step E e3 w3 g3.
    set (results1 := match result with
                     | Some r => results ++ [r]
                     | None => results
                     end) in *.
    assert (Hlen1 : (List.length results1 <= List.length results + 1)%nat).
    { subst results1. destruct result; [rewrite length_app; cbn [List.length] |]; lia. }
    assert (Hsent1 : sent results1 - sent results
                     = match result with
                       | Some r => if Success r then 1 else 0
                       | None => 0
                       end).
    { subst results1. destruct result as [r |]; [rewrite sent_snoc |]; lia. }
    destruct e3 as [e |].
    + run_done E. split; [exact Hc1 |].
      split; [rewrite Hcfg1; exact Hcfg0 |].
      split; [cbn [List.length]; lia |].
      intros Hslot. rewrite Hsent1.
      specialize (Hcount1 ltac:(rewrite (Hslot0 Hslot); exact Hslot)).
      cbv zeta in Hcount1. rewrite (Hslot0 Hslot) in Hcount1. exact Hcount1.
    + destruct (IH c1 results1 w3 g3 results' err c' w' rng'
                  ltac:(rewrite Hcfg1, Hcfg0; exact Hd)
                  ltac:(rewrite Hcfg1, Hcfg0; exact Hh) Hc1 E)
        as (Hc' & Hcfg' & Hlen' & Hcount').
      split; [exact Hc' |].
      split; [rewrite Hcfg', Hcfg1; exact Hcfg0 |].
      split; [cbn [List.length]; lia |].
      intros Hslot.
      specialize (Hcount1 ltac:(rewrite (Hslot0 Hslot); exact Hslot)).
      cbv zeta in Hcount1. rewrite (Hslot0 Hslot) in Hcount1.
      destruct Hcount1 as (Hl1 & Hd1 & Hh1).
      specialize (Hcount' ltac:(rewrite Hl1; exact Hslot)).
      destruct Hcount' as (Hl' & Hd' & Hh').
      split; [congruence | lia].
Qed.

End ConnectionFacts.

(** X23.  [SendConnectionRequest] and the quota.  Whatever the browser and the
    storage do: when [canSendConnection] says no, the call returns the
    "Rate limit reached" result with a nil error, having touched nothing
    but the clock; and whenever the call returns, the manager is still
    within its limits, with the configuration it had, and, while the clock
    stays in the slot of the last reset, the counters have gone up by one
    exactly when the result reports success. *)
Theorem SendConnectionRequest_counts_what_it_sends :
  forall (W : Type) (O : Outside W) (timing : TimingConfig)
         (clock : W -> Time * W)
         (ConnectionExists : string -> Run W (bool * option error))
         (AddConnection : Connection -> Run W (option error))
         (UpdateTodayStats : Run W Datatypes.unit)
         (Navigate : string -> Run W (option error))
         (extractProfileName : Run W string)
         (clickConnectButton : Run W (option error))
         (addConnectionNote : string -> Run W (option error))
         (confirmConnection : Run W (option error))
         (c : ConnectionManager) (profileURL note : string) (w : W) (rng : Rand),
    DailyConnectionLimit (config c) <= max_int64 ->
    HourlyConnectionLimit (config c) <= max_int64 ->
    within_limits c ->
    let send :=
      SendConnectionRequest O timing clock ConnectionExists AddConnection
        UpdateTodayStats Navigate extractProfileName clickConnectButton
        addConnectionNote confirmConnection in
    (fst (canSendConnection (fst (clock w)) c) = false ->
     send c profileURL note w rng
     = Ok ((((Some (not_sent profileURL "" "Rate limit reached" None), None),
             checkAndResetCounts (fst (clock w)) c), snd (clock w)), rng)) /\
    (forall result err c' w' rng',
        send c profileURL note w rng = Ok ((((result, err), c'), w'), rng') ->
        within_limits c' /\ config c' = config c /\
        ((forall w, Day (fst (clock w)) = Day (lastReset c) /\
                    Hour (fst (clock w)) = Hour (lastReset c)) ->
         let n := match result with
                  | Some r => if Success r then 1 else 0
                  | None => 0
                  end in
         lastReset c' = lastReset c /\
         dailyCount c' = dailyCount c + n /\ hourlyCount c' = hourlyCount c + n)).
Proof.
  intros W O timing clock ConnectionExists AddConnection UpdateTodayStats
    Navigate extractProfileName clickConnectButton addConnectionNote
    confirmConnection c profileURL note w rng Hd Hh Hc. cbv zeta.
  split.
  - intros Hno. unfold SendConnectionRequest. cbn [bind Monad_Run].
    unfold outside at 1. destruct (clock w) as [now w0]. cbn [fst snd] in *.
    pose proof (canSendConnection_snd now c) as Hsnd.
    destruct (canSendConnection now c) as [can c0]. cbn [fst snd] in *.
    subst can c0. reflexivity.
  - intros result err c' w' rng' E.
    exact (SendConnectionRequest_limits O timing clock ConnectionExists
             AddConnection UpdateTodayStats Navigate extractProfileName
             clickConnectButton addConnectionNote confirmConnection
             c profileURL note w rng result err c' w' rng' Hd Hh Hc E).
Qed.

(** X24.  [ProcessProfiles] and the quota.  Whatever the browser and the storage
    do, a batch that returns leaves the manager within its limits, with
    the configuration it had, and with at most one result for each
    profile.  While the clock stays in the slot of the last reset, the
    requests it reports as sent are the requests it counted, so they are
    no more than what was left of the daily and of the hourly quota. *)
Theorem ProcessProfiles_respects_limits :
  forall (W : Type) (O : Outside W) (timing : TimingConfig)
         (clock : W -> Time * W)
         (ConnectionExists : string -> Run W (bool * option error))
         (AddConnection : Connection -> Run W (option error))
         (UpdateTodayStats : Run W Datatypes.unit)
         (MarkProfileProcessed : string -> Run W (option error))
         (Navigate : string -> Run W (option error))
         (extractProfileName : Run W string)
         (clickConnectButton : Run W (option error))
         (addConnectionNote : string -> Run W (option error))
         (confirmConnection : Run W (option error))
         (c : ConnectionManager) (profiles : list Profile) (noteTemplate : string)
         (w : W) (rng : Rand)
         (results : list ConnectionResult) (err : option error)
         (c' : ConnectionManager) (w' : W) (rng' : Rand),
    DailyConnectionLimit (config c) <= max_int64 ->
    HourlyConnectionLimit (config c) <= max_int64 ->
    within_limits c ->
    ProcessProfiles O timing clock ConnectionExists AddConnection
      UpdateTodayStats MarkProfileProcessed Navigate extractProfileName
      clickConnectButton addConnectionNote confirmConnection
      c profiles noteTemplate w rng
    = Ok ((((results, err), c'), w'), rng') ->
    within_limits c' /\ config c' = config c /\
    (List.length results <= List.length profiles)%nat /\
    ((forall w, Day (fst (clock w)) = Day (lastReset c) /\
                Hour (fst (clock w)) = Hour (lastReset c)) ->
     dailyCount c' = dailyCount c + sent results /\
     hourlyCount c' = hourlyCount c + sent results /\
     sent results <= DailyConnectionLimit (config c) - dailyCount c /\
     sent results <= HourlyConnectionLimit (config c) - hourlyCount c).
Proof.
  intros W O timing clock ConnectionExists AddConnection UpdateTodayStats
    MarkProfileProcessed Navigate extractProfileName clickConnectButton
    addConnectionNote confirmConnection c profiles noteTemplate w rng
    results err c' w' rng' Hd Hh Hc E.
  unfold ProcessProfiles in E.
  destruct (process_loop_limits O timing clock ConnectionExists AddConnection
              UpdateTodayStats MarkProfileProcessed Navigate extractProfileName
              clickConnectButton addConnectionNote confirmConnection
              profiles noteTemplate c [] w rng results err c' w' rng' Hd Hh Hc E)
    as (Hc' & Hcfg & Hlen & Hcount).
  split; [exact Hc' |]. split; [exact Hcfg |].
  split; [cbn [List.length] in Hlen; lia |].
  intros Hslot. destruct (Hcount Hslot) as (_ & Hdc & Hhc).
  change (sent []) with 0 in Hdc, Hhc.
  unfold within_limits in Hc'. rewrite Hcfg in Hc'. lia.
Qed.

Lemma fresh_manager_within_limits :
  within_limits (New default_rate_limits ten_o_clock).
Proof. unfold within_limits. cbn. lia. Qed.

(** A fresh manager with the default limits, in an outside where every
    step succeeds: the request is sent and counted. *)
Lemma SendConnectionRequest_run :
  exists result err c' w' rng',
    fine_send (New default_rate_limits ten_o_clock)
      "https://www.linkedin.com/in/ada" "" 0 (constant_tape 0 (lit 1 2))
    = Ok ((((result, err), c'), w'), rng') /\
    within_limits c' /\ config c' = default_rate_limits /\
    dailyCount c' = 1 /\ hourlyCount c' = 1.
Proof.
  destruct (fine_send (New default_rate_limits ten_o_clock)
              "https://www.linkedin.com/in/ada" "" 0 (constant_tape 0 (lit 1 2)))
    as [[[[[result err] c'] w'] rng'] | msg | ] eqn:E.
  - exists result, err, c', w', rng'. split; [reflexivity |].
    destruct (SendConnectionRequest_counts_what_it_sends Z (quiet_outside Z)
                default_timing (fun w => (ten_o_clock, w))
                (fun _ => fine (false, None)) (fun _ => fine None) (fine tt)
                (fun _ => fine None) (fine "Ada Lovelace"%string) (fine None)
                (fun _ => fine None) (fine None)
                (New default_rate_limits ten_o_clock)
                "https://www.linkedin.com/in/ada" "" 0 (constant_tape 0 (lit 1 2)))
      as [_ H].
    + unfold max_int64. cbn. lia.
    + unfold max_int64. cbn. lia.
    + exact fresh_manager_within_limits.
    + destruct (H result err c' w' rng' E) as (Hlim & Hcfg & Hcount).
      split; [exact Hlim |]. split; [exact Hcfg |].
      destruct Hcount as (_ & Hd & Hh); [intros w; split; reflexivity |].
      assert (Es : result = Some {| ProfileURL := "https://www.linkedin.com/in/ada";
                                    Name := "Ada Lovelace"; Success := true;
                                    Message := "Connection request sent";
                                    Error := None |}).
      { vm_compute in E. injection E as <- _ _ _ _. reflexivity. }
      subst result. cbn in Hd, Hh. split; assumption.
  - vm_compute in E. discriminate E.
  - vm_compute in E. discriminate E.
Defined.

(** The batch of two profiles on a fresh manager with the default limits:
    both requests are sent, and both are counted. *)
Lemma ProcessProfiles_run :
  exists results err c' w' rng',
    fine_batch (New default_rate_limits ten_o_clock) two_profiles
      "Hi {{.FirstName}}" 0 (constant_tape 0 (lit 1 2))
    = Ok ((((results, err), c'), w'), rng') /\
    within_limits c' /\ config c' = default_rate_limits /\
    (List.length results <= List.length two_profiles)%nat /\
    ((forall w : Z, Day ten_o_clock = Day ten_o_clock /\
                    Hour ten_o_clock = Hour ten_o_clock) ->
     dailyCount c' = 0 + sent results /\
     hourlyCount c' = 0 + sent results /\
     sent results <= 25 - 0 /\
     sent results <= 5 - 0).
Proof.
  destruct (fine_batch (New default_rate_limits ten_o_clock) two_profiles
              "Hi {{.FirstName}}" 0 (constant_tape 0 (lit 1 2)))
    as [[[[[results err] c'] w'] rng'] | msg | ] eqn:E.
  - exists results, err, c', w', rng'. split; [reflexivity |].
    apply (ProcessProfiles_respects_limits Z (quiet_outside Z)
             default_timing (fun w => (ten_o_clock, w))
             (fun _ => fine (false, None)) (fun _ => fine None) (fine tt)
             (fun _ => fine None)
             (fun _ => fine None) (fine "Ada Lovelace"%string) (fine None)
             (fun _ => fine None) (fine None)
             (New default_rate_limits ten_o_clock) two_profiles
             "Hi {{.FirstName}}" 0 (constant_tape 0 (lit 1 2))
             results err c' w' rng').
    + unfold max_int64. cbn. lia.
    + unfold max_int64. cbn. lia.
    + exact fresh_manager_within_limits.
    + exact E.
  - vm_compute in E. discriminate E.
  - vm_compute in E. discriminate E.
Defined.

(** ** The executor runs its actions in order *)

(** [check] passes on what its first part leaves, unless that is an
    error. *)
Lemma check_run {W : Type} (c k : Run W (option error)) w rng :
  check c k w rng
  = match c w rng with
    | Ok ((None, w'), rng') => k w' rng'
    | other => other
    end.
Proof.
  unfold check. cbn [bind Monad_Run].
  destruct (c w rng) as [[[[e |] w'] rng'] | msg |]; reflexivity.
Qed.

(** X25.  [ExecuteScroll] of two sequences in a row is [ExecuteScroll] of the
    first and then, from where that left the outside and the random
    source, of the second; an error or a panic in the first is the end of
    it, and the second is not begun. *)
Theorem ExecuteScroll_in_order :
  forall (W : Type) (O : Outside W) (cfg : ScrollingConfig)
         (scrollFn : Z -> W -> option error * W)
         (first second : list ScrollAction) (w : W) (rng : Rand),
    ExecuteScroll O cfg scrollFn (first ++ second) w rng
    = match ExecuteScroll O cfg scrollFn first w rng with
      | Ok ((None, w'), rng') => ExecuteScroll O cfg scrollFn second w' rng'
      | other => other
      end.
Proof.
  intros W O cfg scrollFn first second.
  induction first as [| action first IH]; intros w rng.
  - reflexivity.
  - cbn [app ExecuteScroll]. rewrite !check_run.
    destruct (outside (poll O) w rng) as [[[[e |] w0] rng0] | msg |];
      try reflexivity.
    destruct (String.eqb (Direction action) "pause").
    + rewrite !check_run.
      destruct (Sleep O (action_Duration action) w0 rng0)
        as [[[[e |] w1] rng1] | msg |]; try reflexivity.
      apply IH.
    + destruct (SmoothScrolling cfg).
      * cbn [bind Monad_Run].
        destruct (random (GenerateSmoothScrollSteps cfg _) w0 rng0)
          as [[[steps w1] rng1] | msg |]; try reflexivity.
        destruct (List.length steps =? 0)%nat; [reflexivity |].
        rewrite !check_run.
        destruct (smooth_steps_loop O scrollFn _ steps w1 rng1)
          as [[[[e |] w2] rng2] | msg |]; try reflexivity.
        apply IH.
      * rewrite !check_run.
        destruct (outside (scrollFn _) w0 rng0)
          as [[[[e |] w1] rng1] | msg |]; try reflexivity.
        rewrite !check_run.
        destruct (Sleep O (action_Duration action) w1 rng1)
          as [[[[e |] w2] rng2] | msg |]; try reflexivity.
        apply IH.
Qed.

(** ** Rounding from below *)

(** Rounding to nearest does not take a value below an integer it is
    above, as long as the result is written with an exponent of at most
    0. *)
Lemma binary_round_aux_at_least s M e T N :
  0 < M -> 0 < N < 2 ^ 53 -> e <= 0 ->
  T * 2 ^ (- e) <= M <= N * 2 ^ (- e) ->
  at_least T (binary_round_aux prec emax s M e loc_Exact).
Proof.
  intros HM HN He [Hlo Hhi].
  destruct (binary_round_aux_stages_exact s M e HM) as (m1 & Hm1 & E).
  cbv zeta in Hm1, E. rewrite E. clear E.
  assert (HdN : Zdigits2 N <= 53) by (apply Zdigits2_le; lia).
  assert (HdM : Zdigits2 M <= Zdigits2 N + (- e)).
  { rewrite <- Zdigits2_mul_pow2 by lia. apply Zdigits2_mono. lia. }
  set (n := Z.max (fexp prec emax (Zdigits2 M + e) - e) 0) in *.
  assert (Hn : 0 <= n <= - e).
  { subst n. unfold fexp, SpecFloat.emin, prec, emax. lia. }
  set (e' := e + n) in *.
  assert (Hpn : 0 < 2 ^ n) by (apply Z.pow_pos_nonneg; lia).
  assert (Hsplit : 2 ^ (- e) = 2 ^ (- e') * 2 ^ n).
  { subst e'. rewrite <- Z.pow_add_r by lia. f_equal. lia. }
  assert (Hpe' : 0 < 2 ^ (- e')) by (apply Z.pow_pos_nonneg; subst e'; lia).
  assert (Hq : T * 2 ^ (- e') <= M / 2 ^ n <= N * 2 ^ (- e')).
  { split.
    - apply Z.div_le_lower_bound; [lia |]. rewrite Hsplit in Hlo. lia.
    - apply Z.div_le_upper_bound; [lia |]. rewrite Hsplit in Hhi. lia. }
  assert (Hm1lo : T * 2 ^ (- e') <= m1) by (destruct Hm1 as [-> | (-> & _)]; lia).
  assert (Hm1hi : 0 <= m1 <= N * 2 ^ (- e')).
  { assert (0 <= M / 2 ^ n) by (apply Z.div_pos; lia).
    destruct Hm1 as [-> | (-> & Hn0 & Hbit)]; [lia |].
    split; [lia |].
    destruct (Z.eq_dec (M / 2 ^ n) (N * 2 ^ (- e'))) as [Eq | Ne]; [| lia].
    exfalso.
    assert (EM : M = N * 2 ^ (- e') * 2 ^ n).
    { pose proof (Z.mul_div_le M (2 ^ n) Hpn) as Hlow. rewrite Eq in Hlow.
      rewrite Hsplit in Hhi. lia. }
    rewrite EM in Hbit. rewrite Z.mul_pow2_bits_low in Hbit by lia.
    discriminate Hbit. }
  assert (Hd1 : Zdigits2 m1 <= Zdigits2 N + (- e')).
  { transitivity (Zdigits2 (N * 2 ^ (- e'))); [apply Zdigits2_mono; lia |].
    rewrite Zdigits2_mul_pow2 by (subst e'; lia). lia. }
  set (n2 := Z.max (fexp prec emax (Zdigits2 m1 + e') - e') 0).
  assert (Hn2 : 0 <= n2 <= - e').
  { subst n2. unfold fexp, SpecFloat.emin, prec, emax. subst e'. lia. }
  assert (Hpn2 : 0 < 2 ^ n2) by (apply Z.pow_pos_nonneg; lia).
  assert (Hsplit2 : 2 ^ (- e') = 2 ^ (- (e' + n2)) * 2 ^ n2).
  { rewrite <- Z.pow_add_r by lia. f_equal. lia. }
  assert (Hmf : T * 2 ^ (- (e' + n2)) <= m1 / 2 ^ n2).
  { apply Z.div_le_lower_bound; [lia |]. rewrite Hsplit2 in Hm1lo. lia. }
  destruct (m1 / 2 ^ n2) as [| mf | mf] eqn:Emf.
  - cbn [at_least].
    pose proof (Z.pow_pos_nonneg 2 (- (e' + n2)) ltac:(lia) ltac:(lia)). nia.
  - destruct (Z.leb_spec (e' + n2) (emax - prec)); [| unfold emax, prec in *; lia].
    cbn [at_least]. split; [lia | exact Hmf].
  - exfalso. pose proof (Z.div_pos m1 (2 ^ n2) ltac:(lia) Hpn2). lia.
Qed.

Lemma fmul_at_least x y T T' Nx N :
  0 < N < 2 ^ 53 -> 0 <= T' ->
  below Nx 0 x -> scales Nx N y ->
  at_least T x -> scales_up T T' y ->
  at_least T' (x * y)%f64.
Proof.
  intros HN HT' Hbx Hsy Hx Hy.
  destruct x as [sx | sx | | sx mx ex], y as [sy | sy | | sy my ey];
    cbn [below scales at_least scales_up] in *; try contradiction.
  - unfold fmul. cbn [SFmul at_least]. exact Hy.
  - unfold fmul. cbn [SFmul at_least]. destruct Hy as [Hey Hy].
    pose proof (Z.pow_pos_nonneg 2 (- ey) ltac:(lia) ltac:(lia)). nia.
  - unfold fmul. cbn [SFmul at_least]. exact Hy.
  - unfold fmul. cbn [SFmul].
    destruct Hbx as [_ Hbx], Hsy as [_ Hsy], Hx as [Hex Hx], Hy as [Hey Hy].
    replace (0 - ex) with (- ex) in Hbx by lia.
    pose proof (Z.pow_pos_nonneg 2 (- ex) ltac:(lia) ltac:(lia)).
    pose proof (Z.pow_pos_nonneg 2 (- ey) ltac:(lia) ltac:(lia)).
    apply binary_round_aux_at_least with (N := N); try lia.
    rewrite Pos2Z.inj_mul.
    replace (- (ex + ey)) with ((- ex) + (- ey)) by lia.
    rewrite Z.pow_add_r by lia.
    split.
    + assert (0 <= T \/ T < 0) as [HT | HT] by lia; nia.
    + nia.
Qed.

Lemma int_of_float64_at_least x T N :
  0 <= N <= max_int64 -> below N 0 x -> at_least T x -> not_negative x ->
  T <= int_of_float64 x.
Proof.
  intros HN Hb Ha Hs.
  destruct (int_of_float64_below x N HN Hb) as [Hrange _].
  unfold max_int64 in HN.
  destruct x as [s | s | | s m e]; cbn [below at_least not_negative] in *;
    try contradiction.
  - cbn [int_of_float64]. exact Ha.
  - subst s. destruct Ha as [He Ha]. destruct Hb as [_ Hb].
    replace (0 - e) with (- e) in Hb by lia.
    unfold int_of_float64 in *.
    set (a := if 0 <=? e then Z.pos m * 2 ^ e else Z.pos m / 2 ^ (- e)) in *.
    assert (Ha' : T <= a <= N).
    { subst a. destruct (Z.leb_spec 0 e).
      - assert (e = 0) by lia. subst e. cbn [Z.opp Z.pow] in *. lia.
      - pose proof (Z.pow_pos_nonneg 2 (- e) ltac:(lia) ltac:(lia)).
        split; [apply Z.div_le_lower_bound; lia |].
        apply Z.div_le_upper_bound; lia. }
    clearbody a.
    destruct (Z.leb_spec min_int64 a); [| unfold min_int64 in *; lia].
    destruct (Z.leb_spec a max_int64); [| unfold max_int64 in *; lia].
    cbn [andb]. lia.
Qed.

Lemma float64_of_int_at_least d :
  0 <= d < 2 ^ 53 -> at_least d (float64_of_int d).
Proof.
  intros Hd. destruct (Z.eq_dec d 0) as [-> | Hne].
  - cbn. lia.
  - destruct (float64_of_int_exact d ltac:(lia)) as (md & ed & E & Hed & Hmd & _).
    rewrite E. cbn [at_least]. split; lia.
Qed.

(** [time.Duration(float64(base) * f)] for a constant [f] within one unit
    in the last place of [p/q]: the ratio of the base, to the
    nanosecond. *)
Lemma scale_ratio base m k p q :
  0 <= k -> 0 < q -> 0 <= p ->
  p * 2 ^ k - q <= q * Z.pos m <= p * 2 ^ k + q ->
  0 <= base -> q * base <= 2 ^ k -> base < 2 ^ 53 -> p * base / q + 1 < 2 ^ 53 ->
  p * base / q - 1 <= int_of_float64 (float64_of_int base * S754_finite false m (- k))%f64
  <= p * base / q + 1 /\
  0 <= int_of_float64 (float64_of_int base * S754_finite false m (- k))%f64.
Proof.
  intros Hk Hq Hp Hm Hbase Hqb Hb53 HN53.
  pose proof (Z.mul_div_le (p * base) q Hq) as Hlow.
  pose proof (Z.mul_succ_div_gt (p * base) q Hq) as Hhigh.
  assert (Hdiv : 0 <= p * base / q) by (apply Z.div_pos; nia).
  pose proof (Z.pow_pos_nonneg 2 k ltac:(lia) Hk) as Hpk.
  assert (Hb2k : base <= 2 ^ k) by nia.
  destruct (float64_of_int_below base ltac:(lia)) as [Hx0 Hs0].
  pose proof (float64_of_int_at_least base ltac:(lia)) as Ha0.
  set (N := p * base / q + 1) in *.
  assert (Hsc : scales base N (S754_finite false m (- k))).
  { cbn [scales]. split; [lia |]. rewrite Z.opp_involutive. subst N. nia. }
  assert (Hup : scales_up base (Z.max (p * base / q - 1) 0) (S754_finite false m (- k))).
  { cbn [scales_up]. split; [lia |]. rewrite Z.opp_involutive.
    destruct (Z.max_spec (p * base / q - 1) 0) as [[_ ->] | [_ ->]]; nia. }
  assert (Hb : below N 0 (float64_of_int base * S754_finite false m (- k))%f64).
  { apply fmul_below with (T := base); try assumption. subst N. lia. }
  assert (Hal : at_least (Z.max (p * base / q - 1) 0)
                  (float64_of_int base * S754_finite false m (- k))%f64).
  { apply fmul_at_least with (T := base) (Nx := base) (N := N);
      try assumption; subst N; lia. }
  assert (Hs : not_negative (float64_of_int base * S754_finite false m (- k))%f64).
  { eapply fmul_not_negative; [exact Hs0 | reflexivity | exact Hb]. }
  assert (HNmax : 0 <= N <= max_int64).
  { unfold max_int64. subst N. change (2 ^ 53) with 9007199254740992 in *. lia. }
  destruct (int_of_float64_below _ N HNmax Hb) as [Hv _].
  pose proof (int_of_float64_at_least _ _ N HNmax Hb Hal Hs) as Hge.
  subst N. lia.
Qed.

(** ** The pace of the keystrokes *)

(** The four factors of [calculateKeyDelay]. *)
Lemma scale_bounds base f m k p q :
  f = S754_finite false m (- k) ->
  0 <= k -> 0 < q -> 0 <= p ->
  p * 2 ^ k - q <= q * Z.pos m <= p * 2 ^ k + q ->
  0 <= base -> q * base <= 2 ^ k -> base < 2 ^ 53 -> p * base / q + 1 < 2 ^ 53 ->
  0 <= scale base f /\
  p * base - 2 * q <= q * scale base f <= p * base + q.
Proof.
  intros -> Hk Hq Hp Hm Hbase Hqb Hb53 HN53. unfold scale.
  destruct (scale_ratio base m k p q Hk Hq Hp Hm Hbase Hqb Hb53 HN53) as [Hr H0].
  pose proof (Z.mul_div_le (p * base) q Hq) as Hlow.
  pose proof (Z.mul_succ_div_gt (p * base) q Hq) as Hhigh.
  split; [exact H0 |]. nia.
Qed.

Lemma lit_7_10_eq : lit 7 10 = S754_finite false 6305039478318694 (- 53).
Proof. vm_compute. reflexivity. Qed.

Lemma lit_13_10_eq : lit 13 10 = S754_finite false 5854679515581645 (- 52).
Proof. vm_compute. reflexivity. Qed.

Lemma lit_15_10_eq : lit 15 10 = S754_finite false 6755399441055744 (- 52).
Proof. vm_compute. reflexivity. Qed.

Lemma lit_85_100_eq : lit 85 100 = S754_finite false 7656119366529843 (- 53).
Proof. vm_compute. reflexivity. Qed.

Lemma scale_7_10 base :
  0 <= base <= 100000000000000 ->
  0 <= scale base (lit 7 10) /\
  7 * base - 20 <= 10 * scale base (lit 7 10) <= 7 * base + 10.
Proof.
  intros Hb.
  pose proof (Z.div_le_upper_bound (7 * base) 10 base ltac:(lia) ltac:(lia)).
  apply (scale_bounds base _ _ 53 7 10 lit_7_10_eq);
    change (2 ^ 53) with 9007199254740992; lia.
Qed.

Lemma scale_13_10 base :
  0 <= base <= 100000000000000 ->
  0 <= scale base (lit 13 10) /\
  13 * base - 20 <= 10 * scale base (lit 13 10) <= 13 * base + 10.
Proof.
  intros Hb.
  pose proof (Z.div_le_upper_bound (13 * base) 10 (2 * base) ltac:(lia) ltac:(lia)).
  apply (scale_bounds base _ _ 52 13 10 lit_13_10_eq);
    change (2 ^ 53) with 9007199254740992;
    change (2 ^ 52) with 4503599627370496; lia.
Qed.

Lemma scale_15_10 base :
  0 <= base <= 100000000000000 ->
  0 <= scale base (lit 15 10) /\
  15 * base - 20 <= 10 * scale base (lit 15 10) <= 15 * base + 10.
Proof.
  intros Hb.
  pose proof (Z.div_le_upper_bound (15 * base) 10 (2 * base) ltac:(lia) ltac:(lia)).
  apply (scale_bounds base _ _ 52 15 10 lit_15_10_eq);
    change (2 ^ 53) with 9007199254740992;
    change (2 ^ 52) with 4503599627370496; lia.
Qed.

Lemma scale_85_100 base :
  0 <= base <= 90000000000000 ->
  0 <= scale base (lit 85 100) /\
  85 * base - 200 <= 100 * scale base (lit 85 100) <= 85 * base + 100.
Proof.
  intros Hb.
  pose proof (Z.div_le_upper_bound (85 * base) 100 base ltac:(lia) ltac:(lia)).
  apply (scale_bounds base _ _ 53 85 100 lit_85_100_eq);
    change (2 ^ 53) with 9007199254740992; lia.
Qed.

Section PaceFacts.

Variable U : Unicode.
Variable cfg : TypingConfig.

(** Key delays of up to an hour. *)
Hypothesis key_delays :
  0 <= MinKeyDelay cfg < MaxKeyDelay cfg /\
  MaxKeyDelay cfg <= 3600 * 1000 * Millisecond.

Lemma calculateKeyDelay_range char position text :
  returns Rand_ok (calculateKeyDelay U cfg char position text) (human_delay cfg).
Proof.
  destruct key_delays as [Hmin Hmax]. unfold Millisecond in Hmax.
  unfold calculateKeyDelay.
  assert (Hspan : sub64 (MaxKeyDelay cfg) (MinKeyDelay cfg)
                  = MaxKeyDelay cfg - MinKeyDelay cfg).
  { apply sub64_exact. unfold in_int64, min_int64, max_int64. lia. }
  rewrite Hspan.
  eapply returns_bind; [apply returns_Int63n; [apply Rand_ok_advance | lia] |].
  intros n Hn. cbv beta in Hn.
  assert (Hbase : add64 (MinKeyDelay cfg) n = MinKeyDelay cfg + n).
  { unfold add64. apply wrap64_small. unfold in_int64, min_int64, max_int64. lia. }
  rewrite Hbase. set (b0 := MinKeyDelay cfg + n).
  assert (Hb0 : MinKeyDelay cfg <= b0 < MaxKeyDelay cfg) by (subst b0; lia).
  clearbody b0.
  set (b1 := if IsSpace U char then scale b0 (lit 7 10) else b0).
  assert (Hb1 : 0 <= b1 /\ 7 * b0 - 20 <= 10 * b1 /\ b1 <= b0 + 1).
  { subst b1. destruct (IsSpace U char); [| lia].
    pose proof (scale_7_10 b0 ltac:(lia)). lia. }
  clearbody b1.
  set (b2 := if IsUpper U char then scale b1 (lit 13 10) else b1).
  assert (Hb2 : 0 <= b2 /\ b1 - 2 <= b2 /\ 10 * b2 <= 13 * b1 + 10).
  { subst b2. destruct (IsUpper U char); [| lia].
    pose proof (scale_13_10 b1 ltac:(lia)). lia. }
  clearbody b2.
  set (b3 := if ContainsRune "@#$%^&*()_+{}|:<>?" char then scale b2 (lit 15 10)
             else b2).
  assert (Hb3 : 0 <= b3 /\ b2 - 2 <= b3 /\ 10 * b3 <= 15 * b2 + 10).
  { subst b3. destruct (ContainsRune _ char); [| lia].
    pose proof (scale_15_10 b2 ltac:(lia)). lia. }
  clearbody b3.
  set (b4 := if (0 <? position) &&
                areAdjacent U (nth (Z.to_nat (position - 1)) text 0) char
             then scale b3 (lit 85 100) else b3).
  assert (Hb4 : 0 <= b4 /\ 85 * b3 - 200 <= 100 * b4 /\ b4 <= b3 + 1).
  { subst b4. destruct (_ && _); [| lia].
    pose proof (scale_85_100 b3 ltac:(lia)). lia. }
  clearbody b4.
  eapply returns_bind; [apply returns_Float64_unit |].
  intros r Hr. apply returns_ret.
  destruct (fifth_variation b4 r) as [Hj Hpos];
    [change (2 ^ 53) with 9007199254740992; lia | exact Hr |].
  set (jitter := int_of_float64 _) in *. clearbody jitter.
  pose proof (Z.mul_div_le b4 5 ltac:(lia)) as Hlow.
  pose proof (Z.mul_succ_div_gt b4 5 ltac:(lia)) as Hhigh.
  assert (Hfinal : add64 b4 jitter = b4 + jitter).
  { unfold add64. apply wrap64_small. unfold in_int64, min_int64, max_int64. lia. }
  rewrite Hfinal. unfold human_delay. lia.
Qed.

Lemma keystrokes_at_paced runes i char :
  returns Rand_ok (keystrokes_at U cfg runes i char) (Forall (paced cfg)).
Proof.
  destruct key_delays as [Hmin Hmax]. unfold Millisecond in Hmax.
  unfold keystrokes_at.
  eapply returns_bind; [apply calculateKeyDelay_range |].
  intros delay Hdelay. eapply returns_bind; [apply returns_Float64_unit |].
  intros r _.
  eapply returns_bind with
    (P := fun d => exists pause,
                     (pause = 0 \/ 500 * Millisecond <= pause <= 1999 * Millisecond) /\
                     human_delay cfg (d - pause)).
  { destruct (fltb r _).
    - destruct (isWordBoundary U i runes).
      + eapply returns_bind; [apply returns_Intn; [apply Rand_ok_advance | lia] |].
        intros n Hn. cbv beta in Hn. apply returns_ret.
        exists ((500 + n) * Millisecond). unfold Millisecond.
        split; [right; lia |].
        assert (Hp : mul64 (add64 500 n) 1000000 = (500 + n) * 1000000).
        { unfold mul64, add64.
          rewrite (wrap64_small (500 + n))
            by (unfold in_int64, min_int64, max_int64; lia).
          apply wrap64_small. unfold in_int64, min_int64, max_int64. lia. }
        rewrite Hp. unfold human_delay in Hdelay.
        assert (Hs : add64 delay ((500 + n) * 1000000) = delay + (500 + n) * 1000000).
        { unfold add64. apply wrap64_small.
          unfold in_int64, min_int64, max_int64. lia. }
        rewrite Hs.
        replace (delay + (500 + n) * 1000000 - (500 + n) * 1000000) with delay by lia.
        exact Hdelay.
      + apply returns_ret. exists 0. split; [left; reflexivity |].
        rewrite Z.sub_0_r. exact Hdelay.
    - apply returns_ret. exists 0. split; [left; reflexivity |].
      rewrite Z.sub_0_r. exact Hdelay. }
  intros delay' Hdelay'. eapply returns_bind; [apply returns_Float64_unit |].
  intros r' _. destruct (_ && _).
  - eapply returns_bind; [apply generateTypo_returns; apply Rand_ok_advance |].
    intros typoChar _.
    eapply returns_bind; [apply calculateKeyDelay_range |].
    intros delay'' Hdelay''. apply returns_ret.
    constructor; [exact Hdelay' |].
    constructor; [reflexivity |].
    constructor; [| constructor].
    unfold paced. cbn [Backspace Delay]. exists 0.
    split; [left; reflexivity |]. rewrite Z.sub_0_r. exact Hdelay''.
  - apply returns_ret. constructor; [exact Hdelay' | constructor].
Qed.

Lemma keystrokes_loop_paced runes todo : forall i keystrokes,
  Forall (paced cfg) keystrokes ->
  returns Rand_ok (keystrokes_loop U cfg runes i todo keystrokes)
    (Forall (paced cfg)).
Proof.
  induction todo as [| char todo IH]; intros i keystrokes Hks;
    cbn [keystrokes_loop].
  - apply returns_ret. exact Hks.
  - eapply returns_bind; [apply keystrokes_at_paced |].
    intros more Hmore. apply IH. apply Forall_app. split; assumption.
Qed.

End PaceFacts.

(** X26.  The pace of the keystrokes.  With typing enabled and key delays
    [0 <= MinKeyDelay < MaxKeyDelay] of up to an hour, every keystroke of the
    sequence waits a human delay: a backspace the correction delay, any
    other keystroke a delay that is never negative, at least 47.6% of
    [MinKeyDelay] and at most 234% of [MaxKeyDelay], to within 10ns, after
    a think pause of 500ms to 1999ms or none. *)
Theorem GenerateKeystrokes_paced :
  forall (U : Unicode) (cfg : TypingConfig) (text : string) (rng : Rand),
    typing_Enabled cfg = true ->
    0 <= MinKeyDelay cfg < MaxKeyDelay cfg ->
    MaxKeyDelay cfg <= 3600 * 1000 * Millisecond ->
    Rand_ok rng ->
    exists keystrokes rng',
      GenerateKeystrokes U cfg text rng = Ok (keystrokes, rng') /\
      Forall (paced cfg) keystrokes.
Proof.
  intros U cfg text rng En Hmin Hmax Hrng.
  unfold GenerateKeystrokes. rewrite En. cbn [negb].
  destruct (keystrokes_loop_paced U cfg (conj Hmin Hmax) (runes_of text)
              (runes_of text) 0 [] (Forall_nil _) rng Hrng)
    as (keystrokes & rng' & E & _ & Hpaced).
  exists keystrokes, rng'. split; assumption.
Qed.

(** The default configuration, the text "Hi", and draws of 0.5. *)
Lemma GenerateKeystrokes_paced_run :
  exists keystrokes rng',
    GenerateKeystrokes ascii_tables default_typing "Hi" (constant_tape 0 (lit 1 2))
    = Ok (keystrokes, rng') /\
    Forall (paced default_typing) keystrokes.
Proof.
  apply (GenerateKeystrokes_paced ascii_tables default_typing "Hi"
           (constant_tape 0 (lit 1 2))).
  - reflexivity.
  - cbn. lia.
  - cbn. lia.
  - apply Rand_ok_constant_tape, unit_interval_half.
Defined.

(** ** Halves and sums of floats *)

Lemma binary_round_at_least s m e T N :
  0 < N < 2 ^ 53 -> e <= 0 ->
  T * 2 ^ (- e) <= Z.pos m <= N * 2 ^ (- e) ->
  at_least T (binary_round prec emax s m e).
Proof.
  intros HN He [Hlo Hhi]. unfold binary_round.
  pose proof (shl_align_spec m e (fexp prec emax (Z.pos (digits2_pos m) + e))) as H.
  destruct (shl_align _ _ _) as [mz ez]. destruct H as [Hez Hmz].
  apply binary_round_aux_at_least with (N := N); try lia.
  rewrite Hmz.
  replace (- ez) with ((- e) + (e - ez)) by lia.
  rewrite Z.pow_add_r by lia.
  pose proof (Z.pow_pos_nonneg 2 (e - ez) ltac:(lia) ltac:(lia)).
  pose proof (Z.pow_pos_nonneg 2 (- e) ltac:(lia) ltac:(lia)).
  split; nia.
Qed.

(** [float64(d) / 2.0] is the half of [d]: between the two integers next
    to it. *)
Lemma half_bounds d :
  0 <= d < 2 ^ 53 ->
  below ((d + 1) / 2) 0 (float64_of_int d / lit 2 1)%f64 /\
  at_least (d / 2) (float64_of_int d / lit 2 1)%f64 /\
  not_negative (float64_of_int d / lit 2 1)%f64.
Proof.
  intros Hd. rewrite lit_2_1_eq.
  destruct (Z.eq_dec d 0) as [-> | Hne].
  { rewrite float64_of_int_0. unfold fdiv. cbn [SFdiv below at_least not_negative].
    change (0 / 2) with 0. repeat split; lia. }
  destruct (float64_of_int_exact d ltac:(lia)) as (md & ed & E & Hed & Hmd & Hfull).
  rewrite E. unfold fdiv. cbn [SFdiv xorb].
  assert (Hd1 : Zdigits2 (Z.pos md) = 53).
  { apply Z.le_antisymm; [apply Zdigits2_le; lia | apply Zdigits2_ge; lia]. }
  assert (Ecore : SFdiv_core_binary prec emax (Z.pos md) ed
                    (Z.pos 4503599627370496) (-51)
                  = (2 * Z.pos md, ed - 2, loc_Exact)).
  { unfold SFdiv_core_binary. rewrite Hd1.
    change (Zdigits2 (Z.pos 4503599627370496)) with 53. cbv zeta.
    replace (Z.min (fexp prec emax (53 + ed - (53 + -51))) (ed - -51))
      with (ed - 2)
      by (unfold fexp, SpecFloat.emin, prec, emax; lia).
    replace (ed - -51 - (ed - 2)) with 53 by lia. cbv beta iota.
    rewrite Z.shiftl_mul_pow2 by lia.
    assert (Eq : Z.pos md * 2 ^ 53 = 2 * Z.pos md * Z.pos 4503599627370496).
    { change (2 ^ 53) with (2 * 4503599627370496). lia. }
    rewrite Eq.
    pose proof (Z.div_mul (2 * Z.pos md) (Z.pos 4503599627370496) ltac:(lia)) as Hq.
    pose proof (Z.mod_mul (2 * Z.pos md) (Z.pos 4503599627370496) ltac:(lia)) as Hr.
    unfold Z.div, Z.modulo in Hq, Hr.
    destruct (Z.div_eucl (2 * Z.pos md * Z.pos 4503599627370496)
                (Z.pos 4503599627370496)) as [q r].
    subst q r. reflexivity. }
  rewrite Ecore.
  pose proof (Z.mul_div_le d 2 ltac:(lia)) as Hlow.
  pose proof (Z.mul_succ_div_gt (d + 1) 2 ltac:(lia)) as Hhigh.
  pose proof (Z.div_pos d 2 ltac:(lia) ltac:(lia)) as Hhalf0.
  pose proof (Z.div_le_upper_bound (d + 1) 2 d ltac:(lia) ltac:(lia)) as Hup.
  pose proof (Z.div_str_pos (d + 1) 2 ltac:(lia)) as HNpos.
  pose proof (Z.pow_pos_nonneg 2 (- ed) ltac:(lia) ltac:(lia)) as Hp.
  assert (Hpow : 2 ^ (- (ed - 2)) = 4 * 2 ^ (- ed)).
  { replace (- (ed - 2)) with (2 + - ed) by lia. rewrite Z.pow_add_r by lia.
    reflexivity. }
  change (2 ^ 53) with 9007199254740992 in *.
  split; [| split].
  - apply binary_round_aux_below; try lia.
    + apply Zdigits2_le; [lia |]. change (2 ^ 53) with 9007199254740992. lia.
    + unfold emin, SpecFloat.emin, prec, emax. lia.
    + replace (0 - (ed - 2)) with (- (ed - 2)) by lia. rewrite Hpow. nia.
  - apply binary_round_aux_at_least with (N := (d + 1) / 2); try lia.
    rewrite Hpow. nia.
  - pose proof (binary_round_aux_sign false (2 * Z.pos md) (ed - 2) loc_Exact
                  ltac:(lia)) as Hs.
    assert (Hb : below ((d + 1) / 2) 0
                   (binary_round_aux prec emax false (2 * Z.pos md) (ed - 2) loc_Exact)).
    { apply binary_round_aux_below; try lia.
      - apply Zdigits2_le; [lia |]. change (2 ^ 53) with 9007199254740992. lia.
      - unfold emin, SpecFloat.emin, prec, emax. lia.
      - replace (0 - (ed - 2)) with (- (ed - 2)) by lia. rewrite Hpow. nia. }
    destruct (binary_round_aux _ _ _ _ _ _); cbn [below not_negative] in *;
      try contradiction; auto.
Qed.

(** The sum of a float that is not negative and a smaller one. *)
Lemma fadd_between x y Tx Nx Ny :
  below Nx 0 x -> at_least Tx x -> not_negative x ->
  below Ny 0 y -> 0 <= Ny <= Tx -> 0 < Nx + Ny < 2 ^ 53 ->
  below (Nx + Ny) 0 (x + y)%f64 /\
  at_least (Tx - Ny) (x + y)%f64 /\
  not_negative (x + y)%f64.
Proof.
  intros Hbx Hax Hsx Hby HNy HN.
  destruct x as [sx | sx | | sx mx ex], y as [sy | sy | | sy my ey];
    cbn [below at_least not_negative] in *; try contradiction.
  - unfold fadd. cbn [SFadd].
    assert (Hz : forall s, below (Nx + Ny) 0 (S754_zero s) /\
                           at_least (Tx - Ny) (S754_zero s) /\
                           not_negative (S754_zero s)).
    { intros s. cbn [below at_least not_negative]. repeat split; lia. }
    destruct sx, sy; apply Hz.
  - exfalso. destruct Hby as [Hey Hmy].
    pose proof (Z.pow_pos_nonneg 2 (0 - ey) ltac:(lia) ltac:(lia)). nia.
  - unfold fadd. cbn [SFadd below at_least not_negative].
    destruct Hbx as [Hex Hmx], Hax as [_ Hax].
    pose proof (Z.pow_pos_nonneg 2 (0 - ex) ltac:(lia) ltac:(lia)).
    pose proof (Z.pow_pos_nonneg 2 (- ex) ltac:(lia) ltac:(lia)).
    repeat split; try assumption; nia.
  - subst sx. destruct Hbx as [Hex Hmx], Hax as [_ Hax], Hby as [Hey Hmy].
    unfold fadd. cbn [SFadd cond_Zopp].
    set (ez := Z.min ex ey).
    assert (Hez : ez <= ex /\ ez <= ey) by (subst ez; lia).
    pose proof (shl_align_spec mx ex ez) as Ha.
    pose proof (shl_align_spec my ey ez) as Hb.
    destruct (shl_align mx ex ez) as [ma ea].
    destruct (shl_align my ey ez) as [mb eb].
    cbn [fst]. destruct Ha as [Eea Ha], Hb as [Eeb Hb].
    replace ea with ez in Ha by lia. replace eb with ez in Hb by lia.
    clear Eea Eeb. clearbody ez.
    replace (0 - ex) with (- ex) in Hmx by lia.
    replace (0 - ey) with (- ey) in Hmy by lia.
    pose proof (Z.pow_pos_nonneg 2 (ex - ez) ltac:(lia) ltac:(lia)) as Hp1.
    pose proof (Z.pow_pos_nonneg 2 (ey - ez) ltac:(lia) ltac:(lia)) as Hp2.
    pose proof (Z.pow_pos_nonneg 2 (- ex) ltac:(lia) ltac:(lia)) as Hp3.
    pose proof (Z.pow_pos_nonneg 2 (- ey) ltac:(lia) ltac:(lia)) as Hp4.
    assert (Ex : 2 ^ (- ez) = 2 ^ (- ex) * 2 ^ (ex - ez)).
    { rewrite <- Z.pow_add_r by lia. f_equal. lia. }
    assert (Ey : 2 ^ (- ez) = 2 ^ (- ey) * 2 ^ (ey - ez)).
    { rewrite <- Z.pow_add_r by lia. f_equal. lia. }
    assert (Hma : Tx * 2 ^ (- ez) <= Z.pos ma <= Nx * 2 ^ (- ez)).
    { rewrite Ha, Ex. split; nia. }
    assert (Hmb : Z.pos mb <= Ny * 2 ^ (- ez)).
    { rewrite Hb, Ey. nia. }
    set (D := Z.pos ma + cond_Zopp sy (Z.pos mb)).
    assert (HD : (Tx - Ny) * 2 ^ (- ez) <= D <= (Nx + Ny) * 2 ^ (- ez)).
    { subst D. unfold cond_Zopp. destruct sy; nia. }
    assert (HD0 : 0 <= D).
    { pose proof (Z.pow_pos_nonneg 2 (- ez) ltac:(lia) ltac:(lia)). nia. }
    clearbody D.
    destruct D as [| p | p]; cbn [binary_normalize]; [| | lia].
    + cbn [below at_least not_negative].
      pose proof (Z.pow_pos_nonneg 2 (- ez) ltac:(lia) ltac:(lia)) as Hpz.
      split; [exact Logic.I |]. split; [| exact Logic.I].
      destruct HD as [HDlo _].
      assert (Hneg : ~ 0 < Tx - Ny).
      { intros Hpos. pose proof (Z.mul_pos_pos _ _ Hpos Hpz). lia. }
      lia.
    + assert (Hb' : below (Nx + Ny) 0 (binary_round prec emax false p ez)).
      { apply binary_round_below; try lia.
        - apply Zdigits2_le; lia.
        - unfold emin, SpecFloat.emin, prec, emax. lia.
        - replace (0 - ez) with (- ez) by lia. lia. }
      split; [exact Hb' |]. split.
      * apply binary_round_at_least with (N := Nx + Ny); lia.
      * pose proof (binary_round_sign false p ez) as Hs.
        destruct (binary_round _ _ _ _ _); cbn [below not_negative] in *;
          try contradiction; auto.
Qed.

(** ** The durations of a scroll sequence *)

(** Half the distance, varied by up to 30%, in whole milliseconds. *)
Lemma smooth_duration distance r :
  2 <= distance <= 2 ^ 40 -> unit_interval r ->
  let baseDuration := (float64_of_int distance / lit 2 1)%f64 in
  let variation := (baseDuration * lit 3 10 * (r * lit 2 1 - f1))%f64 in
  let ms := int_of_float64 (baseDuration + variation)%f64 in
  0 <= ms /\ 7 * distance - 40 <= 20 * ms <= 13 * distance + 40.
Proof.
  intros Hd Hr. cbv zeta.
  change (2 ^ 40) with 1099511627776 in Hd.
  destruct (half_bounds distance) as (Hb & Ha & Hs);
    [change (2 ^ 53) with 9007199254740992; lia |].
  set (bd := (float64_of_int distance / lit 2 1)%f64) in *. clearbody bd.
  set (N := (distance + 1) / 2) in *. set (T := distance / 2) in *.
  pose proof (Z.mul_div_le distance 2 ltac:(lia)) as HT1.
  pose proof (Z.mul_succ_div_gt distance 2 ltac:(lia)) as HT2.
  pose proof (Z.mul_div_le (distance + 1) 2 ltac:(lia)) as HN1.
  pose proof (Z.mul_succ_div_gt (distance + 1) 2 ltac:(lia)) as HN2.
  fold T in HT1, HT2. fold N in HN1, HN2. clearbody N T.
  set (N1 := 3 * N / 10 + 1).
  pose proof (Z.mul_div_le (3 * N) 10 ltac:(lia)) as H31.
  pose proof (Z.mul_succ_div_gt (3 * N) 10 ltac:(lia)) as H32.
  assert (HN1' : 3 * N <= 10 * N1 <= 3 * N + 10) by (subst N1; lia).
  assert (HN1T : 0 < N1 <= T).
  { assert (distance = 2 \/ distance = 3 \/ distance = 4 \/ 5 <= distance)
      as [-> | [-> | [-> | Hbig]]] by lia; subst N1; lia. }
  clearbody N1. clear H31 H32.
  assert (Hx1 : below N1 0 (bd * lit 3 10)%f64).
  { apply fmul_below with (T := N);
      [change (2 ^ 53) with 9007199254740992; lia | exact Hb |].
    apply at_most_ratio_scales with (p := 3) (q := 10); try lia.
    rewrite lit_3_10_eq. cbn [at_most_ratio].
    split; [reflexivity |]. split; [lia |].
    change (2 ^ (- -54)) with 18014398509481984. lia. }
  assert (Hx2 : below N1 0 (bd * lit 3 10 * (r * lit 2 1 - f1))%f64).
  { apply fmul_below with (T := N1);
      [change (2 ^ 53) with 9007199254740992; lia | exact Hx1 |].
    apply below_scales; [lia | apply centred_draw_below; exact Hr]. }
  destruct (fadd_between bd (bd * lit 3 10 * (r * lit 2 1 - f1))%f64 T N N1)
    as (Hsb & Hsa & Hss); try assumption; try lia.
  assert (HNmax : 0 <= N + N1 <= max_int64) by (unfold max_int64; lia).
  destruct (int_of_float64_below _ _ HNmax Hsb) as [Hv Hpos].
  pose proof (int_of_float64_at_least _ _ _ HNmax Hsb Hsa Hss) as Hge.
  specialize (Hpos Hss). lia.
Qed.

Section ScrollDurationFacts.

Variable cfg : ScrollingConfig.

Lemma calculateScrollDuration_range distance :
  2 <= distance <= 2 ^ 40 ->
  returns Rand_ok (calculateScrollDuration cfg distance)
    (scroll_duration cfg distance).
Proof.
  intros Hd. unfold calculateScrollDuration, scroll_duration.
  destruct (SmoothScrolling cfg).
  - eapply returns_bind; [apply returns_Float64_unit |].
    intros r Hr. apply returns_ret.
    destruct (smooth_duration distance r Hd Hr) as (H0 & Hlo & Hhi).
    set (ms := int_of_float64 _) in *. clearbody ms.
    exists ms. split; [| split; [exact H0 | split; assumption]].
    unfold mul64, Millisecond. apply wrap64_small.
    change (2 ^ 40) with 1099511627776 in Hd.
    unfold in_int64, min_int64, max_int64. lia.
  - eapply returns_bind; [apply returns_Intn; [apply Rand_ok_advance | lia] |].
    intros n Hn. cbv beta in Hn. apply returns_ret.
    unfold mul64, add64, Millisecond.
    rewrite (wrap64_small (50 + n)) by (unfold in_int64, min_int64, max_int64; lia).
    rewrite wrap64_small by (unfold in_int64, min_int64, max_int64; lia).
    lia.
Qed.

Hypothesis speeds : valid_speeds cfg.

Lemma scroll_turn_timed remaining :
  0 < remaining <= 2 ^ 40 ->
  returns Rand_ok (scroll_turn cfg remaining)
    (fun out => Forall (timed cfg) (fst out)).
Proof.
  intros Hrem. unfold scroll_turn.
  change (2 ^ 40) with 1099511627776 in Hrem.
  destruct speeds as (Hmin & Hmm & Hmax).
  assert (Hspan : add64 (sub64 (MaxScrollSpeed cfg) (MinScrollSpeed cfg)) 1
                  = MaxScrollSpeed cfg - MinScrollSpeed cfg + 1).
  { unfold add64, sub64. unfold max_int64 in *.
    rewrite (wrap64_small (MaxScrollSpeed cfg - MinScrollSpeed cfg))
      by (unfold in_int64, min_int64, max_int64; lia).
    apply wrap64_small. unfold in_int64, min_int64, max_int64. lia. }
  rewrite Hspan.
  eapply returns_bind; [apply returns_Intn; [apply Rand_ok_advance | lia] |].
  intros n Hn. cbv beta in Hn |- *.
  assert (Hspeed : add64 (MinScrollSpeed cfg) n = MinScrollSpeed cfg + n).
  { apply wrap64_small. unfold in_int64, min_int64, max_int64 in *. lia. }
  rewrite Hspeed.
  eapply returns_bind.
  { apply calculateScrollAmount_returns; [apply Rand_ok_advance |].
    rewrite quot64_pos by (unfold max_int64 in *; lia).
    apply Z.div_str_pos. lia. }
  intros amount Hamount. cbv beta in Hamount |- *.
  assert (Hback : quot64 amount 3 = amount / 3).
  { apply quot64_pos; unfold max_int64 in *; lia. }
  pose proof (Z.mul_div_le amount 3 ltac:(lia)) as Hthird.
  pose proof (Z.mul_succ_div_gt amount 3 ltac:(lia)) as Hthird'.
  eapply returns_bind with (P := Forall (timed cfg)).
  { destruct (_ <? remaining).
    - eapply returns_bind; [apply returns_Float64_unit |].
      intros r _. destruct (fltb r _).
      + eapply returns_bind.
        { apply calculateScrollDuration_range. rewrite Hback.
          change (2 ^ 40) with 1099511627776. lia. }
        intros d Hd. apply returns_ret. constructor; [| constructor].
        unfold timed. cbn [Direction Delta action_Duration].
        split; [rewrite Hback; lia | exact Hd].
      + apply returns_ret. constructor.
    - apply returns_ret. constructor. }
  intros back Hbackt.
  eapply returns_bind.
  { apply calculateScrollDuration_range.
    change (2 ^ 40) with 1099511627776. lia. }
  intros d Hd.
  eapply returns_bind; [apply returns_Float64_unit |].
  intros r _.
  eapply returns_bind with (P := Forall (timed cfg)).
  { destruct (fltb r _).
    - eapply returns_bind; [apply returns_Intn; [apply Rand_ok_advance | lia] |].
      intros k Hk. cbv beta in Hk. apply returns_ret. constructor; [| constructor].
      unfold timed. cbn [Direction Delta action_Duration].
      split; [reflexivity |].
      unfold mul64, add64, Millisecond.
      rewrite (wrap64_small (500 + k)) by (unfold in_int64, min_int64, max_int64; lia).
      rewrite wrap64_small by (unfold in_int64, min_int64, max_int64; lia).
      lia.
    - apply returns_ret. constructor. }
  intros pause Hpauset. apply returns_ret. cbn [fst].
  apply Forall_app. split; [exact Hbackt |].
  apply Forall_app. split; [| exact Hpauset].
  constructor; [| constructor].
  unfold timed. cbn [Direction Delta action_Duration].
  split; [lia | exact Hd].
Qed.

Lemma scroll_loop_timed fuel : forall actions remaining,
  remaining <= Z.of_nat fuel ->
  -9 <= remaining <= 2 ^ 40 ->
  Forall (timed cfg) actions ->
  returns Rand_ok (scroll_loop cfg fuel actions remaining) (Forall (timed cfg)).
Proof.
  induction fuel as [| fuel IH]; intros actions remaining Hfuel Hrem Ht.
  - cbn [scroll_loop]. destruct (Z.ltb_spec 0 remaining); [lia |].
    apply returns_ret. exact Ht.
  - cbn [scroll_loop]. destruct (Z.ltb_spec 0 remaining).
    + eapply returns_bind.
      { apply returns_and.
        - apply (scroll_turn_returns cfg Rand_ok Rand_ok_advance speeds).
          change (2 ^ 40) with 1099511627776 in Hrem. unfold max_int64. lia.
        - apply scroll_turn_timed. lia. }
      intros [more remaining'] [(amount & Ha & Hr & _) Hmore].
      cbn [fst snd] in *. subst remaining'.
      apply IH; [lia | lia |]. apply Forall_app. split; assumption.
    + apply returns_ret. exact Ht.
Qed.

End ScrollDurationFacts.

(** X27.  The durations of a scroll sequence.  With scrolling enabled, a speed
    range the loop can draw from and a distance of up to [2^40], every
    action of the sequence is timed: a pause scrolls nothing and lasts
    500ms to 2499ms; a scroll, forward or back, is of at least 3 and
    lasts, with smooth scrolling, a whole number of milliseconds between
    35% and 65% of its delta, to within two, and without it 50ms to
    149ms.  No duration is negative. *)
Theorem GenerateScrollSequence_durations :
  forall (cfg : ScrollingConfig) (totalDistance : Z) (rng : Rand),
    scroll_Enabled cfg = true -> valid_speeds cfg ->
    0 < totalDistance <= 2 ^ 40 ->
    Rand_ok rng ->
    exists actions rng',
      GenerateScrollSequence cfg totalDistance rng = Ok (actions, rng') /\
      Forall (timed cfg) actions /\
      Forall (fun a => 0 <= action_Duration a) actions.
Proof.
  intros cfg totalDistance rng En Hspeeds HD Hrng.
  unfold GenerateScrollSequence. rewrite En. cbn [negb].
  destruct (scroll_loop_timed cfg Hspeeds (Z.to_nat totalDistance) []
              totalDistance ltac:(lia) ltac:(lia) (Forall_nil _) rng Hrng)
    as (actions & rng' & E & _ & Ht).
  exists actions, rng'. split; [exact E |]. split; [exact Ht |].
  eapply Forall_impl; [| exact Ht].
  intros a Ha. unfold timed, scroll_duration, Millisecond in Ha.
  destruct (String.eqb (Direction a) "pause"); [lia |].
  destruct Ha as [_ Ha]. destruct (SmoothScrolling cfg); [| lia].
  destruct Ha as (ms & -> & H0 & _). lia.
Qed.

(** The default configuration and a distance of 1000, on a tape whose
    draws are all 0.25. *)
Lemma GenerateScrollSequence_durations_run :
  exists actions rng',
    GenerateScrollSequence default_scrolling 1000 (constant_tape 7 (lit 1 4))
    = Ok (actions, rng') /\
    Forall (timed default_scrolling) actions /\
    Forall (fun a => 0 <= action_Duration a) actions.
Proof.
  apply (GenerateScrollSequence_durations default_scrolling 1000
           (constant_tape 7 (lit 1 4))).
  - reflexivity.
  - unfold valid_speeds, max_int64. simpl. lia.
  - change (2 ^ 40) with 1099511627776. lia.
  - apply Rand_ok_constant_tape, unit_interval_quarter.
Defined.

(** ** Personalized notes *)

Lemma brace_free_first_field s : brace_free s = true -> brace_free (first_field s) = true.
Proof.
  induction s as [| ch s IH]; cbn [brace_free first_field]; [reflexivity |].
  intros H. apply andb_prop in H. destruct H as [Hch Hs].
  destruct (Ascii.eqb ch " "); [reflexivity |].
  cbn [brace_free]. rewrite Hch, (IH Hs). reflexivity.
Qed.

(** Text without an opening brace passes a replacement of a placeholder
    as it is. *)
Lemma replace_from_text old new s rest :
  brace_free s = true ->
  replace_from (String "{" old) new 0 (s ++ rest)
  = (s ++ replace_from (String "{" old) new 0 rest)%string.
Proof.
  induction s as [| ch s IH]; cbn [brace_free append]; [reflexivity |].
  intros H. apply andb_prop in H. destruct H as [Hch Hs].
  cbn [replace_from String.prefix].
  destruct (ascii_dec "{" ch) as [<- | Hne]; [discriminate Hch |].
  rewrite (IH Hs). reflexivity.
Qed.

Lemma placeholder_values_brace_free profile k :
  plain_profile profile -> (k < 6)%nat ->
  brace_free (snd (nth k (placeholders profile) (EmptyString, EmptyString))) = true.
Proof.
  intros (Hn & Ht & Hc & Hl & Hi) Hk. unfold placeholders.
  do 6 (destruct k as [| k]; [cbn [nth snd]; auto using brace_free_first_field |]).
  lia.
Qed.

Lemma prefix_app s rest : String.prefix s (s ++ rest) = true.
Proof.
  induction s as [| ch s IH]; cbn [append String.prefix].
  - destruct rest; reflexivity.
  - destruct (ascii_dec ch ch) as [_ | Hne]; [exact IH | congruence].
Qed.

Lemma replace_from_skip old new s rest :
  replace_from old new (String.length s) (s ++ rest) = replace_from old new 0 rest.
Proof.
  induction s as [| ch s IH]; cbn [append String.length replace_from];
    [reflexivity | exact IH].
Qed.

(** A placeholder is replaced where it stands. *)
Lemma replace_from_match ch old new rest :
  replace_from (String ch old) new 0 (String ch old ++ rest)
  = (new ++ replace_from (String ch old) new 0 rest)%string.
Proof.
  cbn [append replace_from].
  pose proof (prefix_app (String ch old) rest) as Hp. cbn [append] in Hp.
  rewrite Hp. cbn [String.length]. rewrite Nat.sub_succ, Nat.sub_0_r.
  rewrite replace_from_skip. reflexivity.
Qed.

(** And the other placeholders are left standing. *)
Lemma replace_from_other profile j k new rest :
  (j < 6)%nat -> (k < 6)%nat -> j <> k ->
  replace_from (fst (nth j (placeholders profile) (EmptyString, EmptyString)))
    new 0
    (fst (nth k (placeholders profile) (EmptyString, EmptyString)) ++ rest)
  = (fst (nth k (placeholders profile) (EmptyString, EmptyString))
     ++ replace_from
          (fst (nth j (placeholders profile) (EmptyString, EmptyString)))
          new 0 rest)%string.
Proof.
  intros Hj Hk Hjk. unfold placeholders.
  do 6 (destruct j as [| j];
        [do 6 (destruct k as [| k];
               [first [ congruence | cbn [nth fst]; lazy; reflexivity ] |]);
         lia |]).
  lia.
Qed.

Lemma placeholder_brace profile j :
  (j < 6)%nat ->
  exists old,
    fst (nth j (placeholders profile) (EmptyString, EmptyString)) = String "{" old.
Proof.
  intros Hj. unfold placeholders.
  do 6 (destruct j as [| j]; [eexists; reflexivity |]). lia.
Qed.

(** One replacement of [personalizeNote]: it fills in its own placeholder
    and leaves the text, the values already filled in and the other
    placeholders as they are. *)
Lemma replacement_step profile j template :
  plain_profile profile -> (j < 6)%nat ->
  Forall well_formed_piece template ->
  ReplaceAll (render (written j profile) template)
    (fst (nth j (placeholders profile) (EmptyString, EmptyString)))
    (snd (nth j (placeholders profile) (EmptyString, EmptyString)))
  = render (written (S j) profile) template.
Proof.
  intros Hplain Hj Hwf. unfold ReplaceAll.
  destruct (placeholder_brace profile j Hj) as [old Eold].
  induction Hwf as [| p template Hp _ IH]; cbn [render fold_right].
  - rewrite Eold. reflexivity.
  - fold (render (written j profile) template).
    fold (render (written (S j) profile) template).
    destruct p as [s | k]; cbn [well_formed_piece written] in *.
    + rewrite Eold in *.
      rewrite (replace_from_text old _ s _ Hp), IH. reflexivity.
    + destruct (Nat.ltb_spec k j) as [Hlt | Hge].
      * assert (Hlt' : (k <? S j)%nat = true) by (apply Nat.ltb_lt; lia).
        rewrite Hlt'. rewrite Eold in *.
        rewrite (replace_from_text old _ _ _
                   (placeholder_values_brace_free profile k Hplain Hp)), IH.
        reflexivity.
      * destruct (Nat.eq_dec k j) as [-> | Hne].
        -- assert (Hlt' : (j <? S j)%nat = true) by (apply Nat.ltb_lt; lia).
           rewrite Hlt'. rewrite Eold in *.
           rewrite replace_from_match, IH. reflexivity.
        -- assert (Hlt' : (k <? S j)%nat = false) by (apply Nat.ltb_ge; lia).
           rewrite Hlt'.
           rewrite (replace_from_other profile j k _ _ Hj Hp ltac:(congruence)), IH.
           reflexivity.
Qed.

Lemma render_ext f g template :
  Forall (fun p => f p = g p) template -> render f template = render g template.
Proof.
  induction 1 as [| p template Hp _ IH]; cbn [render fold_right];
    [reflexivity |].
  fold (render f template). fold (render g template). rewrite Hp, IH. reflexivity.
Qed.

(** X28.  [personalizeNote] fills in a template.  For a template made of text
    without an opening brace and of placeholders, and a profile whose
    fields hold no opening brace, the note is the template with every
    placeholder replaced by its value: the first word of the name for
    [{{.FirstName}}], the name, the title, the company, the location and
    the industry for the others.  A template without placeholders comes
    back as it is. *)
Theorem personalizeNote_fills_in :
  forall (profile : Profile) (template : list piece),
    plain_profile profile ->
    Forall well_formed_piece template ->
    personalizeNote (render (written 0 profile) template) profile
    = render (written 6 profile) template.
Proof.
  intros profile template Hplain Hwf. unfold personalizeNote. cbv zeta.
  pose proof (replacement_step profile 0 template Hplain ltac:(lia) Hwf) as H0.
  pose proof (replacement_step profile 1 template Hplain ltac:(lia) Hwf) as H1.
  pose proof (replacement_step profile 2 template Hplain ltac:(lia) Hwf) as H2.
  pose proof (replacement_step profile 3 template Hplain ltac:(lia) Hwf) as H3.
  pose proof (replacement_step profile 4 template Hplain ltac:(lia) Hwf) as H4.
  pose proof (replacement_step profile 5 template Hplain ltac:(lia) Hwf) as H5.
  cbn [placeholders nth fst snd] in H0, H1, H2, H3, H4, H5.
  rewrite H0, H1, H2, H3, H4, H5. reflexivity.
Qed.

(** The connection template of the default configuration, for a profile
    of plain fields. *)
Lemma personalizeNote_default_template :
  personalizeNote
    (render (written 0 (hd (mkProfile "" "" "" "" "" "") two_profiles))
       [Text "Hi "; Field 0; Text ", I noticed we share an interest in ";
        Field 5; Text ". I'd love to connect and learn more about your work at ";
        Field 3; Text "."])
    (hd (mkProfile "" "" "" "" "" "") two_profiles)
  = render (written 6 (hd (mkProfile "" "" "" "" "" "") two_profiles))
      [Text "Hi "; Field 0; Text ", I noticed we share an interest in ";
       Field 5; Text ". I'd love to connect and learn more about your work at ";
       Field 3; Text "."].
Proof.
  apply (personalizeNote_fills_in (hd (mkProfile "" "" "" "" "" "") two_profiles)).
  - repeat split; reflexivity.
  - repeat constructor.
Defined.
